(** * Kraken i18n: the translation catalog engine and the batch translation
    orchestrator, embedded in Rocq.

    The development follows the TypeScript sources function by function:

    - the key path codec ([flattenObject], [setNestedValue], [getNestedValue]),
      the catalog store ([readJsonFile], [writeJsonFile], [readI18nData],
      [updateTranslationValue], [addTranslationKey], [addLanguageFile]) and the
      language registry ([normalizeLanguageCode], [compareLanguageCodes]) of the
      extension host;
    - the orchestrator of the web view ([collectTranslateAllJobs],
      [handleTranslateAll]) and the cost table ([estimateOpenAiCost]).

    Conventions of the embedding.

    - A JavaScript string is a [string]: the bytes of its UTF-8 text.
    - A JavaScript number is a binary64 [float].
    - A JavaScript object is the list of its own enumerable properties in
      enumeration order (array indices first, ascending, then the other names
      in creation order). A plain object inherits the members of
      [Object.prototype]: indexing finds them where the object has no
      property of its own, and a store under [__proto__] goes to the accessor
      of that name. [Object.prototype] is taken as the engine makes it.
    - [undefined] is [None].
    - Records used only through indexing (the flattened table, the rows of
      the value table, the price table) are finite maps of their own
      properties.
    - A call that can throw or leave the model says so in its result.
    - What the engine and the outside world supply is a parameter:
      [JSON_parse], [ToArrayLength], [toLowerCase], [localeCompare], the
      names of the members of [Array.prototype] and the translation
      [provider]. *)

From Stdlib Require Import Floats ZArith Ascii.
From stdpp Require Import gmap strings list fin_maps sorting.

Open Scope Z_scope.
Set Warnings "-clear-no-such-hyp".

(** ** JavaScript strings *)

(** [s.split('.')]: never empty, empty segments are kept. *)
Fixpoint split_dot (s : string) : list string :=
  match s with
  | EmptyString => [EmptyString]
  | String c rest =>
      if Ascii.eqb c "." then EmptyString :: split_dot rest
      else match split_dot rest with
           | [] => [String c EmptyString]
           | seg :: segs => String c seg :: segs
           end
  end.

(** [s.startsWith(p)]. *)
Definition startsWith (s p : string) : bool := String.prefix p s.

(** [s.toLowerCase()] for a text of ASCII characters: the letters [A] to [Z]
    are folded, other bytes are left alone. It stands for the function of
    the engine where a run needs one. *)
Definition lower_ascii (c : ascii) : ascii :=
  let n := nat_of_ascii c in
  if (65 <=? n)%nat && (n <=? 90)%nat then ascii_of_nat (n + 32) else c.

Fixpoint toLowerCaseASCII (s : string) : string :=
  match s with
  | EmptyString => EmptyString
  | String c rest => String (lower_ascii c) (toLowerCaseASCII rest)
  end.

(** White space and line terminators, as [trim] sees them. One byte:
    TAB, LF, VT, FF, CR, SP. *)
Definition ws1 (a : ascii) : bool :=
  let n := nat_of_ascii a in
  ((9 <=? n)%nat && (n <=? 13)%nat) || (n =? 32)%nat.

(** Two bytes: U+00A0. *)
Definition ws2 (a b : ascii) : bool :=
  (nat_of_ascii a =? 194)%nat && (nat_of_ascii b =? 160)%nat.

(** Three bytes: U+1680, U+2000..U+200A, U+2028, U+2029, U+202F, U+205F,
    U+3000 and U+FEFF. *)
Definition ws3 (a b c : ascii) : bool :=
  let x := nat_of_ascii a in
  let y := nat_of_ascii b in
  let z := nat_of_ascii c in
  ((x =? 225)%nat && (y =? 154)%nat && (z =? 128)%nat)
  || ((x =? 226)%nat && (y =? 128)%nat
      && (((128 <=? z)%nat && (z <=? 138)%nat)
          || (z =? 168)%nat || (z =? 169)%nat || (z =? 175)%nat))
  || ((x =? 226)%nat && (y =? 129)%nat && (z =? 159)%nat)
  || ((x =? 227)%nat && (y =? 128)%nat && (z =? 128)%nat)
  || ((x =? 239)%nat && (y =? 187)%nat && (z =? 191)%nat).

(** Strips leading white space; [flip] reads a multi-byte character backwards,
    which is how the reversed string presents the trailing ones. *)
Fixpoint trimLeading (flip : bool) (s : string) : string :=
  match s with
  | EmptyString => s
  | String a s1 =>
      if ws1 a then trimLeading flip s1
      else match s1 with
           | EmptyString => s
           | String b s2 =>
               if (if flip then ws2 b a else ws2 a b) then trimLeading flip s2
               else match s2 with
                    | EmptyString => s
                    | String c s3 =>
                        if (if flip then ws3 c b a else ws3 a b c)
                        then trimLeading flip s3
                        else s
                    end
           end
  end.

(** [s.trim()]. *)
Definition trim (s : string) : string :=
  String.rev (trimLeading true (String.rev (trimLeading false s))).

(** Truthiness of a string: the empty string is the only falsy one. *)
Definition truthy (s : string) : bool := negb (String.eqb s EmptyString).

(** [a || b] on strings. *)
Definition or_else (a b : string) : string := if truthy a then a else b.

(** The byte order mark U+FEFF in UTF-8. *)
Definition BOM : string :=
  String (ascii_of_nat 239) (String (ascii_of_nat 187) (String (ascii_of_nat 191) EmptyString)).

(** [raw.replace(/^\uFEFF/, '')]: one leading mark is removed. *)
Definition stripBOM (raw : string) : string :=
  match raw with
  | String a (String b (String c rest)) =>
      if (nat_of_ascii a =? 239)%nat && (nat_of_ascii b =? 187)%nat
         && (nat_of_ascii c =? 191)%nat
      then rest else raw
  | _ => raw
  end.

(** [list.indexOf(x)], counting from [i]; [-1] when [x] is absent. *)
Fixpoint indexOf_from (i : Z) (l : list string) (x : string) : Z :=
  match l with
  | [] => -1
  | y :: l' => if String.eqb y x then i else indexOf_from (i + 1) l' x
  end.

Definition indexOf (l : list string) (x : string) : Z := indexOf_from 0 l x.

(** [list.includes(x)]. *)
Definition includes (l : list string) (x : string) : bool :=
  existsb (String.eqb x) l.

(** ** How a call ends *)

(** A call returns; or it throws, which leaves what was there when it threw;
    or its store goes through the inherited accessor [__proto__] into
    [Object.prototype], the object every plain object of the host inherits
    from: what the host does from then on is outside this embedding. *)
Inductive Completion (A : Type) : Type :=
  | Returns (a : A)
  | Throws (a : A)
  | Leaks.

Arguments Returns {A} a.
Arguments Throws {A} a.
Arguments Leaks {A}.

(** The next call, on what the call before left. *)
Definition andThen {A} (first : Completion A) (next : A → Completion A) : Completion A :=
  match first with
  | Returns a => next a
  | Throws a => next a
  | Leaks => Leaks
  end.

(** ** JSON values *)

#[warnings="-register-all"]
Inductive json : Type :=
  | JNull
  | JBool (b : bool)
  | JNum (x : float)
  | JStr (s : string)
  | JArr (items : list json)
  | JObj (props : list (string * json)).

Abbreviation props := (list (string * json)).

(** The decimal digits of an array index: [0], or digits without a leading
    zero, below 2^32 - 1. *)
Definition digit_val (c : ascii) : option N :=
  let n := N_of_ascii c in
  if (48 <=? n)%N && (n <=? 57)%N then Some (n - 48)%N else None.

Fixpoint parse_digits (acc : N) (s : string) : option N :=
  match s with
  | EmptyString => Some acc
  | String c rest =>
      match digit_val c with
      | Some d => parse_digits (acc * 10 + d)%N rest
      | None => None
      end
  end.

Definition array_index (s : string) : option N :=
  match s with
  | EmptyString => None
  | String c rest =>
      if Ascii.eqb c "0" then (if String.eqb rest EmptyString then Some 0%N else None)
      else match parse_digits 0 s with
           | Some n => if (n <? 4294967295)%N then Some n else None
           | None => None
           end
  end.

(** The own property [k] of a plain object. *)
Fixpoint objGet (o : props) (k : string) : option json :=
  match o with
  | [] => None
  | (k', v) :: o' => if String.eqb k' k then Some v else objGet o' k
  end.

(** The own property [k] takes the value [v]: it changes in place. *)
Fixpoint objReplace (o : props) (k : string) (v : json) : props :=
  match o with
  | [] => []
  | (k', v') :: o' =>
      if String.eqb k' k then (k, v) :: o' else (k', v') :: objReplace o' k v
  end.

(** A new array-index name goes among the indices, in ascending order. *)
Fixpoint objInsertIndex (o : props) (i : N) (k : string) (v : json) : props :=
  match o with
  | [] => [(k, v)]
  | (k', v') :: o' =>
      match array_index k' with
      | Some j =>
          if (j <? i)%N then (k', v') :: objInsertIndex o' i k v
          else (k, v) :: (k', v') :: o'
      | None => (k, v) :: (k', v') :: o'
      end
  end.

(** The own property [k] is set to [v], made when it is not there: what
    [o[k] = v] does on a plain object for every name but [__proto__], and for
    [__proto__] too when the object has it as a property of its own. *)
Definition objSet (o : props) (k : string) (v : json) : props :=
  match objGet o k with
  | Some _ => objReplace o k v
  | None =>
      match array_index k with
      | Some i => objInsertIndex o i k v
      | None => o ++ [(k, v)]
      end
  end.

(** The number a length is. *)
Definition float_of_nat (n : nat) : float :=
  PrimFloat.of_uint63 (Uint63.of_Z (Z.of_nat n)).

(** ** The prototype chain *)

(** The names of the own properties of [Object.prototype]: eleven functions
    and the accessor [__proto__]. A plain object inherits them. *)
Definition OBJECT_PROTOTYPE : list string :=
  [ "constructor"; "__defineGetter__"; "__defineSetter__"; "hasOwnProperty";
    "__lookupGetter__"; "__lookupSetter__"; "isPrototypeOf"; "propertyIsEnumerable";
    "toString"; "valueOf"; "__proto__"; "toLocaleString" ].

Definition inherits (name : string) : bool := includes OBJECT_PROTOTYPE name.

(** What [record[name]] finds in a plain object whose properties have the
    type [A]: a property of its own, or the member of that name inherited from
    [Object.prototype], which is a function, and the prototype itself under
    [__proto__]. *)
Inductive Member (A : Type) : Type :=
  | Own (a : A)
  | Inherited (name : string).

Arguments Own {A} a.
Arguments Inherited {A} name.

(** [record[name]] on a record kept as the map of its own properties. *)
Definition lookupMember {A} (record : gmap string A) (name : string) : option (Member A) :=
  match record !! name with
  | Some a => Some (Own a)
  | None => if inherits name then Some (Inherited name) else None
  end.

(** [record[name] = value] on a record that has no property [__proto__] of
    its own: under that name the store goes to the accessor of
    [Object.prototype], which gives the record another prototype or does
    nothing, and adds no property. *)
Definition assign {A} (name : string) (value : A) (record : gmap string A) : gmap string A :=
  if String.eqb name "__proto__" then record else <[name := value]> record.

(** The two prototypes a document can reach. *)
Inductive Prototype := ObjectPrototype | ArrayPrototype.

(** What a walk through a document can hold: a value of the document, a
    built-in function that a prototype has under a name, or a prototype. *)
Inductive Value :=
  | Data (v : json)
  | Method (owner : Prototype) (name : string)
  | Proto (p : Prototype).

(** [o[part]] where the plain object [o] has no such property of its own. *)
Definition inherited (part : string) : option Value :=
  if String.eqb part "__proto__" then Some (Proto ObjectPrototype)
  else if inherits part then Some (Method ObjectPrototype part)
  else None.

Section Walk.
(** The names of the functions of [Array.prototype]. *)
Context (Array_prototype : list string).

(** [a[part]] where the array [a] has neither the element nor [length]
    under that name. *)
Definition inheritedByArray (part : string) : option Value :=
  if String.eqb part "__proto__" then Some (Proto ArrayPrototype)
  else if includes Array_prototype part then Some (Method ArrayPrototype part)
  else if inherits part then Some (Method ObjectPrototype part)
  else None.

(** [current[part]] behind the guard
    [!current || typeof current !== 'object'] of [getNestedValue]: [None]
    where the guard returns, and where the property is [undefined]. *)
Definition jsGet (current : Value) (part : string) : option Value :=
  match current with
  | Data (JObj o) =>
      match objGet o part with
      | Some v => Some (Data v)
      | None => inherited part
      end
  | Data (JArr items) =>
      match array_index part with
      | Some i => Data <$> items !! N.to_nat i
      | None =>
          if String.eqb part "length" then Some (Data (JNum (float_of_nat (length items))))
          else inheritedByArray part
      end
  | Data _ => None
  | Method _ _ => None
  | Proto ObjectPrototype =>
      if String.eqb part "__proto__" then Some (Data JNull)
      else if inherits part then Some (Method ObjectPrototype part)
      else None
  | Proto ArrayPrototype =>
      if String.eqb part "length" then Some (Data (JNum 0))
      else if String.eqb part "__proto__" then Some (Proto ObjectPrototype)
      else if includes Array_prototype part then Some (Method ArrayPrototype part)
      else if inherits part then Some (Method ObjectPrototype part)
      else None
  end.

(** The loop of [getNestedValue]. *)
Fixpoint getPath (current : Value) (parts : list string) : option Value :=
  match parts with
  | [] => Some current
  | part :: rest =>
      match jsGet current part with
      | None => None
      | Some next => getPath next rest
      end
  end.

(** [getNestedValue(target, key)]. *)
Definition getNestedValue (target : json) (key : string) : option Value :=
  getPath (Data target) (split_dot key).
End Walk.

(** ** Key path codec *)

(** [prefix ? `${prefix}.${key}` : key]. *)
Definition fullKeyOf (prefix key : string) : string :=
  if truthy prefix then prefix +:+ "." +:+ key else key.

(** The own enumerable properties of an array: its elements by index. *)
Fixpoint decimal_go (fuel : nat) (n : N) (acc : string) : string :=
  match fuel with
  | O => acc
  | S fuel' =>
      let acc' := String (ascii_of_N (48 + n mod 10)%N) acc in
      if (n <? 10)%N then acc' else decimal_go fuel' (n / 10)%N acc'
  end.

Definition decimal (n : nat) : string :=
  decimal_go (S (N.to_nat (N.log2 (N.of_nat n)))) (N.of_nat n) EmptyString.

(** [flattenObject(value, prefix, out)]. The loop runs over
    [Object.entries(value)]; for an array, which only the top-level call can
    receive, these are the elements under their indices. [out] starts as
    [{}] and takes strings only. *)
Fixpoint flattenObject (value : json) (prefix : string) (out : gmap string string)
  : gmap string string :=
  match value with
  | JObj o =>
      (fix loop (entries : props) (out : gmap string string) : gmap string string :=
         match entries with
         | [] => out
         | (key, entry) :: rest =>
             let fullKey := fullKeyOf prefix key in
             match entry with
             | JStr s => loop rest (assign fullKey s out)
             | JObj _ => loop rest (flattenObject entry fullKey out)
             | _ => loop rest out
             end
         end) o out
  | JArr items =>
      (fix loop (i : nat) (elems : list json) (out : gmap string string)
         : gmap string string :=
         match elems with
         | [] => out
         | entry :: rest =>
             let fullKey := fullKeyOf prefix (decimal i) in
             match entry with
             | JStr s => loop (S i) rest (assign fullKey s out)
             | JObj _ => loop (S i) rest (flattenObject entry fullKey out)
             | _ => loop (S i) rest out
             end
         end) O items out
  | _ => out
  end.

(** The node the loop of [setNestedValue] goes on in: the plain object the
    node has under the part, or the fresh one that [current[part] = {}] puts
    there when there is none, or something else than a plain object, or an
    inherited function. [None]: the node has no [__proto__] of its own, the
    inherited accessor gives [Object.prototype], which the guard lets pass,
    and the walk goes on in it. *)
Definition nextNode (o : props) (part : string) : option props :=
  match objGet o part with
  | Some (JObj c) => Some c
  | Some _ => Some []
  | None => if String.eqb part "__proto__" then None else Some []
  end.

(** [current[last] = value] for a string: a store in the object, but for
    [__proto__] when the object has none of its own, which the inherited
    accessor ignores. *)
Definition assignString (o : props) (last value : string) : props :=
  match objGet o last with
  | Some _ => objSet o last (JStr value)
  | None => if String.eqb last "__proto__" then o else objSet o last (JStr value)
  end.

(** The loop of [setNestedValue] over the remaining parts, and the store at
    the last one: the tree afterwards. *)
Fixpoint setPath (o : props) (parts : list string) (value : string) : Completion props :=
  match parts with
  | [] => Returns o
  | [last] => Returns (assignString o last value)
  | part :: rest =>
      match nextNode o part with
      | None => Leaks
      | Some child =>
          match setPath child rest value with
          | Returns child' => Returns (objSet o part (JObj child'))
          | Throws _ => Throws o
          | Leaks => Leaks
          end
      end
  end.

(** [setNestedValue(target, key, value)] on a record. *)
Definition setNestedValue (target : props) (key value : string) : Completion props :=
  setPath target (split_dot key) value.

(** The tree of a store that stays in the tree: the nodes on the way are
    taken or made as properties of their own. It is the tree [setPath]
    returns when no part is [__proto__]. *)
Definition childOf (o : props) (part : string) : props :=
  match objGet o part with
  | Some (JObj c) => c
  | _ => []
  end.

Fixpoint storePath (o : props) (parts : list string) (value : string) : props :=
  match parts with
  | [] => o
  | [last] => objSet o last (JStr value)
  | part :: rest => objSet o part (JObj (storePath (childOf o part) rest value))
  end.

(** The value at the end of a path of own properties. *)
Fixpoint ownPath (current : json) (parts : list string) : option json :=
  match parts with
  | [] => Some current
  | part :: rest =>
      match current with
      | JObj o =>
          match objGet o part with
          | None => None
          | Some next => ownPath next rest
          end
      | _ => None
      end
  end.

(** Every node before the last part is there, as a property of its own, and
    is a plain object. *)
Fixpoint own_along (o : props) (parts : list string) : Prop :=
  match parts with
  | [] => True
  | part :: rest =>
      match rest with
      | [] => True
      | _ :: _ =>
          match objGet o part with
          | Some (JObj c) => own_along c rest
          | _ => False
          end
      end
  end.

(** The entries [flattenObject] writes, in the order it writes them. *)
Fixpoint flattenedEntries (value : json) (prefix : string) : list (string * string) :=
  match value with
  | JObj o =>
      (fix loop (entries : props) : list (string * string) :=
         match entries with
         | [] => []
         | (key, entry) :: rest =>
             let fullKey := fullKeyOf prefix key in
             match entry with
             | JStr s => (fullKey, s) :: loop rest
             | JObj _ => flattenedEntries entry fullKey ++ loop rest
             | _ => loop rest
             end
         end) o
  | JArr items =>
      (fix loop (i : nat) (elems : list json) : list (string * string) :=
         match elems with
         | [] => []
         | entry :: rest =>
             let fullKey := fullKeyOf prefix (decimal i) in
             match entry with
             | JStr s => (fullKey, s) :: loop (S i) rest
             | JObj _ => flattenedEntries entry fullKey ++ loop (S i) rest
             | _ => loop (S i) rest
             end
         end) O items
  | _ => []
  end.

(** What one property contributes. *)
Definition entryLeaves (prefix key : string) (entry : json) : list (string * string) :=
  match entry with
  | JStr s => [(fullKeyOf prefix key, s)]
  | JObj _ => flattenedEntries entry (fullKeyOf prefix key)
  | _ => []
  end.

(** The name [flattenObject] gives to a path below [prefix]. *)
Definition joinFrom (prefix : string) (parts : list string) : string :=
  foldl fullKeyOf prefix parts.

Definition writeEntry (out : gmap string string) (kv : string * string) : gmap string string :=
  assign kv.1 kv.2 out.

(** [setNestedValue] for each entry, from the empty object. *)
Definition unflatten (entries : list (string * string)) : Completion props :=
  foldl (λ t kv, andThen t (λ t, setNestedValue t kv.1 kv.2)) (Returns []) entries.

(** The tree of the stores of the entries when all of them stay in the tree. *)
Definition stored (entries : list (string * string)) : props :=
  foldl (λ t kv, storePath t (split_dot kv.1) kv.2) [] entries.

(** The last part of the path is absent from the tree, and the nodes before
    it are absent or plain objects. *)
Fixpoint fresh_along (o : props) (parts : list string) : Prop :=
  match parts with
  | [] => True
  | part :: rest =>
      match rest with
      | [] => objGet o part = None
      | _ :: _ =>
          match objGet o part with
          | None => True
          | Some (JObj c) => fresh_along c rest
          | Some _ => False
          end
      end
  end.

(** ** What [JSON.stringify] prints *)

(** The value [JSON.parse] reads from the text [JSON.stringify] prints for a
    value: a number that is not finite is printed as [null], and the
    negative zero as [0]. *)
Fixpoint printed (v : json) : json :=
  match v with
  | JNum x =>
      if PrimFloat.is_nan x || PrimFloat.is_infinity x then JNull
      else if PrimFloat.is_zero x then JNum 0
      else JNum x
  | JArr items => JArr (printed <$> items)
  | JObj o => JObj ((λ kv, (kv.1, printed kv.2)) <$> o)
  | _ => v
  end.

Definition printedProps (o : props) : props := (λ kv, (kv.1, printed kv.2)) <$> o.

(** ** Language registry *)

Definition POPULAR_LANGUAGE_ORDER : list string :=
  ["en"; "es"; "pt"; "fr"; "de"; "it"; "ja"; "zh"; "ru"; "ko"].

(** [array.sort(compare)]: a stable sort; an element goes in front of the
    first one it does not compare greater than. It is the order the engine
    gives when the comparison is consistent. *)
Fixpoint sort_insert {A} (compare : A → A → Z) (x : A) (l : list A) : list A :=
  match l with
  | [] => [x]
  | y :: l' => if compare x y <=? 0 then x :: l else y :: sort_insert compare x l'
  end.

Definition Array_sort {A} (compare : A → A → Z) (l : list A) : list A :=
  foldr (sort_insert compare) [] l.

Section Registry.
(** [code.toLowerCase()], by the case mappings of the engine. *)
Context (toLowerCase : string → string).
(** [a.localeCompare(b)]: negative, zero or positive. *)
Context (localeCompare : string → string → Z).

Definition normalizeLanguageCode (code : string) : string :=
  let lower := toLowerCase code in
  if String.eqb lower "zn" || startsWith lower "zh" then "zh"
  else if startsWith lower "pt" then "pt"
  else lower.

Definition compareLanguageCodes (a b : string) : Z :=
  let aKey := normalizeLanguageCode a in
  let bKey := normalizeLanguageCode b in
  let aRank := indexOf POPULAR_LANGUAGE_ORDER aKey in
  let bRank := indexOf POPULAR_LANGUAGE_ORDER bKey in
  if negb (aRank =? -1) && negb (bRank =? -1) then
    if negb (aRank =? bRank) then aRank - bRank
    else localeCompare a b
  else if negb (aRank =? -1) then -1
  else if negb (bRank =? -1) then 1
  else if negb (String.eqb aKey bKey) then localeCompare aKey bKey
  else localeCompare a b.

(** The place of a code in the popularity list, [-1] outside it. *)
Definition rankOf (code : string) : Z :=
  indexOf POPULAR_LANGUAGE_ORDER (normalizeLanguageCode code).
End Registry.

(** Comparison by code units: a collation to run the registry with. *)
Definition ordinalCompare (a b : string) : Z :=
  match String.compare a b with
  | Eq => 0
  | Lt => -1
  | Gt => 1
  end.

(** The letter e with an acute accent, as one character, U+00E9, and as
    the letter followed by the combining accent U+0301: two spellings that
    are canonically equivalent. *)
Definition E_ACUTE : string :=
  String (ascii_of_nat 195) (String (ascii_of_nat 169) EmptyString).

Definition E_COMBINING_ACUTE : string :=
  String "e" (String (ascii_of_nat 204) (String (ascii_of_nat 129) EmptyString)).

(** The first spelling for the second, wherever it stands. *)
Fixpoint composeAcute (s : string) : string :=
  match s with
  | EmptyString => EmptyString
  | String a s1 =>
      match s1 with
      | String b (String c rest) =>
          if Ascii.eqb a "e" && (nat_of_ascii b =? 204)%nat && (nat_of_ascii c =? 129)%nat
          then String (ascii_of_nat 195) (String (ascii_of_nat 169) (composeAcute rest))
          else String a (composeAcute s1)
      | _ => String a (composeAcute s1)
      end
  end.

(** Comparison by code units of the composed texts: a collation that, like
    [localeCompare] of an engine, gives zero on these canonically equivalent
    spellings. *)
Definition canonicalCompare (a b : string) : Z :=
  ordinalCompare (composeAcute a) (composeAcute b).

(** ** Cost table *)

Record OpenAiPricing := { prompt : float; completion : float }.

#[warnings="-inexact-float"]
Definition OPENAI_PRICING_PER_MILLION : gmap string OpenAiPricing :=
  list_to_map
    [ ("gpt-4o-mini", {| prompt := 0.15; completion := 0.6 |});
      ("gpt-4o", {| prompt := 5; completion := 15 |});
      ("gpt-4.1-mini", {| prompt := 0.3; completion := 1.2 |});
      ("gpt-4.1", {| prompt := 5; completion := 15 |}) ].

(** [pricing.prompt] and [pricing.completion]: an inherited member has no
    such property, and the [undefined] it gives makes a product [NaN]. *)
Definition priceOf (field : OpenAiPricing → float) (pricing : Member OpenAiPricing) : float :=
  match pricing with
  | Own price => field price
  | Inherited _ => PrimFloat.nan
  end.

Definition estimateOpenAiCost (promptTokens completionTokens : float) (model : string)
  : option float :=
  match lookupMember OPENAI_PRICING_PER_MILLION model with
  | None => None
  | Some pricing =>
      let promptCost := (promptTokens / 1000000 * priceOf prompt pricing)%float in
      let completionCost := (completionTokens / 1000000 * priceOf completion pricing)%float in
      Some (promptCost + completionCost)%float
  end.

Definition DEFAULT_OPENAI_MODEL : string := "gpt-5-nano-2025-08-07".

(** ** Catalog store *)

(** A language, a key and the token report as the web view and the message
    of a load have them. *)
Record LanguageInfo := { code : string; name : string; flag : string }.

Record TranslationKey := { id : string; key : string; tags : list string }.

Record TokenUsageReport := {
  totalTokens : float;
  promptTokens : float;
  completionTokens : float;
  requests : float;
  perModel : gmap string float;
  perLanguage : gmap string float;
  lastUpdated : option string
}.

Inductive Status := ok | missingWorkspace | missingFolder | emptyFolder.

(** The payload of the [init] message as the web view reads it. *)
Record InitPayload := {
  languages : list LanguageInfo;
  keys : list TranslationKey;
  values : gmap string (gmap string string);
  sourceLangCode : string;
  payloadApiKey : string;
  payloadModel : string;
  tokenReport : TokenUsageReport;
  payloadLocale : string;
  payloadFolder : string;
  status : Status;
  error : option string
}.

(** The same in the extension host, where [readI18nData] builds it: the name
    of a language and a cell of the table are what indexing a record gave,
    a string or an inherited member. *)
Module Host.
Record LanguageInfo := { code : string; name : Member string; flag : string }.

Record InitPayload := {
  languages : list LanguageInfo;
  keys : list TranslationKey;
  values : gmap string (gmap string (Member string));
  sourceLangCode : string;
  payloadApiKey : string;
  payloadModel : string;
  tokenReport : TokenUsageReport;
  payloadLocale : string;
  payloadFolder : string;
  status : Status;
  error : option string
}.
End Host.

(** A document, the [Record<string, unknown>] that [readJsonFile] returns: a
    plain object, or the array that its [typeof] test lets through. *)
Inductive Document :=
  | DRecord (o : props)
  | DArray (items : list json).

Definition document_json (doc : Document) : json :=
  match doc with
  | DRecord o => JObj o
  | DArray items => JArr items
  end.

Definition printedDocument (doc : Document) : Document :=
  match doc with
  | DRecord o => DRecord (printedProps o)
  | DArray items => DArray (printed <$> items)
  end.

(** What the folder has under the name of a JSON file: a file with some
    text; a file with the text [JSON.stringify(data, null, 2) + '\n'] that
    [writeJsonFile] put there; or something [fs.readFileSync] cannot read, a
    directory of that name or a file the host may not open. *)
Inductive FileContent :=
  | Raw (text : string)
  | Written (data : Document)
  | Unreadable.

(** The entries of the i18n folder whose names end in [.json], by base
    name: [dir !! "en"] is what is there as [en.json]. A language code
    stands for a file of the folder: it holds no path separator. *)
Abbreviation Dir := (gmap string FileContent).

(** The workspace as the extension host sees it: the configuration, the
    stored token report, and the folder [resolveI18nDir] finds. *)
Record Workspace := {
  root : option string;
  i18nFolder : string;
  sourceLanguage : string;
  openaiApiKey : string;
  openaiModel : string;
  storedTokenReport : option TokenUsageReport;
  locale : string;
  i18nDir : option Dir
}.

Definition with_i18nDir (w : Workspace) (dir : Dir) : Workspace :=
  {| root := root w; i18nFolder := i18nFolder w; sourceLanguage := sourceLanguage w;
     openaiApiKey := openaiApiKey w; openaiModel := openaiModel w;
     storedTokenReport := storedTokenReport w; locale := locale w;
     i18nDir := Some dir |}.

Definition getDefaultTokenReport : TokenUsageReport :=
  {| totalTokens := 0; promptTokens := 0; completionTokens := 0; requests := 0;
     perModel := ∅; perLanguage := ∅; lastUpdated := None |}.

Definition getTokenReport (w : Workspace) : TokenUsageReport :=
  match storedTokenReport w with
  | None => getDefaultTokenReport
  | Some stored => stored
  end.

Definition resolveI18nDir (w : Workspace) : option Dir :=
  match root w with
  | None => None
  | Some _ => i18nDir w
  end.

(** [getOrCreateI18nDir]: the folder, made when it is missing. *)
Definition getOrCreateI18nDir (w : Workspace) : option Dir :=
  match root w with
  | None => None
  | Some _ =>
      match resolveI18nDir w with
      | Some existing => Some existing
      | None => Some ∅
      end
  end.

(** [fs.readdirSync(i18nDir)], the [.json] entries, as base names. *)
Definition jsonFiles (dir : Dir) : list string := (map_to_list dir).*1.

(** [typeof v]; an array and [null] are of type ['object']. *)
Definition typeof (v : json) : string :=
  match v with
  | JNull | JArr _ | JObj _ => "object"
  | JBool _ => "boolean"
  | JNum _ => "number"
  | JStr _ => "string"
  end.

(** [typeof parsed === 'object' && parsed !== null ? parsed : {}]. *)
Definition objectOrEmpty (parsed : json) : Document :=
  match parsed with
  | JObj o => DRecord o
  | JArr items => DArray items
  | _ => DRecord []
  end.

(** [writeJsonFile]: the file holds the text printed for the document; it
    is kept here as the document that text reads as. *)
Definition writeJsonFile (dir : Dir) (file : string) (data : Document) : Dir :=
  <[file := Written (printedDocument data)]> dir.

(** [a[i] = v] on an array, as [JSON.stringify] renders it afterwards: the
    holes a store past the end leaves print as [null]. *)
Definition arrayStore (items : list json) (i : nat) (v : json) : list json :=
  if (i <? length items)%nat then <[i := v]> items
  else items ++ replicate (i - length items) JNull ++ [v].

(** The text [addTranslationKey] seeds a language with. *)
Definition seedOf (sourceLang value code : string) : string :=
  if String.eqb code sourceLang then value else "".

(** The record of a document; an array has none. *)
Definition recordOf (doc : Document) : props :=
  match doc with
  | DRecord o => o
  | DArray _ => []
  end.

Section Store.
(** [JSON.parse]: [None] when it throws. *)
Context (JSON_parse : string → option json).
(** The length a string assigned to [a.length] stands for; [None] when the
    assignment throws a [RangeError]. *)
Context (ToArrayLength : string → option nat).
Context (toLowerCase : string → string).
Context (localeCompare : string → string → Z).
Context (Array_prototype : list string).

(** [readJsonFile]: [None] when it throws, which it does where
    [fs.readFileSync], outside the [try], cannot read what is there. *)
Definition readJsonFile (dir : Dir) (file : string) : option Document :=
  match dir !! file with
  | None => Some (DRecord [])
  | Some Unreadable => None
  | Some (Raw text) =>
      match JSON_parse (stripBOM text) with
      | Some parsed => Some (objectOrEmpty parsed)
      | None => Some (DRecord [])
      end
  | Some (Written data) => Some (printedDocument data)
  end.

(** [getLanguageInfo]: [map[normalized] ?? code]. *)
Definition getLanguageInfo (code : string) : Host.LanguageInfo :=
  let map : gmap string string :=
    list_to_map
      [ ("en", "English"); ("es", "Spanish"); ("pt", "Portuguese"); ("fr", "French");
        ("de", "German"); ("it", "Italian"); ("ja", "Japanese"); ("zh", "Chinese");
        ("ru", "Russian"); ("ko", "Korean") ] in
  let normalized := normalizeLanguageCode toLowerCase code in
  {| Host.code := code;
     Host.name := default (Own code) (lookupMember map normalized);
     Host.flag := "" |}.

(** [setNestedValue] when the document read from the file is an array, which
    the [typeof] test of [readJsonFile] lets through: the array as
    [JSON.stringify] renders it afterwards. A store under an index lands in
    the array; [length] takes a valid length or throws; any other name makes
    a property, or changes the prototype, neither of which is printed, and
    the walk goes on in a fresh object. *)
Definition setNestedValue_array (items : list json) (parts : list string)
    (value : string) : Completion (list json) :=
  match parts with
  | [] => Returns items
  | [last] =>
      match array_index last with
      | Some i => Returns (arrayStore items (N.to_nat i) (JStr value))
      | None =>
          if String.eqb last "length" then
            match ToArrayLength value with
            | Some n => Returns (take n items ++ replicate (n - length items) JNull)
            | None => Throws items
            end
          else Returns items
      end
  | part :: rest =>
      match array_index part with
      | Some i =>
          let child := match items !! N.to_nat i with
                       | Some (JObj c) => c
                       | _ => []
                       end in
          match setPath child rest value with
          | Returns child' => Returns (arrayStore items (N.to_nat i) (JObj child'))
          | Throws _ => Throws items
          | Leaks => Leaks
          end
      | None =>
          if String.eqb part "length" then Throws items
          else match setPath [] rest value with
               | Returns _ => Returns items
               | Throws _ => Throws items
               | Leaks => Leaks
               end
      end
  end.

(** [setNestedValue(json, key, value); writeJsonFile(filePath, json)]; a
    throw leaves the file as it was. *)
Definition storeValue (dir : Dir) (file : string) (doc : Document)
    (key value : string) : Completion Dir :=
  match doc with
  | DRecord o =>
      match setNestedValue o key value with
      | Returns o' => Returns (writeJsonFile dir file (DRecord o'))
      | Throws _ => Throws dir
      | Leaks => Leaks
      end
  | DArray items =>
      match setNestedValue_array items (split_dot key) value with
      | Returns items' => Returns (writeJsonFile dir file (DArray items'))
      | Throws _ => Throws dir
      | Leaks => Leaks
      end
  end.

Definition updateTranslationValue (w : Workspace) (langCode key value : string)
  : Completion Workspace :=
  match getOrCreateI18nDir w with
  | None => Returns w
  | Some dir =>
      match readJsonFile dir langCode with
      | None => Throws (with_i18nDir w dir)
      | Some doc =>
          match storeValue dir langCode doc key value with
          | Returns dir' => Returns (with_i18nDir w dir')
          | Throws dir' => Throws (with_i18nDir w dir')
          | Leaks => Leaks
          end
      end
  end.

(** The loop of [addTranslationKey] over the target codes; a throw ends
    it, the files written before stay. *)
Fixpoint addKeyLoop (dir : Dir) (targetCodes : list string)
    (key sourceLang value : string) : Completion Dir :=
  match targetCodes with
  | [] => Returns dir
  | code :: rest =>
      match readJsonFile dir code with
      | None => Throws dir
      | Some doc =>
          match getNestedValue Array_prototype (document_json doc) key with
          | None =>
              match storeValue dir code doc key
                      (if String.eqb code sourceLang then value else "") with
              | Returns dir' => addKeyLoop dir' rest key sourceLang value
              | Throws dir' => Throws dir'
              | Leaks => Leaks
              end
          | Some _ => addKeyLoop dir rest key sourceLang value
          end
      end
  end.

Definition addTranslationKey (w : Workspace) (key sourceLang value : string)
  : Completion Workspace :=
  match getOrCreateI18nDir w with
  | None => Returns w
  | Some dir =>
      let codes := jsonFiles dir in
      let targetCodes :=
        if includes codes sourceLang then codes else codes ++ [sourceLang] in
      match addKeyLoop dir targetCodes key sourceLang value with
      | Returns dir' => Returns (with_i18nDir w dir')
      | Throws dir' => Throws (with_i18nDir w dir')
      | Leaks => Leaks
      end
  end.

Definition addLanguageFile (w : Workspace) (langCode : string) : Workspace :=
  match getOrCreateI18nDir w with
  | None => w
  | Some dir =>
      match dir !! langCode with
      | Some _ => with_i18nDir w dir
      | None => with_i18nDir w (writeJsonFile dir langCode (DRecord []))
      end
  end.

Definition emptyPayload (w : Workspace) (st : Status) (message : string)
  : Host.InitPayload :=
  {| Host.languages := []; Host.keys := []; Host.values := ∅;
     Host.sourceLangCode := sourceLanguage w;
     Host.payloadApiKey := openaiApiKey w; Host.payloadModel := openaiModel w;
     Host.tokenReport := getTokenReport w; Host.payloadLocale := locale w;
     Host.payloadFolder := i18nFolder w; Host.status := st; Host.error := Some message |}.

(** The flattened table of a language file that can be read. *)
Definition flattenedOf (dir : Dir) (code : string) : gmap string string :=
  match readJsonFile dir code with
  | Some json => flattenObject (document_json json) "" ∅
  | None => ∅
  end.

(** [allKeys.add(key)] on a [Set]: the names stay in the order they were
    first added. *)
Definition Set_add (allKeys : list string) (key : string) : list string :=
  if includes allKeys key then allKeys else allKeys ++ [key].

(** The first loop of [readI18nData]: [perLangValues] and [allKeys]; [None]
    when a file cannot be read. The store [perLangValues[code] = flattened]
    under [__proto__] makes the table the prototype of [perLangValues], which
    is where [perLangValues['__proto__']] finds it afterwards: the map
    keeps it under that name. The order in which [Object.keys] lists the
    keys of a table shows in the result only among keys that the collation
    does not tell apart. *)
Definition loadLanguages (dir : Dir) (languageCodes : list string)
  : option (gmap string (gmap string string) * list string) :=
  foldl (λ acc code,
           match acc with
           | None => None
           | Some (perLangValues, allKeys) =>
               match readJsonFile dir code with
               | None => None
               | Some json =>
                   let flattened := flattenObject (document_json json) "" ∅ in
                   Some (<[code := flattened]> perLangValues,
                         foldl Set_add allKeys (map_to_list flattened).*1)
               end
           end)
        (Some (∅, [])) languageCodes.

(** [perLangValues[code]?.[key] ?? ''] for a code of the folder. *)
Definition cellOf (perLang : gmap string (gmap string string)) (code key : string)
  : Member string :=
  match perLang !! code with
  | Some flattened => default (Own "") (lookupMember flattened key)
  | None => Own ""
  end.

(** [readI18nData]: [None] when it throws. *)
Definition readI18nData (w : Workspace) : option Host.InitPayload :=
  match root w with
  | None => Some (emptyPayload w missingWorkspace "Nenhuma pasta de trabalho aberta.")
  | Some _ =>
      match resolveI18nDir w with
      | None =>
          Some (emptyPayload w missingFolder ("Pasta nao encontrada: " +:+ i18nFolder w))
      | Some dir =>
          let files := jsonFiles dir in
          if bool_decide (files = []) then
            Some (emptyPayload w emptyFolder "Nenhum arquivo JSON encontrado em i18n.")
          else
            let languageCodes :=
              Array_sort (compareLanguageCodes toLowerCase localeCompare) files in
            match loadLanguages dir languageCodes with
            | None => None
            | Some (perLang, allKeys) =>
                let keyList := Array_sort localeCompare allKeys in
                let sourcePreference := sourceLanguage w in
                Some
                  {| Host.languages := getLanguageInfo <$> languageCodes;
                     Host.keys := (λ key, {| id := key; key := key; tags := [] |}) <$> keyList;
                     Host.values :=
                       foldl (λ values key,
                                assign key
                                  (foldl (λ row code, assign code (cellOf perLang code key) row)
                                         ∅ languageCodes)
                                  values)
                             ∅ keyList;
                     Host.sourceLangCode :=
                       if includes languageCodes sourcePreference then sourcePreference
                       else default sourcePreference (head languageCodes);
                     Host.payloadApiKey := openaiApiKey w; Host.payloadModel := openaiModel w;
                     Host.tokenReport := getTokenReport w; Host.payloadLocale := locale w;
                     Host.payloadFolder := i18nFolder w; Host.status := ok;
                     Host.error := None |}
            end
      end
  end.

(** Every entry of the folder can be read. *)
Definition readable (dir : Dir) : Prop := ∀ file, dir !! file ≠ Some Unreadable.

Definition unreadableAt (dir : Dir) (file : string) : bool :=
  match dir !! file with
  | Some Unreadable => true
  | _ => false
  end.

(** Every file of the folder reads as a record: none is unreadable or holds
    an array at top level. *)
Definition records_only (dir : Dir) : Prop :=
  ∀ file, ∃ o, readJsonFile dir file = Some (DRecord o).

(** The file can be read and [getNestedValue] finds nothing at the key. *)
Definition lacksKey (dir : Dir) (file key : string) : Prop :=
  ∃ doc, readJsonFile dir file = Some doc
         ∧ getNestedValue Array_prototype (document_json doc) key = None.

(** The record a file reads as. *)
Definition recordAt (dir : Dir) (file : string) : props :=
  match readJsonFile dir file with
  | Some doc => recordOf doc
  | None => []
  end.
End Store.
(** ** The web view: batch translation orchestrator *)

Module App.

Record TranslateAllJob := {
  keyId : string;
  keyName : string;
  sourceText : string;
  targetLangCode : string;
  targetLangName : string;
  sourceLangName : string
}.

(** [values[keyId]?.[langCode] || '']. *)
Definition textOf (values : gmap string (gmap string string))
    (keyId langCode : string) : string :=
  match values !! keyId ≫= λ row, row !! langCode with
  | Some text => or_else text ""
  | None => ""
  end.

Definition collectTranslateAllJobs (keys : list TranslationKey)
    (values : gmap string (gmap string string)) (languages : list LanguageInfo)
    (sourceLangCode : string) : list TranslateAllJob :=
  let sourceLang :=
    List.find (λ lang, String.eqb (code lang) sourceLangCode) languages in
  let sourceLangName :=
    match sourceLang with
    | Some lang => or_else (name lang) sourceLangCode
    | None => sourceLangCode
    end in
  let targets :=
    List.filter (λ lang, negb (String.eqb (code lang) sourceLangCode)) languages in
  if bool_decide (targets = []) then []
  else
    foldl (λ jobs k,
             let sourceText := textOf values (id k) sourceLangCode in
             if negb (truthy (trim sourceText)) then jobs
             else
               foldl (λ jobs target,
                        let existing := textOf values (id k) (code target) in
                        if truthy (trim existing) then jobs
                        else jobs ++ [ {| keyId := id k;
                                          keyName := key k;
                                          sourceText := sourceText;
                                          targetLangCode := code target;
                                          targetLangName := or_else (name target) (code target);
                                          sourceLangName := sourceLangName |} ])
                     jobs targets)
          [] keys.

Record TokenUsageDelta := {
  usagePromptTokens : float;
  usageCompletionTokens : float;
  usageTotalTokens : float;
  usageModel : string;
  usageTargetLangCode : string
}.

(** [applyTokenUsage(report, usage)], at the time [now]. *)
Definition applyTokenUsage (now : string) (report : TokenUsageReport)
    (usage : TokenUsageDelta) : TokenUsageReport :=
  {| totalTokens := (totalTokens report + usageTotalTokens usage)%float;
     promptTokens := (promptTokens report + usagePromptTokens usage)%float;
     completionTokens := (completionTokens report + usageCompletionTokens usage)%float;
     requests := (requests report + 1)%float;
     perModel :=
       <[usageModel usage :=
           (default 0%float (perModel report !! usageModel usage)
            + usageTotalTokens usage)%float]> (perModel report);
     perLanguage :=
       <[usageTargetLangCode usage :=
           (default 0%float (perLanguage report !! usageTargetLangCode usage)
            + usageTotalTokens usage)%float]> (perLanguage report);
     lastUpdated := Some now |}.

Inductive ViewState := view_dashboard | view_list | view_editor | view_settings.

(** The state of the component that the handlers read and set. *)
Record State := {
  keys : list TranslationKey;
  values : gmap string (gmap string string);
  languages : list LanguageInfo;
  activeLangCodes : list string;
  sourceLangCode : string;
  openAiApiKey : string;
  openAiModel : string;
  tokenReport : TokenUsageReport;
  currentView : ViewState;
  vscodeApi : bool
}.

Definition activeLanguages (st : State) : list LanguageInfo :=
  List.filter (λ l, includes (activeLangCodes st) (code l)) (languages st).

(** What the provider is asked. *)
Record Request := {
  text : string;
  targetLang : string;
  sourceLang : string;
  context : string;
  apiKey : string;
  model : string
}.

(** What a call of the provider comes to: it throws, or it returns the
    translated text, with the token usage when the response carries one. *)
Inductive Reply :=
  | Threw
  | Returned (translated : string) (usage : option (float * float * float * string)).

(** What the handlers do to the outside, in order. *)
Inductive Effect :=
  | ProviderCall (request : Request)
  | PostUpdateValue (key lang value : string)
  | PostRecordTokenUsage (usage : TokenUsageDelta)
  | OnProgress (done total : nat)
  | Sleep (ms : nat).

(** A handler in progress: the state, the effects so far (oldest first) and
    the number of provider calls made. *)
Record Run := { state : State; effects : list Effect; calls : nat }.

Record Outcome := { ok : bool; error : option string }.

Definition emit (e : Effect) (r : Run) : Run :=
  {| state := state r; effects := effects r ++ [e]; calls := calls r |}.

Definition setState (f : State → State) (r : Run) : Run :=
  {| state := f (state r); effects := effects r; calls := calls r |}.

Definition setValues (f : gmap string (gmap string string) → gmap string (gmap string string))
    (st : State) : State :=
  {| keys := keys st; values := f (values st); languages := languages st;
     activeLangCodes := activeLangCodes st; sourceLangCode := sourceLangCode st;
     openAiApiKey := openAiApiKey st; openAiModel := openAiModel st;
     tokenReport := tokenReport st; currentView := currentView st;
     vscodeApi := vscodeApi st |}.

Definition setTokenReport (f : TokenUsageReport → TokenUsageReport) (st : State) : State :=
  {| keys := keys st; values := values st; languages := languages st;
     activeLangCodes := activeLangCodes st; sourceLangCode := sourceLangCode st;
     openAiApiKey := openAiApiKey st; openAiModel := openAiModel st;
     tokenReport := f (tokenReport st); currentView := currentView st;
     vscodeApi := vscodeApi st |}.

Definition setCurrentView (v : ViewState) (st : State) : State :=
  {| keys := keys st; values := values st; languages := languages st;
     activeLangCodes := activeLangCodes st; sourceLangCode := sourceLangCode st;
     openAiApiKey := openAiApiKey st; openAiModel := openAiModel st;
     tokenReport := tokenReport st; currentView := v;
     vscodeApi := vscodeApi st |}.

(** [{ ...prev, [keyId]: { ...prev[keyId], [langCode]: newValue } }]. *)
Definition saveCell (keyId langCode newValue : string)
    (prev : gmap string (gmap string string)) : gmap string (gmap string string) :=
  <[keyId := <[langCode := newValue]> (default ∅ (prev !! keyId))]> prev.

(** [vscodeApi?.postMessage(...)]. *)
Definition postMessage (e : Effect) (r : Run) : Run :=
  if vscodeApi (state r) then emit e r else r.

Definition handleSave (keyId langCode newValue : string) (stay : bool) (r : Run) : Run :=
  let r1 := setState (setValues (saveCell keyId langCode newValue)) r in
  let r2 := postMessage (PostUpdateValue keyId langCode newValue) r1 in
  match currentView (state r2) with
  | view_editor => if stay then r2 else setState (setCurrentView view_list) r2
  | _ => r2
  end.

Section Orchestrator.
(** The provider: what its [n]-th call replies to a request. *)
Context (provider : nat → Request → Reply).
(** [new Date().toISOString()] at the [n]-th provider call. *)
Context (Date_now : nat → string).

Definition handleRecordTokenUsage (usage : TokenUsageDelta) (r : Run) : Run :=
  let r1 := setState (setTokenReport (λ prev, applyTokenUsage (Date_now (calls r)) prev usage)) r in
  postMessage (PostRecordTokenUsage usage) r1.

(** [translateText(text, targetLang, sourceLang, context, options)] with
    [onUsage: handleRecordTokenUsage]: [None] when it throws. *)
Definition translateText (text targetLang sourceLang context : string)
    (optApiKey optModel optTargetLangCode : string) (r : Run)
  : option string * Run :=
  if negb (truthy optApiKey) then (None, r)
  else
    let request := {| text := text; targetLang := targetLang;
                      sourceLang := sourceLang; context := context;
                      apiKey := optApiKey;
                      model := or_else optModel DEFAULT_OPENAI_MODEL |} in
    let r1 := emit (ProviderCall request) r in
    let r2 := {| state := state r1; effects := effects r1; calls := S (calls r1) |} in
    match provider (calls r) request with
    | Threw => (None, r2)
    | Returned translated usage =>
        match usage with
        | Some (p, c, t, m) =>
            (Some translated,
             handleRecordTokenUsage
               {| usagePromptTokens := p; usageCompletionTokens := c;
                  usageTotalTokens := t; usageModel := m;
                  usageTargetLangCode := or_else optTargetLangCode targetLang |} r2)
        | None => (Some translated, r2)
        end
    end.

(** The loop of [handleTranslateAll] from the job at [index] on: [done]
    jobs are behind, [total] is [jobs.length]. *)
Fixpoint translateJobs (total done : nat) (jobs : list TranslateAllJob) (r : Run)
  : Outcome * Run :=
  match jobs with
  | [] => ({| ok := true; error := None |}, r)
  | job :: rest =>
      let st := state r in
      match translateText (sourceText job) (targetLangName job)
              (sourceLangName job) (keyName job)
              (openAiApiKey st) (openAiModel st) (targetLangCode job) r with
      | (Some translated, r1) =>
          let r2 := handleSave (keyId job) (targetLangCode job) translated true r1 in
          let r3 := emit (OnProgress (S done) total) r2 in
          let r4 := match rest with
                    | [] => r3
                    | _ :: _ => emit (Sleep 300) r3
                    end in
          translateJobs total (S done) rest r4
      | (None, r1) =>
          ({| ok := false; error := Some "errors.translationFailed" |},
           emit (OnProgress (S done) total) r1)
      end
  end.

Definition handleTranslateAll (r : Run) : Outcome * Run :=
  let st := state r in
  if negb (truthy (openAiApiKey st)) then
    ({| ok := false; error := Some "errors.openAiKeyMissing" |}, r)
  else
    let jobs := collectTranslateAllJobs (keys st) (values st) (activeLanguages st)
                  (sourceLangCode st) in
    match jobs with
    | [] => ({| ok := false; error := Some "translateAll.noMissing" |}, r)
    | _ :: _ =>
        let r0 := emit (OnProgress 0 (length jobs)) r in
        translateJobs (length jobs) 0 jobs r0
    end.
End Orchestrator.

(** The job list in the words of the specification: for every key with
    non-blank source-language text, in key order, every language other than
    the source that holds a blank value, in language order. *)
Definition missingTranslations (keys : list TranslationKey)
    (values : gmap string (gmap string string)) (languages : list LanguageInfo)
    (sourceLangCode : string) : list (TranslationKey * LanguageInfo) :=
  k ← List.filter (λ k, truthy (trim (textOf values (id k) sourceLangCode))) keys;
  l ← List.filter (λ l, negb (String.eqb (code l) sourceLangCode)
                         && negb (truthy (trim (textOf values (id k) (code l)))))
                  languages;
  [(k, l)].

(** The job emitted for a key and a target language. *)
Definition jobFor (values : gmap string (gmap string string))
    (languages : list LanguageInfo) (sourceLangCode : string)
    (pair : TranslationKey * LanguageInfo) : TranslateAllJob :=
  {| keyId := id pair.1;
     keyName := key pair.1;
     sourceText := textOf values (id pair.1) sourceLangCode;
     targetLangCode := code pair.2;
     targetLangName := or_else (name pair.2) (code pair.2);
     sourceLangName :=
       match List.find (λ lang, String.eqb (code lang) sourceLangCode) languages with
       | Some lang => or_else (name lang) sourceLangCode
       | None => sourceLangCode
       end |}.

(** The request [translateText] sends for a job under the settings of [st]. *)
Definition requestOf (st : State) (job : TranslateAllJob) : Request :=
  {| text := sourceText job; targetLang := targetLangName job;
     sourceLang := sourceLangName job; context := keyName job;
     apiKey := openAiApiKey st;
     model := or_else (openAiModel st) DEFAULT_OPENAI_MODEL |}.

(** The settings a run leaves alone. *)
Definition same_settings (st st' : State) : Prop :=
  openAiApiKey st' = openAiApiKey st ∧ openAiModel st' = openAiModel st
  ∧ vscodeApi st' = vscodeApi st.

(** What [handleTranslateAll] returns when a provider call failed. *)
Definition translationFailed : Outcome :=
  {| ok := false; error := Some "errors.translationFailed" |}.

(** The provider calls and the progress reports among some effects, in order. *)
Definition timeline (es : list Effect) : list Effect :=
  List.filter (λ e, match e with
                    | ProviderCall _ | OnProgress _ _ => true
                    | _ => false
                    end) es.

(** The [updateValue] messages among some effects, in order. *)
Definition postedValues (es : list Effect) : list (string * string * string) :=
  omap (λ e, match e with
             | PostUpdateValue key lang value => Some (key, lang, value)
             | _ => None
             end) es.

(** The table after the translations of some jobs were saved, in order. *)
Definition savedValues (values : gmap string (gmap string string))
    (saved : list (TranslateAllJob * string)) : gmap string (gmap string string) :=
  foldl (λ values '(job, translated),
           saveCell (keyId job) (targetLangCode job) translated values)
        values saved.

End App.

(** ** Sample catalogs *)

(** One key, [a], that reads "Hello" in [en] only; three languages. *)
Definition sampleKeys : list TranslationKey :=
  [ {| id := "a"; key := "a"; tags := [] |} ].

Definition sampleValues : gmap string (gmap string string) :=
  {[ "a" := {[ "en" := "Hello" ]} ]}.

(** A language of the popularity list, as the message of a load names it. *)
Definition language (code name : string) : LanguageInfo :=
  {| code := code; name := name; flag := "" |}.




(** A catalog with three languages to translate into, and a provider whose
    second call fails. *)
Definition batchLanguages : list LanguageInfo :=
  [language "en" "English"; language "fr" "French"; language "de" "German";
   language "es" "Spanish"].

Definition batchState : App.State :=
  {| App.keys := sampleKeys; App.values := sampleValues;
     App.languages := batchLanguages;
     App.activeLangCodes := ["en"; "fr"; "de"; "es"];
     App.sourceLangCode := "en"; App.openAiApiKey := "sk-test";
     App.openAiModel := ""; App.tokenReport := getDefaultTokenReport;
     App.currentView := App.view_list; App.vscodeApi := true |}.

Definition batchStart : App.Run :=
  {| App.state := batchState; App.effects := []; App.calls := 0 |}.

Definition secondCallFails (n : nat) (request : App.Request) : App.Reply :=
  if (n =? 1)%nat then App.Threw
  else App.Returned ("[" +:+ App.targetLang request +:+ "] " +:+ App.text request) None.

(** A folder with an English file written by the program and a French file
    that does not parse; a parser that rejects every text. *)
Definition sampleDir : Dir :=
  <["fr" := Raw "{oops"]>
    {[ "en" := Written (DRecord [("a", JStr "Hello"); ("b", JObj [("c", JStr "x")])]) ]}.

Definition sampleWorkspace : Workspace :=
  {| root := Some "/work"; i18nFolder := "i18n"; sourceLanguage := "en";
     openaiApiKey := ""; openaiModel := "gpt-5-nano-2025-08-07";
     storedTokenReport := None; locale := "en"; i18nDir := Some sampleDir |}.

Definition rejectAll (text : string) : option json := None.

(** The workspace whose i18n folder is the given one. *)
Definition workspaceOf (dir : Dir) : Workspace :=
  {| root := Some "/work"; i18nFolder := "i18n"; sourceLanguage := "en";
     openaiApiKey := ""; openaiModel := "gpt-5-nano-2025-08-07";
     storedTokenReport := None; locale := "en"; i18nDir := Some dir |}.

(** A folder whose English file has the key [constructor], which the French
    file lacks; one with a file [__proto__.json]; and one where [fr.json] is
    a directory. *)
Definition inheritedDir : Dir :=
  <["fr" := Written (DRecord [])]>
    {[ "en" := Written (DRecord [("constructor", JStr "Builder")]) ]}.

Definition protoDir : Dir :=
  <["__proto__" := Written (DRecord [("a", JStr "Bonjour")])]>
    {[ "en" := Written (DRecord [("a", JStr "Hello")]) ]}.

Definition unreadableDir : Dir :=
  <["fr" := Unreadable]> {[ "en" := Written (DRecord [("a", JStr "Hello")]) ]}.

(** A document with values that are not strings, and the folder that holds
    it as [en.json]. *)
Definition sampleTree : props :=
  [ ("title", JStr "Old");
    ("meta", JObj [ ("tags", JArr [JStr "a"; JStr "b"]); ("count", JNum 3);
                    ("on", JBool true) ]) ].

Definition treeWorkspace : Workspace :=
  {| root := Some "/work"; i18nFolder := "i18n"; sourceLanguage := "en";
     openaiApiKey := ""; openaiModel := "gpt-5-nano-2025-08-07";
     storedTokenReport := None; locale := "en";
     i18nDir := Some {[ "en" := Written (DRecord sampleTree) ]} |}.
Definition rejectLength (value : string) : option nat := None.

(** Names of functions of [Array.prototype], to run a walk with. *)
Definition arrayMethods : list string :=
  [ "constructor"; "concat"; "join"; "pop"; "push"; "reverse"; "shift"; "slice";
    "sort"; "splice"; "unshift"; "indexOf"; "lastIndexOf"; "every"; "some";
    "forEach"; "map"; "filter"; "reduce"; "reduceRight"; "toString";
    "toLocaleString" ].

(** A file whose one number is too large for a double, and a parser for
    this text, which reads the number as [Infinity], as [JSON.parse] does. *)
Definition overflowText : string :=
  "{" +:+ String (ascii_of_nat 34) "n" +:+ String (ascii_of_nat 34) ": 1e999}".

Definition parseOverflow (text : string) : option json :=
  if String.eqb text overflowText then Some (JObj [("n", JNum PrimFloat.infinity)])
  else None.

Definition overflowWorkspace : Workspace :=
  {| root := Some "/work"; i18nFolder := "i18n"; sourceLanguage := "en";
     openaiApiKey := ""; openaiModel := "gpt-5-nano-2025-08-07";
     storedTokenReport := None; locale := "en";
     i18nDir := Some {[ "en" := Raw overflowText ]} |}.

(** A flat table whose keys nest without clashing, and one where the key [a]
    is also the first segment of the key [a.b]. *)
Definition nestedKeys : gmap string string :=
  <["x.z" := "Ho"]> (<["x.y" := "Hi"]> {[ "title" := "T" ]}).

Definition clashingKeys : gmap string string :=
  <["a.b" := "y"]> {[ "a" := "x" ]}.

(** A table with the one key [__proto__]. *)
Definition protoKeys : gmap string string := {[ "__proto__" := "x" ]}.

(** A folder with [en.json] alone, holding the empty object, as
    [addLanguageFile] makes it; and one whose [en.json] holds the empty
    array, the text of [JSON.stringify([], null, 2)] and a line feed. *)
Definition enOnly : Workspace :=
  {| root := Some "/work"; i18nFolder := "i18n"; sourceLanguage := "en";
     openaiApiKey := ""; openaiModel := "gpt-5-nano-2025-08-07";
     storedTokenReport := None; locale := "en";
     i18nDir := Some {[ "en" := Written (DRecord []) ]} |}.

Definition enArray : Workspace :=
  {| root := Some "/work"; i18nFolder := "i18n"; sourceLanguage := "en";
     openaiApiKey := ""; openaiModel := "gpt-5-nano-2025-08-07";
     storedTokenReport := None; locale := "en";
     i18nDir := Some {[ "en" := Written (DArray []) ]} |}.

(** The message for a payload whose names and cells are strings. *)
Definition messageOf (host : Host.InitPayload) : InitPayload :=
  {| languages :=
       (λ l, {| code := Host.code l;
                name := match Host.name l with Own name => name | Inherited _ => "" end;
                flag := Host.flag l |}) <$> Host.languages host;
     keys := Host.keys host;
     values :=
       (λ row : gmap string (Member string),
          omap (λ cell : Member string,
                  match cell with Own text => Some text | Inherited _ => None end) row)
       <$> Host.values host;
     sourceLangCode := Host.sourceLangCode host;
     payloadApiKey := Host.payloadApiKey host;
     payloadModel := Host.payloadModel host;
     tokenReport := Host.tokenReport host;
     payloadLocale := Host.payloadLocale host;
     payloadFolder := Host.payloadFolder host;
     status := Host.status host;
     error := Host.error host |}.

(** ** Documents as the program writes them *)

(** A name without a dot: [name.split('.')] is the name alone. *)
Definition dotfree (name : string) : Prop := split_dot name = [name].

(** The property names of every object of the document are distinct, as the
    properties of a JavaScript object are, and none of them contains a dot:
    the shape of a document that [setNestedValue] has built. *)
Fixpoint plain_names (v : json) : Prop :=
  match v with
  | JObj o =>
      NoDup o.*1
      ∧ (fix all (o : props) : Prop :=
           match o with
           | [] => True
           | (name, entry) :: rest => dotfree name ∧ plain_names entry ∧ all rest
           end) o
  | _ => True
  end.



(** ** The batch run, observed *)

(** The provider calls, the progress reports and the pauses among some
    effects, in order. *)
Definition schedule (es : list App.Effect) : list App.Effect :=
  List.filter (λ e, match e with
                    | App.ProviderCall _ | App.OnProgress _ _ | App.Sleep _ => true
                    | _ => false
                    end) es.

(** What [handleTranslateAll] returns when every job went through. *)
Definition translationDone : App.Outcome := {| App.ok := true; App.error := None |}.

(** The parts of the state that say what there is to translate, the table
    apart. *)
Definition same_catalog (st st' : App.State) : Prop :=
  App.keys st' = App.keys st ∧ App.languages st' = App.languages st
  ∧ App.activeLangCodes st' = App.activeLangCodes st
  ∧ App.sourceLangCode st' = App.sourceLangCode st.

(** ** Prompts and token estimates *)

(** [s.length], the number of UTF-16 code units of the text: a character of
    one to three UTF-8 bytes is one unit, a character of four bytes is two. *)
Fixpoint String_length (s : string) : nat :=
  match s with
  | EmptyString => 0
  | String c rest =>
      let n := nat_of_ascii c in
      if (n <? 192)%nat then S (String_length rest)
      else if (n <? 224)%nat then
        match rest with
        | String _ rest2 => S (String_length rest2)
        | EmptyString => 1
        end
      else if (n <? 240)%nat then
        match rest with
        | String _ (String _ rest3) => S (String_length rest3)
        | _ => 1
        end
      else
        match rest with
        | String _ (String _ (String _ rest4)) => S (S (String_length rest4))
        | _ => 2
        end
  end%nat.

(** The line feed, and [lines.join('\n')]. *)
Definition LF : string := String (ascii_of_nat 10) EmptyString.

Fixpoint join_lines (lines : list string) : string :=
  match lines with
  | [] => ""
  | [line] => line
  | line :: rest => line +:+ LF +:+ join_lines rest
  end.

(** Three double quotes. *)
Definition QUOTES : string :=
  String (ascii_of_nat 34) (String (ascii_of_nat 34) (String (ascii_of_nat 34) EmptyString)).

(** [estimateTokenCount(text)]; the counts are natural numbers, which
    binary64 numbers hold exactly at these sizes, and [Math.ceil(n / 4)] is
    [(n + 3) / 4] on them. *)
Definition estimateTokenCount (text : string) : nat :=
  let trimmed := trim text in
  if negb (truthy trimmed) then 0%nat
  else ((String_length trimmed + 3) / 4)%nat.

(** [buildToonSystemPrompt(targetLang, sourceLang, context)]; every caller
    gives the key as the context. *)
Definition buildToonSystemPrompt (targetLang sourceLang context : string) : string :=
  let contextLine := if truthy context then "CTX:" +:+ context else "CTX:-" in
  join_lines
    [ "TOON/1";
      "SRC:" +:+ sourceLang;
      "TGT:" +:+ targetLang;
      "RULES:KEEP_MD,KEEP_VARS,NO_QUOTES,NO_FENCES,NO_LABELS,NO_ECHO,NO_PREFIX";
      "OUT:TEXT_ONLY";
      "VARS:{{x}},{x},%{x},%s,%d,{0},${x}";
      contextLine ].

Definition buildToonUserPrompt (text : string) : string :=
  QUOTES +:+ text +:+ QUOTES.

Definition buildToonPrompt (text targetLang sourceLang context : string) : string :=
  join_lines [ buildToonSystemPrompt targetLang sourceLang context;
               buildToonUserPrompt text ].

Module Estimate.

(** What translating everything that is missing would take. *)
Record TranslateAllEstimate := {
  missingCount : nat;
  promptTokens : nat;
  completionTokens : nat;
  totalTokens : nat;
  cost : option float
}.

(** [translateAllEstimate] of the component: the jobs of the active
    languages, with a cache of the source token counts by key. *)
Definition translateAllEstimate (keys : list TranslationKey)
    (values : gmap string (gmap string string)) (activeLanguages : list LanguageInfo)
    (sourceLangCode openAiModel : string) : TranslateAllEstimate :=
  let jobs := App.collectTranslateAllJobs keys values activeLanguages sourceLangCode in
  if bool_decide (jobs = []) then
    {| missingCount := 0; promptTokens := 0; completionTokens := 0; totalTokens := 0;
       cost := estimateOpenAiCost 0 0 openAiModel |}
  else
    let '(promptTokens, completionTokens, sourceTokenCache) :=
      foldl (λ '(promptTokens, completionTokens, sourceTokenCache) job,
               let prompt := buildToonPrompt (App.sourceText job) (App.targetLangName job)
                               (App.sourceLangName job) (App.keyName job) in
               let promptTokens := (promptTokens + estimateTokenCount prompt)%nat in
               match (sourceTokenCache : gmap string nat) !! App.keyId job with
               | Some sourceTokens =>
                   (promptTokens, (completionTokens + sourceTokens)%nat, sourceTokenCache)
               | None =>
                   let sourceTokens := estimateTokenCount (App.sourceText job) in
                   (promptTokens, (completionTokens + sourceTokens)%nat,
                    <[App.keyId job := sourceTokens]> sourceTokenCache)
               end)
            (0%nat, 0%nat, ∅) jobs in
    let totalTokens := (promptTokens + completionTokens)%nat in
    {| missingCount := length jobs; promptTokens := promptTokens;
       completionTokens := completionTokens; totalTokens := totalTokens;
       cost := estimateOpenAiCost (float_of_nat promptTokens)
                 (float_of_nat completionTokens) openAiModel |}.

(** [pendingEstimate] of the settings view, over all the languages. *)
Definition pendingEstimate (allLanguages : list LanguageInfo) (keys : list TranslationKey)
    (values : gmap string (gmap string string)) (sourceLangCode openAiModel : string)
  : TranslateAllEstimate :=
  let sourceName :=
    match List.find (λ lang, String.eqb (code lang) sourceLangCode) allLanguages with
    | Some lang => or_else (name lang) sourceLangCode
    | None => sourceLangCode
    end in
  let '(promptTokens, completionTokens, missingCount) :=
    foldl (λ acc k,
             let sourceText := App.textOf values (id k) sourceLangCode in
             if negb (truthy (trim sourceText)) then acc
             else
               let completion := estimateTokenCount sourceText in
               foldl (λ '(promptTokens, completionTokens, missingCount) lang,
                        if String.eqb (code lang) sourceLangCode
                        then (promptTokens, completionTokens, missingCount)
                        else
                          let current := App.textOf values (id k) (code lang) in
                          if (0 <? String_length (trim current))%nat
                          then (promptTokens, completionTokens, missingCount)
                          else
                            let targetName := or_else (name lang) (code lang) in
                            let prompt :=
                              buildToonPrompt sourceText targetName sourceName (key k) in
                            ((promptTokens + estimateTokenCount prompt)%nat,
                             (completionTokens + completion)%nat,
                             S missingCount))
                     acc allLanguages)
          (0%nat, 0%nat, 0%nat) keys in
  let totalTokens := (promptTokens + completionTokens)%nat in
  {| promptTokens := promptTokens; completionTokens := completionTokens;
     totalTokens := totalTokens; missingCount := missingCount;
     cost := estimateOpenAiCost (float_of_nat promptTokens)
               (float_of_nat completionTokens) openAiModel |}.

End Estimate.

(** A character that is no white space and begins none. *)
Definition solid (x : ascii) : Prop :=
  ws1 x = false ∧ (nat_of_ascii x < 128)%nat.

(** ** The dashboard *)

Module Dashboard.

(** [estimateTokens] of the dashboard, its own copy of the estimator. *)
Definition estimateTokens (text : string) : nat :=
  let trimmed := trim text in
  if negb (truthy trimmed) then 0%nat
  else ((String_length trimmed + 3) / 4)%nat.

(** The fields of a language, which the rows repeat. *)
Local Abbreviation langCode := code.
Local Abbreviation langName := name.

(** A row of [data], without its [percentage], a rounded quotient that is
    only drawn. *)
Record Row := {
  name : string;
  code : string;
  filled : nat;
  total : nat;
  missingTokens : nat;
  totalTokens : nat
}.

(** The row of a language: the loop over the keys. *)
Definition row (keys : list TranslationKey) (values : gmap string (gmap string string))
    (sourceLangCode : string) (lang : LanguageInfo) : Row :=
  let totalKeys := length keys in
  let '(filledCount, missingTokens, totalTokens) :=
    foldl (λ '(filledCount, missingTokens, totalTokens) key,
             let value := App.textOf values (id key) (langCode lang) in
             let sourceText := App.textOf values (id key) sourceLangCode in
             let estimated := estimateTokens sourceText in
             let totalTokens := (totalTokens + estimated)%nat in
             if (0 <? String_length (trim value))%nat
             then (S filledCount, missingTokens, totalTokens)
             else (filledCount, (missingTokens + estimated)%nat, totalTokens))
          (0%nat, 0%nat, 0%nat) keys in
  {| name := langName lang; code := langCode lang; filled := filledCount;
     total := totalKeys; missingTokens := missingTokens; totalTokens := totalTokens |}.

Definition data (keys : list TranslationKey) (values : gmap string (gmap string string))
    (languages : list LanguageInfo) (sourceLangCode : string) : list Row :=
  row keys values sourceLangCode <$> languages.

Definition totalSlots (keys : list TranslationKey) (languages : list LanguageInfo) : nat :=
  (length keys * length languages)%nat.

Definition filledSlots (rows : list Row) : nat :=
  foldl (λ acc curr, (acc + filled curr)%nat) 0%nat rows.

Definition totalMissingTokens (rows : list Row) : nat :=
  foldl (λ acc curr, (acc + missingTokens curr)%nat) 0%nat rows.

End Dashboard.

(** ** The search for the folder *)

Module Search.

(** An entry of a directory, as [fs.readdirSync] gives it with
    [withFileTypes]. *)
Record Dirent := { name : string; isDirectory : bool }.

(** An element of the queue. *)
Record Visit := { dir : string; depth : nat }.

Definition skip : list string :=
  ["node_modules"; "dist"; "out"; "coverage"; ".git"; ".vscode"; ".vscode-test"; "media"].

Definition maxDepth : nat := 6.

Section Search.

(** The file system and the library: [readdirSync dir] is the listing of a
    directory, [None] when the call throws; [path_join] is [path.join], and
    [lowerCase] is [toLowerCase] of the engine. *)
Context (readdirSync : string → option (list Dirent))
        (path_join : string → string → string)
        (lowerCase : string → string).

(** The loop over the entries of [current]: the path found, or the queue
    with the folders to visit later. *)
Fixpoint scanEntries (target : string) (current : Visit) (entries : list Dirent)
    (queue : list Visit) : string + list Visit :=
  match entries with
  | [] => inr queue
  | entry :: rest =>
      if negb (isDirectory entry) then scanEntries target current rest queue
      else
        let lower := lowerCase (name entry) in
        let fullPath := path_join (dir current) (name entry) in
        if String.eqb lower target then inl fullPath
        else if includes skip lower || startsWith (name entry) "." then
          scanEntries target current rest queue
        else if (depth current <? maxDepth)%nat then
          scanEntries target current rest
            (queue ++ [{| dir := fullPath; depth := S (depth current) |}])
        else scanEntries target current rest queue
  end.

(** The loop over the queue; [None] when [fuel] rounds do not empty it. *)
Fixpoint searchQueue (fuel : nat) (target : string) (queue : list Visit)
  : option (option string) :=
  match fuel with
  | O => None
  | S fuel =>
      match queue with
      | [] => Some None
      | current :: queue =>
          match readdirSync (dir current) with
          | None => searchQueue fuel target queue
          | Some entries =>
              match scanEntries target current entries queue with
              | inl fullPath => Some (Some fullPath)
              | inr queue => searchQueue fuel target queue
              end
          end
      end
  end.

Definition findFolderByName (fuel : nat) (root folderName : string)
  : option (option string) :=
  let target := lowerCase folderName in
  searchQueue fuel target [{| dir := root; depth := 0 |}].

(** A folder that the search would list: the root, and below a listed folder
    less than [maxDepth] levels down every folder that is neither in [skip]
    nor hidden. *)
Inductive visited (root : string) : string → nat → Prop :=
  | visited_root : visited root root 0
  | visited_entry (parent : string) (d : nat) (entries : list Dirent) (entry : Dirent) :
      visited root parent d →
      (d < maxDepth)%nat →
      readdirSync parent = Some entries →
      entry ∈ entries →
      isDirectory entry = true →
      includes skip (lowerCase (name entry)) = false →
      startsWith (name entry) "." = false →
      visited root (path_join parent (name entry)) (S d).

(** A folder of the wanted name in a listed folder [d] levels down. *)
Definition candidate (root folderName fullPath : string) (d : nat) : Prop :=
  ∃ parent entries entry,
    visited root parent d
    ∧ readdirSync parent = Some entries
    ∧ entry ∈ entries
    ∧ isDirectory entry = true
    ∧ lowerCase (name entry) = lowerCase folderName
    ∧ fullPath = path_join parent (name entry).

(** The search level by level: the match in the listing of a folder, the
    folders its listing adds to the queue, and the folders of a level. *)
Definition matches (target : string) (entry : Dirent) : bool :=
  isDirectory entry && String.eqb (lowerCase (name entry)) target.

Definition enters (entry : Dirent) : bool :=
  isDirectory entry
  && negb (includes skip (lowerCase (name entry)) || startsWith (name entry) ".").

Definition foundIn (target : string) (current : Visit) : option string :=
  match readdirSync (dir current) with
  | None => None
  | Some entries =>
      (λ entry, path_join (dir current) (name entry)) <$> List.find (matches target) entries
  end.

Definition added (current : Visit) : list Visit :=
  match readdirSync (dir current) with
  | None => []
  | Some entries =>
      if (depth current <? maxDepth)%nat then
        (λ entry, {| dir := path_join (dir current) (name entry);
                     depth := S (depth current) |})
        <$> List.filter enters entries
      else []
  end.

Fixpoint level (root : string) (n : nat) : list Visit :=
  match n with
  | O => [{| dir := root; depth := 0 |}]
  | S n => level root n ≫= added
  end.

(** The first match of a list of folders. *)
Fixpoint firstFound (target : string) (queue : list Visit) : option string :=
  match queue with
  | [] => None
  | current :: queue =>
      match foundIn target current with
      | Some fullPath => Some fullPath
      | None => firstFound target queue
      end
  end.

End Search.

(** A workspace tree: a copy of the folder under [node_modules], and the
    folder itself under [src], in capitals. *)
Definition sampleListing (dir : string) : option (list Dirent) :=
  if String.eqb dir "/work" then
    Some [ {| name := "package.json"; isDirectory := false |};
           {| name := "node_modules"; isDirectory := true |};
           {| name := "src"; isDirectory := true |};
           {| name := ".git"; isDirectory := true |} ]
  else if String.eqb dir "/work/node_modules" then
    Some [ {| name := "i18n"; isDirectory := true |} ]
  else if String.eqb dir "/work/src" then
    Some [ {| name := "app"; isDirectory := true |};
           {| name := "I18N"; isDirectory := true |} ]
  else if String.eqb dir "/work/src/app" then Some []
  else None.

(** [path.join] of a folder and a name in it, on a POSIX system. *)
Definition posix_join (dir name : string) : string := dir +:+ "/" +:+ name.

End Search.

(** ** Adding a key *)

Module QuickAdd.
Import App.

(** What adding a key does to the outside besides the effects of a run: the
    alert, and the [addKey] message to the host. In [handleQuickAdd] they
    come before every effect of the run. *)
Inductive KeyEffect :=
  | Alert (message : string)
  | PostAddKey (key sourceLang value : string).

Definition setKeys (f : list TranslationKey → list TranslationKey) (st : State) : State :=
  {| keys := f (keys st); values := values st; languages := languages st;
     activeLangCodes := activeLangCodes st; sourceLangCode := sourceLangCode st;
     openAiApiKey := openAiApiKey st; openAiModel := openAiModel st;
     tokenReport := tokenReport st; currentView := currentView st;
     vscodeApi := vscodeApi st |}.

(** [addKeyInternal(keyName, initialValue, { silent })]. *)
Definition addKeyInternal (keyName initialValue : string) (silent : bool) (st : State)
  : bool * list KeyEffect * State :=
  if existsb (λ k, String.eqb (key k) keyName) (keys st) then
    (false, if silent then [] else [Alert "errors.keyExists"], st)
  else
    let newKey := {| id := keyName; key := keyName; tags := [] |} in
    let st1 := setKeys (λ prev, prev ++ [newKey]) st in
    let st2 := setValues (saveCell keyName (sourceLangCode st) initialValue) st1 in
    (true,
     if vscodeApi st then [PostAddKey keyName (sourceLangCode st) initialValue] else [],
     st2).

Definition handleAddKey (keyName initialValue : string) (st : State)
  : list KeyEffect * State :=
  let '(_, posted, st') := addKeyInternal keyName initialValue false st in
  (posted, st').

Section QuickAdd.
Context (provider : nat → Request → Reply).
Context (Date_now : nat → string).

(** The loop of [handleQuickAdd] over the targets, with the key, the
    model and the names that the handler read when it began. *)
Fixpoint translateTargets (sourceValue sourceName trimmedKey : string)
    (openAiApiKey openAiModel : string) (total done : nat)
    (targets : list LanguageInfo) (r : Run) : Outcome * Run :=
  match targets with
  | [] => ({| ok := true; error := None |}, r)
  | lang :: rest =>
      match translateText provider Date_now sourceValue (or_else (name lang) (code lang))
              sourceName trimmedKey openAiApiKey openAiModel (code lang) r with
      | (Some translated, r1) =>
          let r2 := handleSave trimmedKey (code lang) translated true r1 in
          let r3 := emit (OnProgress (S done) total) r2 in
          translateTargets sourceValue sourceName trimmedKey openAiApiKey openAiModel
            total (S done) rest r3
      | (None, r1) =>
          ({| ok := false; error := Some "errors.translationFailed" |},
           emit (OnProgress (S done) total) r1)
      end
  end.

Definition handleQuickAdd (keyName sourceValue : string) (r : Run)
  : Outcome * list KeyEffect * Run :=
  let st := state r in
  let trimmedKey := trim keyName in
  if negb (truthy trimmedKey) then
    ({| ok := false; error := Some "errors.keyRequired" |}, [], r)
  else
    let targets :=
      List.filter (λ lang, negb (String.eqb (code lang) (sourceLangCode st)))
        (activeLanguages st) in
    if (0 <? length targets)%nat && negb (truthy (openAiApiKey st)) then
      ({| ok := false; error := Some "errors.openAiKeyMissing" |}, [], r)
    else
      match addKeyInternal trimmedKey sourceValue true st with
      | (false, posted, _) =>
          ({| ok := false; error := Some "errors.keyExists" |}, posted, r)
      | (true, posted, st') =>
          let r1 := setState (λ _, st') r in
          if negb (truthy (trim sourceValue)) || (length targets =? 0)%nat then
            ({| ok := true; error := None |}, posted, r1)
          else
            let sourceName :=
              match List.find (λ lang, String.eqb (code lang) (sourceLangCode st))
                      (activeLanguages st) with
              | Some lang => or_else (name lang) (sourceLangCode st)
              | None => sourceLangCode st
              end in
            let r2 := emit (OnProgress 0 (length targets)) r1 in
            let '(outcome, r3) :=
              translateTargets sourceValue sourceName trimmedKey (openAiApiKey st)
                (openAiModel st) (length targets) 0 targets r2 in
            (outcome, posted, r3)
      end.

End QuickAdd.

(** The request of the quick add for a target language. *)
Definition requestFor (st : State) (trimmedKey sourceValue : string) (lang : LanguageInfo)
  : Request :=
  {| text := sourceValue;
     targetLang := or_else (name lang) (code lang);
     sourceLang :=
       match List.find (λ lang, String.eqb (code lang) (sourceLangCode st))
               (activeLanguages st) with
       | Some lang => or_else (name lang) (sourceLangCode st)
       | None => sourceLangCode st
       end;
     context := trimmedKey;
     apiKey := openAiApiKey st;
     model := or_else (openAiModel st) DEFAULT_OPENAI_MODEL |}.

(** The languages a quick add translates into. *)
Definition targetsOf (st : State) : list LanguageInfo :=
  List.filter (λ lang, negb (String.eqb (code lang) (sourceLangCode st)))
    (activeLanguages st).

(** The table after the translations into some languages were saved for a key. *)
Definition savedTargets (keyId : string) (values : gmap string (gmap string string))
    (saved : list (LanguageInfo * string)) : gmap string (gmap string string) :=
  foldl (λ values '(lang, translated), saveCell keyId (code lang) translated values)
        values saved.

End QuickAdd.

(** ** The reply of the provider, unwrapped *)

Module Normalize.

(** The classes of one character in the patterns: [\s], [[\s\S]] and
    [[a-zA-Z0-9_-]]. *)
Inductive CharClass := Space | AnyChar | TagChar.

Definition isTagChar (a : ascii) : bool :=
  let n := nat_of_ascii a in
  ((97 <=? n)%nat && (n <=? 122)%nat) || ((65 <=? n)%nat && (n <=? 90)%nat)
  || ((48 <=? n)%nat && (n <=? 57)%nat) || (n =? 95)%nat || (n =? 45)%nat.

(** One character of the class at the head of the text: what follows it.
    White space is the white space of [trim]. [[\s\S]] takes one byte, not
    one UTF-16 unit: the patterns go on with white space or an ASCII quote,
    which begin inside no character, so the captures are the same. *)
Definition step (c : CharClass) (s : string) : option string :=
  match c, s with
  | _, EmptyString => None
  | Space, String a rest =>
      if ws1 a then Some rest
      else match rest with
           | String b rest2 =>
               if ws2 a b then Some rest2
               else match rest2 with
                    | String c rest3 => if ws3 a b c then Some rest3 else None
                    | EmptyString => None
                    end
           | EmptyString => None
           end
  | AnyChar, String _ rest => Some rest
  | TagChar, String a rest => if isTagChar a then Some rest else None
  end.

(** The patterns, without their anchors and their group. *)
Inductive Regex :=
  | Chars (text : string)
  | Greedy (c : CharClass)
  | Lazy (c : CharClass)
  | Plus (c : CharClass)
  | Maybe (r : Regex)
  | Either (a b : Regex)
  | Then (a b : Regex).

(** [/^before(inside)after$/]. *)
Record Pattern := { before : Regex; inside : Regex; after : Regex }.

Fixpoint stripPrefix (p s : string) : option string :=
  match p, s with
  | EmptyString, _ => Some s
  | String a p', String b s' => if Ascii.eqb a b then stripPrefix p' s' else None
  | String _ _, EmptyString => None
  end.

(** The ways a starred class matches at the head of the text, as what each
    leaves, in the order the engine tries them: a greedy star the longest
    first, a lazy one the shortest. *)
Fixpoint greedy (fuel : nat) (c : CharClass) (s : string) : list string :=
  match fuel with
  | O => [s]
  | S fuel =>
      match step c s with
      | Some rest => greedy fuel c rest ++ [s]
      | None => [s]
      end
  end.

Fixpoint lazy (fuel : nat) (c : CharClass) (s : string) : list string :=
  match fuel with
  | O => [s]
  | S fuel =>
      s :: match step c s with
           | Some rest => lazy fuel c rest
           | None => []
           end
  end.

(** The ways an expression matches at the head of the text, in the order
    of the backtracking engine. *)
Fixpoint run (r : Regex) (s : string) : list string :=
  match r with
  | Chars text =>
      match stripPrefix text s with
      | Some rest => [rest]
      | None => []
      end
  | Greedy c => greedy (String.length s) c s
  | Lazy c => lazy (String.length s) c s
  | Plus c =>
      match step c s with
      | Some rest => greedy (String.length rest) c rest
      | None => []
      end
  | Maybe r => run r s ++ [s]
  | Either a b => run a s ++ run b s
  | Then a b => run a s ≫= run b
  end.

(** [text.match(pattern)]: the group of the first way to match the whole
    text, [None] when there is none. *)
Definition String_match (pattern : Pattern) (text : string) : option string :=
  head (s1 ← run (before pattern) text;
        s2 ← run (inside pattern) s1;
        s3 ← run (after pattern) s2;
        if String.eqb s3 "" then [String.substring 0 (String.length s1 - String.length s2) s1]
        else []).

Definition BACKTICKS : string := "```".
Definition QUOTE : string := String (ascii_of_nat 34) EmptyString.
Definition APOSTROPHE : string := "'".

(** The four patterns of [normalizeTranslationOutput]. *)
Definition fenced : Pattern :=
  {| before := Then (Chars BACKTICKS) (Then (Maybe (Plus TagChar)) (Greedy Space));
     inside := Lazy AnyChar;
     after := Then (Greedy Space) (Chars BACKTICKS) |}.

Definition tripleQuoted : Pattern :=
  {| before := Then (Either (Chars QUOTES) (Chars "'''")) (Greedy Space);
     inside := Lazy AnyChar;
     after := Then (Greedy Space) (Either (Chars QUOTES) (Chars "'''")) |}.

Definition doubleQuoted : Pattern :=
  {| before := Chars QUOTE; inside := Greedy AnyChar; after := Chars QUOTE |}.

Definition singleQuoted : Pattern :=
  {| before := Chars APOSTROPHE; inside := Greedy AnyChar; after := Chars APOSTROPHE |}.

(** [unwrap(pattern)]: the new text, when the pattern matches. *)
Definition unwrap (pattern : Pattern) (text : string) : option string :=
  trim <$> String_match pattern text.

(** One round of the loop: the first pattern that matches. *)
Definition unwrapOnce (text : string) : option string :=
  match unwrap fenced text with
  | Some text' => Some text'
  | None =>
      match unwrap tripleQuoted text with
      | Some text' => Some text'
      | None =>
          match unwrap doubleQuoted text with
          | Some text' => Some text'
          | None => unwrap singleQuoted text
          end
      end
  end.

(** The loop, with [rounds] rounds left before the guard ends it. *)
Fixpoint unwrapLoop (rounds : nat) (text : string) : string :=
  match rounds with
  | O => text
  | S rounds =>
      match unwrapOnce text with
      | Some text' => unwrapLoop rounds text'
      | None => text
      end
  end.

Definition normalizeTranslationOutput (raw : string) : string :=
  let text := trim raw in
  if negb (truthy text) then text
  else unwrapLoop 4 text.

(** The character opens one of the patterns: a backtick, a double quote or
    an apostrophe. *)
Definition wrapper (a : ascii) : bool :=
  let n := nat_of_ascii a in (n =? 96)%nat || (n =? 34)%nat || (n =? 39)%nat.

(** The text begins with none of them. *)
Definition plain (text : string) : Prop :=
  match text with
  | EmptyString => True
  | String a _ => wrapper a = false
  end.

(** Every character of the text passes the test. *)
Fixpoint every (test : ascii → bool) (s : string) : bool :=
  match s with
  | EmptyString => true
  | String a rest => test a && every test rest
  end.

(** The text is empty, or begins and ends with a character that is no white
    space and begins none. *)
Definition solidEnds (s : string) : Prop :=
  match s, String.rev s with
  | String x _, String y _ => solid x ∧ solid y
  | _, _ => True
  end.

End Normalize.



(** ** The web view takes a load *)

(** The [init] message carries the payload to the web view: the codes of
    the languages, the keys, the source language and the status arrive as
    they are, and so does every cell that holds a string. *)
Definition carried (host : Host.InitPayload) (payload : InitPayload) : Prop :=
  code <$> languages payload = Host.code <$> Host.languages host
  ∧ keys payload = Host.keys host
  ∧ sourceLangCode payload = Host.sourceLangCode host
  ∧ status payload = Host.status host
  ∧ ∀ key lang text,
      (Host.values host !! key ≫= λ row, row !! lang) = Some (Own text) →
      (values payload !! key ≫= λ row, row !! lang) = Some text.

(** The handler of the [init] message, on the parts of the state kept here;
    it also sets the locale, the folder name and the status line. The host
    always sends the lists, the table and the report, so that their [||]
    defaults are not taken. *)
Definition handleInit (payload : InitPayload) (st : App.State) : App.State :=
  let codes := code <$> languages payload in
  {| App.keys := keys payload;
     App.values := values payload;
     App.languages := languages payload;
     App.activeLangCodes := codes;
     App.sourceLangCode :=
       or_else (sourceLangCode payload) (or_else (default "" (head codes)) "en");
     App.openAiApiKey := or_else (payloadApiKey payload) "";
     App.openAiModel := or_else (payloadModel payload) "gpt-5-nano-2025-08-07";
     App.tokenReport := tokenReport payload;
     App.currentView := App.currentView st;
     App.vscodeApi := App.vscodeApi st |}.

(** ** The pages of the list *)

Module Paging.








End Paging.

(** ** More sample catalogs *)


(** A folder with four languages, one of them outside the popularity list. *)
Definition mixedWorkspace : Workspace :=
  {| root := Some "/work"; i18nFolder := "i18n"; sourceLanguage := "en";
     openaiApiKey := ""; openaiModel := "gpt-5-nano-2025-08-07";
     storedTokenReport := None; locale := "en";
     i18nDir := Some (<["xx" := Written (DRecord [])]>
                        (<["pt-BR" := Written (DRecord [])]>
                           (<["de" := Written (DRecord [])]>
                              {[ "en" := Written (DRecord [("b", JStr "B"); ("a", JStr "A")]) ]}))) |}.

(** A provider that answers every request. *)
Definition echoProvider (n : nat) (request : App.Request) : App.Reply :=
  App.Returned ("[" +:+ App.targetLang request +:+ "] " +:+ App.text request) None.

(** * Properties *)

(** ** Cost table *)

Lemma pricing_models (model : string) (pricing : OpenAiPricing) :
  OPENAI_PRICING_PER_MILLION !! model = Some pricing →
  model ∈ ["gpt-4o-mini"; "gpt-4o"; "gpt-4.1-mini"; "gpt-4.1"].
Proof.
  intros Hm. apply elem_of_list_to_map_2 in Hm.
  exact (list_elem_of_fmap_2 fst _ _ Hm).
Qed.

Lemma includes_spec (l : list string) (x : string) : includes l x = true ↔ x ∈ l.
Proof.
  unfold includes. rewrite List.existsb_exists. setoid_rewrite String.eqb_eq.
  setoid_rewrite <- list_elem_of_In. naive_solver.
Qed.

Lemma inherits_spec (name : string) : inherits name = true ↔ name ∈ OBJECT_PROTOTYPE.
Proof. apply includes_spec. Qed.

Lemma lookupMember_None {A} (record : gmap string A) (name : string) :
  lookupMember record name = None ↔ record !! name = None ∧ inherits name = false.
Proof.
  unfold lookupMember. destruct (record !! name), (inherits name); naive_solver.
Qed.

Lemma lookupMember_own {A} (record : gmap string A) (name : string) (a : A) :
  record !! name = Some a → lookupMember record name = Some (Own a).
Proof. intros H. unfold lookupMember. by rewrite H. Qed.

Lemma lookupMember_inherited {A} (record : gmap string A) (name : string) :
  record !! name = None → inherits name = true →
  lookupMember record name = Some (Inherited name).
Proof. intros H1 H2. unfold lookupMember. by rewrite H1, H2. Qed.

(** C8. What [estimateOpenAiCost] returns, model by model. For a model of
    the price table it is
    [promptTokens / 1e6 * prompt + completionTokens / 1e6 * completion] with
    that model's prices, and the number zero, which is not negative, at zero
    tokens. It is [null] exactly for a model that is neither a key of the
    table nor the name of a member of [Object.prototype]. For such a name,
    which is not a key of the table, the lookup finds the inherited member,
    the test [!pricing] lets it pass, and the result is a number and not
    [null]: the sum of two products with [undefined], which is [NaN], as for
    the model [constructor] at a thousand and two thousand tokens. *)
Theorem estimateOpenAiCost_spec :
  (∀ promptTokens completionTokens model,
     estimateOpenAiCost promptTokens completionTokens model = None
     ↔ model ∉ dom OPENAI_PRICING_PER_MILLION ∧ model ∉ OBJECT_PROTOTYPE)
  ∧ (∀ promptTokens completionTokens model pricing,
       OPENAI_PRICING_PER_MILLION !! model = Some pricing →
       estimateOpenAiCost promptTokens completionTokens model
       = Some (promptTokens / 1000000 * prompt pricing
               + completionTokens / 1000000 * completion pricing)%float)
  ∧ (∀ model,
       model ∈ dom OPENAI_PRICING_PER_MILLION →
       estimateOpenAiCost 0 0 model = Some 0%float
       ∧ PrimFloat.leb 0 0 = true)
  ∧ (∀ promptTokens completionTokens model,
       model ∈ OBJECT_PROTOTYPE →
       model ∉ dom OPENAI_PRICING_PER_MILLION
       ∧ estimateOpenAiCost promptTokens completionTokens model
         = Some (promptTokens / 1000000 * PrimFloat.nan
                 + completionTokens / 1000000 * PrimFloat.nan)%float)
  ∧ "constructor" ∉ dom OPENAI_PRICING_PER_MILLION
  ∧ estimateOpenAiCost 1000 2000 "constructor" = Some PrimFloat.nan.
Proof.
  assert (∀ model, model ∈ OBJECT_PROTOTYPE → OPENAI_PRICING_PER_MILLION !! model = None)
    as Hmembers.
  { intros model Hin.
    repeat (apply elem_of_cons in Hin as [->|Hin]; [reflexivity|]).
    by apply elem_of_nil in Hin. }
  split_and!.
  - intros p c model. unfold estimateOpenAiCost.
    rewrite not_elem_of_dom, <- inherits_spec, not_true_iff_false.
    rewrite <- lookupMember_None.
    destruct (lookupMember _ model); split; congruence.
  - intros p c model pricing Hm. unfold estimateOpenAiCost.
    by rewrite (lookupMember_own _ _ _ Hm).
  - intros model [pricing Hm]%elem_of_dom.
    split; [|reflexivity].
    pose proof (pricing_models _ _ Hm) as Hin.
    repeat (apply elem_of_cons in Hin as [->|Hin]; [reflexivity..|]).
    by apply elem_of_nil in Hin.
  - intros p c model Hin. split; [by apply not_elem_of_dom, Hmembers|].
    unfold estimateOpenAiCost.
    rewrite lookupMember_inherited; [done|by apply Hmembers|by apply inherits_spec].
  - by apply not_elem_of_dom.
  - reflexivity.
Qed.

(** The price of a thousand prompt tokens and two thousand completion tokens
    with [gpt-4o-mini], by the formula; and with [toString], which the table
    does not list: a number. *)
Lemma estimateOpenAiCost_spec_witness :
  estimateOpenAiCost 1000 2000 "gpt-4o-mini"
  = Some (1000 / 1000000 * 0x1.3333333333333p-3
          + 2000 / 1000000 * 0x1.3333333333333p-1)%float
  ∧ estimateOpenAiCost 0 0 "gpt-4.1" = Some 0%float
  ∧ estimateOpenAiCost 1000 2000 "toString" ≠ None.
Proof.
  split; [|split].
  - exact (proj1 (proj2 estimateOpenAiCost_spec) 1000%float 2000%float "gpt-4o-mini"
             {| prompt := 0x1.3333333333333p-3; completion := 0x1.3333333333333p-1 |}
             eq_refl).
  - refine (proj1 (proj1 (proj2 (proj2 estimateOpenAiCost_spec)) "gpt-4.1" _)).
    apply elem_of_dom. eexists. reflexivity.
  - rewrite (proj2 (proj1 (proj2 (proj2 (proj2 estimateOpenAiCost_spec)))
                      1000%float 2000%float "toString"
                      ltac:(apply inherits_spec; reflexivity))).
    discriminate.
Defined.

(** C10. The default model is not a key of the price table, so the estimate
    for it is [null] whatever the token counts. *)
Theorem default_model_cost_unknown :
  OPENAI_PRICING_PER_MILLION !! DEFAULT_OPENAI_MODEL = None
  ∧ DEFAULT_OPENAI_MODEL = "gpt-5-nano-2025-08-07"
  ∧ ∀ promptTokens completionTokens,
      estimateOpenAiCost promptTokens completionTokens "gpt-5-nano-2025-08-07" = None.
Proof.
  assert (OPENAI_PRICING_PER_MILLION !! DEFAULT_OPENAI_MODEL = None) as H
    by (vm_compute; reflexivity).
  split; [exact H|]. split; [reflexivity|].
  intros p c. unfold estimateOpenAiCost.
  change "gpt-5-nano-2025-08-07" with DEFAULT_OPENAI_MODEL.
  assert (lookupMember OPENAI_PRICING_PER_MILLION DEFAULT_OPENAI_MODEL = None) as ->; [|done].
  apply lookupMember_None. split; [exact H|reflexivity].
Qed.

(** ** Reading a language file *)

Section ReadJsonFile.
Context (JSON_parse : string → option json).

Lemma stripBOM_BOM (text : string) : stripBOM (BOM +:+ text) = text.
Proof. reflexivity. Qed.

Lemma objectOrEmpty_not_object (parsed : json) :
  typeof parsed ≠ "object" ∨ parsed = JNull → objectOrEmpty parsed = DRecord [].
Proof. intros [H| ->]; [|done]. by destruct parsed. Qed.

(** C7. What [readJsonFile] does, case by case. A missing file reads as the
    empty object; a leading byte order mark is dropped before the text is
    parsed; a text that does not parse reads as the empty object, and so does
    one whose top-level value is not of type ['object'] or is [null]; a
    top-level object is returned. Two cases are not lenient: a top-level
    array, which is of type ['object'], is returned as it is and not as the
    empty object; and an entry that [fs.readFileSync] cannot read makes the
    call throw, the read standing outside the [try]. *)
Theorem readJsonFile_lenient (dir : Dir) (file : string) :
  (dir !! file = None → readJsonFile JSON_parse dir file = Some (DRecord []))
  ∧ (∀ text, dir !! file = Some (Raw (BOM +:+ text)) →
       readJsonFile JSON_parse dir file
       = Some match JSON_parse text with
              | Some parsed => objectOrEmpty parsed
              | None => DRecord []
              end)
  ∧ (∀ text, dir !! file = Some (Raw text) →
       JSON_parse (stripBOM text) = None →
       readJsonFile JSON_parse dir file = Some (DRecord []))
  ∧ (∀ text parsed, dir !! file = Some (Raw text) →
       JSON_parse (stripBOM text) = Some parsed →
       (typeof parsed ≠ "object" ∨ parsed = JNull →
          readJsonFile JSON_parse dir file = Some (DRecord []))
       ∧ (∀ o, parsed = JObj o → readJsonFile JSON_parse dir file = Some (DRecord o))
       ∧ (∀ items, parsed = JArr items →
            readJsonFile JSON_parse dir file = Some (DArray items)))
  ∧ (∀ data, dir !! file = Some (Written data) →
       readJsonFile JSON_parse dir file = Some (printedDocument data))
  ∧ (dir !! file = Some Unreadable → readJsonFile JSON_parse dir file = None).
Proof.
  unfold readJsonFile. split_and!.
  - by intros ->.
  - intros text ->. rewrite stripBOM_BOM. by destruct (JSON_parse text).
  - by intros text -> ->.
  - intros text parsed -> ->. split_and!.
    + intros Hno. by rewrite objectOrEmpty_not_object.
    + by intros o ->.
    + by intros items ->.
  - by intros data ->.
  - by intros ->.
Qed.

End ReadJsonFile.

(** A folder whose [en.json] holds text that does not parse, under a parser
    that rejects every text: the file reads as the empty object. A file
    that holds the array [["x"]] reads as that array, and a directory named
    [fr.json] makes the call throw. *)
Lemma readJsonFile_lenient_witness :
  readJsonFile rejectAll {["en" := Raw "{oops"]} "en" = Some (DRecord [])
  ∧ readJsonFile rejectAll {["en" := Written (DArray [JStr "x"])]} "en"
    = Some (DArray [JStr "x"])
  ∧ readJsonFile rejectAll {["fr" := Unreadable]} "fr" = None.
Proof.
  split; [|split].
  - exact (proj1 (proj2 (proj2 (readJsonFile_lenient rejectAll
             {["en" := Raw "{oops"]} "en"))) "{oops" eq_refl eq_refl).
  - exact (proj1 (proj2 (proj2 (proj2 (proj2 (readJsonFile_lenient rejectAll
             {["en" := Written (DArray [JStr "x"])]} "en")))))
             (DArray [JStr "x"]) eq_refl).
  - exact (proj2 (proj2 (proj2 (proj2 (proj2 (readJsonFile_lenient rejectAll
             {["fr" := Unreadable]} "fr"))))) eq_refl).
Defined.

(** ** Job discovery *)

Section CollectJobs.
Import App.

Lemma push_loop {A B} (skip : A → bool) (f : A → B) (l : list A) (acc : list B) :
  foldl (λ jobs x, if skip x then jobs else jobs ++ [f x]) acc l
  = acc ++ (f <$> List.filter (λ x, negb (skip x)) l).
Proof.
  revert acc. induction l as [|x l IH]; intros acc; simpl.
  - by rewrite app_nil_r.
  - rewrite IH. destruct (skip x); simpl; [done|].
    by rewrite <- app_assoc.
Qed.

Lemma nested_loop {A B} (skip : A → bool) (inner : A → list B) (l : list A)
    (acc : list B) :
  foldl (λ jobs x, if skip x then jobs else jobs ++ inner x) acc l
  = acc ++ (List.filter (λ x, negb (skip x)) l ≫= inner).
Proof.
  revert acc. induction l as [|x l IH]; intros acc; simpl.
  - by rewrite app_nil_r.
  - rewrite IH. destruct (skip x); simpl; [done|].
    by rewrite <- app_assoc.
Qed.

Lemma filter_and {A} (p q : A → bool) (l : list A) :
  List.filter (λ x, p x && q x) l = List.filter q (List.filter p l).
Proof.
  induction l as [|x l IH]; simpl; [done|].
  destruct (p x); simpl; [|done]. destruct (q x); by rewrite IH.
Qed.

Lemma bind_all_nil {A B} (f : A → list B) (l : list A) :
  (∀ x, x ∈ l → f x = []) → l ≫= f = [].
Proof.
  induction l as [|x l IH]; intros H; [done|].
  rewrite bind_cons, (H x), IH; [done| |by left].
  intros y Hy. apply H. by right.
Qed.

Lemma collect_loop values languages sourceLangCode sourceLangName (keys : list TranslationKey) acc :
  sourceLangName = match List.find (λ lang, String.eqb (code lang) sourceLangCode) languages with
       | Some lang => or_else (name lang) sourceLangCode
       | None => sourceLangCode
       end →
  foldl (λ jobs k,
               let sourceText := textOf values (id k) sourceLangCode in
               if negb (truthy (trim sourceText)) then jobs
               else
                 foldl (λ jobs target,
                          let existing := textOf values (id k) (code target) in
                          if truthy (trim existing) then jobs
                          else jobs ++ [ {| keyId := id k;
                                            keyName := key k;
                                            sourceText := sourceText;
                                            targetLangCode := code target;
                                            targetLangName := or_else (name target) (code target);
                                            sourceLangName := sourceLangName |} ])
                       jobs (List.filter (λ lang, negb (String.eqb (code lang) sourceLangCode)) languages))
            acc keys
  = acc ++ (jobFor values languages sourceLangCode
    <$> missingTranslations keys values languages sourceLangCode).
Proof.
  intros ->. unfold missingTranslations.
  revert acc. induction keys as [|k keys IH]; intros acc; simpl.
  - by rewrite app_nil_r.
  - rewrite IH. clear IH.
    destruct (truthy (trim (textOf values (id k) sourceLangCode))) eqn:Hsrc; simpl; [|done].
    rewrite (push_loop (λ target, truthy (trim (textOf values (id k) (code target))))
               (λ target, jobFor values languages sourceLangCode (k, target))).
    fold (mbind (M:=list) (λ k0 : TranslationKey,
        List.filter
          (λ l : LanguageInfo,
             negb (code l =? sourceLangCode)%string &&
             negb (truthy (trim (textOf values (id k0) (code l)))))
          languages
        ≫= λ l : LanguageInfo, [(k0, l)])).
    rewrite fmap_app, <- app_assoc. f_equal. f_equal.
    rewrite filter_and.
    induction (List.filter _ (List.filter _ languages)) as [|l ls IHl]; [done|].
    rewrite fmap_cons, IHl. reflexivity.
Qed.

Lemma filter_none {A} (p : A → bool) (l : list A) :
  (∀ x, x ∈ l → p x = false) → List.filter p l = [].
Proof.
  induction l as [|x l IH]; intros H; simpl; [done|].
  rewrite (H x) by left. apply IH. intros y Hy. apply H. by right.
Qed.

Lemma elem_of_List_filter {A} (p : A → bool) (l : list A) (x : A) :
  x ∈ List.filter p l ↔ x ∈ l ∧ p x = true.
Proof. rewrite !list_elem_of_In. apply List.filter_In. Qed.

Lemma NoDup_List_filter {A} (p : A → bool) (l : list A) :
  NoDup l → NoDup (List.filter p l).
Proof. rewrite !NoDup_ListNoDup. apply List.NoDup_filter. Qed.

Lemma elem_of_missingTranslations keys values languages sourceLangCode k l :
  (k, l) ∈ missingTranslations keys values languages sourceLangCode
  ↔ k ∈ keys ∧ l ∈ languages ∧ code l ≠ sourceLangCode
    ∧ trim (textOf values (id k) sourceLangCode) ≠ ""
    ∧ trim (textOf values (id k) (code l)) = "".
Proof.
  unfold missingTranslations. rewrite list_elem_of_bind.
  setoid_rewrite list_elem_of_bind. setoid_rewrite list_elem_of_singleton.
  setoid_rewrite elem_of_List_filter. unfold truthy.
  split.
  - intros (k' & (l' & [= -> ->] & Hl & Hp) & Hk & Hsrc).
    apply andb_true_iff in Hp as [Hne Hblank].
    apply negb_true_iff in Hne, Hsrc, Hblank. apply negb_false_iff in Hblank.
    apply String.eqb_neq in Hne, Hsrc. apply String.eqb_eq in Hblank. done.
  - intros (Hk & Hl & Hne & Hsrc & Hblank).
    exists k. split; [exists l; split; [done|split; [done|]]|split; [done|]].
    + apply andb_true_iff. rewrite Hblank. split; [|done].
      apply negb_true_iff. by apply String.eqb_neq.
    + apply negb_true_iff. by apply String.eqb_neq.
Qed.

Lemma NoDup_missingTranslations keys values languages sourceLangCode :
  NoDup keys → NoDup languages →
  NoDup (missingTranslations keys values languages sourceLangCode).
Proof.
  intros Hkeys Hlangs. unfold missingTranslations.
  apply NoDup_bind.
  - intros k1 k2 [k l] _ _ (l1 & ?%list_elem_of_singleton & _)%list_elem_of_bind
      (l2 & ?%list_elem_of_singleton & _)%list_elem_of_bind. congruence.
  - intros k _. apply NoDup_bind.
    + intros l1 l2 [k' l] _ _ ?%list_elem_of_singleton ?%list_elem_of_singleton.
      congruence.
    + intros. apply NoDup_singleton.
    + by apply NoDup_List_filter.
  - by apply NoDup_List_filter.
Qed.


End CollectJobs.


(** ** The batch run *)

Section BatchRun.
Import App.
Context (provider : nat → Request → Reply) (Date_now : nat → string).

Lemma requestOf_same_settings st st' job :
  same_settings st st' → requestOf st' job = requestOf st job.
Proof. intros (Hk & Hm & _). unfold requestOf. by rewrite Hk, Hm. Qed.

Lemma timeline_app es1 es2 : timeline (es1 ++ es2) = timeline es1 ++ timeline es2.
Proof. apply List.filter_app. Qed.

Lemma postedValues_app es1 es2 :
  postedValues (es1 ++ es2) = postedValues es1 ++ postedValues es2.
Proof. apply omap_app. Qed.

(** One successful job: what [translateText] and [handleSave] leave behind. *)
Lemma successful_job job translated usage r :
  truthy (openAiApiKey (state r)) = true →
  provider (calls r) (requestOf (state r) job) = Returned translated usage →
  ∃ r1,
    translateText provider Date_now (sourceText job) (targetLangName job)
      (sourceLangName job) (keyName job) (openAiApiKey (state r))
      (openAiModel (state r)) (targetLangCode job) r = (Some translated, r1)
    ∧ same_settings (state r) (state r1)
    ∧ values (state r1) = values (state r)
    ∧ currentView (state r1) = currentView (state r)
    ∧ calls r1 = S (calls r)
    ∧ timeline (effects r1)
      = timeline (effects r) ++ [ProviderCall (requestOf (state r) job)]
    ∧ postedValues (effects r1) = postedValues (effects r).
Proof.
  intros Hkey Hreply. unfold translateText. rewrite Hkey. simpl.
  fold (requestOf (state r) job). rewrite Hreply.
  destruct usage as [[[[p c] t] m]|].
  - eexists. split; [reflexivity|].
    unfold handleRecordTokenUsage, postMessage, same_settings. simpl.
    destruct (vscodeApi (state r)) eqn:Hv; simpl;
      rewrite ?timeline_app, ?postedValues_app; simpl;
      rewrite ?app_nil_r; by repeat split.
  - eexists. split; [reflexivity|]. unfold same_settings. simpl.
    rewrite ?timeline_app, ?postedValues_app; simpl;
      rewrite ?app_nil_r; by repeat split.
Qed.

Lemma failed_job job r :
  truthy (openAiApiKey (state r)) = true →
  provider (calls r) (requestOf (state r) job) = Threw →
  ∃ r1,
    translateText provider Date_now (sourceText job) (targetLangName job)
      (sourceLangName job) (keyName job) (openAiApiKey (state r))
      (openAiModel (state r)) (targetLangCode job) r = (None, r1)
    ∧ state r1 = state r
    ∧ calls r1 = S (calls r)
    ∧ effects r1 = effects r ++ [ProviderCall (requestOf (state r) job)].
Proof.
  intros Hkey Hreply. unfold translateText. rewrite Hkey. simpl.
  fold (requestOf (state r) job). rewrite Hreply.
  eexists. by repeat split.
Qed.

Lemma handleSave_stay keyId langCode newValue r :
  ∃ r2,
    handleSave keyId langCode newValue true r = r2
    ∧ same_settings (state r) (state r2)
    ∧ values (state r2) = saveCell keyId langCode newValue (values (state r))
    ∧ calls r2 = calls r
    ∧ timeline (effects r2) = timeline (effects r)
    ∧ postedValues (effects r2)
      = postedValues (effects r)
        ++ (if vscodeApi (state r) then [(keyId, langCode, newValue)] else []).
Proof.
  eexists. split; [reflexivity|].
  unfold handleSave, postMessage, same_settings. simpl.
  destruct (vscodeApi (state r)) eqn:Hv; simpl;
    destruct (currentView (state r)) eqn:Hview; simpl;
    rewrite ?timeline_app, ?postedValues_app; simpl;
    rewrite ?app_nil_r; by repeat split.
Qed.

Lemma translateJobs_abort (doneJobs : list TranslateAllJob) :
  ∀ (replies : list (string * option (float * float * float * string)))
    (failing : TranslateAllJob) (rest : list TranslateAllJob) (total d : nat) (r : Run),
    truthy (openAiApiKey (state r)) = true →
    length replies = length doneJobs →
    (∀ i job reply, doneJobs !! i = Some job → replies !! i = Some reply →
       provider (calls r + i)%nat (requestOf (state r) job) = Returned reply.1 reply.2) →
    provider (calls r + length doneJobs)%nat (requestOf (state r) failing) = Threw →
    ∃ r',
      translateJobs provider Date_now total d (doneJobs ++ failing :: rest) r = (translationFailed, r')
      ∧ timeline (effects r')
        = timeline (effects r)
          ++ concat (imap (λ i job, [ProviderCall (requestOf (state r) job);
                                    OnProgress (S (d + i)) total])
                          (doneJobs ++ [failing]))
      ∧ values (state r') = savedValues (values (state r)) (zip doneJobs replies.*1)
      ∧ postedValues (effects r')
        = postedValues (effects r)
          ++ (if vscodeApi (state r)
              then (λ '(job, translated), (keyId job, targetLangCode job, translated))
                     <$> zip doneJobs replies.*1
              else [])
      ∧ calls r' = (calls r + length doneJobs + 1)%nat.
Proof.
  induction doneJobs as [|job doneJobs IH];
    intros replies failing rest total d r Hkey Hlen Hreplies Hfail.
  - simpl in *. rewrite Nat.add_0_r in Hfail.
    destruct (failed_job failing r Hkey Hfail) as (r1 & -> & Hst & Hcalls & Heff).
    eexists. split; [reflexivity|]. simpl.
    rewrite timeline_app, postedValues_app, Heff, timeline_app, postedValues_app, Hst.
    simpl. rewrite Nat.add_0_r, !app_nil_r, <- app_assoc.
    destruct (vscodeApi (state r)); rewrite ?app_nil_r; repeat split; try done; lia.
  - destruct replies as [|[translated usage] replies]; [done|].
    simpl in Hlen. injection Hlen as Hlen.
    pose proof (Hreplies 0%nat job (translated, usage) eq_refl eq_refl) as Hfirst.
    rewrite Nat.add_0_r in Hfirst. simpl in Hfirst.
    destruct (successful_job job translated usage r Hkey Hfirst)
      as (r1 & Htr & Hset1 & Hval1 & _ & Hcalls1 & Htl1 & Hpv1).
    destruct (handleSave_stay (keyId job) (targetLangCode job) translated r1)
      as (r2 & Hsave & Hset2 & Hval2 & Hcalls2 & Htl2 & Hpv2).
    simpl. rewrite Htr, Hsave.
    set (r3 := emit (OnProgress (S d) total) r2).
    set (r4 := match doneJobs ++ failing :: rest with
               | [] => r3
               | _ :: _ => emit (Sleep 300) r3
               end).
    assert (same_settings (state r) (state r4)
            ∧ values (state r4) = values (state r2)
            ∧ calls r4 = calls r2
            ∧ timeline (effects r4) = timeline (effects r2) ++ [OnProgress (S d) total]
            ∧ postedValues (effects r4) = postedValues (effects r2))
      as (Hset4 & Hval4 & Hcalls4 & Htl4 & Hpv4).
    { subst r4 r3. destruct Hset1 as (?&?&?), Hset2 as (?&?&?).
      unfold same_settings.
      destruct (doneJobs ++ failing :: rest); simpl;
        rewrite ?timeline_app, ?postedValues_app; simpl; rewrite ?app_nil_r;
        repeat split; congruence. }
    destruct (IH replies failing rest total (S d) r4) as (r' & Hrun & Htl & Hval & Hpv & Hcalls).
    + destruct Hset4 as (-> & _). done.
    + done.
    + intros i job' reply Hjob Hreply.
      rewrite (requestOf_same_settings _ _ _ Hset4), Hcalls4, Hcalls2, Hcalls1.
      replace (S (calls r) + i)%nat with (calls r + S i)%nat by lia.
      by apply Hreplies.
    + rewrite (requestOf_same_settings _ _ _ Hset4), Hcalls4, Hcalls2, Hcalls1.
      replace (S (calls r) + length doneJobs)%nat with (calls r + S (length doneJobs))%nat by lia.
      exact Hfail.
    + exists r'. split; [exact Hrun|].
      pose proof (requestOf_same_settings _ _ failing Hset4) as _.
      assert (vscodeApi (state r4) = vscodeApi (state r)) as Hvs4 by apply Hset4.
      assert (vscodeApi (state r1) = vscodeApi (state r)) as Hvs1 by apply Hset1.
      rewrite Htl, Hval, Hpv, Hcalls, Htl4, Htl2, Htl1, Hval4, Hval2, Hval1,
        Hpv4, Hpv2, Hpv1, Hcalls4, Hcalls2, Hcalls1, Hvs4, Hvs1.
      repeat split.
      * rewrite <- !app_assoc. simpl. rewrite Nat.add_0_r. do 4 f_equal.
        apply imap_ext. intros i x _. simpl.
        rewrite (requestOf_same_settings _ _ _ Hset4).
        by replace (d + S i)%nat with (S (d + i))%nat by lia.
      * rewrite <- app_assoc. f_equal. by destruct (vscodeApi (state r)).
      * simpl. lia.
Qed.

(** C2. [handleTranslateAll] takes the jobs in order and stops at the first
    one whose provider call fails. When the calls for [doneJobs] return and
    the call for the next job, [failing], throws, the run returns the
    translation-failed error; the provider was called for [doneJobs] and for
    [failing], in this order, and for no job of [rest]; the progress callback
    got [(0, total)] at the start and [(i + 1, total)] right after the call of
    the [i]-th job, the failed one included; and the translations of
    [doneJobs] are in the table, and posted to the extension host when there
    is one: nothing is rolled back. *)
Theorem handleTranslateAll_abort (doneJobs : list TranslateAllJob)
    (replies : list (string * option (float * float * float * string)))
    (failing : TranslateAllJob) (rest : list TranslateAllJob) (r : Run) :
  let st := state r in
  let jobs := doneJobs ++ failing :: rest in
  truthy (openAiApiKey st) = true →
  collectTranslateAllJobs (keys st) (values st) (activeLanguages st) (sourceLangCode st)
  = jobs →
  length replies = length doneJobs →
  (∀ i job reply, doneJobs !! i = Some job → replies !! i = Some reply →
     provider (calls r + i)%nat (requestOf st job) = Returned reply.1 reply.2) →
  provider (calls r + length doneJobs)%nat (requestOf st failing) = Threw →
  ∃ r',
    handleTranslateAll provider Date_now r = (translationFailed, r')
    ∧ timeline (effects r')
      = timeline (effects r)
        ++ OnProgress 0 (length jobs)
           :: concat (imap (λ i job, [ProviderCall (requestOf st job);
                                      OnProgress (S i) (length jobs)])
                           (doneJobs ++ [failing]))
    ∧ values (state r') = savedValues (values st) (zip doneJobs replies.*1)
    ∧ postedValues (effects r')
      = postedValues (effects r)
        ++ (if vscodeApi st
            then (λ '(job, translated), (keyId job, targetLangCode job, translated))
                   <$> zip doneJobs replies.*1
            else [])
    ∧ calls r' = (calls r + length doneJobs + 1)%nat.
Proof.
  intros st jobs Hkey Hjobs Hlen Hreplies Hfail.
  unfold handleTranslateAll. fold st. rewrite Hkey, Hjobs. simpl.
  destruct (translateJobs_abort doneJobs replies failing rest (length jobs) 0
              (emit (OnProgress 0 (length jobs)) r))
    as (r' & Hrun & Htl & Hval & Hpv & Hcalls); try done.
  exists r'. split.
  - subst jobs. destruct doneJobs; exact Hrun.
  - simpl in *. rewrite Htl, Hval, Hpv, Hcalls, timeline_app, postedValues_app.
    simpl. rewrite app_nil_r, <- app_assoc. by repeat split.
Qed.
End BatchRun.

(** Three jobs, and the provider fails at its second call: the run returns
    the error, the French text of the first job is saved and posted, the
    second job is the last one attempted. *)
Lemma handleTranslateAll_abort_witness :
  let result := App.handleTranslateAll secondCallFails (λ _, "") batchStart in
  result.1 = App.translationFailed
  ∧ App.timeline (App.effects result.2)
    = [ App.OnProgress 0 3;
        App.ProviderCall {| App.text := "Hello"; App.targetLang := "French";
                            App.sourceLang := "English"; App.context := "a";
                            App.apiKey := "sk-test";
                            App.model := "gpt-5-nano-2025-08-07" |};
        App.OnProgress 1 3;
        App.ProviderCall {| App.text := "Hello"; App.targetLang := "German";
                            App.sourceLang := "English"; App.context := "a";
                            App.apiKey := "sk-test";
                            App.model := "gpt-5-nano-2025-08-07" |};
        App.OnProgress 2 3 ]
  ∧ App.values (App.state result.2)
    = {[ "a" := <["fr" := "[French] Hello"]> {[ "en" := "Hello" ]} ]}
  ∧ App.postedValues (App.effects result.2) = [("a", "fr", "[French] Hello")].
Proof.
  destruct (handleTranslateAll_abort secondCallFails (λ _, "")
              [ {| App.keyId := "a"; App.keyName := "a"; App.sourceText := "Hello";
                   App.targetLangCode := "fr"; App.targetLangName := "French";
                   App.sourceLangName := "English" |} ]
              [ ("[French] Hello", None) ]
              {| App.keyId := "a"; App.keyName := "a"; App.sourceText := "Hello";
                 App.targetLangCode := "de"; App.targetLangName := "German";
                 App.sourceLangName := "English" |}
              [ {| App.keyId := "a"; App.keyName := "a"; App.sourceText := "Hello";
                   App.targetLangCode := "es"; App.targetLangName := "Spanish";
                   App.sourceLangName := "English" |} ]
              batchStart)
    as (r' & Hrun & Htl & Hval & Hpv & _).
  - reflexivity.
  - vm_compute. reflexivity.
  - reflexivity.
  - intros [|i] job reply; simpl; [|done]. intros [= <-] [= <-]. reflexivity.
  - reflexivity.
  - simpl. rewrite Hrun. simpl. rewrite Htl, Hval, Hpv.
    repeat split.
Defined.

(** ** Language order *)

Lemma indexOf_from_range (l : list string) (x : string) (i : Z) :
  indexOf_from i l x = -1 ∨ i ≤ indexOf_from i l x < i + Z.of_nat (length l).
Proof.
  revert i. induction l as [|y l IH]; intros i; simpl; [by left|].
  destruct (String.eqb y x); [right; lia|].
  destruct (IH (i + 1)) as [->|?]; [by left|right; lia].
Qed.

Lemma indexOf_from_inj (l : list string) (x y : string) (i : Z) :
  0 ≤ i → indexOf_from i l x ≠ -1 →
  indexOf_from i l x = indexOf_from i l y → x = y.
Proof.
  revert i. induction l as [|z l IH]; intros i Hi; simpl; [done|].
  destruct (String.eqb_spec z x) as [Hzx|Hzx], (String.eqb_spec z y) as [Hzy|Hzy].
  - congruence.
  - intros _ Heq. destruct (indexOf_from_range l y (i + 1)); lia.
  - intros _ Heq. destruct (indexOf_from_range l x (i + 1)); lia.
  - apply IH. lia.
Qed.

Section CompareLanguageCodes.
Context (toLowerCase : string → string) (localeCompare : string → string → Z).

Local Abbreviation compare := (compareLanguageCodes toLowerCase localeCompare).
Local Abbreviation normalize := (normalizeLanguageCode toLowerCase).
Local Abbreviation rank := (rankOf toLowerCase).

Lemma rankOf_range (a : string) : rank a = -1 ∨ 0 ≤ rank a < 10.
Proof.
  destruct (indexOf_from_range POPULAR_LANGUAGE_ORDER (normalize a) 0)
    as [H|H]; [by left|right; exact H].
Qed.

Lemma rankOf_key (a b : string) :
  rank a ≠ -1 → rank a = rank b → normalize a = normalize b.
Proof. apply indexOf_from_inj. done. Qed.

Lemma compare_eq (a b : string) :
  compare a b
  = if bool_decide (rank a = -1) then
      if bool_decide (rank b = -1) then
        if bool_decide (normalize a = normalize b)
        then localeCompare a b
        else localeCompare (normalize a) (normalize b)
      else 1
    else if bool_decide (rank b = -1) then -1
    else if bool_decide (rank a = rank b) then localeCompare a b
    else rank a - rank b.
Proof.
  unfold compareLanguageCodes. fold (rank a) (rank b).
  repeat case_bool_decide;
    repeat match goal with
    | H : _ = _ |- _ => apply Z.eqb_eq in H as ->
    | H : _ = _ |- _ => apply Z.eqb_eq in H; rewrite H
    | H : _ ≠ _ |- _ => apply Z.eqb_neq in H; rewrite H
    | H : normalizeLanguageCode _ _ = _ |- _ => apply String.eqb_eq in H; rewrite H
    | H : normalizeLanguageCode _ _ ≠ _ |- _ => apply String.eqb_neq in H; rewrite H
    end; simpl; try done.
Qed.

(** When two codes compare as equal. *)
Lemma compare_tie (a b : string) :
  compare a b = 0
  ↔ (normalize a = normalize b ∧ localeCompare a b = 0)
    ∨ (rank a = -1 ∧ rank b = -1 ∧ normalize a ≠ normalize b
       ∧ localeCompare (normalize a) (normalize b) = 0).
Proof.
  rewrite compare_eq.
  assert (normalize a = normalize b → rank a = rank b) as Hkey
    by (unfold rankOf; by intros ->).
  pose proof (rankOf_key a b) as Hrank.
  repeat case_bool_decide; split; try lia; try tauto.
  - intros [[Hn _]|(? & ? & _)]; [|done]. apply Hkey in Hn. congruence.
  - intros [[Hn _]|(? & ? & _)]; [|done]. apply Hkey in Hn. congruence.
Qed.

Hypothesis localeCompare_antisym : ∀ a b, localeCompare a b = - localeCompare b a.
Hypothesis localeCompare_trans :
  ∀ a b c, localeCompare a b < 0 → localeCompare b c < 0 → localeCompare a c < 0.

Lemma localeCompare_refl (a : string) : localeCompare a a = 0.
Proof. pose proof (localeCompare_antisym a a). lia. Qed.

Lemma compare_antisym (a b : string) : compare a b = - compare b a.
Proof.
  rewrite !compare_eq.
  repeat case_bool_decide; try congruence; try lia; auto.
Qed.

Lemma compare_trans (a b c : string) :
  compare a b < 0 → compare b c < 0 → compare a c < 0.
Proof.
  rewrite !compare_eq.
  pose proof (localeCompare_refl (normalize a)).
  repeat case_bool_decide; try lia; try congruence; eauto.
  all: try (intros; exfalso; congruence).
  all: try (repeat match goal with H : normalizeLanguageCode _ _ = _ |- _ => rewrite H in * end; eauto; lia).
  intros Hab Hbc. pose proof (localeCompare_trans _ _ _ Hab Hbc) as Hac.
  rewrite <- H5 in Hac. lia.
Qed.

(** C6, amended. With a collation [localeCompare] that is sign-antisymmetric
    and transitive, [compareLanguageCodes] is a strict order: [compare a b]
    is the opposite of [compare b a] for every pair, pairs with the same
    normalized code included, and it is transitive. It is total as far as
    the collation is: two codes compare as equal exactly when they have the
    same normalized code and the collation gives zero on the raw codes, or
    both are outside the popularity list and the collation gives zero on
    their different normalized codes; so it tells two codes apart when the
    collation tells them, and their normalized codes, apart. A code whose
    normalized form is in the popularity list sorts before every code outside
    it; two codes of the list sort by rank; codes of the same rank, which have
    the same normalized code, sort by the raw codes; codes outside the list
    sort by normalized code, then by raw code. *)
Theorem compareLanguageCodes_order :
  (∀ a b, compare a b = - compare b a)
  ∧ (∀ a b c, compare a b < 0 → compare b c < 0 → compare a c < 0)
  ∧ (∀ a b, compare a b = 0
            ↔ (normalize a = normalize b ∧ localeCompare a b = 0)
              ∨ (rankOf toLowerCase a = -1 ∧ rankOf toLowerCase b = -1
                 ∧ normalize a ≠ normalize b
                 ∧ localeCompare (normalize a) (normalize b) = 0))
  ∧ (∀ a b, (localeCompare a b = 0 → a = b) →
            (localeCompare (normalize a) (normalize b) = 0 → normalize a = normalize b) →
            (compare a b = 0 ↔ a = b))
  ∧ (∀ a b, rankOf toLowerCase a ≠ -1 → rankOf toLowerCase b = -1 → compare a b < 0)
  ∧ (∀ a b, rankOf toLowerCase a ≠ -1 → rankOf toLowerCase b ≠ -1 →
       rankOf toLowerCase a ≠ rankOf toLowerCase b →
       compare a b = rankOf toLowerCase a - rankOf toLowerCase b)
  ∧ (∀ a b, rankOf toLowerCase a ≠ -1 → rankOf toLowerCase a = rankOf toLowerCase b →
       normalize a = normalize b ∧ compare a b = localeCompare a b)
  ∧ (∀ a b, rankOf toLowerCase a = -1 → rankOf toLowerCase b = -1 →
       compare a b
       = if bool_decide (normalize a = normalize b)
         then localeCompare a b
         else localeCompare (normalize a) (normalize b)).
Proof.
  split; [exact compare_antisym|]. split; [exact compare_trans|].
  split; [exact compare_tie|].
  split; [|repeat split].
  - intros a b Hraw Hkey. split.
    + intros [[_ Hzero]|(_ & _ & Hne & Hzero)]%compare_tie; [by apply Hraw|].
      by destruct Hne, Hkey.
    + intros ->. rewrite compare_eq.
      repeat case_bool_decide; try done; apply localeCompare_refl.
  - intros a b Ha Hb. rewrite compare_eq. repeat case_bool_decide; done.
  - intros a b Ha Hb Hab. rewrite compare_eq. repeat case_bool_decide; done.
  - by apply rankOf_key.
  - rewrite compare_eq. repeat case_bool_decide; congruence.
  - intros a b Ha Hb. rewrite compare_eq. repeat case_bool_decide; done.
Qed.
End CompareLanguageCodes.

Lemma ordinalCompare_antisym (a b : string) : ordinalCompare a b = - ordinalCompare b a.
Proof.
  unfold ordinalCompare. rewrite (String.compare_antisym a b).
  by destruct (String.compare b a).
Qed.

Lemma ordinalCompare_lt (a b : string) :
  ordinalCompare a b < 0 ↔ String.compare a b = Lt.
Proof. unfold ordinalCompare. destruct (String.compare a b); split; (done || lia). Qed.

Lemma ordinalCompare_trans (a b c : string) :
  ordinalCompare a b < 0 → ordinalCompare b c < 0 → ordinalCompare a c < 0.
Proof.
  rewrite !ordinalCompare_lt. intros Hab Hbc.
  assert (String.le a b ∧ String.le b c) as [Hle1 Hle2].
  { unfold String.le, String.leb. by rewrite Hab, Hbc. }
  assert (String.le a c) as Hle by by etrans.
  destruct (String.compare a c) eqn:Hac; [|done|].
  - apply String.compare_eq_iff in Hac as ->.
    assert (b = c) as -> by by apply (anti_symm String.le).
    rewrite String.compare_antisym in Hab. by destruct (String.compare c c).
  - unfold String.le, String.leb in Hle. by rewrite Hac in Hle.
Qed.

(** The registry under comparison by code units: the two Portuguese files
    compare in opposite ways, Spanish sorts before Brazilian Portuguese, and
    Korean, the last of the list, before a code outside it. *)
Lemma compareLanguageCodes_order_witness :
  compareLanguageCodes toLowerCaseASCII ordinalCompare "pt-BR" "pt-PT"
  = - compareLanguageCodes toLowerCaseASCII ordinalCompare "pt-PT" "pt-BR"
  ∧ compareLanguageCodes toLowerCaseASCII ordinalCompare "es" "pt-BR" < 0
  ∧ compareLanguageCodes toLowerCaseASCII ordinalCompare "ko" "aa" < 0.
Proof.
  pose proof (compareLanguageCodes_order toLowerCaseASCII ordinalCompare
                ordinalCompare_antisym ordinalCompare_trans)
    as (Hanti & Htrans & _ & _ & Hpop & _).
  split; [apply Hanti|]. split.
  - apply (Htrans "es" "pt" "pt-BR"); reflexivity.
  - apply Hpop; [discriminate|reflexivity].
Defined.

(** C6 as stated fails where the collation gives zero on two different
    codes, which [localeCompare] does on canonically equivalent strings: a
    file named with the letter e with an acute accent as one character and a
    file named with the letter followed by the combining accent are two
    codes that compare as equal, so that the order is not total. It is so
    for every collation that gives zero on the two spellings and every case
    mapping that leaves them alone; [canonicalCompare] is such a collation,
    sign-antisymmetric and transitive. *)
Lemma compareLanguageCodes_order_counterexample :
  E_ACUTE ≠ E_COMBINING_ACUTE
  ∧ (∀ toLowerCase localeCompare,
       toLowerCase E_ACUTE = E_ACUTE →
       toLowerCase E_COMBINING_ACUTE = E_COMBINING_ACUTE →
       localeCompare E_ACUTE E_COMBINING_ACUTE = 0 →
       compareLanguageCodes toLowerCase localeCompare E_ACUTE E_COMBINING_ACUTE = 0)
  ∧ (∀ a b, canonicalCompare a b = - canonicalCompare b a)
  ∧ (∀ a b c, canonicalCompare a b < 0 → canonicalCompare b c < 0 →
              canonicalCompare a c < 0)
  ∧ compareLanguageCodes toLowerCaseASCII canonicalCompare E_ACUTE E_COMBINING_ACUTE = 0
  ∧ ¬ (∀ a b, compareLanguageCodes toLowerCaseASCII canonicalCompare a b = 0 → a = b).
Proof.
  split_and!.
  - discriminate.
  - intros toLowerCase localeCompare H1 H2 Hzero.
    apply compare_tie. right.
    unfold rankOf, normalizeLanguageCode. rewrite H1, H2. by split_and!.
  - intros a b. apply ordinalCompare_antisym.
  - intros a b c. apply ordinalCompare_trans.
  - reflexivity.
  - intros Hsep. by specialize (Hsep E_ACUTE E_COMBINING_ACUTE eq_refl).
Qed.

(** ** Key paths *)


Lemma objGet_app (o1 o2 : props) (k : string) :
  objGet (o1 ++ o2) k = match objGet o1 k with Some v => Some v | None => objGet o2 k end.
Proof.
  induction o1 as [|[k' v'] o1 IH]; simpl; [done|].
  by destruct (String.eqb k' k).
Qed.

(** A property that is there is the first of its name. *)
Lemma objGet_Some_split (o : props) (k : string) (v : json) :
  objGet o k = Some v →
  ∃ o1 o2, o = o1 ++ (k, v) :: o2 ∧ objGet o1 k = None
           ∧ ∀ v', objReplace o k v' = o1 ++ (k, v') :: o2.
Proof.
  induction o as [|[k' v'] o IH]; simpl; [done|].
  destruct (String.eqb_spec k' k) as [->|Hne].
  - intros [= ->]. exists [], o. by repeat split.
  - intros (o1 & o2 & -> & Hnone & Hrep)%IH.
    exists ((k', v') :: o1), o2. simpl.
    apply String.eqb_neq in Hne. rewrite Hne. repeat split; [done|].
    intros v''. by rewrite Hrep.
Qed.

Lemma objInsertIndex_split (o : props) (i : N) (k : string) (v : json) :
  ∃ o1 o2, o = o1 ++ o2 ∧ objInsertIndex o i k v = o1 ++ (k, v) :: o2.
Proof.
  induction o as [|[k' v'] o (o1 & o2 & -> & IH)]; simpl.
  - by exists [], [].
  - destruct (array_index k') as [j|].
    + destruct (j <? i)%N.
      * exists ((k', v') :: o1), o2. by rewrite IH.
      * by exists [], ((k', v') :: o1 ++ o2).
    + by exists [], ((k', v') :: o1 ++ o2).
Qed.

(** A new property lands somewhere among the old ones. *)
Lemma objSet_None_split (o : props) (k : string) (v : json) :
  objGet o k = None →
  ∃ o1 o2, o = o1 ++ o2 ∧ objSet o k v = o1 ++ (k, v) :: o2.
Proof.
  intros Hnone. unfold objSet. rewrite Hnone.
  destruct (array_index k) as [i|].
  - apply objInsertIndex_split.
  - exists o, []. by rewrite app_nil_r.
Qed.

Lemma objGet_objSet (o : props) (k k' : string) (v : json) :
  objGet (objSet o k v) k' = if bool_decide (k' = k) then Some v else objGet o k'.
Proof.
  destruct (objGet o k) as [w|] eqn:Hk.
  - destruct (objGet_Some_split o k w Hk) as (o1 & o2 & -> & Hnone & Hrep).
    unfold objSet. rewrite Hk, Hrep, !objGet_app. simpl.
    case_bool_decide as Heq.
    + subst k'. by rewrite Hnone, String.eqb_refl.
    + apply not_eq_sym, String.eqb_neq in Heq. by rewrite Heq.
  - destruct (objSet_None_split o k v Hk) as (o1 & o2 & Ho & ->).
    rewrite Ho, objGet_app in Hk. rewrite Ho, !objGet_app. simpl.
    case_bool_decide as Heq.
    + subst k'. destruct (objGet o1 k); [done|]. by rewrite String.eqb_refl.
    + apply not_eq_sym, String.eqb_neq in Heq. by rewrite Heq.
Qed.

Lemma objGet_objSet_eq (o : props) (k : string) (v : json) :
  objGet (objSet o k v) k = Some v.
Proof. by rewrite objGet_objSet, bool_decide_eq_true_2. Qed.

Lemma objGet_objSet_ne (o : props) (k k' : string) (v : json) :
  k' ≠ k → objGet (objSet o k v) k' = objGet o k'.
Proof. intros. by rewrite objGet_objSet, bool_decide_eq_false_2. Qed.

Lemma json_ind' (P : json → Prop) :
  P JNull → (∀ b, P (JBool b)) → (∀ x, P (JNum x)) → (∀ s, P (JStr s)) →
  (∀ items, Forall P items → P (JArr items)) →
  (∀ o, Forall (λ kv, P kv.2) o → P (JObj o)) →
  ∀ v, P v.
Proof.
  intros Hnull Hbool Hnum Hstr Harr Hobj.
  refine (fix IH (v : json) : P v :=
            match v with
            | JNull => Hnull
            | JBool b => Hbool b
            | JNum x => Hnum x
            | JStr s => Hstr s
            | JArr items =>
                Harr items
                  ((fix all (l : list json) : Forall P l :=
                      match l with
                      | [] => @List.Forall_nil _ P
                      | x :: l' => @List.Forall_cons _ P x l' (IH x) (all l')
                      end) items)
            | JObj o =>
                Hobj o
                  ((fix all (l : props) : Forall (λ kv, P kv.2) l :=
                      match l with
                      | [] => @List.Forall_nil _ (λ kv, P kv.2)
                      | (k, x) :: l' => @List.Forall_cons _ (λ kv, P kv.2) (k, x) l' (IH x) (all l')
                      end) o)
            end).
Qed.


Lemma split_dot_nonempty (s : string) : split_dot s ≠ [].
Proof. destruct s as [|c s]; simpl; [done|]. destruct (Ascii.eqb c "."); [done|]. by destruct (split_dot s). Qed.

Lemma storePath_cons (o : props) (part next : string) (rest : list string) (value : string) :
  storePath o (part :: next :: rest) value
  = objSet o part (JObj (storePath (childOf o part) (next :: rest) value)).
Proof. reflexivity. Qed.

(** Reading back the path that was written. *)
Lemma ownPath_storePath (parts : list string) :
  ∀ (o : props) (value : string),
    parts ≠ [] → ownPath (JObj (storePath o parts value)) parts = Some (JStr value).
Proof.
  induction parts as [|part [|next rest] IH]; intros o value Hne; [done|..].
  - simpl. by rewrite objGet_objSet_eq.
  - rewrite storePath_cons. cbn [ownPath]. rewrite objGet_objSet_eq.
    by apply IH.
Qed.

(** A store that meets no [__proto__] stays in the tree. *)
Lemma setPath_storePath (parts : list string) :
  ∀ (o : props) (value : string),
    "__proto__" ∉ parts → setPath o parts value = Returns (storePath o parts value).
Proof.
  induction parts as [|part [|next rest] IH]; intros o value Hparts; [done|..].
  - apply not_elem_of_cons in Hparts as [Hpart _].
    cbn [setPath storePath]. unfold assignString.
    apply not_eq_sym, String.eqb_neq in Hpart. rewrite Hpart.
    by destruct (objGet o part).
  - apply not_elem_of_cons in Hparts as [Hpart Hrest].
    rewrite storePath_cons.
    change (setPath o (part :: next :: rest) value)
      with (match nextNode o part with
            | None => Leaks
            | Some child =>
                match setPath child (next :: rest) value with
                | Returns child' => Returns (objSet o part (JObj child'))
                | Throws _ => Throws o
                | Leaks => Leaks
                end
            end).
    assert (nextNode o part = Some (childOf o part)) as ->.
    { unfold nextNode, childOf. apply not_eq_sym, String.eqb_neq in Hpart. rewrite Hpart.
      by destruct (objGet o part) as [[]|]. }
    by rewrite IH.
Qed.

(** A store whose nodes are all there stays in the tree, too. *)
Lemma setPath_own_along (parts : list string) :
  ∀ (o : props) (value : string),
    own_along o parts → ∃ o', setPath o parts value = Returns o'.
Proof.
  induction parts as [|part [|next rest] IH]; intros o value Hown.
  - by eexists.
  - by eexists.
  - change (setPath o (part :: next :: rest) value)
      with (match nextNode o part with
            | None => Leaks
            | Some child =>
                match setPath child (next :: rest) value with
                | Returns child' => Returns (objSet o part (JObj child'))
                | Throws _ => Throws o
                | Leaks => Leaks
                end
            end).
    cbn [own_along] in Hown. unfold nextNode.
    destruct (objGet o part) as [[| | | | |c]|]; try done.
    destruct (IH c value Hown) as [c' ->]. by eexists.
Qed.

Section Walks.
Context (Array_prototype : list string).
Local Abbreviation walk := (getPath Array_prototype).

(** A value at the end of a path of own properties is what [getNestedValue]
    finds there. *)
Lemma ownPath_getPath (parts : list string) :
  ∀ (v x : json), ownPath v parts = Some x → walk (Data v) parts = Some (Data x).
Proof.
  induction parts as [|part rest IH]; intros v x; simpl; [by intros [= ->]|].
  destruct v as [| | | | |o]; try done.
  destruct (objGet o part) as [next|]; [|done]. apply IH.
Qed.

(** Reading in an object another property than the one a store changed. *)
Lemma jsGet_objSet_ne (o : props) (part q : string) (v : json) :
  q ≠ part → jsGet Array_prototype (Data (JObj (objSet o part v))) q
             = jsGet Array_prototype (Data (JObj o)) q.
Proof. intros Hq. cbn [jsGet]. by rewrite objGet_objSet_ne. Qed.

Lemma jsGet_assignString_ne (o : props) (last q value : string) :
  q ≠ last → jsGet Array_prototype (Data (JObj (assignString o last value))) q
             = jsGet Array_prototype (Data (JObj o)) q.
Proof.
  intros Hq. unfold assignString.
  destruct (objGet o last); [by apply jsGet_objSet_ne|].
  destruct (String.eqb last "__proto__"); [done|by apply jsGet_objSet_ne].
Qed.

(** The frame of a store: a path that neither is a prefix of the written
    one nor has it as a prefix reads the same before and after, inherited
    members included. *)
Lemma getPath_setPath_frame (k : list string) :
  ∀ (o o' : props) (p : list string) (value : string),
    ¬ p `prefix_of` k → ¬ k `prefix_of` p → own_along o k →
    setPath o k value = Returns o' →
    walk (Data (JObj o')) p = walk (Data (JObj o)) p.
Proof.
  induction k as [|part [|next rest] IH]; intros o o' p value Hpk Hkp Hown Hset.
  - destruct Hkp. apply prefix_nil.
  - destruct p as [|q ps]; [destruct Hpk; apply prefix_nil|].
    assert (q ≠ part) as Hq.
    { intros ->. apply Hkp. by apply prefix_cons, prefix_nil. }
    injection Hset as <-. cbn [getPath]. by rewrite jsGet_assignString_ne.
  - destruct p as [|q ps]; [destruct Hpk; apply prefix_nil|].
    change (setPath o (part :: next :: rest) value)
      with (match nextNode o part with
            | None => Leaks
            | Some child =>
                match setPath child (next :: rest) value with
                | Returns child' => Returns (objSet o part (JObj child'))
                | Throws _ => Throws o
                | Leaks => Leaks
                end
            end) in Hset.
    cbn [own_along] in Hown. unfold nextNode in Hset.
    destruct (objGet o part) as [[| | | | |c]|] eqn:Hget; try done.
    destruct (setPath c (next :: rest) value) as [c'| |] eqn:Hc; try done.
    injection Hset as <-. cbn [getPath].
    destruct (decide (q = part)) as [->|Hq]; [|by rewrite jsGet_objSet_ne].
    cbn [jsGet]. rewrite objGet_objSet_eq, Hget.
    apply (IH c c' ps value); [| |done..].
    + intros ?. by apply Hpk, prefix_cons.
    + intros ?. by apply Hkp, prefix_cons.
Qed.
End Walks.

(** *** What JSON prints *)

Lemma printed_idem (v : json) : printed (printed v) = printed v.
Proof.
  induction v as [| | | |items IH|o IH] using json_ind'; try done.
  - cbn [printed].
    destruct (PrimFloat.is_nan x || PrimFloat.is_infinity x) eqn:Hx; [done|].
    destruct (PrimFloat.is_zero x) eqn:Hz; [done|].
    cbn [printed]. by rewrite Hx, Hz.
  - cbn [printed]. f_equal. rewrite <- list_fmap_compose.
    apply Forall_fmap_ext_1. eapply Forall_impl; [exact IH|]. by intros v Hv.
  - cbn [printed]. f_equal. rewrite <- list_fmap_compose.
    apply Forall_fmap_ext_1. eapply Forall_impl; [exact IH|].
    intros [k v] Hv. simpl in *. by f_equal.
Qed.

Lemma printedProps_idem (o : props) : printedProps (printedProps o) = printedProps o.
Proof.
  pose proof (printed_idem (JObj o)) as H. cbn [printed] in H. by injection H.
Qed.

Lemma printedDocument_idem (doc : Document) :
  printedDocument (printedDocument doc) = printedDocument doc.
Proof.
  destruct doc as [o|items]; cbn [printedDocument].
  - by rewrite printedProps_idem.
  - pose proof (printed_idem (JArr items)) as H. cbn [printed] in H. by injection H as ->.
Qed.

Lemma objGet_printedProps (o : props) (k : string) :
  objGet (printedProps o) k = printed <$> objGet o k.
Proof.
  induction o as [|[k' v] o IH]; [done|]. cbn.
  destruct (String.eqb k' k); [done|]. exact IH.
Qed.

Lemma objReplace_printedProps (o : props) (k : string) (v : json) :
  objReplace (printedProps o) k (printed v) = printedProps (objReplace o k v).
Proof.
  induction o as [|[k' v'] o IH]; [done|]. cbn.
  destruct (String.eqb k' k); [done|]. cbn. f_equal. exact IH.
Qed.

Lemma objInsertIndex_printedProps (o : props) (i : N) (k : string) (v : json) :
  objInsertIndex (printedProps o) i k (printed v) = printedProps (objInsertIndex o i k v).
Proof.
  induction o as [|[k' v'] o IH]; [done|]. cbn.
  destruct (array_index k') as [j|]; [|done].
  destruct (j <? i)%N; [|done]. cbn. f_equal. exact IH.
Qed.

Lemma objSet_printedProps (o : props) (k : string) (v : json) :
  objSet (printedProps o) k (printed v) = printedProps (objSet o k v).
Proof.
  unfold objSet. rewrite objGet_printedProps.
  destruct (objGet o k); cbn.
  - apply objReplace_printedProps.
  - destruct (array_index k).
    + apply objInsertIndex_printedProps.
    + unfold printedProps. by rewrite fmap_app.
Qed.

Lemma nextNode_printedProps (o : props) (part : string) :
  nextNode (printedProps o) part = printedProps <$> nextNode o part.
Proof.
  unfold nextNode. rewrite objGet_printedProps.
  destruct (objGet o part) as [[| |x| | |c]|]; cbn; try done.
  - by repeat case_match.
  - by destruct (String.eqb part "__proto__").
Qed.

(** A store in the printed tree gives the printed tree of the store. *)
Lemma setPath_printedProps (parts : list string) :
  ∀ (o : props) (value : string),
    setPath (printedProps o) parts value
    = match setPath o parts value with
      | Returns o' => Returns (printedProps o')
      | Throws o' => Throws (printedProps o')
      | Leaks => Leaks
      end.
Proof.
  induction parts as [|part [|next rest] IH]; intros o value; [done|..].
  - cbn [setPath]. f_equal. unfold assignString. rewrite objGet_printedProps.
    destruct (objGet o part); cbn.
    + apply (objSet_printedProps o part (JStr value)).
    + destruct (String.eqb part "__proto__"); [done|].
      apply (objSet_printedProps o part (JStr value)).
  - change (setPath ?o (part :: next :: rest) value)
      with (match nextNode o part with
            | None => Leaks
            | Some child =>
                match setPath child (next :: rest) value with
                | Returns child' => Returns (objSet o part (JObj child'))
                | Throws _ => Throws o
                | Leaks => Leaks
                end
            end).
    rewrite nextNode_printedProps.
    destruct (nextNode o part) as [child|]; [|done]. cbn [fmap option_fmap option_map].
    rewrite IH. destruct (setPath child (next :: rest) value) as [child'| |]; [|done..].
    f_equal. apply (objSet_printedProps o part (JObj child')).
Qed.

Lemma own_along_printedProps (parts : list string) :
  ∀ o, own_along o parts → own_along (printedProps o) parts.
Proof.
  induction parts as [|part [|next rest] IH]; intros o; [done..|].
  cbn [own_along]. rewrite objGet_printedProps.
  destruct (objGet o part) as [[| | | | |c]|]; try done. cbn. apply IH.
Qed.

Section Frame.
Context (JSON_parse : string → option json) (ToArrayLength : string → option nat).
Context (Array_prototype : list string).

Lemma readJsonFile_writeJsonFile (dir : Dir) (file : string) (data : Document) :
  readJsonFile JSON_parse (writeJsonFile dir file data) file = Some (printedDocument data).
Proof.
  unfold readJsonFile, writeJsonFile. by rewrite lookup_insert_eq, printedDocument_idem.
Qed.

Lemma readJsonFile_writeJsonFile_ne (dir : Dir) (file other : string) (data : Document) :
  other ≠ file →
  readJsonFile JSON_parse (writeJsonFile dir file data) other
  = readJsonFile JSON_parse dir other.
Proof. intros. unfold readJsonFile, writeJsonFile. by rewrite lookup_insert_ne. Qed.

(** C9, amended. A store changes the written path only. When the path [p]
    is not a prefix of the written path [k], [k] is not a prefix of [p], and
    every node before the last part of [k] is in the tree, as a property of
    its own, and is a plain object, [setNestedValue] at [k] stays in the tree
    and [getNestedValue] at [p] gives the same before and after, whatever is
    there: a string, an array, a number, a boolean, an inherited member. So
    [updateTranslationValue] on a file whose document is this tree rewrites
    the file and leaves the other files alone, and [p] reads in the new file
    what it reads in the old document as [JSON.stringify] prints it: as it
    was, but for a number that is not finite, which is written as [null],
    and the negative zero, written as [0]. *)
Theorem setNestedValue_frame (t : props) (k p value : string) :
  ¬ split_dot p `prefix_of` split_dot k →
  ¬ split_dot k `prefix_of` split_dot p →
  own_along t (split_dot k) →
  ∃ t',
    setNestedValue t k value = Returns t'
    ∧ getNestedValue Array_prototype (JObj t') p = getNestedValue Array_prototype (JObj t) p
    ∧ ∀ w dir langCode,
        getOrCreateI18nDir w = Some dir →
        readJsonFile JSON_parse dir langCode = Some (DRecord t) →
        ∃ dir',
          updateTranslationValue JSON_parse ToArrayLength w langCode k value
          = Returns (with_i18nDir w dir')
          ∧ dir' !! langCode = Some (Written (DRecord (printedProps t')))
          ∧ (∀ other, other ≠ langCode → dir' !! other = dir !! other)
          ∧ readJsonFile JSON_parse dir' langCode = Some (DRecord (printedProps t'))
          ∧ getNestedValue Array_prototype (JObj (printedProps t')) p
            = getNestedValue Array_prototype (printed (JObj t)) p
          ∧ (printed (JObj t) = JObj t →
             getNestedValue Array_prototype (JObj (printedProps t')) p
             = getNestedValue Array_prototype (JObj t) p).
Proof.
  intros Hpk Hkp Hown.
  destruct (setPath_own_along (split_dot k) t value Hown) as [t' Ht'].
  exists t'. split; [exact Ht'|]. split.
  { by apply (getPath_setPath_frame Array_prototype (split_dot k) t t' _ value). }
  intros w dir langCode Hdir Hread.
  assert (getNestedValue Array_prototype (JObj (printedProps t')) p
          = getNestedValue Array_prototype (printed (JObj t)) p) as Hprinted.
  { apply (getPath_setPath_frame Array_prototype (split_dot k) (printedProps t) _ _ value);
      [done|done|by apply own_along_printedProps|].
    rewrite setPath_printedProps. by rewrite Ht'. }
  unfold updateTranslationValue. rewrite Hdir, Hread. cbn [storeValue].
  unfold setNestedValue. rewrite Ht'.
  eexists. split; [reflexivity|]. unfold writeJsonFile at 1 2.
  split; [by rewrite lookup_insert_eq|].
  split; [intros other Hother; by rewrite lookup_insert_ne|].
  split; [by rewrite readJsonFile_writeJsonFile|].
  split; [exact Hprinted|].
  intros Hsame. rewrite Hprinted. by rewrite Hsame.
Qed.
End Frame.

(** Writing [meta.label] into the sample document keeps the array at
    [meta.tags] and, through the file, the number at [meta.count]. *)
Lemma setNestedValue_frame_witness :
  (∃ t', setNestedValue sampleTree "meta.label" "New" = Returns t'
         ∧ getNestedValue arrayMethods (JObj t') "meta.tags"
           = Some (Data (JArr [JStr "a"; JStr "b"])))
  ∧ ∃ dir',
      updateTranslationValue rejectAll rejectLength treeWorkspace "en" "meta.label" "New"
      = Returns (with_i18nDir treeWorkspace dir')
      ∧ ∀ doc, readJsonFile rejectAll dir' "en" = Some doc →
               getNestedValue arrayMethods (document_json doc) "meta.count" = Some (Data (JNum 3)).
Proof.
  split.
  - destruct (setNestedValue_frame rejectAll rejectLength arrayMethods sampleTree
                "meta.label" "meta.tags" "New") as (t' & Ht' & Hframe & _).
    + vm_compute. intros [l Hl]. destruct l; discriminate.
    + vm_compute. intros [l Hl]. destruct l; discriminate.
    + vm_compute. exact I.
    + exists t'. split; [exact Ht'|]. rewrite Hframe. reflexivity.
  - destruct (setNestedValue_frame rejectAll rejectLength arrayMethods sampleTree
                "meta.label" "meta.count" "New"
                ltac:(vm_compute; intros [l Hl]; destruct l; discriminate)
                ltac:(vm_compute; intros [l Hl]; destruct l; discriminate)
                ltac:(vm_compute; exact I))
      as (t' & _ & _ & Hfile).
    destruct (Hfile treeWorkspace {[ "en" := Written (DRecord sampleTree) ]} "en"
                eq_refl eq_refl)
      as (dir' & Hupdate & _ & _ & Hread & _ & Hsame).
    exists dir'. split; [exact Hupdate|].
    intros doc Hdoc. rewrite Hread in Hdoc. injection Hdoc as <-.
    cbn [document_json]. rewrite Hsame; reflexivity.
Defined.

(** C9 as stated fails on a number that JSON cannot print. The file holds
    an object whose one property, [n], is a number too large for a double,
    which [JSON.parse] reads as [Infinity]; after a store at [title], which
    has no node before its last part, the file holds [null] at [n]. And a
    store at [__proto__.x] in the empty tree, which has no property on the
    way, does not stay in the tree: the walk goes through the inherited
    accessor into [Object.prototype]. *)
Lemma setNestedValue_frame_counterexample :
  ¬ split_dot "n" `prefix_of` split_dot "title"
  ∧ ¬ split_dot "title" `prefix_of` split_dot "n"
  ∧ readJsonFile parseOverflow {[ "en" := Raw overflowText ]} "en"
    = Some (DRecord [("n", JNum PrimFloat.infinity)])
  ∧ getNestedValue arrayMethods (JObj [("n", JNum PrimFloat.infinity)]) "n"
    = Some (Data (JNum PrimFloat.infinity))
  ∧ (∃ dir',
       updateTranslationValue parseOverflow rejectLength overflowWorkspace "en" "title" "T"
       = Returns (with_i18nDir overflowWorkspace dir')
       ∧ ∃ doc, readJsonFile parseOverflow dir' "en" = Some doc
                ∧ getNestedValue arrayMethods (document_json doc) "n" = Some (Data JNull))
  ∧ setNestedValue [] "__proto__.x" "T" = Leaks.
Proof.
  split_and!.
  - vm_compute. intros [l Hl]. destruct l; discriminate.
  - vm_compute. intros [l Hl]. destruct l; discriminate.
  - reflexivity.
  - reflexivity.
  - eexists. split; [reflexivity|]. eexists. split; reflexivity.
  - reflexivity.
Qed.

(** ** Flattening a tree built from a flat table *)


Lemma flattenedEntries_cons (key : string) (entry : json) (rest : props) (prefix : string) :
  flattenedEntries (JObj ((key, entry) :: rest)) prefix
  = entryLeaves prefix key entry ++ flattenedEntries (JObj rest) prefix.
Proof. by destruct entry. Qed.

Lemma flattenedEntries_app (o1 o2 : props) (prefix : string) :
  flattenedEntries (JObj (o1 ++ o2)) prefix
  = flattenedEntries (JObj o1) prefix ++ flattenedEntries (JObj o2) prefix.
Proof.
  induction o1 as [|[key entry] o1 IH]; [done|].
  rewrite <- app_comm_cons, !flattenedEntries_cons, IH. by rewrite app_assoc.
Qed.

Lemma flattenObject_cons (key : string) (entry : json) (rest : props) (prefix : string)
    (out : gmap string string) :
  flattenObject (JObj ((key, entry) :: rest)) prefix out
  = flattenObject (JObj rest) prefix
      match entry with
      | JStr s => assign (fullKeyOf prefix key) s out
      | JObj _ => flattenObject entry (fullKeyOf prefix key) out
      | _ => out
      end.
Proof. by destruct entry. Qed.

Lemma flattenObject_entries_json (value : json) :
  ∀ o, value = JObj o → ∀ prefix out,
    flattenObject (JObj o) prefix out
    = foldl writeEntry out (flattenedEntries (JObj o) prefix).
Proof.
  induction value as [| | | |items _|o IH] using json_ind'; try done.
  intros ? [= <-].
  induction IH as [|[key entry] o Hentry _ IHo]; intros prefix out; [done|].
  rewrite flattenObject_cons, flattenedEntries_cons, foldl_app, IHo.
  f_equal. destruct entry as [| | | | |c]; try done.
  apply (Hentry c eq_refl).
Qed.

Lemma flattenObject_entries (o : props) (prefix : string) (out : gmap string string) :
  flattenObject (JObj o) prefix out
  = foldl writeEntry out (flattenedEntries (JObj o) prefix).
Proof. by apply (flattenObject_entries_json (JObj o)). Qed.

Lemma fresh_along_nil (parts : list string) : fresh_along [] parts.
Proof. by destruct parts as [|part [|next rest]]. Qed.

Lemma joinFrom_cons (prefix part : string) (rest : list string) :
  joinFrom prefix (part :: rest) = joinFrom (fullKeyOf prefix part) rest.
Proof. reflexivity. Qed.

(** Writing a fresh path adds one entry to those [flattenObject] writes. *)
Lemma flattenedEntries_setPath (parts : list string) :
  ∀ (o : props) (prefix value : string),
    parts ≠ [] → fresh_along o parts →
    flattenedEntries (JObj (storePath o parts value)) prefix
    ≡ₚ (joinFrom prefix parts, value) :: flattenedEntries (JObj o) prefix.
Proof.
  induction parts as [|part [|next rest] IH]; intros o prefix value Hne Hfresh; [done|..].
  - simpl in Hfresh.
    destruct (objSet_None_split o part (JStr value) Hfresh) as (o1 & o2 & -> & Hset).
    change (storePath (o1 ++ o2) [part] value) with (objSet (o1 ++ o2) part (JStr value)).
    rewrite Hset, !flattenedEntries_app, flattenedEntries_cons.
    cbn [entryLeaves app]. symmetry. apply Permutation_middle.
  - rewrite storePath_cons, joinFrom_cons. unfold childOf.
    cbn [fresh_along] in Hfresh.
    destruct (objGet o part) as [[| | | | |c]|] eqn:Hget; try done.
    + destruct (objGet_Some_split o part (JObj c) Hget) as (o1 & o2 & -> & _ & Hrep).
      unfold objSet. rewrite Hget, Hrep, !flattenedEntries_app, !flattenedEntries_cons.
      cbn [entryLeaves]. rewrite (IH c) by done.
      rewrite <- app_comm_cons. symmetry. apply Permutation_middle.
    + destruct (objSet_None_split o part (JObj (storePath [] (next :: rest) value)) Hget)
        as (o1 & o2 & -> & Hset).
      rewrite Hset, !flattenedEntries_app, flattenedEntries_cons.
      cbn [entryLeaves]. rewrite (IH []) by auto using fresh_along_nil.
      rewrite <- app_comm_cons. symmetry. apply Permutation_middle.
Qed.

(** A fresh path stays fresh when another path, which neither is a prefix of
    it nor has it as a prefix, is written. *)
Lemma fresh_along_setPath (k : list string) :
  ∀ (o : props) (q : list string) (value : string),
    ¬ q `prefix_of` k → ¬ k `prefix_of` q →
    fresh_along o k → fresh_along o q → fresh_along (storePath o k value) q.
Proof.
  induction k as [|part [|next rest] IH]; intros o q value Hqk Hkq Hk Hq.
  - destruct Hkq. apply prefix_nil.
  - destruct q as [|q1 qs]; [done|].
    assert (q1 ≠ part) as Hne.
    { intros ->. apply Hkq. by apply prefix_cons, prefix_nil. }
    change (storePath o [part] value) with (objSet o part (JStr value)).
    cbn [fresh_along] in *. rewrite objGet_objSet_ne by done. exact Hq.
  - destruct q as [|q1 qs]; [done|].
    rewrite storePath_cons. cbn [fresh_along].
    destruct (decide (q1 = part)) as [->|Hne];
      [|rewrite objGet_objSet_ne by done; exact Hq].
    rewrite objGet_objSet_eq.
    destruct qs as [|q2 qs].
    { destruct Hqk. by apply prefix_cons, prefix_nil. }
    apply IH.
    + intros ?. by apply Hqk, prefix_cons.
    + intros ?. by apply Hkq, prefix_cons.
    + unfold childOf. cbn [fresh_along] in Hk.
      destruct (objGet o part) as [[]|]; try done; apply fresh_along_nil.
    + unfold childOf. cbn [fresh_along] in Hq.
      destruct (objGet o part) as [[]|]; try done; apply fresh_along_nil.
Qed.

(** The entries written for the tree built from a list of entries whose paths
    are pairwise unrelated by prefix. *)
Lemma flattenedEntries_unflatten (entries : list (string * string)) :
  ∀ (t : props),
    (∀ i j kv1 kv2, entries !! i = Some kv1 → entries !! j = Some kv2 → i ≠ j →
                    ¬ split_dot kv1.1 `prefix_of` split_dot kv2.1) →
    (∀ kv, kv ∈ entries → fresh_along t (split_dot kv.1)) →
    flattenedEntries (JObj (foldl (λ t kv, storePath t (split_dot kv.1) kv.2) t entries)) ""
    ≡ₚ ((λ kv, (joinFrom "" (split_dot kv.1), kv.2)) <$> entries)
       ++ flattenedEntries (JObj t) "".
Proof.
  induction entries as [|[k v] entries IH]; intros t Hpairs Hfresh; [done|].
  cbn [foldl]. rewrite IH.
  - cbn [fst snd].
    rewrite flattenedEntries_setPath.
    + rewrite fmap_cons. cbn [fst snd]. rewrite <- app_comm_cons.
      symmetry. apply Permutation_middle.
    + apply split_dot_nonempty.
    + apply (Hfresh (k, v)). by left.
  - intros i j kv1 kv2 Hi Hj Hij.
    apply (Hpairs (S i) (S j)); [done|done|lia].
  - intros kv Hkv. cbn [fst snd].
    apply list_elem_of_lookup in Hkv as [i Hi].
    apply fresh_along_setPath.
    + apply (Hpairs (S i) 0%nat kv (k, v)); done.
    + apply (Hpairs 0%nat (S i) (k, v) kv); done.
    + apply (Hfresh (k, v)). by left.
    + apply Hfresh. right. by apply list_elem_of_lookup_2 in Hi.
Qed.

Lemma truthy_app (p s : string) : truthy p = true → truthy (p +:+ s) = true.
Proof. by destruct p. Qed.

Lemma string_app_assoc (a b c : string) : (a +:+ b) +:+ c = a +:+ (b +:+ c).
Proof.
  induction a as [|x a IH]; [done|].
  change (String x ((a +:+ b) +:+ c) = String x (a +:+ (b +:+ c))). by f_equal.
Qed.

Lemma string_app_nil_r (a : string) : a +:+ "" = a.
Proof.
  induction a as [|x a IH]; [done|].
  change (String x (a +:+ "") = String x a). by f_equal.
Qed.

(** Joining the segments of [k] after a partial segment [p] spells [p] then [k]. *)
Lemma joinFrom_split_dot (k : string) :
  ∀ p, truthy p = true →
    match split_dot k with
    | [] => False
    | seg :: segs => joinFrom (p +:+ seg) segs = p +:+ k
    end.
Proof.
  induction k as [|c k IH]; intros p Hp; simpl; [done|].
  destruct (Ascii.eqb_spec c ".") as [->|Hc].
  - specialize (IH (p +:+ ".") (truthy_app _ _ Hp)).
    destruct (split_dot k) as [|seg segs]; [done|].
    rewrite string_app_nil_r, joinFrom_cons. unfold fullKeyOf. rewrite Hp.
    rewrite <- string_app_assoc, IH. apply string_app_assoc.
  - specialize (IH (p +:+ String c "") (truthy_app _ _ Hp)).
    destruct (split_dot k) as [|seg segs]; [done|].
    by rewrite !string_app_assoc in IH.
Qed.

(** [flattenObject] names the path of a key that does not begin with a dot
    by the key itself. *)
Lemma joinFrom_split_dot_top (k : string) :
  startsWith k "." = false → joinFrom "" (split_dot k) = k.
Proof.
  destruct k as [|c k]; [done|]. intros Hdot. simpl.
  destruct (Ascii.eqb_spec c ".") as [->|Hc].
  - by destruct k.
  - pose proof (joinFrom_split_dot k (String c "") eq_refl) as Hjoin.
    destruct (split_dot k) as [|seg segs]; [done|].
    by rewrite joinFrom_cons.
Qed.

Lemma foldl_writeEntry (l : list (string * string)) :
  "__proto__" ∉ l.*1 → foldl writeEntry ∅ l = list_to_map (reverse l).
Proof.
  induction l as [|kv l IH] using rev_ind; [done|].
  rewrite fmap_app, not_elem_of_app. intros [Hl Hkv].
  rewrite foldl_app, reverse_app, IH by done. cbn. unfold writeEntry, assign.
  apply not_elem_of_cons in Hkv as [Hkv _].
  apply not_eq_sym, String.eqb_neq in Hkv. by rewrite Hkv.
Qed.

(** The flattened table never has a key [__proto__]. *)
Lemma foldl_writeEntry_proto (l : list (string * string)) (out : gmap string string) :
  out !! "__proto__" = None → foldl writeEntry out l !! "__proto__" = None.
Proof.
  revert out. induction l as [|kv l IH]; intros out Hout; [done|].
  cbn [foldl]. apply IH. unfold writeEntry, assign.
  destruct (String.eqb_spec kv.1 "__proto__") as [|Hne]; [done|].
  by rewrite lookup_insert_ne.
Qed.

Lemma flattenObject_proto (o : props) (prefix : string) :
  flattenObject (JObj o) prefix ∅ !! "__proto__" = None.
Proof. rewrite flattenObject_entries. by apply foldl_writeEntry_proto. Qed.


Lemma assign_proto_None (name value : string) (out : gmap string string) :
  out !! "__proto__" = None → assign name value out !! "__proto__" = None.
Proof.
  intros Hout. unfold assign.
  destruct (String.eqb_spec name "__proto__") as [|Hne]; [done|].
  by rewrite lookup_insert_ne.
Qed.

Lemma flattenObject_proto_any (value : json) (prefix : string) (out : gmap string string) :
  out !! "__proto__" = None → flattenObject value prefix out !! "__proto__" = None.
Proof.
  destruct value as [| | | |items|o]; try done.
  - cbn [flattenObject]. generalize O. revert out.
    induction items as [|entry items IH]; intros out i Hout; [done|].
    destruct entry as [| | |s| |c]; try (by apply IH).
    + by apply IH, assign_proto_None.
    + apply IH. rewrite flattenObject_entries. by apply foldl_writeEntry_proto.
  - intros Hout. rewrite flattenObject_entries. by apply foldl_writeEntry_proto.
Qed.
(** The stores of entries that meet no [__proto__] stay in the tree. *)
Lemma unflatten_stored (entries : list (string * string)) :
  (∀ kv, kv ∈ entries → "__proto__" ∉ split_dot kv.1) →
  unflatten entries = Returns (stored entries).
Proof.
  unfold unflatten, stored. generalize ([] : props).
  induction entries as [|[k v] entries IH]; intros t Hproto; [done|].
  cbn [foldl andThen fst snd]. unfold setNestedValue at 2.
  rewrite setPath_storePath by (apply (Hproto (k, v)); by left).
  apply IH. intros kv Hkv. apply Hproto. by right.
Qed.

Section RoundTrip.
Context (m : gmap string string).
Hypothesis no_leading_dot : ∀ k, k ∈ dom m → startsWith k "." = false.
Hypothesis no_proto : ∀ k, k ∈ dom m → "__proto__" ∉ split_dot k.
Hypothesis prefix_free :
  ∀ k1 k2, k1 ∈ dom m → k2 ∈ dom m → k1 ≠ k2 →
           ¬ split_dot k1 `prefix_of` split_dot k2.

(** C5, amended. For a flat table of strings in which no key begins with a
    dot (an empty first segment, which [flattenObject] drops from the name),
    no key has a segment [__proto__] (a name under which a store reaches the
    accessor of [Object.prototype] and not the tree) and no key's path is a
    prefix of another key's path, building the tree with [setNestedValue] for
    each entry, in any order, and flattening it gives the table back. *)
Theorem flatten_unflatten (entries : list (string * string)) :
  entries ≡ₚ map_to_list m →
  ∃ tree, unflatten entries = Returns tree
          ∧ flattenObject (JObj tree) "" ∅ = m.
Proof.
  intros Hperm.
  assert (NoDup entries.*1) as Hnodup.
  { rewrite Hperm. apply NoDup_fst_map_to_list. }
  assert (∀ kv, kv ∈ entries → kv.1 ∈ dom m) as Hdom.
  { intros [k v] Hkv. rewrite Hperm in Hkv.
    apply elem_of_map_to_list in Hkv. apply elem_of_dom. by exists v. }
  exists (stored entries). split.
  { apply unflatten_stored. intros kv Hkv. by apply no_proto, Hdom. }
  assert (flattenedEntries (JObj (stored entries)) "" ≡ₚ entries) as Hentries.
  { unfold stored. rewrite flattenedEntries_unflatten, app_nil_r.
    - rewrite (list_fmap_ext _ (λ kv, kv) entries); [by rewrite list_fmap_id|].
      intros i [k v] Hkv. cbn [fst snd].
      rewrite joinFrom_split_dot_top; [done|].
      apply no_leading_dot, (Hdom (k, v)). by apply list_elem_of_lookup_2 in Hkv.
    - intros i j kv1 kv2 Hi Hj Hij.
      apply prefix_free.
      + apply Hdom. by apply list_elem_of_lookup_2 in Hi.
      + apply Hdom. by apply list_elem_of_lookup_2 in Hj.
      + intros Heq. apply Hij.
        apply (NoDup_lookup _ i j kv1.1 Hnodup); rewrite list_lookup_fmap.
        * by rewrite Hi.
        * by rewrite Hj, Heq.
    - intros kv _. apply fresh_along_nil. }
  rewrite flattenObject_entries, foldl_writeEntry.
  - rewrite <- (list_to_map_to_list m).
    apply list_to_map_proper.
    + by rewrite reverse_Permutation, Hentries.
    + by rewrite reverse_Permutation, Hentries.
  - rewrite Hentries. intros ([k v] & Hk & Hkv)%list_elem_of_fmap.
    apply (no_proto k); [by apply (Hdom (k, v))|].
    cbn [fst] in Hk. rewrite <- Hk. by left.
Qed.
End RoundTrip.

(** The table with [title], [x.y] and [x.z] comes back from its tree. *)
Lemma flatten_unflatten_witness :
  ∃ tree, unflatten (map_to_list nestedKeys) = Returns tree
          ∧ flattenObject (JObj tree) "" ∅ = nestedKeys.
Proof.
  assert (∀ k, k ∈ dom nestedKeys → k = "x.z" ∨ k = "x.y" ∨ k = "title") as Hdom.
  { intros k. unfold nestedKeys.
    rewrite !dom_insert_L, dom_singleton_L, !elem_of_union, !elem_of_singleton. tauto. }
  apply (flatten_unflatten nestedKeys).
  - intros k [->|[->| ->]]%Hdom; reflexivity.
  - intros k [->|[->| ->]]%Hdom; vm_compute; intros Hin;
      repeat (apply elem_of_cons in Hin as [Hin|Hin]; [discriminate|]);
      by apply elem_of_nil in Hin.
  - intros k1 k2 [->|[->| ->]]%Hdom [->|[->| ->]]%Hdom Hne; try done;
      vm_compute; intros [l Hl]; destruct l; discriminate.
  - reflexivity.
Defined.

(** C5 as stated fails on the table with the keys [a] and [a.b], none of
    whose segments is empty: written in this order, [a.b] replaces the string
    at [a] by an object and only [a.b] comes back; written in the other
    order, the string at [a] replaces the object and only [a] comes back. It
    fails as well on the table with the one key [__proto__]: the store is
    ignored, the tree stays empty and nothing comes back. *)
Lemma flatten_unflatten_counterexample :
  (∀ k, k ∈ dom clashingKeys → "" ∉ split_dot k)
  ∧ (∃ tree, unflatten [("a", "x"); ("a.b", "y")] = Returns tree
             ∧ flattenObject (JObj tree) "" ∅ = {[ "a.b" := "y" ]}
             ∧ flattenObject (JObj tree) "" ∅ ≠ clashingKeys)
  ∧ (∃ tree, unflatten [("a.b", "y"); ("a", "x")] = Returns tree
             ∧ flattenObject (JObj tree) "" ∅ = {[ "a" := "x" ]}
             ∧ flattenObject (JObj tree) "" ∅ ≠ clashingKeys)
  ∧ (∀ k, k ∈ dom protoKeys → "" ∉ split_dot k)
  ∧ (∃ tree, unflatten (map_to_list protoKeys) = Returns tree
             ∧ flattenObject (JObj tree) "" ∅ = ∅
             ∧ flattenObject (JObj tree) "" ∅ ≠ protoKeys).
Proof.
  split_and!.
  - intros k. unfold clashingKeys.
    rewrite dom_insert_L, dom_singleton_L, elem_of_union, !elem_of_singleton.
    intros [->| ->]; vm_compute; intros Hin;
      repeat (apply elem_of_cons in Hin as [Hin|Hin]; [discriminate|]);
      by apply elem_of_nil in Hin.
  - eexists. split; [reflexivity|]. split; [reflexivity|].
    intros Heq. apply (f_equal (lookup "a")) in Heq. vm_compute in Heq. discriminate.
  - eexists. split; [reflexivity|]. split; [reflexivity|].
    intros Heq. apply (f_equal (lookup "a.b")) in Heq. vm_compute in Heq. discriminate.
  - intros k. unfold protoKeys. rewrite dom_singleton_L, elem_of_singleton.
    intros ->. vm_compute. intros Hin.
    repeat (apply elem_of_cons in Hin as [Hin|Hin]; [discriminate|]).
    by apply elem_of_nil in Hin.
  - exists []. split; [by vm_compute|]. split; [reflexivity|].
    intros Heq. apply (f_equal (lookup "__proto__")) in Heq. vm_compute in Heq. discriminate.
Qed.

(** ** Loading the catalog *)

Lemma sort_insert_perm {A} (compare : A → A → Z) (x : A) (l : list A) :
  sort_insert compare x l ≡ₚ x :: l.
Proof.
  induction l as [|y l IH]; simpl; [done|].
  destruct (compare x y <=? 0); [done|].
  rewrite IH. apply Permutation_swap.
Qed.

Lemma Array_sort_perm {A} (compare : A → A → Z) (l : list A) :
  Array_sort compare l ≡ₚ l.
Proof.
  induction l as [|x l IH]; simpl; [done|].
  by rewrite sort_insert_perm, IH.
Qed.

Lemma elem_of_Array_sort {A} (compare : A → A → Z) (l : list A) (x : A) :
  x ∈ Array_sort compare l ↔ x ∈ l.
Proof. by rewrite Array_sort_perm. Qed.

Lemma elem_of_Set_add (keys : list string) (l : list string) (x : string) :
  x ∈ foldl Set_add l keys ↔ x ∈ l ∨ x ∈ keys.
Proof.
  revert l. induction keys as [|k keys IH]; intros l; simpl.
  - rewrite elem_of_nil. naive_solver.
  - rewrite IH, elem_of_cons. unfold Set_add.
    destruct (includes l k) eqn:Hin.
    + apply includes_spec in Hin. naive_solver.
    + rewrite elem_of_app, list_elem_of_singleton. naive_solver.
Qed.

Lemma assign_proto {A} (value : A) (record : gmap string A) :
  assign "__proto__" value record = record.
Proof. done. Qed.

Lemma assign_insert {A} (name : string) (value : A) (record : gmap string A) :
  name ≠ "__proto__" → assign name value record = <[name := value]> record.
Proof. intros Hne. unfold assign. by apply String.eqb_neq in Hne as ->. Qed.

Lemma lookup_foldl_assign {A} (f : string → A) (l : list string) (m : gmap string A)
    (k : string) :
  foldl (λ m k, assign k (f k) m) m l !! k
  = if bool_decide (k ∈ l ∧ k ≠ "__proto__") then Some (f k) else m !! k.
Proof.
  revert m. induction l as [|x l IH]; intros m; cbn [foldl].
  - rewrite bool_decide_eq_false_2; [done|]. intros [[]%elem_of_nil _].
  - rewrite IH. case_bool_decide as Hl.
    + rewrite bool_decide_eq_true_2; [done|]. destruct Hl. split; [by right|done].
    + destruct (decide (x = "__proto__")) as [->|Hx].
      * rewrite assign_proto. rewrite bool_decide_eq_false_2; [done|].
        rewrite elem_of_cons. naive_solver.
      * rewrite assign_insert by done.
        destruct (decide (k = x)) as [->|Hne].
        -- rewrite lookup_insert_eq, bool_decide_eq_true_2; [done|]. split; [by left|done].
        -- rewrite lookup_insert_ne by done. rewrite bool_decide_eq_false_2; [done|].
           rewrite elem_of_cons. naive_solver.
Qed.

Lemma lookup_foldl_insert {A} (f : string → A) (l : list string) (m : gmap string A)
    (k : string) :
  foldl (λ m k, <[k := f k]> m) m l !! k = if bool_decide (k ∈ l) then Some (f k) else m !! k.
Proof.
  revert m. induction l as [|x l IH]; intros m; simpl; [done|].
  rewrite IH. case_bool_decide as Hl.
  - rewrite bool_decide_eq_true_2; [done|by right].
  - destruct (decide (k = x)) as [->|Hne].
    + rewrite lookup_insert_eq, bool_decide_eq_true_2; [done|by left].
    + rewrite lookup_insert_ne by done. rewrite bool_decide_eq_false_2; [done|].
      rewrite elem_of_cons. naive_solver.
Qed.

Lemma fmap_same {A} (f : A → A) (l : list A) : (∀ x, f x = x) → f <$> l = l.
Proof. intros Hf. induction l as [|x l IH]; [done|]. by rewrite fmap_cons, Hf, IH. Qed.

Lemma elem_of_jsonFiles (dir : Dir) (c : string) : c ∈ jsonFiles dir ↔ is_Some (dir !! c).
Proof.
  unfold jsonFiles. rewrite list_elem_of_fmap. split.
  - intros ([c' v] & -> & Hin). apply elem_of_map_to_list in Hin. by exists v.
  - intros [v Hv]. exists (c, v). split; [done|]. by apply elem_of_map_to_list.
Qed.

Section Languages.
Context (JSON_parse : string → option json).

(** A read throws on an unreadable entry and on nothing else. *)
Lemma readJsonFile_None (dir : Dir) (file : string) :
  readJsonFile JSON_parse dir file = None ↔ dir !! file = Some Unreadable.
Proof.
  unfold readJsonFile. destruct (dir !! file) as [[text|data|]|]; try done.
  by destruct (JSON_parse (stripBOM text)).
Qed.

Lemma readable_readJsonFile (dir : Dir) (file : string) :
  readable dir → ∃ doc, readJsonFile JSON_parse dir file = Some doc.
Proof.
  intros Hdir. destruct (readJsonFile JSON_parse dir file) as [doc|] eqn:Hread; [by exists doc|].
  apply readJsonFile_None in Hread. by destruct (Hdir file).
Qed.

(** No table has the key [__proto__]. *)
Lemma flattenedOf_proto (dir : Dir) (code : string) :
  flattenedOf JSON_parse dir code !! "__proto__" = None.
Proof.
  unfold flattenedOf. destruct (readJsonFile JSON_parse dir code); [|done].
  by apply flattenObject_proto_any.
Qed.

Lemma unreadableAt_spec (dir : Dir) (file : string) :
  unreadableAt dir file = true ↔ dir !! file = Some Unreadable.
Proof. unfold unreadableAt. by destruct (dir !! file) as [[| |]|]. Qed.

Lemma loadLanguages_step (dir : Dir) (languageCodes : list string)
    (acc : option (gmap string (gmap string string) * list string)) :
  foldl (λ acc code,
           match acc with
           | None => None
           | Some (perLangValues, allKeys) =>
               match readJsonFile JSON_parse dir code with
               | None => None
               | Some json =>
                   let flattened := flattenObject (document_json json) "" ∅ in
                   Some (<[code := flattened]> perLangValues,
                         foldl Set_add allKeys (map_to_list flattened).*1)
               end
           end) acc languageCodes
  = match acc with
    | None => None
    | Some (perLang0, allKeys0) =>
        if existsb (unreadableAt dir) languageCodes then None
        else Some (foldl (λ perLang code, <[code := flattenedOf JSON_parse dir code]> perLang)
                         perLang0 languageCodes,
                   foldl (λ allKeys code,
                            foldl Set_add allKeys
                                  (map_to_list (flattenedOf JSON_parse dir code)).*1)
                         allKeys0 languageCodes)
    end.
Proof.
  revert acc. induction languageCodes as [|c codes IH]; intros acc; cbn [foldl existsb].
  - by destruct acc as [[perLang0 allKeys0]|].
  - rewrite IH. destruct acc as [[perLang0 allKeys0]|]; [|done].
    destruct (readJsonFile JSON_parse dir c) as [doc|] eqn:Hread.
    + destruct (unreadableAt dir c) eqn:Hc.
      { apply unreadableAt_spec, readJsonFile_None in Hc. congruence. }
      assert (flattenedOf JSON_parse dir c = flattenObject (document_json doc) "" ∅) as ->
        by (unfold flattenedOf; by rewrite Hread).
      done.
    + apply readJsonFile_None, unreadableAt_spec in Hread. by rewrite Hread.
Qed.

Lemma loadLanguages_throws (dir : Dir) (languageCodes : list string) (code : string) :
  code ∈ languageCodes → dir !! code = Some Unreadable →
  loadLanguages JSON_parse dir languageCodes = None.
Proof.
  intros Hin Hcode. unfold loadLanguages. rewrite loadLanguages_step.
  assert (existsb (unreadableAt dir) languageCodes = true) as ->; [|done].
  apply existsb_exists. exists code. split; [by apply list_elem_of_In|].
  by apply unreadableAt_spec.
Qed.

Lemma loadLanguages_spec (dir : Dir) (languageCodes : list string) :
  readable dir →
  ∃ perLang allKeys,
    loadLanguages JSON_parse dir languageCodes = Some (perLang, allKeys)
    ∧ (∀ code, perLang !! code
               = if bool_decide (code ∈ languageCodes)
                 then Some (flattenedOf JSON_parse dir code) else None)
    ∧ (∀ key, key ∈ allKeys
              ↔ ∃ code, code ∈ languageCodes
                        ∧ is_Some (flattenedOf JSON_parse dir code !! key)).
Proof.
  intros Hdir. unfold loadLanguages. rewrite loadLanguages_step.
  assert (existsb (unreadableAt dir) languageCodes = false) as ->.
  { apply not_true_is_false. intros (code & _ & Hcode%unreadableAt_spec)%existsb_exists.
    by destruct (Hdir code). }
  eexists _, _. split; [done|]. split.
  - intros code.
    rewrite (lookup_foldl_insert (λ code, flattenedOf JSON_parse dir code)).
    by rewrite lookup_empty.
  - intros key.
    assert (∀ codes allKeys0,
              key ∈ foldl (λ allKeys code,
                             foldl Set_add allKeys
                                   (map_to_list (flattenedOf JSON_parse dir code)).*1)
                          allKeys0 codes
              ↔ key ∈ allKeys0
                ∨ ∃ code, code ∈ codes
                          ∧ is_Some (flattenedOf JSON_parse dir code !! key)) as Hkeys.
    { induction codes as [|c codes IH]; intros allKeys0; cbn [foldl].
      - split; [by left|]. intros [?|(code & []%elem_of_nil & _)]. done.
      - rewrite IH, elem_of_Set_add.
        assert (key ∈ (map_to_list (flattenedOf JSON_parse dir c)).*1
                ↔ is_Some (flattenedOf JSON_parse dir c !! key)) as ->.
        { rewrite list_elem_of_fmap. split.
          - intros ([k v] & -> & Hin). apply elem_of_map_to_list in Hin. by exists v.
          - intros [v Hv]. exists (key, v). split; [done|]. by apply elem_of_map_to_list. }
        setoid_rewrite elem_of_cons. naive_solver. }
    rewrite Hkeys, elem_of_nil. naive_solver.
Qed.

End Languages.

Section Load.
Context (JSON_parse : string → option json).
Context (toLowerCase : string → string) (localeCompare : string → string → Z).

(** What a load of a found folder does. *)
Lemma readI18nData_found (w : Workspace) (dir : Dir) :
  resolveI18nDir w = Some dir → readable dir →
  ∃ payload,
    readI18nData JSON_parse toLowerCase localeCompare w = Some payload
    ∧ (∀ c, c ∈ Host.code <$> Host.languages payload ↔ is_Some (dir !! c))
    ∧ (∀ k, k ∈ id <$> Host.keys payload
            ↔ ∃ c, is_Some (dir !! c) ∧ is_Some (flattenedOf JSON_parse dir c !! k))
    ∧ (∀ k, k ∈ id <$> Host.keys payload →
         ∃ row, Host.values payload !! k = Some row
                ∧ ∀ c, row !! c
                       = if bool_decide (is_Some (dir !! c) ∧ c ≠ "__proto__")
                         then Some (default (Own "")
                                      (lookupMember (flattenedOf JSON_parse dir c) k))
                         else None).
Proof.
  intros Hdir Hreadable. unfold readI18nData. rewrite Hdir.
  unfold resolveI18nDir in Hdir. destruct (root w) as [r|]; [|done].
  case_bool_decide as Hfiles.
  - eexists. split; [done|]. cbn.
    assert (∀ c, ¬ is_Some (dir !! c)) as Hempty.
    { intros c Hc%elem_of_jsonFiles. rewrite Hfiles in Hc. by apply elem_of_nil in Hc. }
    split; [|split].
    + intros c. rewrite elem_of_nil. naive_solver.
    + intros k. rewrite elem_of_nil. naive_solver.
    + intros k []%elem_of_nil.
  - set (languageCodes :=
           Array_sort (compareLanguageCodes toLowerCase localeCompare) (jsonFiles dir)).
    destruct (loadLanguages_spec JSON_parse dir languageCodes Hreadable)
      as (perLang & allKeys & -> & Hlang & Hkeys).
    eexists. split; [done|]. cbn.
    assert (∀ c, c ∈ languageCodes ↔ is_Some (dir !! c)) as Hcodes.
    { intros c. unfold languageCodes. by rewrite elem_of_Array_sort, elem_of_jsonFiles. }
    assert (∀ k, k ∈ Array_sort localeCompare allKeys
                 ↔ ∃ c, is_Some (dir !! c)
                        ∧ is_Some (flattenedOf JSON_parse dir c !! k)) as Hunion.
    { intros k. rewrite elem_of_Array_sort, Hkeys. by setoid_rewrite Hcodes. }
    rewrite <- !list_fmap_compose.
    split; [|split].
    + intros c. rewrite <- Hcodes.
      by rewrite (fmap_same (Host.code ∘ getLanguageInfo toLowerCase)).
    + intros k. rewrite <- Hunion.
      by rewrite (fmap_same (_ ∘ _)).
    + intros k Hk.
      rewrite (fmap_same (_ ∘ _)) in Hk by done.
      assert (k ≠ "__proto__") as Hproto.
      { intros ->. apply Hunion in Hk as (c & _ & Hc).
        rewrite flattenedOf_proto in Hc. by destruct Hc. }
      rewrite (lookup_foldl_assign
                 (λ key, foldl (λ row code, assign code (cellOf perLang code key) row)
                               ∅ languageCodes)).
      rewrite bool_decide_eq_true_2 by done. eexists. split; [done|].
      intros c. rewrite (lookup_foldl_assign (λ code, cellOf perLang code k)).
      rewrite lookup_empty.
      rewrite (bool_decide_ext _ (is_Some (dir !! c) ∧ c ≠ "__proto__"))
        by (by rewrite Hcodes).
      case_bool_decide as Hc; [|done].
      unfold cellOf. rewrite Hlang.
      rewrite bool_decide_eq_true_2; [done|]. apply Hcodes, Hc.
Qed.

(** A load of a folder with an unreadable entry throws. *)
Lemma readI18nData_throws (w : Workspace) (dir : Dir) (file : string) :
  resolveI18nDir w = Some dir → dir !! file = Some Unreadable →
  readI18nData JSON_parse toLowerCase localeCompare w = None.
Proof.
  intros Hdir Hfile. unfold readI18nData. rewrite Hdir.
  unfold resolveI18nDir in Hdir. destruct (root w) as [r|]; [|done].
  assert (file ∈ jsonFiles dir) as Hin by (apply elem_of_jsonFiles; eauto).
  case_bool_decide as Hfiles.
  { rewrite Hfiles in Hin. by apply elem_of_nil in Hin. }
  rewrite (loadLanguages_throws JSON_parse dir _ file); [done| |done].
  by apply elem_of_Array_sort.
Qed.

(** C3. What [readI18nData] does with a folder it finds. Where some entry
    named [*.json] cannot be read, it throws. Otherwise it returns a payload
    whose languages are the base names of the JSON files and whose keys are
    the union of the keys of the flattened files; every key has a row, and
    the row has a cell for every language but one named [__proto__], which
    gets none. The cell of a key and a language is the flattened value of
    that file; where the file has no such key it is the member of that name
    inherited from [Object.prototype], a function, for a key such as
    [constructor], and the empty string for any other key. So the table is
    dense, with a string in every cell, only where no file is unreadable, no
    file is named [__proto__.json] and no key that some file lacks is the
    name of a member of [Object.prototype]. *)
Theorem readI18nData_dense (w : Workspace) (dir : Dir) :
  resolveI18nDir w = Some dir →
  (∀ file, dir !! file = Some Unreadable →
     readI18nData JSON_parse toLowerCase localeCompare w = None)
  ∧ (readable dir →
     ∃ payload,
       readI18nData JSON_parse toLowerCase localeCompare w = Some payload
       ∧ (∀ c, c ∈ Host.code <$> Host.languages payload ↔ is_Some (dir !! c))
       ∧ (∀ k, k ∈ id <$> Host.keys payload
               ↔ ∃ c, is_Some (dir !! c) ∧ is_Some (flattenedOf JSON_parse dir c !! k))
       ∧ (∀ k c, k ∈ id <$> Host.keys payload → is_Some (dir !! c) →
            ∃ row, Host.values payload !! k = Some row
                   ∧ row !! c
                     = if bool_decide (c = "__proto__") then None
                       else match flattenedOf JSON_parse dir c !! k with
                            | Some text => Some (Own text)
                            | None => if inherits k then Some (Inherited k)
                                      else Some (Own "")
                            end)).
Proof.
  intros Hdir. split.
  - intros file Hfile. by apply (readI18nData_throws w dir file).
  - intros Hreadable.
    destruct (readI18nData_found w dir Hdir Hreadable)
      as (payload & Hload & Hlangs & Hkeys & Hrows).
    exists payload. split_and!; [done..|].
    intros k c Hk Hc. destruct (Hrows k Hk) as (row & Hrow & Hcells).
    exists row. split; [done|]. rewrite Hcells.
    destruct (decide (c = "__proto__")) as [Hproto|Hproto].
    + rewrite bool_decide_eq_false_2 by tauto. by rewrite bool_decide_eq_true_2.
    + rewrite bool_decide_eq_true_2 by tauto. rewrite bool_decide_eq_false_2 by done.
      unfold lookupMember.
      destruct (flattenedOf JSON_parse dir c !! k); [done|]. by destruct (inherits k).
Qed.
End Load.

Lemma readable_empty : readable ∅.
Proof. intros file. by rewrite lookup_empty. Qed.

Lemma readable_insert (dir : Dir) (file : string) (content : FileContent) :
  content ≠ Unreadable → readable dir → readable (<[file := content]> dir).
Proof.
  intros Hcontent Hdir name. destruct (decide (name = file)) as [->|Hne].
  - rewrite lookup_insert_eq. congruence.
  - rewrite lookup_insert_ne by done. apply Hdir.
Qed.

Lemma readable_singleton (file : string) (content : FileContent) :
  content ≠ Unreadable → readable {[ file := content ]}.
Proof. intros Hcontent. rewrite <- insert_empty. by apply readable_insert, readable_empty. Qed.

(** A load of the folder where [fr.json] is a directory throws. In the folder
    whose English file alone has the key [constructor], the French cell of
    that key is the function that a plain object inherits under the name. In
    the folder with a file [__proto__.json], that language is in the payload
    and the row of the key [a] has no cell for it. *)
Lemma readI18nData_dense_witness :
  readI18nData rejectAll toLowerCaseASCII ordinalCompare (workspaceOf unreadableDir) = None
  ∧ (∃ payload row,
       readI18nData rejectAll toLowerCaseASCII ordinalCompare (workspaceOf inheritedDir)
       = Some payload
       ∧ "constructor" ∈ id <$> Host.keys payload
       ∧ "fr" ∈ Host.code <$> Host.languages payload
       ∧ Host.values payload !! "constructor" = Some row
       ∧ row !! "fr" = Some (Inherited "constructor"))
  ∧ (∃ payload row,
       readI18nData rejectAll toLowerCaseASCII ordinalCompare (workspaceOf protoDir)
       = Some payload
       ∧ "a" ∈ id <$> Host.keys payload
       ∧ "__proto__" ∈ Host.code <$> Host.languages payload
       ∧ Host.values payload !! "a" = Some row
       ∧ row !! "__proto__" = None).
Proof.
  split_and!.
  - apply (proj1 (readI18nData_dense rejectAll toLowerCaseASCII ordinalCompare
                    (workspaceOf unreadableDir) unreadableDir eq_refl) "fr").
    reflexivity.
  - destruct (proj2 (readI18nData_dense rejectAll toLowerCaseASCII ordinalCompare
                       (workspaceOf inheritedDir) inheritedDir eq_refl))
      as (payload & Hload & Hlangs & Hkeys & Hcells).
    { apply readable_insert; [done|]. by apply readable_singleton. }
    assert ("constructor" ∈ id <$> Host.keys payload) as Hkey.
    { apply Hkeys. exists "en". split; eexists; vm_compute; reflexivity. }
    assert (is_Some (inheritedDir !! "fr")) as Hfr by (eexists; reflexivity).
    destruct (Hcells "constructor" "fr" Hkey Hfr) as (row & Hrow & Hcell).
    exists payload, row. split_and!; [done|done|by apply Hlangs|done|].
    rewrite Hcell. vm_compute. reflexivity.
  - destruct (proj2 (readI18nData_dense rejectAll toLowerCaseASCII ordinalCompare
                       (workspaceOf protoDir) protoDir eq_refl))
      as (payload & Hload & Hlangs & Hkeys & Hcells).
    { apply readable_insert; [done|]. by apply readable_singleton. }
    assert ("a" ∈ id <$> Host.keys payload) as Hkey.
    { apply Hkeys. exists "en". split; eexists; vm_compute; reflexivity. }
    assert (is_Some (protoDir !! "__proto__")) as Hproto by (eexists; reflexivity).
    destruct (Hcells "a" "__proto__" Hkey Hproto) as (row & Hrow & Hcell).
    exists payload, row. split_and!; [done|done|by apply Hlangs|done|].
    rewrite Hcell. reflexivity.
Defined.


(** ** Adding a key *)

Lemma if_bool_decide_ext {A} (P Q : Prop) `{Decision P, Decision Q} (x y : A) :
  (P ↔ Q) → (if bool_decide P then x else y) = (if bool_decide Q then x else y).
Proof. intros HPQ. by rewrite (bool_decide_ext P Q). Qed.

Lemma storePath_printedProps (parts : list string) (o : props) (value : string) :
  "__proto__" ∉ parts →
  storePath (printedProps o) parts value = printedProps (storePath o parts value).
Proof.
  intros Hparts. pose proof (setPath_printedProps parts o value) as Hset.
  rewrite !setPath_storePath in Hset by done. by injection Hset.
Qed.

Lemma getOrCreateI18nDir_with (w : Workspace) (dir dir' : Dir) :
  getOrCreateI18nDir w = Some dir →
  getOrCreateI18nDir (with_i18nDir w dir') = Some dir'.
Proof.
  unfold getOrCreateI18nDir, resolveI18nDir, with_i18nDir. simpl.
  by destruct (root w).
Qed.

Lemma with_i18nDir_twice (w : Workspace) (dir dir' : Dir) :
  with_i18nDir (with_i18nDir w dir) dir' = with_i18nDir w dir'.
Proof. done. Qed.

Lemma elem_of_targetCodes (dir : Dir) (sourceLang c : string) :
  c ∈ (if includes (jsonFiles dir) sourceLang then jsonFiles dir
       else jsonFiles dir ++ [sourceLang])
  ↔ is_Some (dir !! c) ∨ c = sourceLang.
Proof.
  destruct (includes (jsonFiles dir) sourceLang) eqn:Hin.
  - apply includes_spec in Hin. rewrite elem_of_jsonFiles in *.
    split; [by left|]. by intros [?| ->].
  - by rewrite elem_of_app, list_elem_of_singleton, elem_of_jsonFiles.
Qed.

Section AddKey.
Context (JSON_parse : string → option json) (ToArrayLength : string → option nat).
Context (Array_prototype : list string).

Local Abbreviation read := (readJsonFile JSON_parse).
Local Abbreviation loop := (addKeyLoop JSON_parse ToArrayLength Array_prototype).
Local Abbreviation lacks := (lacksKey JSON_parse Array_prototype).
Local Abbreviation valueAt := (getNestedValue Array_prototype).

Lemma readJsonFile_same (dir dir' : Dir) (file : string) :
  dir' !! file = dir !! file → read dir' file = read dir file.
Proof. intros H. unfold readJsonFile. by rewrite H. Qed.

Lemma records_only_write (dir : Dir) (file : string) (o : props) :
  records_only JSON_parse dir → records_only JSON_parse (writeJsonFile dir file (DRecord o)).
Proof.
  intros Hrec other. destruct (decide (other = file)) as [->|Hne].
  - exists (printedProps o). apply readJsonFile_writeJsonFile.
  - rewrite readJsonFile_writeJsonFile_ne by done. apply Hrec.
Qed.

Lemma records_only_readable (dir : Dir) : records_only JSON_parse dir → readable dir.
Proof.
  intros Hrec file Hfile. destruct (Hrec file) as [o Ho].
  apply (readJsonFile_None JSON_parse) in Hfile. congruence.
Qed.

Lemma lacksKey_dec (dir : Dir) (file key : string) :
  lacks dir file key ∨ ¬ lacks dir file key.
Proof.
  unfold lacksKey. destruct (read dir file) as [doc|].
  - destruct (valueAt (document_json doc) key) as [held|] eqn:Hheld.
    + right. intros (doc' & [= <-] & Hnone). congruence.
    + left. by exists doc.
  - right. by intros (doc' & [=] & _).
Qed.

Lemma lacksKey_record (dir : Dir) (file key : string) (o : props) :
  read dir file = Some (DRecord o) →
  lacks dir file key ↔ valueAt (JObj o) key = None.
Proof.
  intros Ho. unfold lacksKey. rewrite Ho. split.
  - by intros (doc & [= <-] & Hnone).
  - intros Hnone. by exists (DRecord o).
Qed.

(** The stored key is read back, from the tree and from what is printed. *)
Lemma getNestedValue_stored (o : props) (key value : string) :
  "__proto__" ∉ split_dot key →
  valueAt (JObj (printedProps (storePath o (split_dot key) value))) key
  = Some (Data (JStr value)).
Proof.
  intros Hkey. rewrite <- storePath_printedProps by done.
  apply ownPath_getPath, ownPath_storePath, split_dot_nonempty.
Qed.

(** A target that holds a value is passed over. *)
Lemma addKeyLoop_unchanged (targetCodes : list string) (dir : Dir)
    (key sourceLang value : string) :
  readable dir →
  (∀ c, c ∈ targetCodes → ¬ lacks dir c key) →
  loop dir targetCodes key sourceLang value = Returns dir.
Proof.
  intros Hdir. induction targetCodes as [|c codes IH]; intros Hall; cbn [addKeyLoop]; [done|].
  pose proof (Hall c ltac:(left)) as Hc. unfold lacksKey in Hc.
  destruct (readable_readJsonFile JSON_parse dir c Hdir) as [doc Hdoc]. rewrite Hdoc in *.
  destruct (valueAt (document_json doc) key) eqn:Hheld.
  - apply IH. intros c' Hc'. apply Hall. by right.
  - destruct Hc. by exists doc.
Qed.

(** The folder after the loop, file by file. *)
Lemma addKeyLoop_lookup (targetCodes : list string) :
  ∀ (dir : Dir) (key sourceLang value : string),
    records_only JSON_parse dir → "__proto__" ∉ split_dot key →
    ∃ dir',
      loop dir targetCodes key sourceLang value = Returns dir'
      ∧ ∀ c, (c ∈ targetCodes ∧ lacks dir c key →
              dir' !! c
              = Some (Written (DRecord (printedProps
                        (storePath (recordAt JSON_parse dir c) (split_dot key)
                           (seedOf sourceLang value c))))))
             ∧ (¬ (c ∈ targetCodes ∧ lacks dir c key) → dir' !! c = dir !! c).
Proof.
  induction targetCodes as [|code codes IH]; intros dir key sourceLang value Hrec Hkey.
  { exists dir. split; [done|]. intros c. split; [|done].
    intros [[]%elem_of_nil _]. }
  cbn [addKeyLoop]. destruct (Hrec code) as [o Ho]. rewrite Ho.
  cbn [document_json storeValue].
  destruct (valueAt (JObj o) key) as [held|] eqn:Hheld.
  - destruct (IH dir key sourceLang value Hrec Hkey) as (dir' & -> & Hlookup).
    exists dir'. split; [done|]. intros c.
    assert (¬ lacks dir code key) as Hcode.
    { rewrite (lacksKey_record dir code key o Ho). congruence. }
    destruct (Hlookup c) as [Hwritten Hkept]. split.
    + intros [[->|Hc]%elem_of_cons Hlacks]; [done|]. by apply Hwritten.
    + intros Hnot. apply Hkept. intros [Hc Hlacks]. apply Hnot. split; [by right|done].
  - unfold setNestedValue. rewrite setPath_storePath by done.
    set (o' := storePath o (split_dot key)
                 (if String.eqb code sourceLang then value else "")).
    set (dir1 := writeJsonFile dir code (DRecord o')).
    destruct (IH dir1 key sourceLang value) as (dir' & -> & Hlookup);
      [by apply records_only_write|done|].
    exists dir'. split; [done|]. intros c. destruct (Hlookup c) as [Hwritten Hkept].
    destruct (decide (c = code)) as [->|Hne].
    + assert (dir' !! code = dir1 !! code) as ->.
      { apply Hkept. intros [_ Hlacks].
        apply (lacksKey_record dir1 code key (printedProps o')) in Hlacks.
        - unfold o' in Hlacks. by rewrite getNestedValue_stored in Hlacks.
        - unfold dir1. apply readJsonFile_writeJsonFile. }
      split.
      * intros _. unfold dir1, writeJsonFile. rewrite lookup_insert_eq.
        unfold recordAt. by rewrite Ho.
      * intros Hnot. destruct Hnot. split; [by left|].
        by apply (lacksKey_record dir code key o).
    + assert (read dir1 c = read dir c) as Hread
        by (by apply readJsonFile_writeJsonFile_ne).
      assert (lacks dir1 c key ↔ lacks dir c key) as Hlacks
        by (unfold lacksKey; by rewrite Hread).
      assert (recordAt JSON_parse dir1 c = recordAt JSON_parse dir c) as Hrecord
        by (unfold recordAt; by rewrite Hread).
      assert (dir1 !! c = dir !! c) as Hsame
        by (unfold dir1, writeJsonFile; by rewrite lookup_insert_ne).
      rewrite <- Hsame, <- Hrecord. split.
      * intros [[->|Hc]%elem_of_cons Hl]; [done|]. apply Hwritten. tauto.
      * intros Hnot. apply Hkept. intros [Hc Hl]. apply Hnot. split; [by right|tauto].
Qed.
(** A file that is not there has every key but the names a plain object
    inherits. *)
Lemma lacksKey_inherited (dir : Dir) (file key name : string) :
  split_dot key = [name] → inherits name = true → ¬ lacks dir file key.
Proof.
  intros Hkey Hname (doc & _ & Hnone). unfold getNestedValue in Hnone.
  rewrite Hkey in Hnone. cbn [getPath] in Hnone.
  destruct doc as [o|items]; cbn [document_json jsGet] in Hnone.
  - destruct (objGet o name); [done|]. unfold inherited in Hnone.
    rewrite Hname in Hnone. by destruct (String.eqb name "__proto__").
  - destruct (array_index name) as [i|] eqn:Hindex.
    { revert Hindex Hname. unfold inherits, OBJECT_PROTOTYPE. cbn [includes existsb].
      rewrite !orb_true_iff, !String.eqb_eq.
      intros Hindex Hor.
      repeat (destruct Hor as [Heq|Hor]; [subst name; by vm_compute in Hindex|]).
      done. }
    destruct (String.eqb name "length"); [done|].
    unfold inheritedByArray in Hnone. rewrite Hname in Hnone.
    destruct (String.eqb name "__proto__"); [done|].
    by destruct (includes Array_prototype name).
Qed.

(** C4. What [addTranslationKey] does for a key without a segment
    [__proto__] in a folder whose JSON files all read as records. The targets
    are the existing files and the file of the source language. A target
    where [getNestedValue] finds nothing at the key is written, with the
    given value for the source language and the empty string for the others,
    and holds that string at the key afterwards; every other file is left as
    it is. Afterwards [getNestedValue] finds something at the key in every
    target, and a second call for the same key, with any value, changes
    nothing. What [getNestedValue] finds need not be in the file: for a key
    that is the name of a member of [Object.prototype], such as [toString],
    it finds the inherited function in every file, and the call writes
    nothing at all. *)
Theorem addTranslationKey_spec (w : Workspace) (dir : Dir) (key sourceLang value : string) :
  getOrCreateI18nDir w = Some dir →
  records_only JSON_parse dir →
  "__proto__" ∉ split_dot key →
  ∃ dir',
    addTranslationKey JSON_parse ToArrayLength Array_prototype w key sourceLang value
    = Returns (with_i18nDir w dir')
    ∧ (∀ c, is_Some (dir !! c) ∨ c = sourceLang → lacks dir c key →
         ∃ o', setNestedValue (recordAt JSON_parse dir c) key (seedOf sourceLang value c)
               = Returns o'
               ∧ dir' !! c = Some (Written (DRecord (printedProps o')))
               ∧ valueAt (JObj (recordAt JSON_parse dir' c)) key
                 = Some (Data (JStr (seedOf sourceLang value c))))
    ∧ (∀ c, ¬ ((is_Some (dir !! c) ∨ c = sourceLang) ∧ lacks dir c key) →
         dir' !! c = dir !! c)
    ∧ (∀ c, is_Some (dir !! c) ∨ c = sourceLang → ¬ lacks dir' c key)
    ∧ (∀ value',
         addTranslationKey JSON_parse ToArrayLength Array_prototype
           (with_i18nDir w dir') key sourceLang value'
         = Returns (with_i18nDir w dir'))
    ∧ (∀ c, lacks dir c key ↔ valueAt (JObj (recordAt JSON_parse dir c)) key = None)
    ∧ (∀ name, split_dot key = [name] → inherits name = true → dir' = dir).
Proof.
  intros Hdir Hrec Hkey. unfold addTranslationKey at 1. rewrite Hdir.
  set (targetCodes := if includes (jsonFiles dir) sourceLang then jsonFiles dir
                      else jsonFiles dir ++ [sourceLang]).
  destruct (addKeyLoop_lookup targetCodes dir key sourceLang value Hrec Hkey)
    as (dir' & -> & Hlookup).
  assert (∀ c, c ∈ targetCodes ↔ is_Some (dir !! c) ∨ c = sourceLang) as Htargets.
  { intros c. apply elem_of_targetCodes. }
  assert (∀ c, is_Some (dir !! c) ∨ c = sourceLang → lacks dir c key →
            dir' !! c
            = Some (Written (DRecord (printedProps
                      (storePath (recordAt JSON_parse dir c) (split_dot key)
                         (seedOf sourceLang value c)))))) as Hwritten.
  { intros c Hc Hlacks. apply (Hlookup c). split; [by apply Htargets|done]. }
  assert (∀ c, ¬ ((is_Some (dir !! c) ∨ c = sourceLang) ∧ lacks dir c key) →
            dir' !! c = dir !! c) as Hkept.
  { intros c Hnot. apply (Hlookup c). by rewrite Htargets. }
  assert (∀ c, is_Some (dir !! c) ∨ c = sourceLang → lacks dir c key →
            read dir' c
            = Some (DRecord (printedProps
                      (storePath (recordAt JSON_parse dir c) (split_dot key)
                         (seedOf sourceLang value c))))) as Hread.
  { intros c Hc Hlacks. unfold readJsonFile. rewrite (Hwritten c Hc Hlacks).
    cbn [printedDocument]. by rewrite printedProps_idem. }
  assert (∀ c, is_Some (dir !! c) ∨ c = sourceLang → ¬ lacks dir' c key) as Hheld.
  { intros c Hc. destruct (lacksKey_dec dir c key) as [Hlacks|Hlacks].
    - rewrite (lacksKey_record dir' c key _ (Hread c Hc Hlacks)).
      by rewrite getNestedValue_stored.
    - unfold lacksKey. rewrite (readJsonFile_same dir dir') by (apply Hkept; tauto).
      done. }
  assert (∀ c, is_Some (dir' !! c) → is_Some (dir !! c) ∨ c = sourceLang) as Hdom.
  { intros c Hc. destruct (lacksKey_dec dir c key) as [Hlacks|Hlacks].
    - destruct (decide (is_Some (dir !! c) ∨ c = sourceLang)) as [|Hnot]; [done|].
      rewrite Hkept in Hc by tauto. by left.
    - rewrite Hkept in Hc by tauto. by left. }
  assert (readable dir') as Hreadable.
  { intros c Hc. destruct (lacksKey_dec dir c key) as [Hlacks|Hlacks].
    - destruct (decide (is_Some (dir !! c) ∨ c = sourceLang)) as [Htarget|Hnot].
      + by rewrite Hwritten in Hc.
      + rewrite Hkept in Hc by tauto. by apply (records_only_readable dir Hrec c).
    - rewrite Hkept in Hc by tauto. by apply (records_only_readable dir Hrec c). }
  exists dir'. split_and!; [done| |done|done| | |].
  - intros c Hc Hlacks. eexists. split; [|split].
    + unfold setNestedValue. by apply setPath_storePath.
    + by apply Hwritten.
    + unfold recordAt at 1. rewrite (Hread c Hc Hlacks). cbn [recordOf].
      by apply getNestedValue_stored.
  - intros value'. unfold addTranslationKey.
    rewrite (getOrCreateI18nDir_with w dir dir') by done.
    rewrite addKeyLoop_unchanged; [done|done|].
    intros c Hc%elem_of_targetCodes. apply Hheld.
    destruct Hc as [Hc| ->]; [by apply Hdom|by right].
  - intros c. destruct (Hrec c) as [o Ho].
    rewrite (lacksKey_record dir c key o Ho). unfold recordAt. by rewrite Ho.
  - intros name Hname Hinherits. apply map_eq. intros c. apply Hkept.
    intros [_ Hlacks]. by apply (lacksKey_inherited dir c key name).
Qed.
End AddKey.

Lemma records_only_singleton (JSON_parse : string → option json) (file : string)
    (o : props) :
  records_only JSON_parse {[ file := Written (DRecord o) ]}.
Proof.
  intros name. unfold readJsonFile. destruct (decide (name = file)) as [->|Hne].
  - rewrite lookup_singleton_eq. by eexists.
  - rewrite lookup_singleton_ne by done. by eexists.
Qed.

(** With [en.json] alone, holding the empty object:
    [addTranslationKey("x.y", "en", "Hi")] leaves [en.json] holding
    [{x: {y: "Hi"}}] and no other file, and a second call with another value
    changes nothing; [addTranslationKey("toString", "en", "Hi")] finds the
    inherited function at the key and leaves the file as it was, without the
    key. Where [en.json] holds the empty array, the call for [x.y] stores
    the key in a property of the array that is not printed: the file holds
    the empty array afterwards. *)
Lemma addTranslationKey_spec_witness :
  (∃ w',
     addTranslationKey rejectAll rejectLength arrayMethods enOnly "x.y" "en" "Hi"
     = Returns w'
     ∧ i18nDir w' = Some {[ "en" := Written (DRecord [("x", JObj [("y", JStr "Hi")])]) ]}
     ∧ addTranslationKey rejectAll rejectLength arrayMethods w' "x.y" "en" "Other"
       = Returns w')
  ∧ getNestedValue arrayMethods (JObj []) "toString"
    = Some (Method ObjectPrototype "toString")
  ∧ addTranslationKey rejectAll rejectLength arrayMethods enOnly "toString" "en" "Hi"
    = Returns enOnly
  ∧ addTranslationKey rejectAll rejectLength arrayMethods enArray "x.y" "en" "Hi"
    = Returns enArray.
Proof.
  split_and!.
  - destruct (addTranslationKey_spec rejectAll rejectLength arrayMethods enOnly
                {[ "en" := Written (DRecord []) ]} "x.y" "en" "Hi" eq_refl)
      as (dir' & Hcall & _ & _ & _ & Hagain & _).
    + apply records_only_singleton.
    + vm_compute. intros Hin.
      repeat (apply elem_of_cons in Hin as [Hin|Hin]; [discriminate|]).
      by apply elem_of_nil in Hin.
    + exists (with_i18nDir enOnly dir'). split; [done|].
      split; [|apply Hagain].
      assert (Returns (with_i18nDir enOnly dir')
              = Returns (with_i18nDir enOnly
                  {[ "en" := Written (DRecord [("x", JObj [("y", JStr "Hi")])]) ]}))
        as [= ->]; [|done].
      by rewrite <- Hcall.
  - reflexivity.
  - destruct (addTranslationKey_spec rejectAll rejectLength arrayMethods enOnly
                {[ "en" := Written (DRecord []) ]} "toString" "en" "Hi" eq_refl)
      as (dir' & Hcall & _ & _ & _ & _ & _ & Hsame).
    + apply records_only_singleton.
    + vm_compute. intros Hin.
      repeat (apply elem_of_cons in Hin as [Hin|Hin]; [discriminate|]).
      by apply elem_of_nil in Hin.
    + rewrite Hcall, (Hsame "toString") by done. done.
  - reflexivity.
Defined.

(** ** Writing a path twice *)

Lemma objReplace_objReplace (o : props) (k : string) (a b : json) :
  objReplace (objReplace o k a) k b = objReplace o k b.
Proof.
  induction o as [|[k' v'] o IH]; simpl; [done|].
  destruct (String.eqb k' k) eqn:Hk; simpl.
  - by rewrite String.eqb_refl.
  - by rewrite Hk, IH.
Qed.

Lemma objReplace_app_new (o : props) (k : string) (a b : json) :
  objGet o k = None → objReplace (o ++ [(k, a)]) k b = o ++ [(k, b)].
Proof.
  induction o as [|[k' v'] o IH]; simpl.
  - by rewrite String.eqb_refl.
  - destruct (String.eqb k' k) eqn:Hk; [done|]. intros Ho. by rewrite IH.
Qed.

Lemma objReplace_objInsertIndex (o : props) (i : N) (k : string) (a b : json) :
  objGet o k = None →
  objReplace (objInsertIndex o i k a) k b = objInsertIndex o i k b.
Proof.
  induction o as [|[k' v'] o IH]; simpl.
  - by rewrite String.eqb_refl.
  - destruct (String.eqb k' k) eqn:Hk; [done|]. intros Ho.
    destruct (array_index k') as [j|]; simpl.
    + destruct (j <? i)%N; simpl.
      * by rewrite Hk, IH.
      * by rewrite String.eqb_refl.
    + by rewrite String.eqb_refl.
Qed.

Lemma objSet_objSet (o : props) (k : string) (a b : json) :
  objSet (objSet o k a) k b = objSet o k b.
Proof.
  unfold objSet at 1. rewrite objGet_objSet_eq.
  unfold objSet. destruct (objGet o k) eqn:Ho.
  - apply objReplace_objReplace.
  - destruct (array_index k).
    + by apply objReplace_objInsertIndex.
    + by apply objReplace_app_new.
Qed.

Lemma childOf_objSet (o : props) (part : string) (c : props) :
  childOf (objSet o part (JObj c)) part = c.
Proof. unfold childOf. by rewrite objGet_objSet_eq. Qed.

Lemma setPath_not_Throws (parts : list string) :
  ∀ (o o' : props) (value : string), setPath o parts value ≠ Throws o'.
Proof.
  induction parts as [|part [|next rest] IH]; intros o o' value; [done..|].
  change (setPath o (part :: next :: rest) value)
    with (match nextNode o part with
          | None => Leaks
          | Some child =>
              match setPath child (next :: rest) value with
              | Returns child' => Returns (objSet o part (JObj child'))
              | Throws _ => Throws o
              | Leaks => Leaks
              end
          end).
  destruct (nextNode o part) as [child|]; [|done].
  destruct (setPath child (next :: rest) value) as [child'|child'|] eqn:Hchild; try done.
  by destruct (IH child child' value).
Qed.

Lemma assignString_assignString (o : props) (last v1 v2 : string) :
  assignString (assignString o last v1) last v2 = assignString o last v2.
Proof.
  unfold assignString at 2 3. destruct (objGet o last) eqn:Ho.
  - unfold assignString. by rewrite objGet_objSet_eq, objSet_objSet.
  - destruct (String.eqb last "__proto__") eqn:Hlast.
    + unfold assignString. by rewrite Ho, Hlast.
    + unfold assignString. by rewrite objGet_objSet_eq, objSet_objSet.
Qed.

Lemma nextNode_objSet (o : props) (part : string) (c : props) :
  nextNode (objSet o part (JObj c)) part = Some c.
Proof. unfold nextNode. by rewrite objGet_objSet_eq. Qed.

Lemma setPath_setPath (parts : list string) :
  ∀ (o : props) (v1 v2 : string),
    andThen (setPath o parts v1) (λ o1, setPath o1 parts v2) = setPath o parts v2.
Proof.
  induction parts as [|part [|next rest] IH]; intros o v1 v2; [done|..].
  - cbn [setPath andThen]. by rewrite assignString_assignString.
  - change (setPath o (part :: next :: rest) v1)
      with (match nextNode o part with
            | None => Leaks
            | Some child =>
                match setPath child (next :: rest) v1 with
                | Returns child' => Returns (objSet o part (JObj child'))
                | Throws _ => Throws o
                | Leaks => Leaks
                end
            end).
    destruct (nextNode o part) as [child|] eqn:Hnext.
    + specialize (IH child v1 v2).
      destruct (setPath child (next :: rest) v1) as [child'|child'|] eqn:Hchild.
      * cbn [andThen] in IH |- *.
        change (setPath ?o1 (part :: next :: rest) v2)
          with (match nextNode o1 part with
                | None => Leaks
                | Some child =>
                    match setPath child (next :: rest) v2 with
                    | Returns child' => Returns (objSet o1 part (JObj child'))
                    | Throws _ => Throws o1
                    | Leaks => Leaks
                    end
                end).
        rewrite nextNode_objSet, Hnext, IH.
        destruct (setPath child (next :: rest) v2) as [child2|child2|] eqn:Hchild2.
        -- by rewrite objSet_objSet.
        -- by destruct (setPath_not_Throws _ _ _ _ Hchild2).
        -- done.
      * by destruct (setPath_not_Throws _ _ _ _ Hchild).
      * cbn [andThen] in IH |- *.
        change (setPath o (part :: next :: rest) v2)
          with (match nextNode o part with
                | None => Leaks
                | Some child =>
                    match setPath child (next :: rest) v2 with
                    | Returns child' => Returns (objSet o part (JObj child'))
                    | Throws _ => Throws o
                    | Leaks => Leaks
                    end
                end).
        by rewrite Hnext, <- IH.
    + cbn [andThen].
      change (setPath o (part :: next :: rest) v2)
        with (match nextNode o part with
              | None => Leaks
              | Some child =>
                  match setPath child (next :: rest) v2 with
                  | Returns child' => Returns (objSet o part (JObj child'))
                  | Throws _ => Throws o
                  | Leaks => Leaks
                  end
              end).
      by rewrite Hnext.
Qed.

Section LastWrite.
Context (JSON_parse : string → option json) (ToArrayLength : string → option nat).
Local Abbreviation update := (updateTranslationValue JSON_parse ToArrayLength).

(** X1. The last write wins: writing a value at a path and then another
    value at the same path leaves the tree that the second write alone would
    leave, so writing the same value twice is writing it once. The same
    holds for [updateTranslationValue] on a language file that reads as a
    record. *)
Theorem setNestedValue_last_write (key v1 v2 : string) :
  (∀ t, andThen (setNestedValue t key v1) (λ t1, setNestedValue t1 key v2)
        = setNestedValue t key v2)
  ∧ (∀ w langCode,
       (∀ dir, getOrCreateI18nDir w = Some dir →
               ∃ t, readJsonFile JSON_parse dir langCode = Some (DRecord t)) →
       andThen (update w langCode key v1) (λ w1, update w1 langCode key v2)
       = update w langCode key v2).
Proof.
  split; [intros t; apply setPath_setPath|].
  intros w langCode Hrecord. unfold updateTranslationValue at 1 3.
  destruct (getOrCreateI18nDir w) as [dir|] eqn:Hdir.
  - destruct (Hrecord dir eq_refl) as [t Ht]. rewrite Ht. cbn [storeValue].
    pose proof (setPath_setPath (split_dot key) t v1 v2) as Htwice.
    unfold setNestedValue.
    destruct (setPath t (split_dot key) v1) as [t1|t1|] eqn:Ht1.
    + cbn [andThen] in Htwice |- *. unfold updateTranslationValue.
      rewrite (getOrCreateI18nDir_with w dir _ Hdir), readJsonFile_writeJsonFile.
      cbn [printedDocument storeValue]. unfold setNestedValue.
      rewrite setPath_printedProps, Htwice.
      destruct (setPath t (split_dot key) v2) as [t2|t2|] eqn:Ht2;
        [|by destruct (setPath_not_Throws _ _ _ _ Ht2)|done].
      unfold writeJsonFile, with_i18nDir. cbn.
      by rewrite insert_insert_eq, printedProps_idem.
    + by destruct (setPath_not_Throws _ _ _ _ Ht1).
    + cbn [andThen] in Htwice |- *. by rewrite <- Htwice.
  - cbn [andThen]. unfold updateTranslationValue. by rewrite Hdir.
Qed.
End LastWrite.

(** ** The flattened table and the documents *)

Lemma split_dot_app (a b : string) :
  split_dot (a +:+ "." +:+ b) = split_dot a ++ split_dot b.
Proof.
  induction a as [|c a IH]; [done|].
  change (String c a +:+ "." +:+ b) with (String c (a +:+ "." +:+ b)).
  cbn [split_dot]. rewrite IH.
  destruct (Ascii.eqb c "."); [done|].
  pose proof (split_dot_nonempty a) as Ha.
  destruct (split_dot a) as [|seg segs]; [done|]. done.
Qed.

Lemma split_dot_joinFrom (parts : list string) :
  ∀ p, truthy p = true → Forall dotfree parts →
    split_dot (joinFrom p parts) = split_dot p ++ parts.
Proof.
  induction parts as [|s r IH]; intros p Hp Hparts.
  - by rewrite app_nil_r.
  - apply Forall_cons in Hparts as [Hs Hr].
    rewrite joinFrom_cons. unfold fullKeyOf. rewrite Hp.
    rewrite IH; [|by apply truthy_app|done].
    rewrite split_dot_app, Hs. by rewrite <- app_assoc.
Qed.

Lemma split_dot_joinFrom_top (s : string) (r : list string) :
  s ≠ "" → Forall dotfree (s :: r) → split_dot (joinFrom "" (s :: r)) = s :: r.
Proof.
  intros Hs Hparts. apply Forall_cons in Hparts as [Hd Hr].
  rewrite joinFrom_cons. change (fullKeyOf "" s) with s.
  rewrite split_dot_joinFrom; [by rewrite Hd| |done].
  by destruct s.
Qed.

Lemma elem_of_flattenedEntries (o : props) (prefix : string) (e : string * string) :
  e ∈ flattenedEntries (JObj o) prefix
  ↔ ∃ key entry, (key, entry) ∈ o ∧ e ∈ entryLeaves prefix key entry.
Proof.
  induction o as [|[key entry] o IH].
  - simpl. rewrite elem_of_nil. split; [done|]. by intros (? & ? & []%elem_of_nil & _).
  - rewrite flattenedEntries_cons, elem_of_app, IH. setoid_rewrite elem_of_cons.
    split.
    + intros [?|(k & en & ? & ?)]; [exists key, entry|exists k, en]; auto.
    + intros (k & en & [[= -> ->]|?] & ?); [by left|right; eauto].
Qed.

Lemma plain_names_cons (name : string) (entry : json) (rest : props) :
  plain_names (JObj ((name, entry) :: rest))
  ↔ (name ∉ rest.*1) ∧ dotfree name ∧ plain_names entry ∧ plain_names (JObj rest).
Proof.
  cbn [plain_names]. rewrite fmap_cons, NoDup_cons. cbn [fst]. tauto.
Qed.

Lemma plain_names_lookup (o : props) (key : string) (entry : json) :
  plain_names (JObj o) → (key, entry) ∈ o →
  objGet o key = Some entry ∧ dotfree key ∧ plain_names entry.
Proof.
  induction o as [|[k e] o IH]; [by intros _ []%elem_of_nil|].
  intros (Hk & Hd & He & Ho)%plain_names_cons [[= -> ->]|Hin]%elem_of_cons; simpl.
  - by rewrite String.eqb_refl.
  - destruct (String.eqb_spec k key) as [->|Hne].
    + destruct Hk. apply list_elem_of_fmap. by exists (key, entry).
    + by apply IH.
Qed.

Lemma flattenedEntries_sound (v : json) :
  ∀ o, v = JObj o → plain_names v →
    ∀ prefix name s, (name, s) ∈ flattenedEntries (JObj o) prefix →
      ∃ part rest, is_Some (objGet o part) ∧ Forall dotfree (part :: rest)
                   ∧ name = joinFrom prefix (part :: rest)
                   ∧ ownPath (JObj o) (part :: rest) = Some (JStr s).
Proof.
  induction v as [|b|x|s0|items IHi|o IH] using json_ind'; intros o' Ho'; try done.
  injection Ho' as <-. intros Hplain prefix name s.
  rewrite elem_of_flattenedEntries. intros (key & entry & Hin & Hleaf).
  destruct (plain_names_lookup o key entry Hplain Hin) as (Hget & Hd & Hentry).
  rewrite List.Forall_forall in IH.
  specialize (IH (key, entry)). rewrite <- list_elem_of_In in IH. specialize (IH Hin).
  destruct entry as [| | |s'|items|c]; simpl in Hleaf; try by apply elem_of_nil in Hleaf.
  - apply list_elem_of_singleton in Hleaf as [= -> ->].
    exists key, []. split; [by eexists|]. split; [by repeat constructor|].
    split; [done|]. simpl. by rewrite Hget.
  - destruct (IH c eq_refl Hentry _ _ _ Hleaf) as (part & rest & _ & Hparts & -> & Hpath).
    exists key, (part :: rest). split; [by eexists|]. split; [by constructor|].
    split; [by rewrite joinFrom_cons|].
    cbn [ownPath]. by rewrite Hget.
Qed.

Lemma foldl_writeEntry_lookup (l : list (string * string)) (k s : string) :
  foldl writeEntry ∅ l !! k = Some s → (k, s) ∈ l.
Proof.
  induction l as [|kv l IH] using rev_ind; [done|].
  rewrite foldl_app, elem_of_app, list_elem_of_singleton. cbn [foldl].
  unfold writeEntry, assign. destruct (String.eqb kv.1 "__proto__"); [by left; apply IH|].
  destruct (decide (k = kv.1)) as [->|Hne].
  - rewrite lookup_insert_eq. intros [= <-]. right. by destruct kv.
  - rewrite lookup_insert_ne by done. left. by apply IH.
Qed.


Lemma flattenObject_lookup (o : props) (k s : string) :
  flattenObject (JObj o) "" ∅ !! k = Some s → (k, s) ∈ flattenedEntries (JObj o) "".
Proof. rewrite flattenObject_entries. apply foldl_writeEntry_lookup. Qed.




Lemma flattenObject_ownPath (t : props) (k s : string) :
  plain_names (JObj t) → objGet t "" = None →
  flattenObject (JObj t) "" ∅ !! k = Some s →
  ownPath (JObj t) (split_dot k) = Some (JStr s).
Proof.
  intros Hplain Htop Hk%flattenObject_lookup.
  destruct (flattenedEntries_sound (JObj t) t eq_refl Hplain _ _ _ Hk)
    as (part & rest & Hpart & Hparts & -> & Hpath).
  rewrite split_dot_joinFrom_top; [done| |done].
  intros ->. rewrite Htop in Hpart. by destruct Hpart.
Qed.

Lemma flattenObject_getNestedValue (Array_prototype : list string) (t : props)
    (k s : string) :
  plain_names (JObj t) → objGet t "" = None →
  flattenObject (JObj t) "" ∅ !! k = Some s →
  getNestedValue Array_prototype (JObj t) k = Some (Data (JStr s)).
Proof.
  intros Hplain Htop Hk. apply ownPath_getPath. by apply flattenObject_ownPath.
Qed.

Lemma plain_names_Forall (o : props) :
  plain_names (JObj o)
  ↔ NoDup o.*1 ∧ Forall (λ kv, dotfree kv.1 ∧ plain_names kv.2) o.
Proof.
  induction o as [|[name entry] o IH].
  - simpl. split; intros [? _]; split; (done || constructor).
  - rewrite plain_names_cons, IH, fmap_cons, NoDup_cons, Forall_cons. cbn [fst snd]. tauto.
Qed.






Lemma plain_names_printed (v : json) : plain_names v → plain_names (printed v).
Proof.
  induction v as [| |x| |items _|o IH] using json_ind'; try done.
  - intros _. cbn [printed]. by repeat case_match.
  - change (printed (JObj o)) with (JObj (printedProps o)).
    rewrite !plain_names_Forall. intros [Hnodup Hall]. split.
    + unfold printedProps. rewrite <- list_fmap_compose.
      by rewrite (list_fmap_ext _ fst o) by done.
    + unfold printedProps. apply Forall_fmap.
      rewrite Forall_forall in IH, Hall. apply Forall_forall. intros kv Hkv.
      cbn. split; [by apply Hall|]. apply IH; [done|]. by apply Hall.
Qed.






Section Table.
Context (JSON_parse : string → option json) (Array_prototype : list string).

(** X2. The two readers agree. In a file whose document has distinct
    property names without dots, and no empty name at top level, a cell
    that [flattenObject] gives to the table under a key is the string that
    [getNestedValue] finds at that key; so [addTranslationKey], which asks
    [getNestedValue], never takes a key the table shows for missing. *)
Theorem flattenedOf_getNestedValue (dir : Dir) (file k s : string) (t : props) :
  readJsonFile JSON_parse dir file = Some (DRecord t) →
  plain_names (JObj t) → objGet t "" = None →
  flattenedOf JSON_parse dir file !! k = Some s →
  getNestedValue Array_prototype (JObj t) k = Some (Data (JStr s))
  ∧ ¬ lacksKey JSON_parse Array_prototype dir file k.
Proof.
  intros Hread Hplain Htop Hcell. unfold flattenedOf, lacksKey in *.
  rewrite Hread in *. cbn [document_json] in Hcell.
  apply (flattenObject_getNestedValue Array_prototype) in Hcell; [|done..].
  split; [done|]. intros (doc & [= <-] & Hnone). cbn [document_json] in Hnone. congruence.
Qed.
End Table.

(** The sample folder: the English file shows [x] under [b.c], and
    [getNestedValue] reads it there. *)
Lemma flattenedOf_getNestedValue_witness :
  getNestedValue arrayMethods
    (JObj [("a", JStr "Hello"); ("b", JObj [("c", JStr "x")])]) "b.c"
  = Some (Data (JStr "x")).
Proof.
  refine (proj1 (flattenedOf_getNestedValue rejectAll arrayMethods sampleDir "en" "b.c" "x"
                   [("a", JStr "Hello"); ("b", JObj [("c", JStr "x")])] eq_refl _ eq_refl eq_refl)).
  vm_compute. repeat split; repeat constructor; set_solver.
Defined.

(** ** The payload of a load *)

Lemma jsonFiles_nil (dir : Dir) : jsonFiles dir = [] ↔ dir = ∅.
Proof.
  unfold jsonFiles. rewrite <- map_to_list_empty_iff. split.
  - apply fmap_nil_inv.
  - by intros ->.
Qed.

Lemma readable_dec (dir : Dir) :
  readable dir ∨ ∃ file, dir !! file = Some Unreadable.
Proof.
  destruct (existsb (unreadableAt dir) (jsonFiles dir)) eqn:Hany.
  - right. apply existsb_exists in Hany as (file & _ & Hfile%unreadableAt_spec).
    by exists file.
  - left. intros file Hfile.
    assert (existsb (unreadableAt dir) (jsonFiles dir) = true) as Htrue; [|congruence].
    apply existsb_exists. exists file. split.
    + apply list_elem_of_In, elem_of_jsonFiles. by eexists.
    + by apply unreadableAt_spec.
Qed.


Lemma resolveI18nDir_with (w : Workspace) (dir dir' : Dir) :
  getOrCreateI18nDir w = Some dir → resolveI18nDir (with_i18nDir w dir') = Some dir'.
Proof.
  unfold getOrCreateI18nDir, resolveI18nDir. simpl. by destruct (root w).
Qed.

Section Payload.
Context (JSON_parse : string → option json).
Context (toLowerCase : string → string) (localeCompare : string → string → Z).

Local Abbreviation load := (readI18nData JSON_parse toLowerCase localeCompare).

(** The load of a folder that has JSON files, all of them readable. *)
Lemma readI18nData_ok (w : Workspace) (dir : Dir) :
  resolveI18nDir w = Some dir → dir ≠ ∅ → readable dir →
  let codes := Array_sort (compareLanguageCodes toLowerCase localeCompare) (jsonFiles dir) in
  ∃ payload perLang allKeys,
    load w = Some payload
    ∧ loadLanguages JSON_parse dir codes = Some (perLang, allKeys)
    ∧ Host.status payload = ok ∧ Host.error payload = None
    ∧ Host.code <$> Host.languages payload = codes
    ∧ Host.languages payload = getLanguageInfo toLowerCase <$> codes
    ∧ id <$> Host.keys payload = Array_sort localeCompare allKeys
    ∧ Host.sourceLangCode payload
      = (if includes codes (sourceLanguage w) then sourceLanguage w
         else default (sourceLanguage w) (head codes))
    ∧ (∀ k, k ∈ id <$> Host.keys payload
            ↔ ∃ c, is_Some (dir !! c) ∧ is_Some (flattenedOf JSON_parse dir c !! k))
    ∧ (∀ k, k ∈ id <$> Host.keys payload →
         ∃ row, Host.values payload !! k = Some row
                ∧ ∀ c, row !! c
                       = if bool_decide (is_Some (dir !! c) ∧ c ≠ "__proto__")
                         then Some (default (Own "")
                                      (lookupMember (flattenedOf JSON_parse dir c) k))
                         else None).
Proof.
  intros Hdir Hfiles Hreadable codes. unfold readI18nData. rewrite Hdir.
  unfold resolveI18nDir in Hdir. destruct (root w) as [r|]; [|done].
  rewrite bool_decide_eq_false_2 by by rewrite jsonFiles_nil.
  fold codes.
  destruct (loadLanguages_spec JSON_parse dir codes Hreadable)
    as (perLang & allKeys & Hload & Hlang & Hkeys).
  rewrite Hload. eexists _, perLang, allKeys. split; [done|]. split; [done|].
  cbn [Host.status Host.error Host.languages Host.keys Host.values Host.sourceLangCode].
  assert (∀ c, c ∈ codes ↔ is_Some (dir !! c)) as Hcodes.
  { intros c. unfold codes. by rewrite elem_of_Array_sort, elem_of_jsonFiles. }
  rewrite <- !list_fmap_compose.
  rewrite (fmap_same (Host.code ∘ getLanguageInfo toLowerCase)) by done.
  rewrite (fmap_same (id ∘ _)) by done.
  assert (∀ k, k ∈ Array_sort localeCompare allKeys
               ↔ ∃ c, is_Some (dir !! c)
                      ∧ is_Some (flattenedOf JSON_parse dir c !! k)) as Hunion.
  { intros k. rewrite elem_of_Array_sort, Hkeys. by setoid_rewrite Hcodes. }
  split_and!; try done.
  intros k Hk.
  assert (k ≠ "__proto__") as Hproto.
  { intros ->. apply Hunion in Hk as (c & _ & Hc).
    rewrite flattenedOf_proto in Hc. by destruct Hc. }
  rewrite (lookup_foldl_assign
             (λ key, foldl (λ row code, assign code (cellOf perLang code key) row)
                           ∅ codes)).
  rewrite bool_decide_eq_true_2 by done. eexists. split; [done|].
  intros c. rewrite (lookup_foldl_assign (λ code, cellOf perLang code k)).
  rewrite lookup_empty.
  rewrite (bool_decide_ext _ (is_Some (dir !! c) ∧ c ≠ "__proto__"))
    by (by rewrite Hcodes).
  case_bool_decide as Hc; [|done].
  unfold cellOf. rewrite Hlang.
  rewrite bool_decide_eq_true_2; [done|]. apply Hcodes, Hc.
Qed.


Lemma readI18nData_missing (w : Workspace) :
  (∀ dir, resolveI18nDir w = Some dir → dir = ∅) →
  ∃ payload,
    load w = Some payload
    ∧ Host.languages payload = [] ∧ Host.keys payload = [] ∧ Host.values payload = ∅
    ∧ Host.status payload ≠ ok ∧ is_Some (Host.error payload)
    ∧ Host.sourceLangCode payload = sourceLanguage w.
Proof.
  intros Hmissing. unfold readI18nData.
  destruct (root w) as [r|]; [|eexists; by split_and!].
  destruct (resolveI18nDir w) as [dir|]; [|eexists; by split_and!].
  rewrite (Hmissing dir eq_refl). rewrite bool_decide_eq_true_2 by done.
  eexists; by split_and!.
Qed.

End Payload.

Section Files.
Context (JSON_parse : string → option json).
Context (toLowerCase : string → string) (localeCompare : string → string → Z).

Local Abbreviation load := (readI18nData JSON_parse toLowerCase localeCompare).

Lemma flattenedOf_write (dir : Dir) (file : string) (data : Document) :
  flattenedOf JSON_parse (writeJsonFile dir file data) file
  = flattenObject (document_json (printedDocument data)) "" ∅.
Proof. unfold flattenedOf. by rewrite readJsonFile_writeJsonFile. Qed.

Lemma flattenedOf_write_ne (dir : Dir) (file other : string) (data : Document) :
  other ≠ file →
  flattenedOf JSON_parse (writeJsonFile dir file data) other = flattenedOf JSON_parse dir other.
Proof. intros. unfold flattenedOf. by rewrite readJsonFile_writeJsonFile_ne. Qed.


Lemma readable_write (dir : Dir) (file : string) (data : Document) :
  readable dir → readable (writeJsonFile dir file data).
Proof. intros Hdir. by apply readable_insert. Qed.

(** A load returns when every entry of the folder can be read. *)
Lemma readI18nData_returns (w : Workspace) :
  (∀ dir, resolveI18nDir w = Some dir → readable dir) →
  ∃ payload, load w = Some payload.
Proof.
  intros Hreadable. destruct (resolveI18nDir w) as [dir|] eqn:Hdir.
  - destruct (decide (dir = ∅)) as [->|Hne].
    + destruct (readI18nData_missing JSON_parse toLowerCase localeCompare w)
        as (payload & Hload & _); [|by exists payload].
      intros d Hd. congruence.
    + destruct (readI18nData_ok JSON_parse toLowerCase localeCompare w dir Hdir Hne)
        as (payload & _ & _ & Hload & _); [by apply Hreadable|by exists payload].
  - destruct (readI18nData_missing JSON_parse toLowerCase localeCompare w)
      as (payload & Hload & _); [|by exists payload].
    intros d Hd. congruence.
Qed.

(** X4. [addLanguageFile] creates the file of a language with the empty
    object when there is none, and leaves an existing file and every other
    file as they are; doing it again changes nothing. Where every entry of
    the folder can be read, the next load lists the language and has exactly
    the keys it had; for a new file, the row of a key has no cell when the
    language is [__proto__], the inherited member for a key that is the
    name of a member of [Object.prototype], and the empty string
    otherwise. Where some entry cannot be read, the next load throws. *)
Theorem addLanguageFile_spec (w : Workspace) (dir : Dir) (langCode : string) :
  getOrCreateI18nDir w = Some dir →
  let w' := addLanguageFile w langCode in
  (∃ dir', i18nDir w' = Some dir'
           ∧ dir' !! langCode = Some (default (Written (DRecord [])) (dir !! langCode))
           ∧ ∀ other, other ≠ langCode → dir' !! other = dir !! other)
  ∧ addLanguageFile w' langCode = w'
  ∧ (readable dir →
     ∃ payload payload',
       load w = Some payload ∧ load w' = Some payload'
       ∧ Host.status payload' = ok
       ∧ langCode ∈ Host.code <$> Host.languages payload'
       ∧ (∀ k, k ∈ id <$> Host.keys payload' ↔ k ∈ id <$> Host.keys payload)
       ∧ (dir !! langCode = None →
          ∀ k, k ∈ id <$> Host.keys payload' →
            ∃ row, Host.values payload' !! k = Some row
                   ∧ row !! langCode
                     = if bool_decide (langCode = "__proto__") then None
                       else if inherits k then Some (Inherited k)
                       else Some (Own "")))
  ∧ (∀ file, dir !! file = Some Unreadable → load w' = None).
Proof.
  intros Hdir w'.
  set (dir' := match dir !! langCode with
               | Some _ => dir
               | None => writeJsonFile dir langCode (DRecord [])
               end).
  assert (w' = with_i18nDir w dir') as ->.
  { unfold w', addLanguageFile, dir'. rewrite Hdir. by destruct (dir !! langCode). }
  assert (dir' !! langCode = Some (default (Written (DRecord [])) (dir !! langCode))) as Hfile.
  { unfold dir'. destruct (dir !! langCode) eqn:Hl; [done|]. apply lookup_insert_eq. }
  assert (∀ other, other ≠ langCode → dir' !! other = dir !! other) as Hothers.
  { intros other Hne. unfold dir'. destruct (dir !! langCode); [done|].
    by apply lookup_insert_ne. }
  assert (dir' ≠ ∅) as Hne.
  { intros Hempty. rewrite Hempty in Hfile. by rewrite lookup_empty in Hfile. }
  pose proof (resolveI18nDir_with w dir dir' Hdir) as Hres.
  assert (∀ c, flattenedOf JSON_parse dir' c = flattenedOf JSON_parse dir c) as Hflat.
  { intros c. unfold dir'. destruct (dir !! langCode) eqn:Hl; [done|].
    destruct (decide (c = langCode)) as [->|Hc].
    - rewrite flattenedOf_write. unfold flattenedOf, readJsonFile. by rewrite Hl.
    - by apply flattenedOf_write_ne. }
  split; [by exists dir'|]. split; [|split].
  - unfold addLanguageFile. rewrite (getOrCreateI18nDir_with w dir dir' Hdir), Hfile.
    by destruct w.
  - intros Hreadable.
    assert (readable dir') as Hreadable'.
    { unfold dir'. destruct (dir !! langCode); [done|]. by apply readable_write. }
    destruct (readI18nData_ok JSON_parse toLowerCase localeCompare _ dir' Hres Hne Hreadable')
      as (payload' & _ & _ & Hload' & _ & Hst & _ & Hcodes & _ & _ & _ & Hkeys & Hcells).
    destruct (readI18nData_returns w) as [payload Hload].
    { intros d Hd. unfold getOrCreateI18nDir in Hdir. destruct (root w); [|done].
      rewrite Hd in Hdir. congruence. }
    exists payload, payload'. split_and!; [done..| | |].
    + rewrite Hcodes, elem_of_Array_sort, elem_of_jsonFiles. by rewrite Hfile.
    + intros k. rewrite Hkeys. setoid_rewrite Hflat.
      destruct (decide (dir = ∅)) as [->|Hdne].
      * split.
        -- intros (c & _ & Hc). unfold flattenedOf, readJsonFile in Hc.
           rewrite lookup_empty in Hc. by destruct Hc.
        -- destruct (readI18nData_missing JSON_parse toLowerCase localeCompare w)
             as (payload0 & Hload0 & _ & Hkeys0 & _).
           { intros d Hd. unfold getOrCreateI18nDir in Hdir. destruct (root w); [|done].
             rewrite Hd in Hdir. congruence. }
           rewrite Hload in Hload0. injection Hload0 as <-. rewrite Hkeys0.
           by intros []%elem_of_nil.
      * assert (resolveI18nDir w = Some dir) as Hresw.
        { unfold getOrCreateI18nDir in Hdir. destruct (root w) eqn:Hroot; [|done].
          destruct (resolveI18nDir w) as [d|] eqn:Hr; [congruence|]. congruence. }
        destruct (readI18nData_ok JSON_parse toLowerCase localeCompare w dir Hresw Hdne
                    Hreadable)
          as (payload0 & _ & _ & Hload0 & _ & _ & _ & _ & _ & _ & _ & Hkeysw & _).
        rewrite Hload in Hload0. injection Hload0 as <-.
        rewrite Hkeysw. split.
        -- intros (c & Hc & Hk). exists c. split; [|done].
           destruct (decide (c = langCode)) as [->|Hcne]; [|by rewrite <- Hothers].
           destruct (dir !! langCode) eqn:Hl; [by eexists|].
           unfold flattenedOf, readJsonFile in Hk. rewrite Hl in Hk.
           by destruct Hk.
        -- intros (c & Hc & Hk). exists c. split; [|done].
           destruct (decide (c = langCode)) as [->|Hcne];
             [by rewrite Hfile|by rewrite Hothers].
    + intros Hnew k Hk. destruct (Hcells k Hk) as (row & Hrow & Hv).
      exists row. split; [done|]. rewrite Hv.
      destruct (decide (langCode = "__proto__")) as [Hproto|Hproto].
      * rewrite bool_decide_eq_false_2 by tauto. by rewrite bool_decide_eq_true_2.
      * rewrite bool_decide_eq_true_2 by (by rewrite Hfile).
        rewrite bool_decide_eq_false_2 by done.
        rewrite Hflat. unfold flattenedOf, readJsonFile. rewrite Hnew.
        unfold lookupMember.
        change (flattenObject (document_json (DRecord [])) "" ∅)
          with (∅ : gmap string string).
        rewrite lookup_empty. by destruct (inherits k).
  - intros file Hfile'.
    apply (readI18nData_throws JSON_parse toLowerCase localeCompare _ dir' file Hres).
    destruct (decide (file = langCode)) as [->|Hfne].
    + rewrite Hfile, Hfile'. done.
    + by rewrite Hothers.
Qed.
End Files.

(** In the folder whose English file has the key [constructor], adding
    [de] gives a catalog that lists [de], and the new cell of that key is the
    inherited function. *)
Lemma addLanguageFile_spec_witness :
  ∃ payload' row,
    readI18nData rejectAll toLowerCaseASCII ordinalCompare
      (addLanguageFile (workspaceOf inheritedDir) "de") = Some payload'
    ∧ Host.status payload' = ok
    ∧ "de" ∈ Host.code <$> Host.languages payload'
    ∧ Host.values payload' !! "constructor" = Some row
    ∧ row !! "de" = Some (Inherited "constructor").
Proof.
  destruct (addLanguageFile_spec rejectAll toLowerCaseASCII ordinalCompare
              (workspaceOf inheritedDir) inheritedDir "de" eq_refl)
    as (_ & _ & Hload & _).
  destruct Hload as (payload & payload' & Hl & Hl' & Hst & Hin & Hkeys & Hnew).
  { apply readable_insert; [done|]. by apply readable_singleton. }
  assert ("constructor" ∈ id <$> Host.keys payload') as Hkey.
  { apply Hkeys. vm_compute in Hl. injection Hl as <-. cbn. by left. }
  destruct (Hnew eq_refl "constructor" Hkey) as (row & Hrow & Hcell).
  exists payload', row. by split_and!.
Defined.

Section Shown.
Context (JSON_parse : string → option json) (ToArrayLength : string → option nat).
Context (toLowerCase : string → string) (localeCompare : string → string → Z).
Local Abbreviation load := (readI18nData JSON_parse toLowerCase localeCompare).

End Shown.


Section AddKeyShown.
Context (JSON_parse : string → option json) (ToArrayLength : string → option nat).
Context (toLowerCase : string → string) (localeCompare : string → string → Z).
Context (Array_prototype : list string).
Local Abbreviation load := (readI18nData JSON_parse toLowerCase localeCompare).
Local Abbreviation lacks := (lacksKey JSON_parse Array_prototype).

End AddKeyShown.


(** ** The first run *)


Section FirstRun.
Context (JSON_parse : string → option json).
Context (toLowerCase : string → string) (localeCompare : string → string → Z).
Local Abbreviation load := (readI18nData JSON_parse toLowerCase localeCompare).


End FirstRun.


(** ** The order of the languages and the keys *)

Lemma sort_insert_sorted {A} (compare : A → A → Z) (P : A → Prop) (x : A) (l : list A) :
  (∀ a b, P a → P b → compare a b ≤ 0 ∨ compare b a ≤ 0) →
  (∀ a b c, P a → P b → P c → compare a b ≤ 0 → compare b c ≤ 0 → compare a c ≤ 0) →
  P x → Forall P l →
  StronglySorted (λ a b, compare a b ≤ 0) l →
  StronglySorted (λ a b, compare a b ≤ 0) (sort_insert compare x l).
Proof.
  intros Htotal Htrans Hx. induction l as [|y l IH]; intros Hall Hsorted; simpl.
  - by repeat constructor.
  - apply StronglySorted_inv in Hsorted as [Hl Hy].
    apply Forall_cons in Hall as [HPy HPl].
    destruct (Z.leb_spec (compare x y) 0) as [Hxy|Hxy].
    + constructor; [by constructor|]. constructor; [done|].
      rewrite Forall_forall in Hy, HPl. apply Forall_forall. intros z Hz.
      apply (Htrans x y z); auto.
    + constructor; [by apply IH|].
      rewrite sort_insert_perm. constructor; [|done].
      destruct (Htotal x y); [done..|lia|done].
Qed.

Lemma Array_sort_sorted {A} (compare : A → A → Z) (P : A → Prop) (l : list A) :
  (∀ a b, P a → P b → compare a b ≤ 0 ∨ compare b a ≤ 0) →
  (∀ a b c, P a → P b → P c → compare a b ≤ 0 → compare b c ≤ 0 → compare a c ≤ 0) →
  Forall P l →
  StronglySorted (λ a b, compare a b ≤ 0) (Array_sort compare l).
Proof.
  intros Htotal Htrans. induction l as [|x l IH]; intros Hall; simpl; [constructor|].
  apply Forall_cons in Hall as [Hx Hl].
  apply (sort_insert_sorted compare P); [done..| |by apply IH].
  by rewrite Array_sort_perm.
Qed.

Lemma StronglySorted_strict {A} (compare : A → A → Z) (l : list A) :
  (∀ a b, a ∈ l → b ∈ l → compare a b = 0 → a = b) → NoDup l →
  StronglySorted (λ a b, compare a b ≤ 0) l →
  StronglySorted (λ a b, compare a b < 0) l.
Proof.
  induction l as [|x l IH]; intros Hsep Hnodup Hsorted; [constructor|].
  apply NoDup_cons in Hnodup as [Hx Hl].
  apply StronglySorted_inv in Hsorted as [Hs Hall].
  constructor.
  - apply IH; [|done..]. intros a b Ha Hb. apply Hsep; by right.
  - apply Forall_forall. intros y Hy.
    rewrite Forall_forall in Hall. specialize (Hall y Hy).
    destruct (decide (compare x y = 0)) as [Hzero|]; [|lia].
    apply Hsep in Hzero; [by subst y|by left|by right].
Qed.

Lemma StronglySorted_lookup_lt {A} (R : A → A → Prop) (l : list A) :
  StronglySorted R l →
  ∀ i j a b, l !! i = Some a → l !! j = Some b → (i < j)%nat → R a b.
Proof.
  induction 1 as [|x l Hl IH Hx]; intros i j a b Hi Hj Hij; [done|].
  destruct j as [|j]; [lia|]. simpl in Hj.
  destruct i as [|i]; simpl in Hi.
  - injection Hi as ->. rewrite Forall_forall in Hx. apply Hx.
    by apply list_elem_of_lookup_2 in Hj.
  - apply (IH i j); [done..|lia].
Qed.

Lemma NoDup_Set_add (keys : list string) :
  ∀ l, NoDup l → NoDup (foldl Set_add l keys).
Proof.
  induction keys as [|k keys IH]; intros l Hl; [done|].
  simpl. apply IH. unfold Set_add.
  destruct (includes l k) eqn:Hin; [done|].
  apply NoDup_app. split; [done|]. split; [|apply NoDup_singleton].
  intros x Hx ->%list_elem_of_singleton.
  apply includes_spec in Hx. congruence.
Qed.

Lemma NoDup_loadLanguages (JSON_parse : string → option json) (dir : Dir)
    (languageCodes : list string) (perLang : gmap string (gmap string string))
    (allKeys : list string) :
  loadLanguages JSON_parse dir languageCodes = Some (perLang, allKeys) → NoDup allKeys.
Proof.
  unfold loadLanguages. rewrite loadLanguages_step.
  destruct (existsb (unreadableAt dir) languageCodes); [done|]. intros [= _ <-].
  assert (NoDup ([] : list string)) as Hacc by constructor.
  revert Hacc. generalize ([] : list string).
  induction languageCodes as [|c codes IH]; intros allKeys0 Hacc; [done|].
  cbn [foldl]. apply IH. by apply NoDup_Set_add.
Qed.

Lemma NoDup_jsonFiles (dir : Dir) : NoDup (jsonFiles dir).
Proof. apply NoDup_fst_map_to_list. Qed.

(** An order that is strict and tells the members of a set apart is
    transitive on them. *)
Lemma separated_trans_le {A} (compare : A → A → Z) (P : A → Prop) :
  (∀ a b c, compare a b < 0 → compare b c < 0 → compare a c < 0) →
  (∀ a b, P a → P b → compare a b = 0 → a = b) →
  ∀ a b c, P a → P b → P c → compare a b ≤ 0 → compare b c ≤ 0 → compare a c ≤ 0.
Proof.
  intros Htrans Hsep a b c Ha Hb Hc Hab Hbc.
  destruct (decide (compare a b = 0)) as [Hzero|].
  { apply Hsep in Hzero; [by subst b|done..]. }
  destruct (decide (compare b c = 0)) as [Hzero|].
  { apply Hsep in Hzero; [by subst c|done..]. }
  assert (compare a c < 0); [|lia]. apply (Htrans a b c); lia.
Qed.

Section Sorted.
Context (JSON_parse : string → option json).
Context (toLowerCase : string → string) (localeCompare : string → string → Z).
Hypothesis localeCompare_antisym : ∀ a b, localeCompare a b = - localeCompare b a.
Hypothesis localeCompare_trans :
  ∀ a b c, localeCompare a b < 0 → localeCompare b c < 0 → localeCompare a c < 0.

Local Abbreviation compare := (compareLanguageCodes toLowerCase localeCompare).
Local Abbreviation load := (readI18nData JSON_parse toLowerCase localeCompare).

Lemma localeCompare_total (a b : string) : localeCompare a b ≤ 0 ∨ localeCompare b a ≤ 0.
Proof. rewrite (localeCompare_antisym b a). lia. Qed.

Lemma compare_total (a b : string) : compare a b ≤ 0 ∨ compare b a ≤ 0.
Proof. rewrite (compare_antisym _ _ localeCompare_antisym b a). lia. Qed.

(** X8. With a collation that is sign-antisymmetric and transitive, in a
    folder whose entries can all be read, where no two file names compare as
    equal and the collation gives zero on no two keys, the languages of a
    load are the file names in the one order that [compareLanguageCodes]
    allows (any correct sort gives this list): every language of the
    popularity list comes before every other one. The keys are distinct and
    in the order of the collation. *)
Theorem readI18nData_sorted (w : Workspace) (dir : Dir) :
  resolveI18nDir w = Some dir → readable dir →
  (∀ a b, is_Some (dir !! a) → is_Some (dir !! b) → compare a b = 0 → a = b) →
  (∀ c1 c2 k1 k2,
     is_Some (flattenedOf JSON_parse dir c1 !! k1) →
     is_Some (flattenedOf JSON_parse dir c2 !! k2) →
     localeCompare k1 k2 = 0 → k1 = k2) →
  ∃ payload,
    load w = Some payload
    ∧ let codes := Host.code <$> Host.languages payload in
      let ids := id <$> Host.keys payload in
      codes ≡ₚ jsonFiles dir
      ∧ StronglySorted (λ a b, compare a b < 0) codes
      ∧ (∀ l, l ≡ₚ jsonFiles dir → StronglySorted (λ a b, compare a b < 0) l → l = codes)
      ∧ (∀ i j a b, codes !! i = Some a → codes !! j = Some b →
           rankOf toLowerCase a ≠ -1 → rankOf toLowerCase b = -1 → (i < j)%nat)
      ∧ NoDup ids
      ∧ StronglySorted (λ a b, localeCompare a b < 0) ids.
Proof.
  intros Hdir Hreadable Hfiles Hkeysep.
  destruct (decide (dir = ∅)) as [->|Hne].
  - destruct (readI18nData_missing JSON_parse toLowerCase localeCompare w)
      as (payload & Hload & Hl & Hk & _).
    { intros d Hd. congruence. }
    exists payload. split; [done|]. rewrite Hl, Hk. simpl.
    split_and!; try constructor.
    + intros l Hl' _. unfold jsonFiles in Hl'. rewrite map_to_list_empty in Hl'.
      by apply Permutation_nil_r in Hl'.
    + intros i j a b Hi. done.
  - destruct (readI18nData_ok JSON_parse toLowerCase localeCompare w dir Hdir Hne Hreadable)
      as (payload & perLang & allKeys & Hload & Hlangs & _ & _ & Hcodes & _ & Hkeys & _
          & Hunion & _).
    exists payload. split; [done|]. cbv zeta. rewrite Hcodes.
    assert (StronglySorted (λ a b, compare a b < 0)
              (Array_sort compare (jsonFiles dir))) as Hsorted.
    { apply StronglySorted_strict.
      - intros a b Ha%elem_of_Array_sort%elem_of_jsonFiles
          Hb%elem_of_Array_sort%elem_of_jsonFiles. by apply Hfiles.
      - rewrite Array_sort_perm. apply NoDup_jsonFiles.
      - apply (Array_sort_sorted compare (λ c, is_Some (dir !! c))).
        + intros a b _ _. apply compare_total.
        + apply separated_trans_le; [|done].
          apply (compare_trans _ _ localeCompare_antisym localeCompare_trans).
        + apply Forall_forall. intros c. apply elem_of_jsonFiles. }
    assert (∀ k, k ∈ Array_sort localeCompare allKeys
                 → ∃ c, is_Some (flattenedOf JSON_parse dir c !! k)) as Hk.
    { intros k Hin. rewrite <- Hkeys in Hin. apply Hunion in Hin as (c & _ & Hc).
      by exists c. }
    split_and!.
    + apply Array_sort_perm.
    + exact Hsorted.
    + intros l Hperm Hl.
      assert (AntiSymm eq (λ a b, compare a b < 0)) as Hanti.
      { intros a b Hab Hba.
        rewrite (compare_antisym _ _ localeCompare_antisym b a) in Hba. lia. }
      apply (StronglySorted_unique (λ a b, compare a b < 0)); [done..|].
      by rewrite Hperm, Array_sort_perm.
    + intros i j a b Hi Hj Ha Hb.
      destruct (decide (i < j)%nat) as [|Hge]; [done|exfalso].
      assert (i ≠ j) as Hij.
      { intros ->. rewrite Hi in Hj. injection Hj as ->. done. }
      assert (compare b a < 0) as Hba.
      { apply (StronglySorted_lookup_lt _ _ Hsorted j i); [done..|lia]. }
      rewrite compare_eq in Hba.
      rewrite bool_decide_eq_true_2, bool_decide_eq_false_2 in Hba by done. lia.
    + rewrite Hkeys, Array_sort_perm. by apply (NoDup_loadLanguages _ _ _ _ _ Hlangs).
    + rewrite Hkeys. apply StronglySorted_strict.
      * intros a b [ca Ha]%Hk [cb Hb]%Hk. by apply (Hkeysep ca cb).
      * rewrite Array_sort_perm. by apply (NoDup_loadLanguages _ _ _ _ _ Hlangs).
      * apply (Array_sort_sorted localeCompare
                 (λ k, ∃ c, is_Some (flattenedOf JSON_parse dir c !! k))).
        -- intros a b _ _. apply localeCompare_total.
        -- apply separated_trans_le; [done|].
           intros a b [ca Ha] [cb Hb]. by apply (Hkeysep ca cb).
        -- apply Forall_forall. intros k Hin. apply Hk.
           by rewrite elem_of_Array_sort.
Qed.
End Sorted.

Lemma ordinalCompare_separates (a b : string) : ordinalCompare a b = 0 → a = b.
Proof.
  unfold ordinalCompare. destruct (String.compare a b) eqn:Hab; [|done..].
  intros _. by apply String.compare_eq_iff.
Qed.

(** Four files, under comparison by code units: English, Brazilian
    Portuguese and German in the order of the list, then the unlisted code. *)
Lemma readI18nData_sorted_witness :
  ∃ payload,
    readI18nData rejectAll toLowerCaseASCII ordinalCompare mixedWorkspace = Some payload
    ∧ StronglySorted (λ a b, compareLanguageCodes toLowerCaseASCII ordinalCompare a b < 0)
        (Host.code <$> Host.languages payload)
    ∧ Host.code <$> Host.languages payload = ["en"; "pt-BR"; "de"; "xx"].
Proof.
  destruct (readI18nData_sorted rejectAll toLowerCaseASCII ordinalCompare
              ordinalCompare_antisym ordinalCompare_trans mixedWorkspace _ eq_refl)
    as (payload & Hload & _ & Hsorted & _).
  - repeat (apply readable_insert; [done|]). apply readable_empty.
  - intros a b Ha Hb Hzero.
    apply (proj1 (compare_tie toLowerCaseASCII ordinalCompare a b)) in Hzero
      as [[_ Hzero]|(_ & _ & Hne & Hzero)]; apply ordinalCompare_separates in Hzero; done.
  - intros c1 c2 k1 k2 _ _. apply ordinalCompare_separates.
  - exists payload. split; [exact Hload|]. split; [exact Hsorted|].
    vm_compute in Hload. injection Hload as <-. reflexivity.
Defined.

(** ** Language names *)

Lemma lower_ascii_idem (c : ascii) : lower_ascii (lower_ascii c) = lower_ascii c.
Proof. by destruct c as [[] [] [] [] [] [] [] []]. Qed.

Lemma toLowerCaseASCII_idem (s : string) :
  toLowerCaseASCII (toLowerCaseASCII s) = toLowerCaseASCII s.
Proof. induction s as [|c s IH]; [done|]. simpl. by rewrite lower_ascii_idem, IH. Qed.

Lemma popular_name (key : string) :
  let map : gmap string string :=
    list_to_map
      [ ("en", "English"); ("es", "Spanish"); ("pt", "Portuguese"); ("fr", "French");
        ("de", "German"); ("it", "Italian"); ("ja", "Japanese"); ("zh", "Chinese");
        ("ru", "Russian"); ("ko", "Korean") ] in
  map !! key
  = if bool_decide (indexOf POPULAR_LANGUAGE_ORDER key = -1) then None
    else ["English"; "Spanish"; "Portuguese"; "French"; "German"; "Italian";
          "Japanese"; "Chinese"; "Russian"; "Korean"]
         !! Z.to_nat (indexOf POPULAR_LANGUAGE_ORDER key).
Proof.
  intros map. subst map.
  destruct (decide (key = "en")) as [->|H1]; [done|].
  destruct (decide (key = "es")) as [->|H2]; [done|].
  destruct (decide (key = "pt")) as [->|H3]; [done|].
  destruct (decide (key = "fr")) as [->|H4]; [done|].
  destruct (decide (key = "de")) as [->|H5]; [done|].
  destruct (decide (key = "it")) as [->|H6]; [done|].
  destruct (decide (key = "ja")) as [->|H7]; [done|].
  destruct (decide (key = "zh")) as [->|H8]; [done|].
  destruct (decide (key = "ru")) as [->|H9]; [done|].
  destruct (decide (key = "ko")) as [->|H10]; [done|].
  assert (indexOf POPULAR_LANGUAGE_ORDER key = -1) as ->.
  { unfold indexOf, POPULAR_LANGUAGE_ORDER. cbn [indexOf_from].
    repeat match goal with
    | H : key ≠ ?s |- context [String.eqb ?s key] =>
        rewrite (proj2 (String.eqb_neq s key)) by congruence
    end. done. }
  rewrite bool_decide_eq_true_2 by done.
  simpl. by rewrite !lookup_insert_ne, lookup_empty by done.
Qed.

Section Names.
Context (toLowerCase : string → string).
Hypothesis toLowerCase_idem : ∀ s, toLowerCase (toLowerCase s) = toLowerCase s.
Hypothesis toLowerCase_zh : toLowerCase "zh" = "zh".
Hypothesis toLowerCase_pt : toLowerCase "pt" = "pt".

Local Abbreviation normalize := (normalizeLanguageCode toLowerCase).
Local Abbreviation rank := (rankOf toLowerCase).
Local Abbreviation info := (getLanguageInfo toLowerCase).

Lemma normalizeLanguageCode_lower (lower : string) :
  toLowerCase lower = lower →
  normalize lower
  = if String.eqb lower "zn" || startsWith lower "zh" then "zh"
    else if startsWith lower "pt" then "pt" else lower.
Proof. intros H. unfold normalizeLanguageCode. by rewrite H. Qed.

Lemma normalizeLanguageCode_twice (code : string) :
  toLowerCase (normalize code) = normalize code
  ∧ normalize (normalize code) = normalize code.
Proof.
  assert (toLowerCase (normalize code) = normalize code) as Hlower.
  { unfold normalizeLanguageCode. destruct (_ || _); [done|].
    destruct (startsWith _ "pt"); [done|]. apply toLowerCase_idem. }
  split; [done|].
  rewrite (normalizeLanguageCode_lower _ Hlower).
  unfold normalizeLanguageCode.
  destruct (String.eqb (toLowerCase code) "zn" || startsWith (toLowerCase code) "zh")
    eqn:Hzh; [done|].
  destruct (startsWith (toLowerCase code) "pt") eqn:Hpt; [done|].
  by rewrite Hzh, Hpt.
Qed.

(** X9. Where the lower-casing of the engine is idempotent and leaves [zh]
    and [pt] alone, [normalizeLanguageCode] is idempotent and ignores the
    case of letters; its result is in lower case, and a code has the rank of
    its normalized form. *)
Theorem normalizeLanguageCode_idem (code : string) :
  normalizeLanguageCode toLowerCase (normalize code) = normalize code
  ∧ normalizeLanguageCode toLowerCase (toLowerCase code) = normalize code
  ∧ toLowerCase (normalize code) = normalize code
  ∧ rankOf toLowerCase (normalize code) = rankOf toLowerCase code.
Proof.
  destruct (normalizeLanguageCode_twice code) as [Hlower Hidem].
  split; [done|]. split; [|split; [done|]].
  - unfold normalizeLanguageCode. by rewrite toLowerCase_idem.
  - unfold rankOf. by rewrite Hidem.
Qed.

Lemma languageName_eq (c : string) :
  Host.name (info c)
  = (if bool_decide (rank c = -1)
     then if inherits (normalize c) then Inherited (normalize c) else Own c
     else Own (default c (["English"; "Spanish"; "Portuguese"; "French"; "German";
                           "Italian"; "Japanese"; "Chinese"; "Russian"; "Korean"]
                          !! Z.to_nat (rank c)))).
Proof.
  unfold getLanguageInfo. cbn [Host.name]. unfold lookupMember.
  rewrite (popular_name (normalize c)). fold (rank c).
  case_bool_decide as Hrank.
  - by destruct (inherits (normalize c)).
  - destruct (rankOf_range toLowerCase c) as [?|Hr]; [done|].
    destruct (_ !! Z.to_nat (rank c)) eqn:Hl; [done|].
    apply lookup_ge_None in Hl. simpl in Hl. lia.
Qed.

(** X10. [getLanguageInfo] keeps the code and gives no flag. The name is
    the one at the rank of the code for the ten languages of the popularity
    list, so a regional variant has the name of its language. For any other
    code it is the code itself, unless the normalized code is the name of a
    member of [Object.prototype], which the name table then gives: the name
    table and the sort order cover the same languages. *)
Theorem getLanguageInfo_name (c : string) :
  Host.code (info c) = c
  ∧ Host.flag (info c) = ""
  ∧ Host.name (info c)
    = (if bool_decide (rank c = -1)
       then if inherits (normalize c) then Inherited (normalize c) else Own c
       else Own (default c (["English"; "Spanish"; "Portuguese"; "French"; "German";
                             "Italian"; "Japanese"; "Chinese"; "Russian"; "Korean"]
                            !! Z.to_nat (rank c))))
  ∧ (rank c ≠ -1 → Host.name (info c) = Host.name (info (normalize c))).
Proof.
  split; [done|]. split; [done|]. split; [apply languageName_eq|].
  intros Hrank. rewrite !languageName_eq.
  assert (rank (normalize c) = rank c) as ->
    by (unfold rankOf; by rewrite (proj2 (normalizeLanguageCode_twice c))).
  rewrite !bool_decide_eq_false_2 by done.
  destruct (rankOf_range toLowerCase c) as [?|Hr]; [done|].
  destruct (_ !! Z.to_nat (rank c)) eqn:Hl; [done|].
  apply lookup_ge_None in Hl. simpl in Hl. lia.
Qed.
End Names.

(** With the folding of ASCII letters: [PT-br] normalizes to [pt], as [pt]
    does. *)
Lemma normalizeLanguageCode_idem_witness :
  normalizeLanguageCode toLowerCaseASCII (normalizeLanguageCode toLowerCaseASCII "PT-br")
  = "pt"
  ∧ rankOf toLowerCaseASCII "PT-br" = 2.
Proof.
  destruct (normalizeLanguageCode_idem toLowerCaseASCII toLowerCaseASCII_idem
              eq_refl eq_refl "PT-br") as (Hidem & _ & _ & Hrank).
  split; [by rewrite Hidem|by rewrite <- Hrank].
Defined.

(** With the folding of ASCII letters: [pt-BR] is named [Portuguese],
    [xx] by its code, and [Constructor] by the function a plain object
    inherits under [constructor]. *)
Lemma getLanguageInfo_name_witness :
  Host.name (getLanguageInfo toLowerCaseASCII "pt-BR") = Own "Portuguese"
  ∧ Host.name (getLanguageInfo toLowerCaseASCII "xx") = Own "xx"
  ∧ Host.name (getLanguageInfo toLowerCaseASCII "Constructor") = Inherited "constructor".
Proof.
  split_and!.
  - by rewrite (proj1 (proj2 (proj2 (getLanguageInfo_name toLowerCaseASCII
                                       toLowerCaseASCII_idem eq_refl eq_refl "pt-BR")))).
  - by rewrite (proj1 (proj2 (proj2 (getLanguageInfo_name toLowerCaseASCII
                                       toLowerCaseASCII_idem eq_refl eq_refl "xx")))).
  - by rewrite (proj1 (proj2 (proj2 (getLanguageInfo_name toLowerCaseASCII
                                       toLowerCaseASCII_idem eq_refl eq_refl "Constructor")))).
Defined.

(** ** A batch run that goes through *)

Section BatchSuccess.
Import App.
Context (provider : nat → Request → Reply) (Date_now : nat → string).

Lemma schedule_app es1 es2 : schedule (es1 ++ es2) = schedule es1 ++ schedule es2.
Proof. apply List.filter_app. Qed.

Lemma successful_job_catalog job translated usage r :
  truthy (openAiApiKey (state r)) = true →
  provider (calls r) (requestOf (state r) job) = Returned translated usage →
  ∃ r1,
    translateText provider Date_now (sourceText job) (targetLangName job)
      (sourceLangName job) (keyName job) (openAiApiKey (state r))
      (openAiModel (state r)) (targetLangCode job) r = (Some translated, r1)
    ∧ same_settings (state r) (state r1)
    ∧ same_catalog (state r) (state r1)
    ∧ values (state r1) = values (state r)
    ∧ calls r1 = S (calls r)
    ∧ schedule (effects r1)
      = schedule (effects r) ++ [ProviderCall (requestOf (state r) job)]
    ∧ postedValues (effects r1) = postedValues (effects r).
Proof.
  intros Hkey Hreply. unfold translateText. rewrite Hkey. simpl.
  fold (requestOf (state r) job). rewrite Hreply.
  destruct usage as [[[[p c] t] m]|].
  - eexists. split; [reflexivity|].
    unfold handleRecordTokenUsage, postMessage, same_settings, same_catalog. simpl.
    destruct (vscodeApi (state r)) eqn:Hv; simpl;
      rewrite ?schedule_app, ?postedValues_app; simpl;
      rewrite ?app_nil_r; by repeat split.
  - eexists. split; [reflexivity|]. unfold same_settings, same_catalog. simpl.
    rewrite ?schedule_app, ?postedValues_app; simpl;
      rewrite ?app_nil_r; by repeat split.
Qed.

Lemma handleSave_stay_catalog keyId langCode newValue r :
  ∃ r2,
    handleSave keyId langCode newValue true r = r2
    ∧ same_settings (state r) (state r2)
    ∧ same_catalog (state r) (state r2)
    ∧ values (state r2) = saveCell keyId langCode newValue (values (state r))
    ∧ calls r2 = calls r
    ∧ schedule (effects r2) = schedule (effects r)
    ∧ postedValues (effects r2)
      = postedValues (effects r)
        ++ (if vscodeApi (state r) then [(keyId, langCode, newValue)] else []).
Proof.
  eexists. split; [reflexivity|].
  unfold handleSave, postMessage, same_settings, same_catalog. simpl.
  destruct (vscodeApi (state r)) eqn:Hv; simpl;
    destruct (currentView (state r)) eqn:Hview; simpl;
    rewrite ?schedule_app, ?postedValues_app; simpl;
    rewrite ?app_nil_r; by repeat split.
Qed.

Lemma same_catalog_trans st1 st2 st3 :
  same_catalog st1 st2 → same_catalog st2 st3 → same_catalog st1 st3.
Proof. unfold same_catalog. intros (?&?&?&?) (?&?&?&?). repeat split; congruence. Qed.

Lemma same_settings_trans st1 st2 st3 :
  same_settings st1 st2 → same_settings st2 st3 → same_settings st1 st3.
Proof. unfold same_settings. intros (?&?&?) (?&?&?). repeat split; congruence. Qed.

Lemma translateJobs_success (jobs : list TranslateAllJob) :
  ∀ (replies : list (string * option (float * float * float * string)))
    (total d : nat) (r : Run),
    truthy (openAiApiKey (state r)) = true →
    length replies = length jobs →
    (∀ i job reply, jobs !! i = Some job → replies !! i = Some reply →
       provider (calls r + i)%nat (requestOf (state r) job) = Returned reply.1 reply.2) →
    ∃ r',
      translateJobs provider Date_now total d jobs r = (translationDone, r')
      ∧ schedule (effects r')
        = schedule (effects r)
          ++ concat (imap (λ i job, [ProviderCall (requestOf (state r) job);
                                    OnProgress (S (d + i)) total]
                                   ++ (if (S i <? length jobs)%nat then [Sleep 300] else []))
                          jobs)
      ∧ values (state r') = savedValues (values (state r)) (zip jobs replies.*1)
      ∧ postedValues (effects r')
        = postedValues (effects r)
          ++ (if vscodeApi (state r)
              then (λ '(job, translated), (keyId job, targetLangCode job, translated))
                     <$> zip jobs replies.*1
              else [])
      ∧ calls r' = (calls r + length jobs)%nat
      ∧ same_settings (state r) (state r')
      ∧ same_catalog (state r) (state r').
Proof.
  induction jobs as [|job jobs IH]; intros replies total d r Hkey Hlen Hreplies.
  - exists r. simpl. rewrite !app_nil_r, Nat.add_0_r.
    destruct (vscodeApi (state r)); rewrite ?app_nil_r; by repeat split.
  - destruct replies as [|[translated usage] replies]; [done|].
    simpl in Hlen. injection Hlen as Hlen.
    pose proof (Hreplies 0%nat job (translated, usage) eq_refl eq_refl) as Hfirst.
    rewrite Nat.add_0_r in Hfirst. simpl in Hfirst.
    destruct (successful_job_catalog job translated usage r Hkey Hfirst)
      as (r1 & Htr & Hset1 & Hcat1 & Hval1 & Hcalls1 & Htl1 & Hpv1).
    destruct (handleSave_stay_catalog (keyId job) (targetLangCode job) translated r1)
      as (r2 & Hsave & Hset2 & Hcat2 & Hval2 & Hcalls2 & Htl2 & Hpv2).
    cbn [translateJobs]. rewrite Htr, Hsave.
    set (r3 := emit (OnProgress (S d) total) r2).
    set (r4 := match jobs with
               | [] => r3
               | _ :: _ => emit (Sleep 300) r3
               end).
    assert (same_settings (state r) (state r4)
            ∧ same_catalog (state r) (state r4)
            ∧ values (state r4) = values (state r2)
            ∧ calls r4 = calls r2
            ∧ schedule (effects r4)
              = schedule (effects r2) ++ [OnProgress (S d) total]
                ++ (if (1 <? S (length jobs))%nat then [Sleep 300] else [])
            ∧ postedValues (effects r4) = postedValues (effects r2))
      as (Hset4 & Hcat4 & Hval4 & Hcalls4 & Htl4 & Hpv4).
    { assert (state r4 = state r2 ∧ calls r4 = calls r2) as [Hst4 Hc4]
        by (subst r4 r3; by destruct jobs).
      rewrite Hst4. split; [by eapply same_settings_trans|].
      split; [by eapply same_catalog_trans|]. split; [done|]. split; [done|].
      subst r4 r3. destruct jobs; simpl;
        rewrite ?schedule_app, ?postedValues_app; simpl; rewrite ?app_nil_r;
        by rewrite <- ?app_assoc. }
    destruct (IH replies total (S d) r4) as (r' & Hrun & Htl & Hval & Hpv & Hcalls & Hset & Hcat).
    + destruct Hset4 as (-> & _). done.
    + done.
    + intros i job' reply Hjob Hreply.
      rewrite (requestOf_same_settings _ _ _ Hset4), Hcalls4, Hcalls2, Hcalls1.
      replace (S (calls r) + i)%nat with (calls r + S i)%nat by lia.
      by apply Hreplies.
    + exists r'. split; [exact Hrun|].
      assert (vscodeApi (state r4) = vscodeApi (state r)) as Hvs4 by apply Hset4.
      assert (vscodeApi (state r1) = vscodeApi (state r)) as Hvs1 by apply Hset1.
      rewrite Htl, Hval, Hpv, Hcalls, Htl4, Htl2, Htl1, Hval4, Hval2, Hval1,
        Hpv4, Hpv2, Hpv1, Hcalls4, Hcalls2, Hcalls1, Hvs4, Hvs1.
      split_and!.
      * rewrite <- !app_assoc. cbn [imap concat app length]. rewrite Nat.add_0_r.
        do 4 f_equal. f_equal.
        apply imap_ext. intros i x _. simpl.
        rewrite (requestOf_same_settings _ _ _ Hset4).
        by replace (d + S i)%nat with (S (d + i))%nat by lia.
      * done.
      * rewrite <- app_assoc. f_equal. by destruct (vscodeApi (state r)).
      * simpl. lia.
      * by eapply same_settings_trans.
      * by eapply same_catalog_trans.
Qed.

Lemma collect_missing keys values languages sourceLangCode :
  collectTranslateAllJobs keys values languages sourceLangCode
  = jobFor values languages sourceLangCode
    <$> missingTranslations keys values languages sourceLangCode.
Proof.
  unfold collectTranslateAllJobs. case_bool_decide as Htargets.
  - unfold missingTranslations. rewrite bind_all_nil; [done|]. intros k _.
    rewrite bind_all_nil; [done|]. intros l Hl.
    rewrite filter_and, Htargets in Hl. by apply elem_of_nil in Hl.
  - by rewrite (collect_loop values languages sourceLangCode _ keys []).
Qed.

Lemma truthy_true (s : string) : truthy s = true ↔ s ≠ "".
Proof. unfold truthy. rewrite negb_true_iff. apply String.eqb_neq. Qed.

Lemma or_else_nonblank (text : string) : or_else text "" = text.
Proof. by destruct text. Qed.

Lemma textOf_saveCell values keyId langCode newValue k l :
  textOf (saveCell keyId langCode newValue values) k l
  = if bool_decide (k = keyId ∧ l = langCode) then newValue else textOf values k l.
Proof.
  unfold textOf, saveCell. destruct (decide (k = keyId)) as [->|Hk].
  - rewrite lookup_insert_eq. simpl. destruct (decide (l = langCode)) as [->|Hl].
    + rewrite lookup_insert_eq, bool_decide_eq_true_2 by done. apply or_else_nonblank.
    + rewrite lookup_insert_ne by done. rewrite bool_decide_eq_false_2 by naive_solver.
      destruct (values !! keyId); simpl; [done|]. by rewrite lookup_empty.
  - rewrite lookup_insert_ne by done. by rewrite bool_decide_eq_false_2 by naive_solver.
Qed.

Lemma savedValues_untouched (saved : list (TranslateAllJob * string)) :
  ∀ values k l,
    (∀ job text, (job, text) ∈ saved → ¬ (keyId job = k ∧ targetLangCode job = l)) →
    textOf (savedValues values saved) k l = textOf values k l.
Proof.
  induction saved as [|[job text] saved IH]; intros values k l Hnone; [done|].
  unfold savedValues in *. simpl. rewrite IH.
  - rewrite textOf_saveCell, bool_decide_eq_false_2; [done|].
    intros [Hk Hl]. apply (Hnone job text); [by left|done].
  - intros job' text' Hin. apply (Hnone job' text'). by right.
Qed.

Lemma savedValues_nonblank (saved : list (TranslateAllJob * string)) :
  ∀ values k l,
    Forall (λ jt, truthy (trim jt.2) = true) saved →
    truthy (trim (textOf values k l)) = true
    ∨ (∃ job text, (job, text) ∈ saved ∧ keyId job = k ∧ targetLangCode job = l) →
    truthy (trim (textOf (savedValues values saved) k l)) = true.
Proof.
  induction saved as [|[job text] saved IH]; intros values k l Hall Hcell.
  - destruct Hcell as [?|(? & ? & []%elem_of_nil & _)]. done.
  - apply Forall_cons in Hall as [Htext Hall]. unfold savedValues in *. simpl.
    apply IH; [done|]. rewrite textOf_saveCell.
    destruct Hcell as [Hold|(job' & text' & [[= -> ->]|Hin]%elem_of_cons & Hk & Hl)].
    + left. by case_bool_decide.
    + left. by rewrite bool_decide_eq_true_2.
    + right. by exists job', text'.
Qed.
End BatchSuccess.

Section BatchRunDone.
Import App.
Context (provider : nat → Request → Reply) (Date_now : nat → string).

(** X11. When every provider call returns, [handleTranslateAll] reports
    success; the provider was called once for each job, in the order of the
    job list; the progress callback got [(0, total)] first and
    [(i + 1, total)] after the [i]-th job; the run paused 300 ms after every
    job but the last; and every translation is in the table, and posted to
    the extension host when there is one. *)
Theorem handleTranslateAll_success (jobs : list TranslateAllJob)
    (replies : list (string * option (float * float * float * string))) (r : Run) :
  let st := state r in
  truthy (openAiApiKey st) = true →
  collectTranslateAllJobs (keys st) (values st) (activeLanguages st) (sourceLangCode st)
  = jobs →
  jobs ≠ [] →
  length replies = length jobs →
  (∀ i job reply, jobs !! i = Some job → replies !! i = Some reply →
     provider (calls r + i)%nat (requestOf st job) = Returned reply.1 reply.2) →
  ∃ r',
    handleTranslateAll provider Date_now r = (translationDone, r')
    ∧ schedule (effects r')
      = schedule (effects r)
        ++ OnProgress 0 (length jobs)
           :: concat (imap (λ i job, [ProviderCall (requestOf st job);
                                      OnProgress (S i) (length jobs)]
                                     ++ (if (S i <? length jobs)%nat then [Sleep 300] else []))
                           jobs)
    ∧ values (state r') = savedValues (values st) (zip jobs replies.*1)
    ∧ postedValues (effects r')
      = postedValues (effects r)
        ++ (if vscodeApi st
            then (λ '(job, translated), (keyId job, targetLangCode job, translated))
                   <$> zip jobs replies.*1
            else [])
    ∧ calls r' = (calls r + length jobs)%nat.
Proof.
  intros st Hkey Hjobs Hne Hlen Hreplies.
  unfold handleTranslateAll. fold st. rewrite Hkey, Hjobs. simpl.
  destruct (translateJobs_success provider Date_now jobs replies (length jobs) 0
              (emit (OnProgress 0 (length jobs)) r))
    as (r' & Hrun & Htl & Hval & Hpv & Hcalls & _); try done.
  exists r'. split.
  - destruct jobs; [done|exact Hrun].
  - simpl in *. rewrite Htl, Hval, Hpv, Hcalls, schedule_app, postedValues_app.
    simpl. rewrite app_nil_r, <- app_assoc. by repeat split.
Qed.

(** X12. A run that goes through with no blank reply leaves nothing to
    translate: the job list of the resulting state is empty, and running
    again, whatever the provider, reports that nothing is missing and does
    nothing. *)
Theorem handleTranslateAll_converges (jobs : list TranslateAllJob)
    (replies : list (string * option (float * float * float * string))) (r : Run) :
  let st := state r in
  truthy (openAiApiKey st) = true →
  collectTranslateAllJobs (keys st) (values st) (activeLanguages st) (sourceLangCode st)
  = jobs →
  jobs ≠ [] →
  length replies = length jobs →
  (∀ i job reply, jobs !! i = Some job → replies !! i = Some reply →
     provider (calls r + i)%nat (requestOf st job) = Returned reply.1 reply.2) →
  Forall (λ reply, trim reply.1 ≠ "") replies →
  ∃ r',
    handleTranslateAll provider Date_now r = (translationDone, r')
    ∧ collectTranslateAllJobs (keys (state r')) (values (state r'))
        (activeLanguages (state r')) (sourceLangCode (state r')) = []
    ∧ ∀ provider' Date_now',
        handleTranslateAll provider' Date_now' r'
        = ({| ok := false; error := Some "translateAll.noMissing" |}, r').
Proof.
  intros st Hkey Hjobs Hne Hlen Hreplies Hnonblank.
  assert (∃ r', handleTranslateAll provider Date_now r = (translationDone, r')
                ∧ values (state r') = savedValues (values st) (zip jobs replies.*1)
                ∧ same_settings st (state r') ∧ same_catalog st (state r'))
    as (r' & Hrun & Hval & Hset & Hcat).
  { unfold handleTranslateAll. fold st. rewrite Hkey, Hjobs.
    destruct (translateJobs_success provider Date_now jobs replies (length jobs) 0
                (emit (OnProgress 0 (length jobs)) r))
      as (r' & Hrun & _ & Hval & _ & _ & Hset & Hcat); try done.
    exists r'. split; [|done]. destruct jobs; [done|exact Hrun]. }
  assert (collectTranslateAllJobs (keys (state r')) (values (state r'))
            (activeLanguages (state r')) (sourceLangCode (state r')) = []) as Hnone.
  { destruct Hcat as (Hk & Hl & Ha & Hs). unfold activeLanguages.
    rewrite Hk, Hl, Ha, Hs, Hval. fold (activeLanguages st).
    rewrite collect_missing.
    destruct (missingTranslations _ _ _ _) as [|[k l] rest] eqn:Hm; [done|exfalso].
    assert ((k, l) ∈ missingTranslations (keys st)
              (savedValues (values st) (zip jobs replies.*1))
              (activeLanguages st) (sourceLangCode st)) as Hin by (rewrite Hm; left).
    apply elem_of_missingTranslations in Hin as (Hkin & Hlin & Hlne & Hsrc & Hblank).
    assert (Forall (λ jt : TranslateAllJob * string, truthy (trim jt.2) = true)
              (zip jobs replies.*1)) as Hsaved.
    { apply Forall_forall. intros [job text] Hjt. apply elem_of_zip_r in Hjt.
      apply list_elem_of_fmap in Hjt as (reply & -> & Hreply).
      rewrite Forall_forall in Hnonblank. apply truthy_true. by apply Hnonblank. }
    assert (∀ job text, (job, text) ∈ zip jobs replies.*1 →
              targetLangCode job ≠ sourceLangCode st) as Htargets.
    { intros job text Hjt%elem_of_zip_l. rewrite <- Hjobs, collect_missing in Hjt.
      apply list_elem_of_fmap in Hjt as ([k' l'] & -> & Hkl).
      by apply elem_of_missingTranslations in Hkl as (_ & _ & ? & _). }
    rewrite savedValues_untouched in Hsrc.
    2: { intros job text Hjt [_ Heq]. by apply (Htargets job text). }
    assert (truthy (trim (textOf (savedValues (values st) (zip jobs replies.*1))
                            (id k) (code l))) = true) as Hfilled.
    { apply savedValues_nonblank; [done|].
      destruct (decide (trim (textOf (values st) (id k) (code l)) = "")) as [Hold|Hold];
        [right|left; by apply truthy_true].
      assert (jobFor (values st) (activeLanguages st) (sourceLangCode st) (k, l) ∈ jobs)
        as Hjob.
      { rewrite <- Hjobs, collect_missing. apply list_elem_of_fmap_2.
        by apply elem_of_missingTranslations. }
      apply list_elem_of_lookup_1 in Hjob as [i Hi].
      destruct (lookup_lt_is_Some_2 replies.*1 i) as [text Htext].
      { rewrite length_fmap, Hlen. by eapply lookup_lt_Some. }
      exists (jobFor (values st) (activeLanguages st) (sourceLangCode st) (k, l)), text.
      split; [|done].
      apply (list_elem_of_lookup_2 _ i). apply lookup_zip_with_Some. eauto. }
    apply truthy_true in Hfilled. done. }
  exists r'. split; [done|]. split; [done|].
  intros provider' Date_now'. unfold handleTranslateAll.
  destruct Hset as (-> & _). fold st. by rewrite Hkey, Hnone.
Qed.
End BatchRunDone.


(** The sample catalog with a provider that answers every request: three
    jobs, three translations in the table. *)
Lemma handleTranslateAll_success_witness :
  let result := App.handleTranslateAll echoProvider (λ _, "") batchStart in
  result.1 = translationDone
  ∧ App.values (App.state result.2)
    = {[ "a" := <["es" := "[Spanish] Hello"]>
                  (<["de" := "[German] Hello"]>
                     (<["fr" := "[French] Hello"]> {[ "en" := "Hello" ]})) ]}
  ∧ App.calls result.2 = 3%nat.
Proof.
  destruct (handleTranslateAll_success echoProvider (λ _, "")
              (App.collectTranslateAllJobs sampleKeys sampleValues batchLanguages "en")
              [("[French] Hello", None); ("[German] Hello", None); ("[Spanish] Hello", None)]
              batchStart eq_refl eq_refl)
    as (r' & Hrun & _ & Hval & _ & Hcalls).
  - discriminate.
  - reflexivity.
  - intros [|[|[|i]]] job reply Hjob Hreply; simpl in Hjob, Hreply;
      try discriminate; injection Hjob as <-; injection Hreply as <-; reflexivity.
  - simpl. rewrite Hrun. simpl. rewrite Hval, Hcalls. repeat split.
Defined.


(** After that run a second one finds nothing missing. *)
Lemma handleTranslateAll_converges_witness :
  let result := App.handleTranslateAll echoProvider (λ _, "") batchStart in
  App.handleTranslateAll echoProvider (λ _, "") result.2
  = ({| App.ok := false; App.error := Some "translateAll.noMissing" |}, result.2).
Proof.
  destruct (handleTranslateAll_converges echoProvider (λ _, "")
              (App.collectTranslateAllJobs sampleKeys sampleValues batchLanguages "en")
              [("[French] Hello", None); ("[German] Hello", None); ("[Spanish] Hello", None)]
              batchStart eq_refl eq_refl)
    as (r' & Hrun & _ & Hagain).
  - discriminate.
  - reflexivity.
  - intros [|[|[|i]]] job reply Hjob Hreply; simpl in Hjob, Hreply;
      try discriminate; injection Hjob as <-; injection Hreply as <-; reflexivity.
  - repeat constructor; discriminate.
  - simpl. rewrite Hrun. simpl. apply Hagain.
Defined.

(** ** Token estimates *)

Lemma String_length_zero (s : string) : String_length s = 0%nat ↔ s = "".
Proof.
  split; [|by intros ->].
  destruct s as [|c rest]; [done|]. cbn [String_length].
  repeat match goal with
  | |- context [if ?b then _ else _] => destruct b
  | |- context [match ?r with EmptyString => _ | String _ _ => _ end] => destruct r
  end; done.
Qed.

Lemma estimateTokenCount_ceil (text : string) :
  let n := String_length (trim text) in
  (n ≤ 4 * estimateTokenCount text < n + 4)%nat.
Proof.
  intros n. unfold estimateTokenCount. fold n.
  destruct (truthy (trim text)) eqn:Ht; cbn [negb].
  - pose proof (Nat.div_mod_eq (n + 3) 4) as Hdiv.
    pose proof (Nat.mod_upper_bound (n + 3) 4 ltac:(done)) as Hmod.
    lia.
  - assert (n = 0%nat) as ->; [|lia].
    apply String_length_zero. unfold truthy in Ht.
    apply negb_false_iff in Ht. by apply String.eqb_eq in Ht.
Qed.

Lemma estimateTokenCount_zero (text : string) :
  estimateTokenCount text = 0%nat ↔ trim text = "".
Proof.
  pose proof (estimateTokenCount_ceil text) as Hceil. cbv zeta in Hceil.
  rewrite <- String_length_zero. lia.
Qed.

(** X13. The estimate of a text is the quarter of the length of the trimmed
    text, rounded up: it is zero exactly for a text that is blank, and
    otherwise the least number whose fourfold reaches that length. *)
Theorem estimateTokenCount_spec (text : string) :
  let n := String_length (trim text) in
  (estimateTokenCount text = 0%nat ↔ trim text = "")
  ∧ (n ≤ 4 * estimateTokenCount text < n + 4)%nat.
Proof.
  intros n. split; [apply estimateTokenCount_zero|apply estimateTokenCount_ceil].
Qed.

Lemma rev_app_append (s t : string) : String.rev_app s t = String.rev_app s "" +:+ t.
Proof.
  revert t. induction s as [|c s IH]; intros t; [done|].
  simpl. rewrite (IH (String c t)), (IH (String c "")).
  by rewrite string_app_assoc.
Qed.

Lemma rev_cons (c : ascii) (s : string) :
  String.rev (String c s) = String.rev s +:+ String c "".
Proof. unfold String.rev. simpl. apply rev_app_append. Qed.

Lemma rev_nonempty (s : string) : s ≠ "" → String.rev s ≠ "".
Proof.
  destruct s as [|c s]; [done|]. intros _. rewrite rev_cons.
  by destruct (String.rev s).
Qed.

Lemma trimLeading_true_solid (x : ascii) :
  solid x → ∀ n u, (String.length u ≤ n)%nat →
    trimLeading true (u +:+ String x "") ≠ "".
Proof.
  intros [Hws Hx].
  assert (∀ a, ws2 x a = false) as Hws2.
  { intros a. unfold ws2. apply andb_false_intro1. apply Nat.eqb_neq. lia. }
  assert (∀ a b, ws3 x a b = false) as Hws3.
  { intros a b. unfold ws3. cbv zeta.
    repeat (apply orb_false_intro); repeat (apply andb_false_intro1);
      apply Nat.eqb_neq; lia. }
  induction n as [|n IH]; intros u Hu.
  - destruct u; [|simpl in Hu; lia]. simpl. by rewrite Hws.
  - destruct u as [|a [|b [|c u3]]]; simpl in Hu.
    + simpl. by rewrite Hws.
    + change (trimLeading true (String a (String x "")) ≠ "").
      cbn [trimLeading]. destruct (ws1 a); [apply (IH ""); simpl; lia|].
      by rewrite Hws2.
    + change (trimLeading true (String a (String b (String x ""))) ≠ "").
      cbn [trimLeading]. destruct (ws1 a); [apply (IH (String b "")); simpl; lia|].
      destruct (ws2 b a); [apply (IH ""); simpl; lia|].
      by rewrite Hws3.
    + change (trimLeading true
                (String a (String b (String c (u3 +:+ String x "")))) ≠ "").
      cbn [trimLeading].
      destruct (ws1 a); [apply (IH (String b (String c u3))); simpl; lia|].
      destruct (ws2 b a); [apply (IH (String c u3)); simpl; lia|].
      destruct (ws3 c b a); [apply (IH u3); simpl; lia|done].
Qed.

Lemma trim_solid (x : ascii) (rest : string) : solid x → trim (String x rest) ≠ "".
Proof.
  intros Hx. pose proof Hx as [Hws Hlt].
  assert (trimLeading false (String x rest) = String x rest) as Hlead.
  { cbn [trimLeading]. rewrite Hws.
    destruct rest as [|b rest]; [done|].
    assert (ws2 x b = false) as ->.
    { unfold ws2. apply andb_false_intro1. apply Nat.eqb_neq. lia. }
    destruct rest as [|c rest]; [done|].
    assert (ws3 x b c = false) as ->; [|done].
    unfold ws3. cbv zeta.
    repeat (apply orb_false_intro); repeat (apply andb_false_intro1);
      apply Nat.eqb_neq; lia. }
  unfold trim. rewrite Hlead, rev_cons. apply rev_nonempty.
  by apply (trimLeading_true_solid x Hx (String.length (String.rev rest))).
Qed.

Lemma buildToonPrompt_nonblank (text targetLang sourceLang context : string) :
  trim (buildToonPrompt text targetLang sourceLang context) ≠ "".
Proof.
  unfold buildToonPrompt, buildToonSystemPrompt. cbn [join_lines].
  change ("TOON/1" +:+ ?s) with (String "T" ("OON/1" +:+ s)).
  apply trim_solid. split; [done|]. by apply Nat.ltb_lt.
Qed.

Lemma String_length_truthy (s : string) : (0 <? String_length s)%nat = truthy s.
Proof.
  destruct (truthy s) eqn:Hs.
  - apply Nat.ltb_lt. apply truthy_true in Hs.
    destruct (String_length s) eqn:Hl; [|lia]. by apply String_length_zero in Hl.
  - apply Nat.ltb_ge. unfold truthy in Hs. apply negb_false_iff, String.eqb_eq in Hs.
    by rewrite Hs.
Qed.

Section Estimates.
Import App Estimate.

(** The prompt of a job. *)
Local Abbreviation promptOf :=
  (λ job, buildToonPrompt (sourceText job) (targetLangName job) (sourceLangName job)
            (keyName job)).

Lemma estimate_fold (sourceOf : string → string) (jobs : list TranslateAllJob) :
  ∀ (p c : nat) (cache : gmap string nat),
    (∀ job, job ∈ jobs → sourceText job = sourceOf (keyId job)) →
    (∀ k t, cache !! k = Some t → t = estimateTokenCount (sourceOf k)) →
    ∃ cache',
      foldl (λ '(promptTokens, completionTokens, sourceTokenCache) job,
               let prompt := buildToonPrompt (sourceText job) (targetLangName job)
                               (sourceLangName job) (keyName job) in
               let promptTokens := (promptTokens + estimateTokenCount prompt)%nat in
               match (sourceTokenCache : gmap string nat) !! keyId job with
               | Some sourceTokens =>
                   (promptTokens, (completionTokens + sourceTokens)%nat, sourceTokenCache)
               | None =>
                   let sourceTokens := estimateTokenCount (sourceText job) in
                   (promptTokens, (completionTokens + sourceTokens)%nat,
                    <[keyId job := sourceTokens]> sourceTokenCache)
               end)
            (p, c, cache) jobs
      = ((p + sum_list ((λ job, estimateTokenCount (promptOf job)) <$> jobs))%nat,
         (c + sum_list ((λ job, estimateTokenCount (sourceText job)) <$> jobs))%nat,
         cache').
Proof.
  induction jobs as [|job jobs IH]; intros p c cache Hjobs Hcache.
  - exists cache. simpl. by rewrite !Nat.add_0_r.
  - cbn [foldl]. cbv beta iota zeta.
    assert (sourceText job = sourceOf (keyId job)) as Hjob by (apply Hjobs; left).
    rewrite !fmap_cons. cbn [sum_list sum_list_with].
    destruct (cache !! keyId job) as [t|] eqn:Hc.
    + destruct (IH (p + estimateTokenCount (promptOf job))%nat (c + t)%nat cache)
        as (cache' & Hfold); [intros j Hj; apply Hjobs; by right|done|].
      exists cache'. refine (eq_trans Hfold _).
      by rewrite (Hcache _ _ Hc), <- Hjob, !Nat.add_assoc.
    + destruct (IH (p + estimateTokenCount (promptOf job))%nat
                  (c + estimateTokenCount (sourceText job))%nat
                  (<[keyId job := estimateTokenCount (sourceText job)]> cache))
        as (cache' & Hfold); [intros j Hj; apply Hjobs; by right| |].
      * intros k t. destruct (decide (k = keyId job)) as [->|Hne].
        -- rewrite lookup_insert_eq. intros [= <-]. by rewrite Hjob.
        -- rewrite lookup_insert_ne by done. apply Hcache.
      * exists cache'. refine (eq_trans Hfold _). by rewrite !Nat.add_assoc.
Qed.

Lemma sum_list_ge_length (l : list nat) :
  Forall (λ n, (1 ≤ n)%nat) l → (length l ≤ sum_list l)%nat.
Proof. induction 1 as [|n l Hn Hl IH]; simpl; lia. Qed.

Lemma job_source_nonblank keys values languages sourceLangCode job :
  job ∈ collectTranslateAllJobs keys values languages sourceLangCode →
  sourceText job = textOf values (keyId job) sourceLangCode
  ∧ trim (sourceText job) ≠ "".
Proof.
  rewrite collect_missing. intros ([k l] & -> & Hkl)%list_elem_of_fmap.
  apply elem_of_missingTranslations in Hkl as (_ & _ & _ & Hsrc & _). by split.
Qed.

Lemma translateAllEstimate_eq (keys : list TranslationKey)
    (values : gmap string (gmap string string)) (languages : list LanguageInfo)
    (sourceLangCode openAiModel : string) :
  let jobs := collectTranslateAllJobs keys values languages sourceLangCode in
  let prompts := sum_list ((λ job, estimateTokenCount (promptOf job)) <$> jobs) in
  let completions := sum_list ((λ job, estimateTokenCount (sourceText job)) <$> jobs) in
  translateAllEstimate keys values languages sourceLangCode openAiModel
  = {| missingCount := length jobs; promptTokens := prompts;
       completionTokens := completions; totalTokens := (prompts + completions)%nat;
       cost := estimateOpenAiCost (float_of_nat prompts) (float_of_nat completions)
                 openAiModel |}.
Proof.
  intros jobs prompts completions.
  destruct (estimate_fold (λ k, textOf values k sourceLangCode) jobs 0 0 ∅)
    as (cache' & Hfold); [|done|].
  { intros job Hjob. by apply job_source_nonblank in Hjob as [? _]. }
  unfold translateAllEstimate. fold jobs.
  case_bool_decide as Hjobs.
  - subst prompts completions. by rewrite Hjobs.
  - destruct (foldl _ _ jobs) as [[p c] cache] eqn:Hf.
    injection Hfold as -> -> ->. done.
Qed.

(** X14. The estimate of the component counts the jobs of a batch run: the
    prompt tokens are the sum of the estimates of the jobs' prompts, the
    completion tokens the sum of the estimates of their source texts (the
    cache by key changes nothing), and the total is their sum. Every job
    counts at least one token of each kind, so the total is zero exactly when
    nothing is missing; the cost is the cost of these two sums. *)
Theorem translateAllEstimate_spec (keys : list TranslationKey)
    (values : gmap string (gmap string string)) (languages : list LanguageInfo)
    (sourceLangCode openAiModel : string) :
  let jobs := collectTranslateAllJobs keys values languages sourceLangCode in
  let e := translateAllEstimate keys values languages sourceLangCode openAiModel in
  missingCount e = length jobs
  ∧ promptTokens e = sum_list ((λ job, estimateTokenCount (promptOf job)) <$> jobs)
  ∧ completionTokens e = sum_list ((λ job, estimateTokenCount (sourceText job)) <$> jobs)
  ∧ totalTokens e = (promptTokens e + completionTokens e)%nat
  ∧ (missingCount e ≤ promptTokens e)%nat
  ∧ (missingCount e ≤ completionTokens e)%nat
  ∧ (totalTokens e = 0%nat ↔ jobs = [])
  ∧ cost e = estimateOpenAiCost (float_of_nat (promptTokens e))
               (float_of_nat (completionTokens e)) openAiModel.
Proof.
  intros jobs e. subst e. rewrite translateAllEstimate_eq. fold jobs.
  cbn [missingCount promptTokens completionTokens totalTokens cost].
  assert (Forall (λ n, (1 ≤ n)%nat)
            ((λ job, estimateTokenCount (promptOf job)) <$> jobs)) as Hprompts.
  { apply Forall_fmap, Forall_forall. intros job _. simpl.
    pose proof (buildToonPrompt_nonblank (sourceText job) (targetLangName job)
                  (sourceLangName job) (keyName job)) as Hne.
    rewrite <- estimateTokenCount_zero in Hne. lia. }
  assert (Forall (λ n, (1 ≤ n)%nat)
            ((λ job, estimateTokenCount (sourceText job)) <$> jobs)) as Hsources.
  { apply Forall_fmap, Forall_forall. intros job Hjob. simpl.
    apply job_source_nonblank in Hjob as [_ Hne].
    rewrite <- estimateTokenCount_zero in Hne. lia. }
  apply sum_list_ge_length in Hprompts, Hsources. rewrite length_fmap in *.
  split_and!; try done; try lia.
  split.
  - intros Hzero. apply length_zero_iff_nil. lia.
  - by intros ->.
Qed.

Lemma pending_inner (values : gmap string (gmap string string))
    (sourceLangCode sourceText sourceName keyName kid : string) (completion : nat)
    (languages : list LanguageInfo) :
  ∀ acc : nat * nat * nat,
    foldl (λ '(promptTokens, completionTokens, missingCount) lang,
             if String.eqb (code lang) sourceLangCode
             then (promptTokens, completionTokens, missingCount)
             else
               let current := textOf values kid (code lang) in
               if (0 <? String_length (trim current))%nat
               then (promptTokens, completionTokens, missingCount)
               else
                 let targetName := or_else (name lang) (code lang) in
                 let prompt := buildToonPrompt sourceText targetName sourceName keyName in
                 ((promptTokens + estimateTokenCount prompt)%nat,
                  (completionTokens + completion)%nat,
                  S missingCount))
          acc languages
    = foldl (λ '(promptTokens, completionTokens, missingCount) lang,
               ((promptTokens
                 + estimateTokenCount
                     (buildToonPrompt sourceText (or_else (name lang) (code lang))
                        sourceName keyName))%nat,
                (completionTokens + completion)%nat,
                S missingCount))
            acc
            (List.filter (λ l, negb (String.eqb (code l) sourceLangCode)
                               && negb (truthy (trim (textOf values kid (code l)))))
                         languages).
Proof.
  induction languages as [|lang languages IH]; intros [[p c] m]; [done|].
  cbn [foldl List.filter]. cbv beta iota zeta.
  rewrite String_length_truthy.
  destruct (String.eqb (code lang) sourceLangCode); [apply IH|].
  destruct (truthy (trim (textOf values kid (code lang)))); [apply IH|].
  cbn [negb andb foldl]. apply IH.
Qed.

Lemma pending_pairs {A} (f : A → TranslationKey * LanguageInfo → A) (k : TranslationKey)
    (languages : list LanguageInfo) :
  ∀ acc, foldl f acc (languages ≫= λ l, [(k, l)])
         = foldl (λ acc l, f acc (k, l)) acc languages.
Proof.
  induction languages as [|l languages IH]; intros acc; [done|].
  cbn [mbind list_bind foldl app]. apply IH.
Qed.

Lemma foldl_pointwise {A B} (f g : A → B → A) (l : list B) :
  (∀ a b, f a b = g a b) → ∀ a, foldl f a l = foldl g a l.
Proof.
  intros Hfg. induction l as [|b l IH]; intros a; [done|].
  cbn [foldl]. by rewrite Hfg, IH.
Qed.

Lemma pending_outer (values : gmap string (gmap string string))
    (sourceLangCode sourceName : string) (languages : list LanguageInfo)
    (keys : list TranslationKey) :
  ∀ acc : nat * nat * nat,
    foldl (λ acc k,
             let sourceText := textOf values (id k) sourceLangCode in
             if negb (truthy (trim sourceText)) then acc
             else
               let completion := estimateTokenCount sourceText in
               foldl (λ '(promptTokens, completionTokens, missingCount) lang,
                        if String.eqb (code lang) sourceLangCode
                        then (promptTokens, completionTokens, missingCount)
                        else
                          let current := textOf values (id k) (code lang) in
                          if (0 <? String_length (trim current))%nat
                          then (promptTokens, completionTokens, missingCount)
                          else
                            let targetName := or_else (name lang) (code lang) in
                            let prompt :=
                              buildToonPrompt sourceText targetName sourceName (key k) in
                            ((promptTokens + estimateTokenCount prompt)%nat,
                             (completionTokens + completion)%nat,
                             S missingCount))
                     acc languages)
          acc keys
    = foldl (λ '(promptTokens, completionTokens, missingCount) pair,
               ((promptTokens
                 + estimateTokenCount
                     (buildToonPrompt (textOf values (id pair.1) sourceLangCode)
                        (or_else (name pair.2) (code pair.2)) sourceName (key pair.1)))%nat,
                (completionTokens
                 + estimateTokenCount (textOf values (id pair.1) sourceLangCode))%nat,
                S missingCount))
            acc (missingTranslations keys values languages sourceLangCode).
Proof.
  unfold missingTranslations.
  induction keys as [|k keys IH]; intros acc; [done|].
  cbn [foldl List.filter]. cbv beta zeta.
  destruct (truthy (trim (textOf values (id k) sourceLangCode))) eqn:Hsrc; cbn [negb].
  - rewrite IH. cbn [mbind list_bind]. rewrite foldl_app. f_equal.
    refine (eq_trans
              (pending_inner values sourceLangCode (textOf values (id k) sourceLangCode)
                 sourceName (key k) (id k)
                 (estimateTokenCount (textOf values (id k) sourceLangCode)) languages acc)
              _).
    rewrite pending_pairs. apply foldl_pointwise. by intros [[p c] m] l.
  - apply IH.
Qed.

Lemma pending_sums (sourceLangCode sourceName : string)
    (values : gmap string (gmap string string))
    (pairs : list (TranslationKey * LanguageInfo)) :
  ∀ p c m,
    foldl (λ '(promptTokens, completionTokens, missingCount) pair,
             ((promptTokens
               + estimateTokenCount
                   (buildToonPrompt (textOf values (id pair.1) sourceLangCode)
                      (or_else (name pair.2) (code pair.2)) sourceName (key pair.1)))%nat,
              (completionTokens
               + estimateTokenCount (textOf values (id pair.1) sourceLangCode))%nat,
              S missingCount))
          (p, c, m) pairs
    = ((p + sum_list ((λ pair : TranslationKey * LanguageInfo,
                         estimateTokenCount
                           (buildToonPrompt (textOf values (id pair.1) sourceLangCode)
                              (or_else (name pair.2) (code pair.2)) sourceName
                              (key pair.1))) <$> pairs))%nat,
       (c + sum_list ((λ pair : TranslationKey * LanguageInfo,
                         estimateTokenCount (textOf values (id pair.1) sourceLangCode))
                      <$> pairs))%nat,
       (m + length pairs)%nat).
Proof.
  induction pairs as [|pair pairs IH]; intros p c m.
  - simpl. by rewrite !Nat.add_0_r.
  - cbn [foldl]. cbv beta iota. rewrite IH, !fmap_cons.
    cbn [sum_list sum_list_with length].
    by rewrite !Nat.add_assoc, Nat.add_succ_r.
Qed.

(** X15. On the same languages, keys and values the settings view computes
    the same estimate as the component: its two nested loops visit the jobs
    of [collectTranslateAllJobs], in the same order. *)
Theorem pendingEstimate_agrees (languages : list LanguageInfo) (keys : list TranslationKey)
    (values : gmap string (gmap string string)) (sourceLangCode openAiModel : string) :
  pendingEstimate languages keys values sourceLangCode openAiModel
  = translateAllEstimate keys values languages sourceLangCode openAiModel.
Proof.
  rewrite translateAllEstimate_eq, collect_missing. unfold pendingEstimate.
  set (sourceName := match List.find _ languages with
                     | Some lang => or_else (name lang) sourceLangCode
                     | None => sourceLangCode
                     end).
  pose proof (pending_outer values sourceLangCode sourceName languages keys (0, 0, 0)%nat)
    as Houter.
  rewrite pending_sums in Houter.
  destruct (foldl _ _ keys) as [[p c] m] eqn:Hf.
  injection Houter as -> -> ->.
  rewrite length_fmap, <- !list_fmap_compose. done.
Qed.
End Estimates.

(** ** The dashboard and the estimate *)

Section DashboardRows.
Import App Estimate.

Lemma sum_list_fmap_add {B} (g h : B → nat) (ys : list B) :
  sum_list ((λ y, (g y + h y)%nat) <$> ys)
  = (sum_list (g <$> ys) + sum_list (h <$> ys))%nat.
Proof.
  induction ys as [|y ys IH]; [done|].
  rewrite !fmap_cons. cbn [sum_list_with]. rewrite IH. unfold Datatypes.id. lia.
Qed.

Lemma sum_list_fmap_zero {B} (ys : list B) : sum_list ((λ _, 0%nat) <$> ys) = 0%nat.
Proof. induction ys as [|y ys IH]; [done|]. by rewrite fmap_cons. Qed.

Lemma sum_list_fmap_swap {A B} (f : A → B → nat) (xs : list A) (ys : list B) :
  sum_list ((λ x, sum_list (f x <$> ys)) <$> xs)
  = sum_list ((λ y, sum_list ((λ x, f x y) <$> xs)) <$> ys).
Proof.
  induction xs as [|x xs IH].
  - simpl. by rewrite sum_list_fmap_zero.
  - rewrite fmap_cons. cbn [sum_list_with]. rewrite IH.
    change (Datatypes.id ?n) with n. by rewrite <- sum_list_fmap_add.
Qed.

Lemma fmap_list_bind {A B C} (g : B → C) (f : A → list B) (xs : list A) :
  g <$> (xs ≫= f) = xs ≫= λ x, g <$> f x.
Proof.
  induction xs as [|x xs IH]; [done|].
  cbn [mbind list_bind]. by rewrite fmap_app, IH.
Qed.

Lemma sum_list_bind {A} (f : A → list nat) (xs : list A) :
  sum_list (xs ≫= f) = sum_list ((λ x, sum_list (f x)) <$> xs).
Proof.
  induction xs as [|x xs IH]; [done|].
  cbn [mbind list_bind]. rewrite fmap_cons, sum_list_with_app, IH. done.
Qed.

Lemma sum_list_filter {A} (P : A → bool) (f : A → nat) (xs : list A) :
  sum_list (f <$> List.filter P xs)
  = sum_list ((λ x, if P x then f x else 0%nat) <$> xs).
Proof.
  induction xs as [|x xs IH]; [done|].
  cbn [List.filter]. rewrite fmap_cons. destruct (P x); cbn; by rewrite IH.
Qed.

Lemma foldl_add {A} (f : A → nat) (xs : list A) :
  ∀ n, foldl (λ acc x, (acc + f x)%nat) n xs = (n + sum_list (f <$> xs))%nat.
Proof.
  induction xs as [|x xs IH]; intros n; [by simpl; rewrite Nat.add_0_r|].
  cbn [foldl]. rewrite IH, fmap_cons. cbn [sum_list_with]. unfold Datatypes.id. lia.
Qed.

Lemma estimateTokens_eq (text : string) :
  Dashboard.estimateTokens text = estimateTokenCount text.
Proof. done. Qed.

(** What the loop of a row leaves in its three counters. *)
Lemma row_fold (values : gmap string (gmap string string)) (sourceLangCode : string)
    (lang : LanguageInfo) (keys : list TranslationKey) :
  ∀ f m t,
    foldl (λ '(filledCount, missingTokens, totalTokens) key,
             let value := textOf values (id key) (code lang) in
             let sourceText := textOf values (id key) sourceLangCode in
             let estimated := Dashboard.estimateTokens sourceText in
             let totalTokens := (totalTokens + estimated)%nat in
             if (0 <? String_length (trim value))%nat
             then (S filledCount, missingTokens, totalTokens)
             else (filledCount, (missingTokens + estimated)%nat, totalTokens))
          (f, m, t) keys
    = ((f + length (List.filter
                      (λ k, truthy (trim (textOf values (id k) (code lang)))) keys))%nat,
       (m + sum_list ((λ k, if truthy (trim (textOf values (id k) (code lang))) then 0%nat
                            else estimateTokenCount (textOf values (id k) sourceLangCode))
                      <$> keys))%nat,
       (t + sum_list ((λ k, estimateTokenCount (textOf values (id k) sourceLangCode))
                      <$> keys))%nat).
Proof.
  induction keys as [|k keys IH]; intros f m t.
  - simpl. by rewrite !Nat.add_0_r.
  - cbn [foldl List.filter]. cbv beta zeta. rewrite String_length_truthy.
    destruct (truthy (trim (textOf values (id k) (code lang)))) eqn:Hv;
      rewrite IH, !fmap_cons, ?Hv; cbn [sum_list_with length];
      rewrite estimateTokens_eq; unfold Datatypes.id;
      (apply pair_equal_spec; split; [apply pair_equal_spec; split|]); lia.
Qed.

Lemma row_spec (keys : list TranslationKey) (values : gmap string (gmap string string))
    (sourceLangCode : string) (lang : LanguageInfo) :
  Dashboard.row keys values sourceLangCode lang
  = {| Dashboard.name := name lang; Dashboard.code := code lang;
       Dashboard.filled :=
         length (List.filter (λ k, truthy (trim (textOf values (id k) (code lang)))) keys);
       Dashboard.total := length keys;
       Dashboard.missingTokens :=
         sum_list ((λ k, if truthy (trim (textOf values (id k) (code lang))) then 0%nat
                         else estimateTokenCount (textOf values (id k) sourceLangCode))
                   <$> keys);
       Dashboard.totalTokens :=
         sum_list ((λ k, estimateTokenCount (textOf values (id k) sourceLangCode))
                   <$> keys) |}.
Proof.
  unfold Dashboard.row. by rewrite row_fold.
Qed.

(** The tokens a pair of a key and a language is missing. *)
Lemma missing_term (values : gmap string (gmap string string)) (sourceLangCode : string)
    (k : TranslationKey) (l : LanguageInfo) :
  (if truthy (trim (textOf values (id k) sourceLangCode))
   then if negb (code l =? sourceLangCode)%string
           && negb (truthy (trim (textOf values (id k) (code l))))
        then estimateTokenCount (textOf values (id k) sourceLangCode) else 0%nat
   else 0%nat)
  = if truthy (trim (textOf values (id k) (code l))) then 0%nat
    else estimateTokenCount (textOf values (id k) sourceLangCode).
Proof.
  destruct (truthy (trim (textOf values (id k) sourceLangCode))) eqn:Hsrc.
  - destruct (String.eqb_spec (code l) sourceLangCode) as [->|Hne]; cbn [negb andb].
    + by rewrite Hsrc.
    + by destruct (truthy (trim (textOf values (id k) (code l)))).
  - assert (estimateTokenCount (textOf values (id k) sourceLangCode) = 0%nat) as ->.
    { apply estimateTokenCount_zero. unfold truthy in Hsrc.
      by apply negb_false_iff, String.eqb_eq in Hsrc. }
    by destruct (truthy (trim (textOf values (id k) (code l)))).
Qed.

(** X16. The pending tokens of the dashboard, summed language by language,
    are the completion tokens of the estimate of the component for the same
    keys, values and languages: the two views count the same missing texts,
    a blank source text and the row of the source language adding nothing. *)
Theorem totalMissingTokens_completion (keys : list TranslationKey)
    (values : gmap string (gmap string string)) (languages : list LanguageInfo)
    (sourceLangCode openAiModel : string) :
  Dashboard.totalMissingTokens (Dashboard.data keys values languages sourceLangCode)
  = completionTokens
      (translateAllEstimate keys values languages sourceLangCode openAiModel).
Proof.
  rewrite translateAllEstimate_eq. cbn [completionTokens].
  rewrite collect_missing, <- list_fmap_compose.
  unfold Dashboard.totalMissingTokens, Dashboard.data.
  rewrite foldl_add, <- list_fmap_compose. cbn [Nat.add].
  rewrite (list_fmap_ext _ (λ l, sum_list ((λ k,
             if truthy (trim (textOf values (id k) (code l))) then 0%nat
             else estimateTokenCount (textOf values (id k) sourceLangCode)) <$> keys))
             languages);
    [|by intros i l _; cbn; rewrite row_spec].
  rewrite <- (sum_list_fmap_swap
                (λ k l, if truthy (trim (textOf values (id k) (code l))) then 0%nat
                        else estimateTokenCount (textOf values (id k) sourceLangCode))).
  unfold missingTranslations.
  rewrite fmap_list_bind, sum_list_bind, sum_list_filter.
  f_equal. apply list_fmap_ext. intros i k _. cbv beta.
  rewrite fmap_list_bind, sum_list_bind. cbn [fmap list_fmap sum_list_with].
  rewrite (list_fmap_ext _ (λ l,
             if truthy (trim (textOf values (id k) sourceLangCode))
             then if negb (code l =? sourceLangCode)%string
                     && negb (truthy (trim (textOf values (id k) (code l))))
                  then estimateTokenCount (textOf values (id k) sourceLangCode) else 0%nat
             else 0%nat) languages);
    [|by intros j l _; rewrite missing_term].
  destruct (truthy (trim (textOf values (id k) sourceLangCode))).
  - rewrite sum_list_filter. f_equal. apply list_fmap_ext. intros j l _.
    cbn. unfold Datatypes.id. by destruct (_ && _); [rewrite Nat.add_0_r|].
  - apply sum_list_fmap_zero.
Qed.

Lemma sum_list_fmap_le {A} (f g : A → nat) (xs : list A) :
  (∀ x, x ∈ xs → (f x ≤ g x)%nat) →
  (sum_list (f <$> xs) ≤ sum_list (g <$> xs))%nat.
Proof.
  induction xs as [|x xs IH]; intros Hle; [done|].
  rewrite !fmap_cons. cbn [sum_list_with]. unfold Datatypes.id.
  pose proof (Hle x ltac:(left)) as Hx.
  assert (sum_list (f <$> xs) ≤ sum_list (g <$> xs))%nat as Hxs.
  { apply IH. intros y Hy. apply Hle. by right. }
  unfold Datatypes.id in *. lia.
Qed.

Lemma filter_all {A} (P : A → bool) (xs : list A) :
  length (List.filter P xs) = length xs → ∀ x, x ∈ xs → P x = true.
Proof.
  induction xs as [|y xs IH]; intros Hlen x Hx; [by apply elem_of_nil in Hx|].
  cbn [List.filter] in Hlen. pose proof (List.filter_length_le P xs) as Hle.
  destruct (P y) eqn:Hy; cbn [length] in Hlen; [|lia].
  apply elem_of_cons in Hx as [->|Hx]; [done|]. apply IH; [lia|done].
Qed.

(** X17. In every row of the dashboard the total is the number of keys, the
    filled count does not exceed it, the missing tokens do not exceed the
    total tokens, and they are zero for a language that is complete and for
    the source language; the filled slots never exceed the slots. *)
Theorem dashboard_rows_spec (keys : list TranslationKey)
    (values : gmap string (gmap string string)) (languages : list LanguageInfo)
    (sourceLangCode : string) :
  let rows := Dashboard.data keys values languages sourceLangCode in
  Forall (λ row,
            Dashboard.total row = length keys
            ∧ (Dashboard.filled row ≤ Dashboard.total row)%nat
            ∧ (Dashboard.missingTokens row ≤ Dashboard.totalTokens row)%nat
            ∧ (Dashboard.filled row = Dashboard.total row →
               Dashboard.missingTokens row = 0%nat)
            ∧ (Dashboard.code row = sourceLangCode →
               Dashboard.missingTokens row = 0%nat)) rows
  ∧ (Dashboard.filledSlots rows ≤ Dashboard.totalSlots keys languages)%nat.
Proof.
  intros rows. subst rows. unfold Dashboard.data.
  assert (∀ lang,
            let row := Dashboard.row keys values sourceLangCode lang in
            Dashboard.total row = length keys
            ∧ (Dashboard.filled row ≤ Dashboard.total row)%nat
            ∧ (Dashboard.missingTokens row ≤ Dashboard.totalTokens row)%nat
            ∧ (Dashboard.filled row = Dashboard.total row →
               Dashboard.missingTokens row = 0%nat)
            ∧ (Dashboard.code row = sourceLangCode →
               Dashboard.missingTokens row = 0%nat)) as Hrow.
  { intros lang row. subst row. rewrite row_spec.
    cbn [Dashboard.total Dashboard.filled Dashboard.missingTokens Dashboard.totalTokens
         Dashboard.code].
    split_and!.
    - done.
    - apply List.filter_length_le.
    - apply sum_list_fmap_le. intros k _. destruct (truthy _); lia.
    - intros Hall.
      rewrite (list_fmap_ext _ (λ _, 0%nat) keys); [apply sum_list_fmap_zero|].
      intros i k Hk. cbv beta.
      by rewrite (filter_all _ _ Hall k (list_elem_of_lookup_2 _ _ _ Hk)).
    - intros ->.
      rewrite (list_fmap_ext _ (λ _, 0%nat) keys); [apply sum_list_fmap_zero|].
      intros i k _. cbv beta.
      destruct (truthy (trim (textOf values (id k) sourceLangCode))) eqn:Hsrc; [done|].
      apply estimateTokenCount_zero. unfold truthy in Hsrc.
      by apply negb_false_iff, String.eqb_eq in Hsrc. }
  split.
  - apply Forall_fmap, Forall_forall. intros lang _. apply Hrow.
  - unfold Dashboard.filledSlots, Dashboard.totalSlots.
    rewrite foldl_add, <- list_fmap_compose. cbn [Nat.add].
    transitivity (sum_list ((λ _ : LanguageInfo, length keys) <$> languages)).
    + apply sum_list_fmap_le. intros lang _. cbn.
      destruct (Hrow lang) as (Htotal & Hle & _). by rewrite <- Htotal.
    + clear Hrow. induction languages as [|l languages IH]; [simpl; lia|].
      rewrite fmap_cons. cbn [sum_list_with length]. unfold Datatypes.id in *. lia.
Qed.

End DashboardRows.

(** ** The folder search *)

Section SearchProps.
Import Search.
Context (readdirSync : string → option (list Dirent))
        (path_join : string → string → string)
        (lowerCase : string → string).

Local Abbreviation scanEntries := (Search.scanEntries path_join lowerCase).
Local Abbreviation searchQueue := (Search.searchQueue readdirSync path_join lowerCase).
Local Abbreviation foundIn := (Search.foundIn readdirSync path_join lowerCase).
Local Abbreviation added := (Search.added readdirSync path_join lowerCase).
Local Abbreviation level := (Search.level readdirSync path_join lowerCase).
Local Abbreviation firstFound := (Search.firstFound readdirSync path_join lowerCase).
Local Abbreviation visited := (Search.visited readdirSync path_join lowerCase).
Local Abbreviation candidate := (Search.candidate readdirSync path_join lowerCase).

Lemma scanEntries_spec (target : string) (current : Visit) (entries : list Dirent) :
  ∀ queue,
    scanEntries target current entries queue
    = match List.find (matches lowerCase target) entries with
      | Some entry => inl (path_join (dir current) (name entry))
      | None =>
          inr (queue ++
               if (depth current <? maxDepth)%nat then
                 (λ entry, {| dir := path_join (dir current) (name entry);
                              depth := S (depth current) |})
                 <$> List.filter (enters lowerCase) entries
               else [])
      end.
Proof.
  induction entries as [|entry rest IH]; intros queue.
  - cbn [Search.scanEntries List.find List.filter]. rewrite fmap_nil.
    destruct (depth current <? maxDepth)%nat; by rewrite app_nil_r.
  - cbn [Search.scanEntries List.find List.filter]. unfold matches at 1, enters at 1.
    destruct (isDirectory entry); cbn [negb andb]; [|apply IH].
    destruct (String.eqb (lowerCase (name entry)) target); [done|].
    destruct (includes skip (lowerCase (name entry)) || startsWith (name entry) ".");
      cbn [negb]; [apply IH|].
    destruct (depth current <? maxDepth)%nat eqn:Hd.
    + rewrite IH. destruct (List.find _ rest); [done|].
      by rewrite fmap_cons, <- app_assoc.
    + rewrite IH. by destruct (List.find _ rest).
Qed.

Lemma searchQueue_step (fuel : nat) (target : string) (current : Visit)
    (queue : list Visit) :
  searchQueue (S fuel) target (current :: queue)
  = match foundIn target current with
    | Some fullPath => Some (Some fullPath)
    | None => searchQueue fuel target (queue ++ added current)
    end.
Proof.
  cbn [Search.searchQueue]. unfold Search.foundIn, Search.added.
  destruct (readdirSync (dir current)) as [entries|]; [|by rewrite app_nil_r].
  rewrite scanEntries_spec. by destruct (List.find _ entries).
Qed.

Lemma searchQueue_level (target : string) (front : list Visit) :
  ∀ fuel back,
    searchQueue (length front + fuel) target (front ++ back)
    = match firstFound target front with
      | Some fullPath => Some (Some fullPath)
      | None => searchQueue fuel target (back ++ (front ≫= added))
      end.
Proof.
  induction front as [|current front IH]; intros fuel back.
  - cbn. by rewrite app_nil_r.
  - cbn [length Nat.add app Search.firstFound mbind list_bind].
    rewrite searchQueue_step.
    destruct (Search.foundIn _ _ _ target current); [done|].
    rewrite <- app_assoc, IH. destruct (Search.firstFound _ _ _ target front); [done|].
    by rewrite <- app_assoc.
Qed.

Lemma searchQueue_front (target : string) (front : list Visit) (fuel : nat) :
  searchQueue (length front + fuel) target front
  = match firstFound target front with
    | Some fullPath => Some (Some fullPath)
    | None => searchQueue fuel target (front ≫= added)
    end.
Proof.
  pose proof (searchQueue_level target front fuel []) as Hrun.
  by rewrite app_nil_r in Hrun.
Qed.

Lemma searchQueue_levels (target root : string) (n : nat) :
  (∀ m, (m < n)%nat → firstFound target (level root m) = None) →
  ∃ fuel0, ∀ fuel,
    searchQueue (fuel0 + fuel) target (level root 0) = searchQueue fuel target (level root n).
Proof.
  induction n as [|n IH]; intros Hnone.
  - by exists 0%nat.
  - destruct IH as (fuel0 & Hrun); [intros m Hm; apply Hnone; lia|].
    exists (fuel0 + length (level root n))%nat. intros fuel.
    rewrite <- Nat.add_assoc, Hrun.
    rewrite searchQueue_front, Hnone; [done|lia].
Qed.

Lemma level_depth (root : string) (n : nat) (current : Visit) :
  current ∈ level root n → depth current = n.
Proof.
  revert current. induction n as [|n IH]; intros current Hin.
  - by apply list_elem_of_singleton in Hin as ->.
  - cbn [Search.level] in Hin. apply list_elem_of_bind in Hin as (parent & Hin & Hparent).
    unfold Search.added in Hin.
    destruct (readdirSync (dir parent)); [|by apply elem_of_nil in Hin].
    destruct (depth parent <? maxDepth)%nat; [|by apply elem_of_nil in Hin].
    apply list_elem_of_fmap in Hin as (entry & -> & _). cbn. by rewrite (IH parent).
Qed.

Lemma level_visited (root : string) (n : nat) (current : Visit) :
  current ∈ level root n → visited root (dir current) n.
Proof.
  revert current. induction n as [|n IH]; intros current Hin.
  - apply list_elem_of_singleton in Hin as ->. constructor.
  - cbn [Search.level] in Hin. apply list_elem_of_bind in Hin as (parent & Hin & Hparent).
    pose proof (level_depth _ _ _ Hparent) as Hd.
    unfold Search.added in Hin.
    destruct (readdirSync (dir parent)) as [entries|] eqn:Hread;
      [|by apply elem_of_nil in Hin].
    destruct (depth parent <? maxDepth)%nat eqn:Hlt; [|by apply elem_of_nil in Hin].
    apply list_elem_of_fmap in Hin as (entry & -> & Hentry).
    apply elem_of_List_filter in Hentry as [Hentry Henters].
    unfold enters in Henters. apply andb_true_iff in Henters as [Hdir Hskip].
    apply negb_true_iff, orb_false_iff in Hskip as [Hskip Hdot].
    cbn [dir]. apply (visited_entry _ _ _ _ _ _ entries); try done.
    + by apply IH.
    + apply Nat.ltb_lt in Hlt. lia.
Qed.

Lemma visited_level (root fullPath : string) (n : nat) :
  visited root fullPath n → {| dir := fullPath; depth := n |} ∈ level root n.
Proof.
  induction 1 as [|parent d entries entry Hparent IH Hlt Hread Hentry Hdir Hskip Hdot].
  - by apply list_elem_of_singleton.
  - cbn [Search.level]. apply list_elem_of_bind. eexists. split; [|exact IH].
    unfold Search.added. cbn [dir depth]. rewrite Hread.
    apply Nat.ltb_lt in Hlt. rewrite Hlt.
    apply (list_elem_of_fmap_2 (λ entry, {| dir := path_join parent (name entry);
                                            depth := S d |})).
    apply elem_of_List_filter. split; [done|]. unfold enters.
    by rewrite Hdir, Hskip, Hdot.
Qed.

Lemma visited_depth (root fullPath : string) (n : nat) :
  visited root fullPath n → (n ≤ maxDepth)%nat.
Proof. destruct 1; [unfold maxDepth|]; lia. Qed.

Lemma level_end (root : string) : level root (S maxDepth) = [].
Proof.
  cbn [Search.level]. apply bind_all_nil. intros current Hin.
  apply level_depth in Hin. unfold Search.added.
  destruct (readdirSync (dir current)); [|done].
  by rewrite Hin, Nat.ltb_irrefl.
Qed.

Lemma firstFound_Some (target : string) (queue : list Visit) (fullPath : string) :
  firstFound target queue = Some fullPath →
  ∃ current, current ∈ queue ∧ foundIn target current = Some fullPath.
Proof.
  induction queue as [|current queue IH]; [done|]. cbn [Search.firstFound].
  destruct (Search.foundIn _ _ _ target current) as [p|] eqn:Hfound.
  - intros [= ->]. exists current. split; [left|done].
  - intros (item & Hin & Hitem)%IH. exists item. split; [by right|done].
Qed.

Lemma firstFound_None (target : string) (queue : list Visit) (current : Visit) :
  firstFound target queue = None → current ∈ queue → foundIn target current = None.
Proof.
  induction queue as [|item queue IH]; intros Hnone Hin; [by apply elem_of_nil in Hin|].
  cbn [Search.firstFound] in Hnone.
  destruct (Search.foundIn _ _ _ target item) eqn:Hitem; [done|].
  apply elem_of_cons in Hin as [->|Hin]; [done|by apply IH].
Qed.

Lemma foundIn_candidate (root folderName : string) (n : nat) (current : Visit)
    (fullPath : string) :
  current ∈ level root n →
  foundIn (lowerCase folderName) current = Some fullPath →
  candidate root folderName fullPath n.
Proof.
  intros Hin Hfound. unfold Search.foundIn in Hfound.
  destruct (readdirSync (dir current)) as [entries|] eqn:Hread; [|done].
  destruct (List.find _ entries) as [entry|] eqn:Hfind; [|done].
  injection Hfound as <-. apply List.find_some in Hfind as [Hentry Hmatch].
  unfold matches in Hmatch. apply andb_true_iff in Hmatch as [Hdir Hname].
  apply String.eqb_eq in Hname.
  exists (dir current), entries, entry. split_and!; try done.
  - by apply level_visited.
  - by apply list_elem_of_In.
Qed.

Lemma candidate_found (root folderName fullPath : string) (n : nat) :
  candidate root folderName fullPath n →
  firstFound (lowerCase folderName) (level root n) ≠ None.
Proof.
  intros (parent & entries & entry & Hvisited & Hread & Hentry & Hdir & Hname & _) Hnone.
  apply visited_level in Hvisited.
  pose proof (firstFound_None _ _ _ Hnone Hvisited) as Hfound.
  unfold Search.foundIn in Hfound. cbn [dir] in Hfound. rewrite Hread in Hfound.
  destruct (List.find _ entries) eqn:Hfind; [done|].
  apply list_elem_of_In in Hentry.
  pose proof (List.find_none _ _ Hfind _ Hentry) as Hno.
  unfold matches in Hno. by rewrite Hdir, Hname, String.eqb_refl in Hno.
Qed.

(** Up to a bound, either no level holds a match or there is a first one that does. *)
Lemma first_level (target root : string) (bound : nat) :
  (∀ m, (m < bound)%nat → firstFound target (level root m) = None)
  ∨ ∃ n fullPath, (n < bound)%nat
      ∧ firstFound target (level root n) = Some fullPath
      ∧ ∀ m, (m < n)%nat → firstFound target (level root m) = None.
Proof.
  induction bound as [|bound [Hnone|(n & fullPath & Hn & Hfound & Hbefore)]].
  - left. lia.
  - destruct (Search.firstFound readdirSync path_join lowerCase target (level root bound))
      as [fullPath|] eqn:Hfound.
    + right. exists bound, fullPath. split_and!; [lia|done|done].
    + left. intros m Hm. destruct (decide (m = bound)) as [->|]; [done|].
      apply Hnone. lia.
  - right. exists n, fullPath. split_and!; [lia|done|done].
Qed.

(** X18. The search for the folder ends, with enough fuel, and what it
    returns is a folder of the wanted name, compared in lower case, in a
    listed folder at most [maxDepth] levels down, and no such folder lies in
    a listed folder nearer to the root; it returns nothing exactly when no
    listed folder holds one. Folders of [skip] and hidden ones are not
    listed, so nothing below them is found. *)
Theorem findFolderByName_spec (root folderName : string) :
  ∃ fuel result,
    (∀ fuel', (fuel ≤ fuel')%nat →
       Search.findFolderByName readdirSync path_join lowerCase fuel' root folderName
       = Some result)
    ∧ match result with
      | Some fullPath =>
          ∃ d, candidate root folderName fullPath d
               ∧ (d ≤ maxDepth)%nat
               ∧ ∀ fullPath' d', candidate root folderName fullPath' d' → (d ≤ d')%nat
      | None => ∀ fullPath d, ¬ candidate root folderName fullPath d
      end.
Proof.
  unfold Search.findFolderByName.
  destruct (first_level (lowerCase folderName) root (S maxDepth))
    as [Hnone|(n & fullPath & Hn & Hfound & Hbefore)].
  - destruct (searchQueue_levels _ root _ Hnone) as (fuel0 & Hrun).
    exists (fuel0 + 1)%nat, None. split.
    + intros fuel' Hfuel.
      replace fuel' with (fuel0 + S (fuel' - fuel0 - 1))%nat by lia.
      change [{| dir := root; depth := 0 |}] with (level root 0).
      by rewrite Hrun, level_end.
    + intros fullPath d Hcandidate.
      apply (candidate_found _ _ _ _ Hcandidate), Hnone.
      destruct Hcandidate as (parent & _ & _ & Hvisited & _).
      apply visited_depth in Hvisited. lia.
  - destruct (searchQueue_levels _ root _ Hbefore) as (fuel0 & Hrun).
    exists (fuel0 + length (level root n))%nat, (Some fullPath). split.
    + intros fuel' Hfuel.
      replace fuel' with (fuel0 + (length (level root n)
                                   + (fuel' - fuel0 - length (level root n))))%nat by lia.
      change [{| dir := root; depth := 0 |}] with (level root 0).
      by rewrite Hrun, searchQueue_front, Hfound.
    + exists n. split_and!.
      * apply firstFound_Some in Hfound as (current & Hin & Hcurrent).
        by apply (foundIn_candidate _ _ _ current).
      * lia.
      * intros fullPath' d' Hcandidate.
        destruct (decide (d' < n)%nat) as [Hlt|]; [|lia].
        by destruct (candidate_found _ _ _ _ Hcandidate (Hbefore _ Hlt)).
Qed.

End SearchProps.

(** In the sample tree the search passes [node_modules] by and finds the
    folder under [src]. *)
Lemma findFolderByName_sample :
  Search.findFolderByName Search.sampleListing Search.posix_join toLowerCaseASCII 4 "/work" "i18n"
  = Some (Some "/work/src/I18N").
Proof. reflexivity. Qed.

(** ** A quick add *)

Section QuickAddProps.
Import App QuickAdd.
Context (provider : nat → Request → Reply) (Date_now : nat → string).

Lemma translateTargets_success (sourceValue sourceName trimmedKey : string)
    (targets : list LanguageInfo) :
  ∀ (replies : list (string * option (float * float * float * string)))
    (total d : nat) (r : Run),
    truthy (openAiApiKey (state r)) = true →
    length replies = length targets →
    (∀ i lang reply, targets !! i = Some lang → replies !! i = Some reply →
       provider (calls r + i)%nat
         {| text := sourceValue; targetLang := or_else (name lang) (code lang);
            sourceLang := sourceName; context := trimmedKey;
            apiKey := openAiApiKey (state r);
            model := or_else (openAiModel (state r)) DEFAULT_OPENAI_MODEL |}
       = Returned reply.1 reply.2) →
    ∃ r',
      translateTargets provider Date_now sourceValue sourceName trimmedKey
        (openAiApiKey (state r)) (openAiModel (state r)) total d targets r
      = (translationDone, r')
      ∧ timeline (effects r')
        = timeline (effects r)
          ++ concat (imap (λ i lang,
                             [ProviderCall
                                {| text := sourceValue;
                                   targetLang := or_else (name lang) (code lang);
                                   sourceLang := sourceName; context := trimmedKey;
                                   apiKey := openAiApiKey (state r);
                                   model := or_else (openAiModel (state r))
                                              DEFAULT_OPENAI_MODEL |};
                              OnProgress (S (d + i)) total])
                          targets)
      ∧ values (state r')
        = savedTargets trimmedKey (values (state r)) (zip targets replies.*1)
      ∧ postedValues (effects r')
        = postedValues (effects r)
          ++ (if vscodeApi (state r)
              then (λ '(lang, translated), (trimmedKey, code lang, translated))
                     <$> zip targets replies.*1
              else [])
      ∧ calls r' = (calls r + length targets)%nat
      ∧ same_settings (state r) (state r')
      ∧ same_catalog (state r) (state r').
Proof.
  induction targets as [|lang targets IH]; intros replies total d r Hkey Hlen Hreplies.
  - exists r. simpl. rewrite !app_nil_r, Nat.add_0_r.
    destruct (vscodeApi (state r)); rewrite ?app_nil_r; by repeat split.
  - destruct replies as [|[translated usage] replies]; [done|].
    simpl in Hlen. injection Hlen as Hlen.
    pose proof (Hreplies 0%nat lang (translated, usage) eq_refl eq_refl) as Hfirst.
    rewrite Nat.add_0_r in Hfirst. simpl in Hfirst.
    set (job := {| keyId := trimmedKey; keyName := trimmedKey; sourceText := sourceValue;
                   targetLangCode := code lang;
                   targetLangName := or_else (name lang) (code lang);
                   sourceLangName := sourceName |}).
    destruct (successful_job provider Date_now job translated usage r Hkey Hfirst)
      as (r1 & Htr & Hset1 & Hval1 & _ & Hcalls1 & Htl1 & Hpv1).
    assert (same_catalog (state r) (state r1)) as Hcat1.
    { destruct (successful_job_catalog provider Date_now job translated usage r Hkey Hfirst)
        as (r1' & Htr' & _ & Hcat & _).
      rewrite Htr in Htr'. by injection Htr' as <-. }
    destruct (handleSave_stay trimmedKey (code lang) translated r1)
      as (r2 & Hsave & Hset2 & Hval2 & Hcalls2 & Htl2 & Hpv2).
    destruct (handleSave_stay_catalog trimmedKey (code lang) translated r1)
      as (r2' & Hsave' & _ & Hcat2 & _).
    rewrite Hsave in Hsave'. subst r2'.
    cbn [translateTargets]. cbn [sourceText targetLangName sourceLangName keyName
                                  targetLangCode job] in Htr.
    rewrite Htr, Hsave.
    set (r3 := emit (OnProgress (S d) total) r2).
    assert (same_settings (state r) (state r3)) as Hset3
      by (by eapply same_settings_trans).
    assert (same_catalog (state r) (state r3)) as Hcat3
      by (by eapply same_catalog_trans).
    destruct Hset3 as (Hk3 & Hm3 & Hv3).
    destruct (IH replies total (S d) r3) as (r' & Hrun & Htl & Hval & Hpv & Hcalls & Hset & Hcat).
    + by rewrite Hk3.
    + done.
    + intros i lang' reply Hlang Hreply. rewrite Hk3, Hm3.
      change (calls r3) with (calls r2). rewrite Hcalls2, Hcalls1.
      replace (S (calls r) + i)%nat with (calls r + S i)%nat by lia.
      by apply Hreplies.
    + rewrite Hk3, Hm3 in Hrun. exists r'. split; [exact Hrun|].
      assert (vscodeApi (state r1) = vscodeApi (state r)) as Hvs1 by apply Hset1.
      rewrite Htl, Hval, Hpv, Hcalls, Hk3, Hm3, Hv3.
      change (values (state r3)) with (values (state r2)).
      change (calls r3) with (calls r2).
      assert (timeline (effects r3)
              = timeline (effects r2) ++ [OnProgress (S d) total]) as ->
        by (subst r3; cbn [emit effects]; by rewrite timeline_app).
      assert (postedValues (effects r3) = postedValues (effects r2)) as ->
        by (subst r3; cbn [emit effects]; by rewrite postedValues_app, app_nil_r).
      rewrite Htl2, Htl1, Hval2, Hval1, Hpv2, Hpv1, Hcalls2, Hcalls1, Hvs1.
      split_and!.
      * rewrite <- !app_assoc. cbn [imap concat app]. rewrite Nat.add_0_r.
        do 3 f_equal. f_equal. apply imap_ext. intros i x _. simpl.
        by replace (d + S i)%nat with (S (d + i))%nat by lia.
      * done.
      * destruct (vscodeApi (state r)); cbn; by rewrite <- ?app_assoc, ?app_nil_r.
      * cbn [length]. lia.
      * eapply same_settings_trans; [|exact Hset]. by split_and!.
      * by eapply same_catalog_trans.
Qed.

Lemma translateTargets_abort (sourceValue sourceName trimmedKey : string)
    (doneTargets : list LanguageInfo) :
  ∀ (replies : list (string * option (float * float * float * string)))
    (failing : LanguageInfo) (rest : list LanguageInfo) (total d : nat) (r : Run),
    truthy (openAiApiKey (state r)) = true →
    length replies = length doneTargets →
    (∀ i lang reply, doneTargets !! i = Some lang → replies !! i = Some reply →
       provider (calls r + i)%nat
         {| text := sourceValue; targetLang := or_else (name lang) (code lang);
            sourceLang := sourceName; context := trimmedKey;
            apiKey := openAiApiKey (state r);
            model := or_else (openAiModel (state r)) DEFAULT_OPENAI_MODEL |}
       = Returned reply.1 reply.2) →
    provider (calls r + length doneTargets)%nat
      {| text := sourceValue; targetLang := or_else (name failing) (code failing);
         sourceLang := sourceName; context := trimmedKey;
         apiKey := openAiApiKey (state r);
         model := or_else (openAiModel (state r)) DEFAULT_OPENAI_MODEL |}
    = Threw →
    ∃ r',
      translateTargets provider Date_now sourceValue sourceName trimmedKey
        (openAiApiKey (state r)) (openAiModel (state r)) total d
        (doneTargets ++ failing :: rest) r
      = (translationFailed, r')
      ∧ timeline (effects r')
        = timeline (effects r)
          ++ concat (imap (λ i lang,
                             [ProviderCall
                                {| text := sourceValue;
                                   targetLang := or_else (name lang) (code lang);
                                   sourceLang := sourceName; context := trimmedKey;
                                   apiKey := openAiApiKey (state r);
                                   model := or_else (openAiModel (state r))
                                              DEFAULT_OPENAI_MODEL |};
                              OnProgress (S (d + i)) total])
                          (doneTargets ++ [failing]))
      ∧ values (state r')
        = savedTargets trimmedKey (values (state r)) (zip doneTargets replies.*1)
      ∧ postedValues (effects r')
        = postedValues (effects r)
          ++ (if vscodeApi (state r)
              then (λ '(lang, translated), (trimmedKey, code lang, translated))
                     <$> zip doneTargets replies.*1
              else [])
      ∧ calls r' = (calls r + length doneTargets + 1)%nat
      ∧ same_catalog (state r) (state r').
Proof.
  intros replies failing rest total d r Hkey Hlen Hreplies Hthrew.
  assert (∀ total', ∃ r1,
            translateTargets provider Date_now sourceValue sourceName trimmedKey
              (openAiApiKey (state r)) (openAiModel (state r)) total' d doneTargets r
            = (translationDone, r1)
            ∧ timeline (effects r1)
              = timeline (effects r)
                ++ concat (imap (λ i lang,
                             [ProviderCall
                                {| text := sourceValue;
                                   targetLang := or_else (name lang) (code lang);
                                   sourceLang := sourceName; context := trimmedKey;
                                   apiKey := openAiApiKey (state r);
                                   model := or_else (openAiModel (state r))
                                              DEFAULT_OPENAI_MODEL |};
                              OnProgress (S (d + i)) total'])
                          doneTargets)
            ∧ values (state r1)
              = savedTargets trimmedKey (values (state r)) (zip doneTargets replies.*1)
            ∧ postedValues (effects r1)
              = postedValues (effects r)
                ++ (if vscodeApi (state r)
                    then (λ '(lang, translated), (trimmedKey, code lang, translated))
                           <$> zip doneTargets replies.*1
                    else [])
            ∧ calls r1 = (calls r + length doneTargets)%nat
            ∧ same_settings (state r) (state r1)
            ∧ same_catalog (state r) (state r1)) as Hdone.
  { intros total'. by apply translateTargets_success. }
  destruct (Hdone total) as (r1 & Hrun1 & Htl1 & Hval1 & Hpv1 & Hcalls1 & Hset1 & Hcat1).
  clear Hdone.
  assert (∀ front back r0 d0 o r1,
            translateTargets provider Date_now sourceValue sourceName trimmedKey
              (openAiApiKey (state r)) (openAiModel (state r)) total d0 front r0
            = (translationDone, r1) →
            translateTargets provider Date_now sourceValue sourceName trimmedKey
              (openAiApiKey (state r)) (openAiModel (state r)) total
              (d0 + length front) back r1 = o →
            translateTargets provider Date_now sourceValue sourceName trimmedKey
              (openAiApiKey (state r)) (openAiModel (state r)) total d0
              (front ++ back) r0 = o) as Happ.
  { induction front as [|lang front IH]; intros back r0 d0 o r1' Hfront Hback.
    - cbn in Hfront. injection Hfront as <-. by rewrite Nat.add_0_r in Hback.
    - cbn [translateTargets app] in *.
      destruct (translateText _ _ _ _ _ _ _ _ _ r0) as [[translated|] r0'];
        [|discriminate].
      apply (IH back _ _ _ r1' Hfront).
      by replace (S d0 + length front)%nat with (d0 + length (lang :: front))%nat
        by (cbn [length]; lia). }
  destruct Hset1 as (Hk1 & Hm1 & Hv1).
  set (job := {| keyId := trimmedKey; keyName := trimmedKey; sourceText := sourceValue;
                 targetLangCode := code failing;
                 targetLangName := or_else (name failing) (code failing);
                 sourceLangName := sourceName |}).
  destruct (failed_job provider Date_now job r1) as (r2 & Htr & Hst2 & Hcalls2 & Heff2).
  { by rewrite Hk1. }
  { unfold requestOf. cbn [job sourceText targetLangName sourceLangName keyName].
    by rewrite Hk1, Hm1, Hcalls1. }
  cbn [sourceText targetLangName sourceLangName keyName targetLangCode job] in Htr.
  rewrite Hk1, Hm1 in Htr.
  eexists. split.
  - apply (Happ doneTargets (failing :: rest) r d _ r1 Hrun1).
    cbn [translateTargets]. rewrite Htr. reflexivity.
  - cbn [emit state effects calls]. rewrite Hst2, Hcalls2, Heff2, Hval1, Hcalls1.
    rewrite !timeline_app, !postedValues_app, Htl1, Hpv1. cbn [timeline List.filter].
    cbn [postedValues omap]. rewrite !app_nil_r.
    split_and!; try done.
    + rewrite imap_app, concat_app, <- !app_assoc. do 2 f_equal.
      cbn. unfold requestOf. cbn. by rewrite Hk1, Hm1, Nat.add_0_r.
    + lia.
Qed.

(** What a call of the provider leaves alone, whatever it replies. *)
Lemma translateText_frame text targetLang sourceLang context apiKey model langCode r res r1 :
  translateText provider Date_now text targetLang sourceLang context apiKey model langCode r
  = (res, r1) →
  same_settings (state r) (state r1)
  ∧ same_catalog (state r) (state r1)
  ∧ values (state r1) = values (state r)
  ∧ (calls r ≤ calls r1 ≤ S (calls r))%nat.
Proof.
  unfold translateText. destruct (truthy apiKey); cbn [negb].
  - destruct (provider _ _) as [|translated [[[[p c] t] m]|]]; intros [= <- <-];
      unfold handleRecordTokenUsage, postMessage, same_settings, same_catalog;
      cbn; try (destruct (vscodeApi (state r)) eqn:Hv); cbn; repeat split; done || lia.
  - intros [= <- <-]. unfold same_settings, same_catalog. repeat split; done || lia.
Qed.

Lemma saveCell_frame keyId langCode newValue values k :
  k ≠ keyId → saveCell keyId langCode newValue values !! k = values !! k.
Proof. intros Hne. unfold saveCell. by rewrite lookup_insert_ne. Qed.

Lemma translateTargets_frame (sourceValue sourceName trimmedKey apiKey model : string)
    (targets : list LanguageInfo) :
  ∀ (total d : nat) (r : Run) outcome r',
    translateTargets provider Date_now sourceValue sourceName trimmedKey apiKey model
      total d targets r = (outcome, r') →
    same_settings (state r) (state r')
    ∧ same_catalog (state r) (state r')
    ∧ (∀ k, k ≠ trimmedKey → values (state r') !! k = values (state r) !! k)
    ∧ (calls r ≤ calls r' ≤ calls r + length targets)%nat
    ∧ (outcome = translationDone ∨ outcome = translationFailed).
Proof.
  induction targets as [|lang targets IH]; intros total d r outcome r' Hrun.
  - cbn in Hrun. injection Hrun as <- <-.
    unfold same_settings, same_catalog. cbn. split_and!; try done; try lia. by left.
  - cbn [translateTargets] in Hrun.
    destruct (translateText _ _ _ _ _ _ _ _ _ r) as [[translated|] r1] eqn:Htr;
      apply translateText_frame in Htr as (Hset1 & Hcat1 & Hval1 & Hcalls1).
    + destruct (handleSave_stay trimmedKey (code lang) translated r1)
        as (r2 & Hsave & Hset2 & Hval2 & Hcalls2 & _).
      destruct (handleSave_stay_catalog trimmedKey (code lang) translated r1)
        as (r2' & Hsave' & _ & Hcat2 & _).
      rewrite Hsave in Hsave'. subst r2'. rewrite Hsave in Hrun.
      apply IH in Hrun as (Hset & Hcat & Hval & Hcalls & Hout).
      cbn [emit state calls] in *. split_and!.
      * eapply same_settings_trans; [|exact Hset]. by eapply same_settings_trans.
      * eapply same_catalog_trans; [|exact Hcat]. by eapply same_catalog_trans.
      * intros k Hk. rewrite (Hval k Hk), Hval2, saveCell_frame, Hval1; done.
      * cbn [length]. lia.
      * cbn [length]. lia.
      * done.
    + injection Hrun as <- <-. cbn [emit state calls length]. split_and!.
      * done.
      * done.
      * intros k _. by rewrite Hval1.
      * lia.
      * lia.
      * by right.
Qed.

Lemma textOf_savedTargets_other keyId (saved : list (LanguageInfo * string)) :
  ∀ values k l,
    k ≠ keyId ∨ l ∉ (λ pair, code pair.1) <$> saved →
    textOf (savedTargets keyId values saved) k l = textOf values k l.
Proof.
  induction saved as [|[lang translated] saved IH]; intros values k l Hother; [done|].
  change (savedTargets keyId values ((lang, translated) :: saved))
    with (savedTargets keyId (saveCell keyId (code lang) translated values) saved).
  rewrite IH, textOf_saveCell.
  - rewrite fmap_cons, not_elem_of_cons in Hother. cbn in Hother.
    case_bool_decide as Hcell; [|done]. destruct Hcell as [-> ->]. naive_solver.
  - rewrite fmap_cons, not_elem_of_cons in Hother. naive_solver.
Qed.

Lemma textOf_savedTargets keyId (saved : list (LanguageInfo * string)) :
  ∀ values lang translated,
    NoDup ((λ pair, code pair.1) <$> saved) →
    (lang, translated) ∈ saved →
    textOf (savedTargets keyId values saved) keyId (code lang) = translated.
Proof.
  induction saved as [|[lang0 translated0] saved IH];
    intros values lang translated Hnodup Hin; [by apply elem_of_nil in Hin|].
  rewrite fmap_cons in Hnodup. apply NoDup_cons in Hnodup as [Hfresh Hnodup].
  change (savedTargets keyId values ((lang0, translated0) :: saved))
    with (savedTargets keyId (saveCell keyId (code lang0) translated0 values) saved).
  apply elem_of_cons in Hin as [[= -> ->]|Hin].
  - rewrite textOf_savedTargets_other; [|by right].
    rewrite textOf_saveCell. by rewrite bool_decide_eq_true_2.
  - by apply IH.
Qed.

Lemma existsb_key (keys : list TranslationKey) (keyName : string) :
  existsb (λ k, String.eqb (key k) keyName) keys = true
  ↔ ∃ k, k ∈ keys ∧ key k = keyName.
Proof.
  rewrite List.existsb_exists. split; intros (k & Hin & Hk); exists k.
  - split; [by apply list_elem_of_In|by apply String.eqb_eq].
  - split; [by apply list_elem_of_In|by apply String.eqb_eq].
Qed.

Lemma existsb_key_false (keys : list TranslationKey) (keyName : string) :
  (∀ k, k ∈ keys → key k ≠ keyName) →
  existsb (λ k, String.eqb (key k) keyName) keys = false.
Proof.
  intros Hfresh. apply not_true_is_false. intros (k & Hin & Hk)%existsb_key.
  by apply (Hfresh k).
Qed.

Lemma targets_empty (st : State) :
  (0 <? length (targetsOf st))%nat = false ↔ targetsOf st = [].
Proof.
  rewrite Nat.ltb_ge. destruct (targetsOf st); cbn; split; try done; lia.
Qed.

(** X19. The checks of a quick add, in their order: a name that is blank
    after trimming is refused as [errors.keyRequired]; then, with a language
    to translate into and no API key, the add is refused as
    [errors.openAiKeyMissing]; then a name that a key already bears is
    refused as [errors.keyExists]. A refused add changes nothing and posts
    nothing. Otherwise the key is appended under the trimmed name, the
    [addKey] message is posted when there is a host, and the outcome is
    either success or [errors.translationFailed]. *)
Theorem handleQuickAdd_validation (keyName sourceValue : string) (r : Run) :
  let st := state r in
  let trimmedKey := trim keyName in
  let result := handleQuickAdd provider Date_now keyName sourceValue r in
  let rejected reason := result = ({| ok := false; error := Some reason |}, [], r) in
  (trimmedKey = "" → rejected "errors.keyRequired")
  ∧ (trimmedKey ≠ "" → targetsOf st ≠ [] → openAiApiKey st = "" →
     rejected "errors.openAiKeyMissing")
  ∧ (trimmedKey ≠ "" → targetsOf st = [] ∨ openAiApiKey st ≠ "" →
     (∃ k, k ∈ keys st ∧ key k = trimmedKey) →
     rejected "errors.keyExists")
  ∧ (trimmedKey ≠ "" → targetsOf st = [] ∨ openAiApiKey st ≠ "" →
     (∀ k, k ∈ keys st → key k ≠ trimmedKey) →
     result.1.2
     = (if vscodeApi st then [PostAddKey trimmedKey (sourceLangCode st) sourceValue]
        else [])
     ∧ keys (state result.2)
       = keys st ++ [{| id := trimmedKey; key := trimmedKey; tags := [] |}]
     ∧ (result.1.1 = translationDone ∨ result.1.1 = translationFailed)).
Proof.
  intros st trimmedKey result rejected. subst rejected result.
  unfold handleQuickAdd. fold st trimmedKey (targetsOf st).
  split_and!.
  - intros Hblank. by rewrite Hblank.
  - intros Hkey%truthy_true Htargets Hapi. rewrite Hkey, Hapi. cbn [negb truthy].
    destruct (0 <? length (targetsOf st))%nat eqn:Hlen; [done|].
    by apply targets_empty in Hlen.
  - intros Hkey%truthy_true Hgo Hexists. rewrite Hkey. cbn [negb].
    assert ((0 <? length (targetsOf st))%nat && negb (truthy (openAiApiKey st)) = false)
      as ->.
    { destruct Hgo as [->|Hapi%truthy_true]; [done|]. rewrite Hapi. apply andb_false_r. }
    unfold addKeyInternal. apply existsb_key in Hexists. by rewrite Hexists.
  - intros Hkey%truthy_true Hgo Hfresh. rewrite Hkey. cbn [negb].
    assert ((0 <? length (targetsOf st))%nat && negb (truthy (openAiApiKey st)) = false)
      as ->.
    { destruct Hgo as [->|Hapi%truthy_true]; [done|]. rewrite Hapi. apply andb_false_r. }
    unfold addKeyInternal. rewrite (existsb_key_false _ _ Hfresh).
    destruct (negb (truthy (trim sourceValue)) || (length (targetsOf st) =? 0)%nat).
    + cbn. split_and!; try done. by left.
    + destruct (translateTargets _ _ _ _ _ _ _ _ _ _ _) as [outcome r3] eqn:Hrun.
      apply translateTargets_frame in Hrun as (_ & (Hkeys & _) & _ & _ & Hout).
      cbn [fst snd]. by split_and!.
Qed.

(** X20. Whatever the provider replies, a quick add leaves the rows of all
    other keys, the keys there were, the languages and the settings as they
    were; it calls the provider at most once for each language to translate
    into, and not at all when the source text is blank; and when it fails
    for another reason than a failed translation, nothing has changed. *)
Theorem handleQuickAdd_frame (keyName sourceValue : string) (r : Run) :
  let st := state r in
  let trimmedKey := trim keyName in
  let result := handleQuickAdd provider Date_now keyName sourceValue r in
  (∀ k, k ≠ trimmedKey → values (state result.2) !! k = values st !! k)
  ∧ (∀ k, k ∈ keys st → k ∈ keys (state result.2))
  ∧ languages (state result.2) = languages st
  ∧ activeLangCodes (state result.2) = activeLangCodes st
  ∧ sourceLangCode (state result.2) = sourceLangCode st
  ∧ same_settings st (state result.2)
  ∧ (calls r ≤ calls result.2 ≤ calls r + length (targetsOf st))%nat
  ∧ (trim sourceValue = "" → calls result.2 = calls r)
  ∧ (ok result.1.1 = false → error result.1.1 ≠ Some "errors.translationFailed" →
     result.2 = r ∧ result.1.2 = []).
Proof.
  intros st trimmedKey result. subst result.
  unfold handleQuickAdd. fold st trimmedKey (targetsOf st).
  assert (same_settings st st) as Hrefl by done.
  destruct (truthy trimmedKey); cbn [negb];
    [|cbn [fst snd]; split_and!; try done; lia].
  destruct ((0 <? length (targetsOf st))%nat && negb (truthy (openAiApiKey st)));
    [cbn [fst snd]; split_and!; try done; lia|].
  unfold addKeyInternal.
  destruct (existsb _ (keys st)); [cbn [fst snd]; split_and!; try done; lia|].
  set (posted := if vscodeApi st then _ else _).
  set (st' := setValues _ _).
  assert ((∀ k, k ≠ trimmedKey → values st' !! k = values st !! k)
          ∧ (∀ k, k ∈ keys st → k ∈ keys st')
          ∧ same_settings st st' ∧ languages st' = languages st
          ∧ activeLangCodes st' = activeLangCodes st
          ∧ sourceLangCode st' = sourceLangCode st)
    as (Hval & Hkeys & Hset & Hlang & Hactive & Hsrc).
  { subst st'. cbn. split_and!; try done.
    - intros k Hk. by apply saveCell_frame.
    - intros k Hk. apply elem_of_app. by left. }
  destruct (truthy (trim sourceValue)) eqn:Hsource; cbn [negb orb].
  - destruct (length (targetsOf st) =? 0)%nat.
    + cbn [fst snd setState state calls]. split_and!; try done; lia.
    + destruct (translateTargets _ _ _ _ _ _ _ _ _ _ _) as [outcome r3] eqn:Hrun.
      apply translateTargets_frame
        in Hrun as (Hset3 & (Hk3 & Hl3 & Ha3 & Hs3) & Hval3 & Hcalls3 & Hout).
      cbn [fst snd emit setState state calls] in *. split_and!.
      * intros k Hk. by rewrite Hval3, Hval.
      * intros k Hk. rewrite Hk3. by apply Hkeys.
      * congruence.
      * congruence.
      * congruence.
      * by eapply same_settings_trans.
      * lia.
      * lia.
      * intros Hblank. by rewrite Hblank in Hsource.
      * by destruct Hout as [->| ->].
  - cbn [fst snd setState state calls]. split_and!; try done; lia.
Qed.

(** X21. A quick add whose provider answers every call: the key is appended
    under the trimmed name with the source text as given, every other active
    language holds the text the provider returned for it, each was asked
    once, in order, with a progress report before the first call and after
    every call, every text was posted to the host, and the outcome is
    success. *)
Theorem handleQuickAdd_success (keyName sourceValue : string)
    (replies : list (string * option (float * float * float * string))) (r : Run) :
  let st := state r in
  let trimmedKey := trim keyName in
  let targets := targetsOf st in
  trimmedKey ≠ "" →
  (∀ k, k ∈ keys st → key k ≠ trimmedKey) →
  openAiApiKey st ≠ "" →
  trim sourceValue ≠ "" →
  targets ≠ [] →
  NoDup (code <$> targets) →
  length replies = length targets →
  (∀ i lang reply, targets !! i = Some lang → replies !! i = Some reply →
     provider (calls r + i)%nat (requestFor st trimmedKey sourceValue lang)
     = Returned reply.1 reply.2) →
  ∃ r',
    handleQuickAdd provider Date_now keyName sourceValue r
    = (translationDone,
       if vscodeApi st then [PostAddKey trimmedKey (sourceLangCode st) sourceValue] else [],
       r')
    ∧ keys (state r')
      = keys st ++ [{| id := trimmedKey; key := trimmedKey; tags := [] |}]
    ∧ textOf (values (state r')) trimmedKey (sourceLangCode st) = sourceValue
    ∧ (∀ i lang reply, targets !! i = Some lang → replies !! i = Some reply →
         textOf (values (state r')) trimmedKey (code lang) = reply.1)
    ∧ (∀ k, k ≠ trimmedKey → values (state r') !! k = values st !! k)
    ∧ calls r' = (calls r + length targets)%nat
    ∧ timeline (effects r')
      = timeline (effects r)
        ++ OnProgress 0 (length targets)
           :: concat (imap (λ i lang,
                              [ProviderCall (requestFor st trimmedKey sourceValue lang);
                               OnProgress (S i) (length targets)])
                           targets)
    ∧ postedValues (effects r')
      = postedValues (effects r)
        ++ (if vscodeApi st
            then (λ '(lang, translated), (trimmedKey, code lang, translated))
                   <$> zip targets replies.*1
            else []).
Proof.
  intros st trimmedKey targets Hkey Hfresh Hapi Hsource Htargets Hnodup Hlen Hreplies.
  apply truthy_true in Hkey, Hapi, Hsource.
  unfold handleQuickAdd. fold st trimmedKey (targetsOf st). fold targets.
  rewrite Hkey, Hapi, Hsource. cbn [negb orb]. rewrite andb_false_r.
  unfold addKeyInternal. rewrite (existsb_key_false _ _ Hfresh).
  assert ((length targets =? 0)%nat = false) as ->
    by (apply Nat.eqb_neq; by destruct targets).
  set (st' := setValues _ _).
  set (r2 := emit _ _).
  destruct (translateTargets_success sourceValue
              (sourceLang (requestFor st trimmedKey sourceValue
                             {| code := ""; name := ""; flag := "" |}))
              trimmedKey targets replies (length targets) 0 r2)
    as (r' & Hrun & Htl & Hval & Hpv & Hcalls & Hset & Hcat); [done|done|..].
  { intros i lang reply Hlang Hreply. by apply Hreplies. }
  cbn [sourceLang requestFor] in Hrun. subst r2.
  cbn [emit setState state effects calls] in *.
  change (openAiApiKey st') with (openAiApiKey st) in *.
  change (openAiModel st') with (openAiModel st) in *.
  change (vscodeApi st') with (vscodeApi st) in *.
  rewrite Hrun. exists r'. split; [done|].
  assert (∀ l, l ∉ code <$> targets →
               textOf (values (state r')) trimmedKey l
               = textOf (values st') trimmedKey l) as Hother.
  { intros l Hl. rewrite Hval. apply textOf_savedTargets_other. right.
    intros (pair & -> & Hpair)%list_elem_of_fmap. apply Hl.
    apply list_elem_of_fmap. exists pair.1. split; [done|].
    destruct pair as [lang t]. by apply elem_of_zip_l in Hpair. }
  split_and!.
  - destruct Hcat as (-> & _). done.
  - rewrite Hother.
    + subst st'. cbn [setValues values]. rewrite textOf_saveCell.
      by rewrite bool_decide_eq_true_2.
    + intros (lang & Hcode & Hlang)%list_elem_of_fmap.
      apply elem_of_List_filter in Hlang as [_ Hne].
      apply negb_true_iff, String.eqb_neq in Hne. by rewrite Hcode in Hne.
  - intros i lang reply Hlang Hreply. rewrite Hval.
    apply textOf_savedTargets.
    + assert ((λ pair : LanguageInfo * string, code pair.1) <$> zip targets replies.*1
              = code <$> targets) as ->; [|done].
      rewrite <- (fst_zip targets replies.*1) at 2; [|rewrite length_fmap; lia].
      by rewrite <- list_fmap_compose.
    + apply list_elem_of_lookup_2 with i. apply lookup_zip_with_Some.
      exists lang, reply.1. split_and!; [done|done|]. by rewrite list_lookup_fmap, Hreply.
  - intros k Hk. rewrite Hval.
    assert (∀ saved values, savedTargets trimmedKey values saved !! k = values !! k) as Hrow.
    { induction saved as [|[lang t] saved IH]; intros values; [done|].
      change (savedTargets trimmedKey values ((lang, t) :: saved))
        with (savedTargets trimmedKey (saveCell trimmedKey (code lang) t values) saved).
      by rewrite IH, saveCell_frame. }
    rewrite Hrow. subst st'. cbn [setValues values]. by apply saveCell_frame.
  - lia.
  - rewrite Htl, timeline_app. cbn [timeline List.filter]. rewrite <- app_assoc. done.
  - rewrite Hpv, postedValues_app. cbn [postedValues omap]. by rewrite app_nil_r.
Qed.

(** X22. A quick add whose provider throws: the outcome is
    [errors.translationFailed], but the key stays added with its source text
    and with the translations made before the failure; the languages after
    the failing one are not asked, and progress is reported once more after
    the failing call. *)
Theorem handleQuickAdd_abort (keyName sourceValue : string)
    (doneTargets : list LanguageInfo) (failing : LanguageInfo) (rest : list LanguageInfo)
    (replies : list (string * option (float * float * float * string))) (r : Run) :
  let st := state r in
  let trimmedKey := trim keyName in
  let total := length (targetsOf st) in
  trimmedKey ≠ "" →
  (∀ k, k ∈ keys st → key k ≠ trimmedKey) →
  openAiApiKey st ≠ "" →
  trim sourceValue ≠ "" →
  targetsOf st = doneTargets ++ failing :: rest →
  length replies = length doneTargets →
  (∀ i lang reply, doneTargets !! i = Some lang → replies !! i = Some reply →
     provider (calls r + i)%nat (requestFor st trimmedKey sourceValue lang)
     = Returned reply.1 reply.2) →
  provider (calls r + length doneTargets)%nat
    (requestFor st trimmedKey sourceValue failing) = Threw →
  ∃ r',
    handleQuickAdd provider Date_now keyName sourceValue r
    = (translationFailed,
       if vscodeApi st then [PostAddKey trimmedKey (sourceLangCode st) sourceValue] else [],
       r')
    ∧ keys (state r')
      = keys st ++ [{| id := trimmedKey; key := trimmedKey; tags := [] |}]
    ∧ values (state r')
      = savedTargets trimmedKey
          (saveCell trimmedKey (sourceLangCode st) sourceValue (values st))
          (zip doneTargets replies.*1)
    ∧ calls r' = (calls r + length doneTargets + 1)%nat
    ∧ timeline (effects r')
      = timeline (effects r)
        ++ OnProgress 0 total
           :: concat (imap (λ i lang,
                              [ProviderCall (requestFor st trimmedKey sourceValue lang);
                               OnProgress (S i) total])
                           (doneTargets ++ [failing]))
    ∧ postedValues (effects r')
      = postedValues (effects r)
        ++ (if vscodeApi st
            then (λ '(lang, translated), (trimmedKey, code lang, translated))
                   <$> zip doneTargets replies.*1
            else []).
Proof.
  intros st trimmedKey total Hkey Hfresh Hapi Hsource Htargets Hlen Hreplies Hthrew.
  apply truthy_true in Hkey, Hapi, Hsource.
  unfold handleQuickAdd. fold st trimmedKey (targetsOf st). fold total.
  rewrite Hkey, Hapi, Hsource. cbn [negb orb]. rewrite andb_false_r.
  unfold addKeyInternal. rewrite (existsb_key_false _ _ Hfresh).
  assert ((total =? 0)%nat = false) as ->.
  { apply Nat.eqb_neq. subst total. rewrite Htargets, length_app. cbn [length]. lia. }
  rewrite Htargets.
  set (st' := setValues _ _).
  set (r2 := emit _ _).
  destruct (translateTargets_abort sourceValue
              (sourceLang (requestFor st trimmedKey sourceValue
                             {| code := ""; name := ""; flag := "" |}))
              trimmedKey doneTargets replies failing rest total 0 r2)
    as (r' & Hrun & Htl & Hval & Hpv & Hcalls & Hcat); [done|done|..].
  { intros i lang reply Hlang Hreply. by apply Hreplies. }
  { exact Hthrew. }
  cbn [sourceLang requestFor] in Hrun. subst r2.
  cbn [emit setState state effects calls] in *.
  change (openAiApiKey st') with (openAiApiKey st) in *.
  change (openAiModel st') with (openAiModel st) in *.
  change (vscodeApi st') with (vscodeApi st) in *.
  rewrite Hrun. exists r'. split; [done|].
  split_and!.
  - destruct Hcat as (-> & _). done.
  - done.
  - lia.
  - rewrite Htl, timeline_app. cbn [timeline List.filter]. rewrite <- app_assoc. done.
  - rewrite Hpv, postedValues_app. cbn [postedValues omap]. by rewrite app_nil_r.
Qed.

End QuickAddProps.

(** In the sample catalog the key [b] is added, spaces around its name
    dropped, and translated into the three other languages. *)
Lemma handleQuickAdd_success_witness :
  let result := QuickAdd.handleQuickAdd echoProvider (λ _, "") " b " "Hello" batchStart in
  result.1 = (translationDone, [QuickAdd.PostAddKey "b" "en" "Hello"])
  ∧ App.keys (App.state result.2)
    = sampleKeys ++ [{| id := "b"; key := "b"; tags := [] |}]
  ∧ App.textOf (App.values (App.state result.2)) "b" "en" = "Hello"
  ∧ App.textOf (App.values (App.state result.2)) "b" "de" = "[German] Hello"
  ∧ App.calls result.2 = 3%nat.
Proof.
  destruct (handleQuickAdd_success echoProvider (λ _, "") " b " "Hello"
              [("[French] Hello", None); ("[German] Hello", None); ("[Spanish] Hello", None)]
              batchStart)
    as (r' & Hrun & Hkeys & Hsrc & Htexts & _ & Hcalls & _).
  - discriminate.
  - intros k Hk. apply list_elem_of_singleton in Hk as ->. discriminate.
  - discriminate.
  - discriminate.
  - discriminate.
  - repeat constructor; set_solver.
  - reflexivity.
  - intros [|[|[|i]]] lang reply Hlang Hreply; simpl in Hlang, Hreply;
      try discriminate; injection Hlang as <-; injection Hreply as <-; reflexivity.
  - cbv zeta. rewrite Hrun. cbn [fst snd]. split_and!; try done.
    apply (Htexts 1%nat (language "de" "German") ("[German] Hello", None)); reflexivity.
Defined.

(** With a provider whose second call fails the key [b] is added and
    translated into the first language only. *)
Lemma handleQuickAdd_abort_witness :
  let result := QuickAdd.handleQuickAdd secondCallFails (λ _, "") "b" "Hello" batchStart in
  result.1 = (App.translationFailed, [QuickAdd.PostAddKey "b" "en" "Hello"])
  ∧ App.keys (App.state result.2)
    = sampleKeys ++ [{| id := "b"; key := "b"; tags := [] |}]
  ∧ App.calls result.2 = 2%nat.
Proof.
  destruct (handleQuickAdd_abort secondCallFails (λ _, "") "b" "Hello"
              [language "fr" "French"] (language "de" "German") [language "es" "Spanish"]
              [("[French] Hello", None)] batchStart)
    as (r' & Hrun & Hkeys & _ & Hcalls & _).
  - discriminate.
  - intros k Hk. apply list_elem_of_singleton in Hk as ->. discriminate.
  - discriminate.
  - discriminate.
  - reflexivity.
  - reflexivity.
  - intros [|i] lang reply Hlang Hreply; simpl in Hlang, Hreply;
      try discriminate; injection Hlang as <-; injection Hreply as <-; reflexivity.
  - reflexivity.
  - cbv zeta. rewrite Hrun. cbn [fst snd]. by split_and!.
Defined.

(** ** The reply of the provider *)

Lemma string_length_app (s t : string) :
  String.length (s +:+ t) = (String.length s + String.length t)%nat.
Proof.
  induction s as [|c s IH]; [done|].
  change (String c s +:+ t) with (String c (s +:+ t)). cbn [String.length]. by rewrite IH.
Qed.

Lemma rev_app_distr (s t : string) : String.rev (s +:+ t) = String.rev t +:+ String.rev s.
Proof.
  induction s as [|c s IH].
  - cbn. by rewrite string_app_nil_r.
  - change (String c s +:+ t) with (String c (s +:+ t)).
    by rewrite !rev_cons, IH, string_app_assoc.
Qed.

Lemma rev_involutive (s : string) : String.rev (String.rev s) = s.
Proof.
  induction s as [|c s IH]; [done|]. by rewrite rev_cons, rev_app_distr, IH.
Qed.

Lemma rev_snoc (s : string) (c : ascii) :
  String.rev (s +:+ String c "") = String c (String.rev s).
Proof. by rewrite rev_app_distr. Qed.

(** The white space tests of [trimLeading], by the direction it reads in. *)
Local Abbreviation w2 flip a b := (if flip then ws2 b a else ws2 a b).
Local Abbreviation w3 flip a b c := (if flip then ws3 c b a else ws3 a b c).

(** What [trimLeading] returns is the end of the text, and begins with no
    white space. *)
Lemma trimLeading_spec (flip : bool) :
  ∀ n s, (String.length s ≤ n)%nat →
    ∃ p, s = p +:+ trimLeading flip s
         ∧ trimLeading flip (trimLeading flip s) = trimLeading flip s.
Proof.
  induction n as [|n IH]; intros s Hn.
  - destruct s; [by exists ""|cbn in Hn; lia].
  - destruct s as [|a s1]; [by exists ""|]. cbn in Hn.
    cbn [trimLeading]. destruct (ws1 a) eqn:H1.
    { destruct (IH s1) as (p & Hp & Hfix); [lia|].
      exists (String a p). split; [|done]. by rewrite Hp at 1. }
    destruct s1 as [|b s2]; [exists ""; split; [done|]; cbn; by rewrite H1|].
    cbn in Hn. destruct (w2 flip a b) eqn:H2.
    { destruct (IH s2) as (p & Hp & Hfix); [lia|].
      exists (String a (String b p)). split; [|done]. by rewrite Hp at 1. }
    destruct s2 as [|c s3]; [exists ""; split; [done|]; cbn; by rewrite H1, H2|].
    cbn in Hn. destruct (w3 flip a b c) eqn:H3.
    { destruct (IH s3) as (p & Hp & Hfix); [lia|].
      exists (String a (String b (String c p))). split; [|done]. by rewrite Hp at 1. }
    exists "". split; [done|]. cbn. by rewrite H1, H2, H3.
Qed.

Lemma trimLeading_suffix (flip : bool) (s : string) : ∃ p, s = p +:+ trimLeading flip s.
Proof.
  destruct (trimLeading_spec flip (String.length s) s) as (p & Hp & _); [done|].
  by exists p.
Qed.

Lemma trimLeading_idem (flip : bool) (s : string) :
  trimLeading flip (trimLeading flip s) = trimLeading flip s.
Proof.
  by destruct (trimLeading_spec flip (String.length s) s) as (p & _ & Hfix).
Qed.

Lemma trimLeading_length (flip : bool) (s : string) :
  (String.length (trimLeading flip s) ≤ String.length s)%nat.
Proof.
  destruct (trimLeading_suffix flip s) as (p & Hp).
  rewrite Hp at 2. rewrite string_length_app. lia.
Qed.

(** A text that [trimLeading] leaves alone begins with no white space. *)
Lemma trimLeading_fixed_inv (flip : bool) (a : ascii) (s1 : string) :
  trimLeading flip (String a s1) = String a s1 →
  ws1 a = false
  ∧ match s1 with
    | EmptyString => True
    | String b s2 =>
        w2 flip a b = false
        ∧ match s2 with
          | EmptyString => True
          | String c s3 => w3 flip a b c = false
          end
    end.
Proof.
  intros Hfix.
  assert (∀ t, (String.length t < String.length (String a s1))%nat →
               trimLeading flip t ≠ String a s1) as Hshort.
  { intros t Ht Heq. pose proof (trimLeading_length flip t) as Hle.
    rewrite Heq in Hle. lia. }
  cbn [trimLeading] in Hfix. destruct (ws1 a).
  { exfalso. apply (Hshort s1); [cbn; lia|done]. }
  split; [done|]. destruct s1 as [|b s2]; [done|].
  destruct (w2 flip a b).
  { exfalso. apply (Hshort s2); [cbn; lia|done]. }
  split; [done|]. destruct s2 as [|c s3]; [done|].
  destruct (w3 flip a b c); [|done].
  exfalso. apply (Hshort s3); [cbn; lia|done].
Qed.

Lemma trimLeading_fixed_prefix (flip : bool) (x y : string) :
  trimLeading flip (x +:+ y) = x +:+ y → trimLeading flip x = x.
Proof.
  destruct x as [|a [|b [|c x3]]]; [done|..]; intros Hfix.
  - change (String a "" +:+ y) with (String a y) in Hfix.
    apply trimLeading_fixed_inv in Hfix as [H1 _]. cbn. by rewrite H1.
  - change (String a (String b "") +:+ y) with (String a (String b y)) in Hfix.
    apply trimLeading_fixed_inv in Hfix as (H1 & H2 & _). cbn. by rewrite H1, H2.
  - change (String a (String b (String c x3)) +:+ y)
      with (String a (String b (String c (x3 +:+ y)))) in Hfix.
    apply trimLeading_fixed_inv in Hfix as (H1 & H2 & H3). cbn. by rewrite H1, H2, H3.
Qed.

Lemma trim_idem (s : string) : trim (trim s) = trim s.
Proof.
  unfold trim.
  set (s1 := trimLeading false s). set (u := trimLeading true (String.rev s1)).
  destruct (trimLeading_suffix true (String.rev s1)) as (p & Hp). fold u in Hp.
  assert (s1 = String.rev u +:+ String.rev p) as Hs1.
  { by rewrite <- rev_app_distr, <- Hp, rev_involutive. }
  assert (trimLeading false (String.rev u) = String.rev u) as ->.
  { apply trimLeading_fixed_prefix with (String.rev p). rewrite <- Hs1.
    apply trimLeading_idem. }
  rewrite rev_involutive. subst u. by rewrite trimLeading_idem.
Qed.

Section NormalizeProps.
Import Normalize.

Lemma stripPrefix_app (p rest : string) : stripPrefix p (p +:+ rest) = Some rest.
Proof.
  induction p as [|a p IH]; [by destruct rest|].
  change (String a p +:+ rest) with (String a (p +:+ rest)).
  cbn [stripPrefix]. by rewrite Ascii.eqb_refl.
Qed.

Lemma stripPrefix_head (a b : ascii) (p s : string) :
  a ≠ b → stripPrefix (String a p) (String b s) = None.
Proof. intros Hne. cbn [stripPrefix]. by apply Ascii.eqb_neq in Hne as ->. Qed.

Lemma head_bind_cons {A B} (f : A → list B) (x : A) (l : list A) :
  head ((x :: l) ≫= f)
  = match head (f x) with
    | Some y => Some y
    | None => head (l ≫= f)
    end.
Proof. cbn [mbind list_bind]. by destruct (f x). Qed.

Lemma head_bind_first {A B} (f : A → list B) (x : A) (l : list A) (y : B) :
  head (f x) = Some y → head ((x :: l) ≫= f) = Some y.
Proof. intros Hy. by rewrite head_bind_cons, Hy. Qed.

Lemma head_bind_skip {A B} (f : A → list B) (x : A) (l : list A) :
  f x = [] → head ((x :: l) ≫= f) = head (l ≫= f).
Proof. intros Hx. by rewrite head_bind_cons, Hx. Qed.

(** A text that begins with none of the three characters matches no pattern. *)
Lemma unwrapOnce_plain (text : string) : plain text → unwrapOnce text = None.
Proof.
  intros Hplain. unfold unwrapOnce, unwrap, String_match.
  destruct text as [|a text]; [done|].
  cbn in Hplain. unfold wrapper in Hplain.
  apply orb_false_iff in Hplain as [Hplain Hapostrophe].
  apply orb_false_iff in Hplain as [Hbacktick Hquote].
  apply Nat.eqb_neq in Hbacktick, Hquote, Hapostrophe.
  assert (∀ b p, nat_of_ascii b ∈ [96; 34; 39]%nat →
                 stripPrefix (String b p) (String a text) = None) as Hstrip.
  { intros b p Hb. apply stripPrefix_head. intros ->.
    repeat (apply elem_of_cons in Hb as [Hb|Hb]; [done|]). by apply elem_of_nil in Hb. }
  cbn [fenced tripleQuoted doubleQuoted singleQuoted before run].
  unfold BACKTICKS, QUOTES, QUOTE, APOSTROPHE.
  rewrite !Hstrip; [done|cbn; set_solver..].
Qed.

Lemma unwrapLoop_plain (rounds : nat) (text : string) :
  plain text → unwrapLoop rounds text = text.
Proof. intros Hplain. destruct rounds; [done|]. cbn. by rewrite unwrapOnce_plain. Qed.

(** X24. A reply that, once trimmed, is empty or begins with no backtick,
    double quote or apostrophe is returned trimmed and otherwise as it is. *)
Theorem normalizeTranslationOutput_plain (raw : string) :
  plain (trim raw) → normalizeTranslationOutput raw = trim raw.
Proof.
  intros Hplain. unfold normalizeTranslationOutput.
  destruct (truthy (trim raw)); [|done]. cbn [negb]. by apply unwrapLoop_plain.
Qed.

Lemma unwrapLoop_trimmed (rounds : nat) :
  ∀ text, trim text = text → trim (unwrapLoop rounds text) = unwrapLoop rounds text.
Proof.
  induction rounds as [|rounds IH]; intros text Htext; [done|].
  cbn [unwrapLoop]. destruct (unwrapOnce text) as [text'|] eqn:Honce; [|done].
  apply IH. unfold unwrapOnce, unwrap in Honce.
  repeat match type of Honce with
         | match trim <$> ?m with _ => _ end = _ => destruct m; cbn in Honce
         | trim <$> ?m = _ => destruct m; cbn in Honce
         end;
    try discriminate; injection Honce as <-; apply trim_idem.
Qed.

(** X23. What [normalizeTranslationOutput] returns has no white space at
    its ends: trimming it again changes nothing. *)
Theorem normalizeTranslationOutput_trimmed (raw : string) :
  trim (normalizeTranslationOutput raw) = normalizeTranslationOutput raw.
Proof.
  unfold normalizeTranslationOutput.
  destruct (truthy (trim raw)); cbn [negb]; [|apply trim_idem].
  apply unwrapLoop_trimmed, trim_idem.
Qed.

(** *** One pair of quotes *)

Lemma greedy_nil (n : nat) (c : CharClass) : greedy n c "" = [""].
Proof. by destruct n, c. Qed.

Lemma greedy_any_snoc (body : string) (c : ascii) :
  ∀ n, (String.length body < n)%nat →
    ∃ l, greedy n AnyChar (body +:+ String c "") = "" :: String c "" :: l.
Proof.
  induction body as [|a body IH]; intros n Hn.
  - destruct n as [|n]; [lia|]. exists [].
    change ("" +:+ String c "") with (String c ""). cbn [greedy step].
    by rewrite greedy_nil.
  - destruct n as [|n]; [lia|]. cbn in Hn.
    destruct (IH n) as (l & Hl); [lia|].
    exists (l ++ [String a body +:+ String c ""]).
    change (String a body +:+ String c "") with (String a (body +:+ String c "")).
    cbn [greedy step]. by rewrite Hl.
Qed.

Lemma substring_prefix (p q : string) : String.substring 0 (String.length p) (p +:+ q) = p.
Proof.
  induction p as [|a p IH]; [by destruct q|].
  change (String a p +:+ q) with (String a (p +:+ q)). cbn. by rewrite IH.
Qed.

Lemma String_match_quoted (c : ascii) (body : string) :
  String_match {| before := Chars (String c ""); inside := Greedy AnyChar;
                  after := Chars (String c "") |}
    (String c body +:+ String c "")
  = Some body.
Proof.
  unfold String_match. cbn [before inside after run].
  change (String c body +:+ String c "") with (String c "" +:+ (body +:+ String c "")).
  rewrite stripPrefix_app.
  destruct (greedy_any_snoc body c (String.length (body +:+ String c ""))) as (l & Hl).
  { rewrite string_length_app. cbn. lia. }
  cbn [mbind list_bind]. rewrite app_nil_r, Hl.
  rewrite head_bind_skip; [|done].
  apply head_bind_first.
  change (stripPrefix (String c "") (String c "")) with (stripPrefix (String c "") (String c "" +:+ "")).
  rewrite stripPrefix_app. cbn [mbind list_bind String.eqb app head].
  rewrite string_length_app. cbn [String.length].
  replace (String.length body + 1 - 1)%nat with (String.length body) by lia.
  by rewrite substring_prefix.
Qed.

Lemma solid_fixed (flip : bool) (x : ascii) (rest : string) :
  solid x → trimLeading flip (String x rest) = String x rest.
Proof.
  intros [Hws Hx]. cbn [trimLeading]. rewrite Hws.
  destruct rest as [|b rest]; [done|].
  assert (w2 flip x b = false) as ->.
  { destruct flip; unfold ws2.
    - apply andb_false_intro2, Nat.eqb_neq. lia.
    - apply andb_false_intro1, Nat.eqb_neq. lia. }
  destruct rest as [|c rest]; [done|].
  assert (w3 flip x b c = false) as ->; [|done].
  destruct flip; unfold ws3; cbv zeta;
    repeat first [rewrite orb_false_iff | rewrite andb_false_iff
                 | rewrite Nat.eqb_neq | rewrite Nat.leb_gt]; lia.
Qed.

Lemma trim_solid_ends (x y : ascii) (rest tail : string) :
  solid x → solid y →
  String.rev (String x rest) = String y tail →
  trim (String x rest) = String x rest.
Proof.
  intros Hx Hy Hrev. unfold trim.
  by rewrite (solid_fixed false), Hrev, (solid_fixed true), <- Hrev, rev_involutive.
Qed.

Lemma solid_wrapper (c : ascii) : wrapper c = true → solid c.
Proof.
  unfold wrapper, solid, ws1. cbv zeta.
  rewrite !orb_true_iff, !Nat.eqb_eq.
  intros Hc. split; [|lia].
  rewrite orb_false_iff, andb_false_iff, !Nat.leb_gt, Nat.eqb_neq. lia.
Qed.

Lemma startsWith_char (c : ascii) (body : string) :
  startsWith body (String c "") = false →
  body = "" ∨ ∃ b rest, body = String b rest ∧ b ≠ c.
Proof.
  destruct body as [|b rest]; [by left|]. right. exists b, rest. split; [done|].
  intros ->. unfold startsWith in H. cbn in H.
  destruct (ascii_dec c c); [by destruct rest|done].
Qed.

Lemma stripPrefix_triple (c : ascii) (body : string) :
  startsWith body (String c "") = false →
  stripPrefix (String c (String c (String c ""))) (String c body +:+ String c "") = None.
Proof.
  intros [->|(b & rest & -> & Hb)]%startsWith_char.
  - change (String c "" +:+ String c "") with (String c (String c "")).
    cbn [stripPrefix]. by rewrite !Ascii.eqb_refl.
  - change (String c (String b rest) +:+ String c "")
      with (String c (String b (rest +:+ String c ""))).
    cbn [stripPrefix]. rewrite Ascii.eqb_refl.
    by apply not_eq_sym, Ascii.eqb_neq in Hb as ->.
Qed.

Lemma unwrapOnce_quoted (c : ascii) (body : string) :
  c = ascii_of_nat 34 ∨ c = "'"%char →
  startsWith body (String c "") = false →
  unwrapOnce (String c body +:+ String c "") = Some (trim body).
Proof.
  intros Hc Hbody. unfold unwrapOnce.
  assert (unwrap fenced (String c body +:+ String c "") = None) as ->.
  { unfold unwrap, String_match. cbn [fenced before run]. unfold BACKTICKS.
    change (String c body +:+ String c "") with (String c (body +:+ String c "")).
    rewrite stripPrefix_head; [done|]. by destruct Hc as [-> | ->]. }
  assert (unwrap tripleQuoted (String c body +:+ String c "") = None) as ->.
  { unfold unwrap, String_match. cbn [tripleQuoted before run]. unfold QUOTES.
    destruct Hc as [-> | ->].
    - rewrite stripPrefix_triple; [|done].
      change (String (ascii_of_nat 34) body +:+ String (ascii_of_nat 34) "")
        with (String (ascii_of_nat 34) (body +:+ String (ascii_of_nat 34) "")).
      by rewrite stripPrefix_head.
    - rewrite (stripPrefix_triple "'"); [|done].
      change (String "'" body +:+ String "'" "") with (String "'" (body +:+ String "'" "")).
      by rewrite stripPrefix_head. }
  destruct Hc as [-> | ->].
  - unfold unwrap at 1. by rewrite (String_match_quoted (ascii_of_nat 34)).
  - assert (unwrap doubleQuoted (String "'" body +:+ String "'" "") = None) as ->.
    { unfold unwrap, String_match. cbn [doubleQuoted before run]. unfold QUOTE.
      change (String "'" body +:+ String "'" "") with (String "'" (body +:+ String "'" "")).
      by rewrite stripPrefix_head. }
    unfold unwrap. by rewrite (String_match_quoted "'").
Qed.

(** X25. A reply in one pair of double quotes or of apostrophes, whose inside
    does not begin with the same quote and, once trimmed, is empty or begins
    with no backtick or quote, comes out as its inside, trimmed. *)
Theorem normalizeTranslationOutput_quoted (c : ascii) (body : string) :
  c = ascii_of_nat 34 ∨ c = "'"%char →
  startsWith body (String c "") = false →
  plain (trim body) →
  normalizeTranslationOutput (String c body +:+ String c "") = trim body.
Proof.
  intros Hc Hbody Hplain. unfold normalizeTranslationOutput.
  assert (solid c) as Hsolid.
  { apply solid_wrapper. by destruct Hc as [-> | ->]. }
  assert (trim (String c body +:+ String c "") = String c body +:+ String c "") as ->.
  { change (String c body +:+ String c "") with (String c (body +:+ String c "")).
    apply (trim_solid_ends c c _ (String.rev (String c body))); [done|done|].
    change (String c (body +:+ String c "")) with (String c body +:+ String c "").
    apply rev_snoc. }
  change (String c body +:+ String c "") with (String c (body +:+ String c "")) at 1.
  cbn [truthy String.eqb negb].
  change (String c (body +:+ String c "")) with (String c body +:+ String c "").
  change (unwrapLoop 4 ?t) with (match unwrapOnce t with
                                 | Some text' => unwrapLoop 3 text'
                                 | None => t
                                 end).
  rewrite unwrapOnce_quoted; [|done|done].
  by apply unwrapLoop_plain.
Qed.

(** *** Fences and triple quotes *)

(** A byte of a white space character. *)
Local Abbreviation soft := (λ a : ascii, ws1 a || (128 <=? nat_of_ascii a)%nat).

Lemma every_app (test : ascii → bool) (p q : string) :
  every test (p +:+ q) = every test p && every test q.
Proof.
  induction p as [|a p IH]; [done|].
  change (String a p +:+ q) with (String a (p +:+ q)). cbn [every].
  by rewrite IH, andb_assoc.
Qed.

Lemma solid_not_soft (y : ascii) : solid y → soft y = false.
Proof.
  intros [Hws Hy]. cbv beta. rewrite Hws. cbn [orb]. apply Nat.leb_gt. lia.
Qed.

Lemma step_space_soft (s rest : string) :
  step Space s = Some rest → ∃ p, s = p +:+ rest ∧ every soft p = true.
Proof.
  destruct s as [|a s1]; [done|]. cbn [step].
  destruct (ws1 a) eqn:H1.
  { intros [= <-]. exists (String a ""). split; [done|]. cbn. by rewrite H1. }
  destruct s1 as [|b s2]; [done|]. destruct (ws2 a b) eqn:H2.
  { intros [= <-]. exists (String a (String b "")). split; [done|].
    unfold ws2 in H2. apply andb_true_iff in H2 as [Ha Hb].
    apply Nat.eqb_eq in Ha, Hb. cbn [every]. rewrite Ha, Hb.
    by rewrite !orb_true_r. }
  destruct s2 as [|c s3]; [done|]. destruct (ws3 a b c) eqn:H3; [|done].
  intros [= <-]. exists (String a (String b (String c ""))). split; [done|].
  unfold ws3 in H3. cbv zeta in H3.
  repeat first [rewrite orb_true_iff in H3 | rewrite andb_true_iff in H3
               | rewrite Nat.eqb_eq in H3 | rewrite Nat.leb_le in H3].
  cbn [every]. rewrite !andb_true_iff, !orb_true_iff, !Nat.leb_le. split_and!; try done; lia.
Qed.

Lemma elem_of_greedy_space (n : nat) :
  ∀ s r, r ∈ greedy n Space s → ∃ p, s = p +:+ r ∧ every soft p = true.
Proof.
  induction n as [|n IH]; intros s r Hr.
  - apply list_elem_of_singleton in Hr as ->. by exists "".
  - cbn [greedy] in Hr. destruct (step Space s) as [rest|] eqn:Hstep.
    + apply elem_of_app in Hr as [Hr|Hr].
      * apply IH in Hr as (p & -> & Hp).
        apply step_space_soft in Hstep as (p0 & -> & Hp0).
        exists (p0 +:+ p). split; [by rewrite string_app_assoc|].
        by rewrite every_app, Hp0, Hp.
      * apply list_elem_of_singleton in Hr as ->. by exists "".
    + apply list_elem_of_singleton in Hr as ->. by exists "".
Qed.

(** A greedy star over characters of one byte takes them all first. *)
Lemma greedy_head (c : CharClass) (test : ascii → bool) :
  (∀ a x, test a = true → step c (String a x) = Some x) →
  ∀ w r n, every test w = true → step c r = None → (String.length w ≤ n)%nat →
    ∃ l, greedy n c (w +:+ r) = r :: l.
Proof.
  intros Hstep. induction w as [|a w IH]; intros r n Hw Hr Hn.
  - exists []. destruct n; [done|]. cbn [greedy]. change ("" +:+ r) with r. by rewrite Hr.
  - cbn [every] in Hw. apply andb_true_iff in Hw as [Ha Hw]. cbn in Hn.
    destruct n as [|n]; [lia|].
    change (String a w +:+ r) with (String a (w +:+ r)).
    cbn [greedy]. rewrite (Hstep a _ Ha).
    destruct (IH r n Hw Hr) as (l & ->); [lia|]. by eexists.
Qed.

Lemma step_space_ws1 (a : ascii) (x : string) :
  ws1 a = true → step Space (String a x) = Some x.
Proof. intros Ha. cbn. by rewrite Ha. Qed.

Lemma step_space_solid (a : ascii) (x : string) :
  solid a → step Space (String a x) = None.
Proof.
  intros Ha. pose proof (solid_fixed false a x Ha) as Hfix.
  apply trimLeading_fixed_inv in Hfix as (H1 & Hrest). cbn [step]. rewrite H1.
  destruct x as [|b x]; [done|]. destruct Hrest as [-> Hrest].
  destruct x as [|c x]; [done|]. by rewrite Hrest.
Qed.

(** A lazy star over any character stops at the first end that lets the
    rest of the pattern match. *)
Lemma lazy_any_first {A} (g : string → list A) (y : string) (v : A) :
  head (g y) = Some v →
  ∀ x n, (String.length x ≤ n)%nat →
    (∀ x1 x2, x = x1 +:+ x2 → x2 ≠ "" → g (x2 +:+ y) = []) →
    head (lazy n AnyChar (x +:+ y) ≫= g) = Some v.
Proof.
  intros Hy. induction x as [|a x IH]; intros n Hn Hfail.
  - change ("" +:+ y) with y. destruct n; cbn [lazy]; by apply head_bind_first.
  - cbn in Hn. destruct n as [|n]; [lia|].
    change (String a x +:+ y) with (String a (x +:+ y)). cbn [lazy step].
    rewrite head_bind_skip; [|by apply (Hfail "" (String a x))].
    apply IH; [lia|]. intros x1 x2 -> Hx2.
    by apply (Hfail (String a x1) x2).
Qed.

Lemma string_app_inj (p q r r' : string) :
  p +:+ r = q +:+ r' → String.length r = String.length r' → p = q.
Proof.
  revert q. induction p as [|a p IH]; intros q Heq Hlen.
  - destruct q as [|b q]; [done|]. exfalso.
    apply (f_equal String.length) in Heq.
    change ("" +:+ r) with r in Heq.
    change (String b q +:+ r') with (String b (q +:+ r')) in Heq.
    cbn [String.length] in Heq. rewrite string_length_app in Heq. lia.
  - destruct q as [|b q].
    + exfalso. apply (f_equal String.length) in Heq.
      change ("" +:+ r') with r' in Heq.
      change (String a p +:+ r) with (String a (p +:+ r)) in Heq.
      cbn [String.length] in Heq. rewrite string_length_app in Heq. lia.
    + change (String a p +:+ r) with (String a (p +:+ r)) in Heq.
      change (String b q +:+ r') with (String b (q +:+ r')) in Heq.
      injection Heq as -> Heq. f_equal. by apply IH.
Qed.

(** A part of a text that ends a text ending in [y] ends in [y]. *)
Lemma suffix_last (x1 x2 b0 : string) (y : ascii) :
  x1 +:+ x2 = b0 +:+ String y "" → x2 ≠ "" → ∃ x2', x2 = x2' +:+ String y "".
Proof.
  intros Heq Hx2. apply (f_equal String.rev) in Heq.
  rewrite rev_app_distr, rev_snoc in Heq.
  destruct (String.rev x2) as [|y' t] eqn:Hrev.
  - apply (f_equal String.rev) in Hrev. rewrite rev_involutive in Hrev. done.
  - change (String y' t +:+ String.rev x1) with (String y' (t +:+ String.rev x1)) in Heq.
    injection Heq as -> _. exists (String.rev t).
    apply (f_equal String.rev) in Hrev. rewrite rev_involutive in Hrev.
    by rewrite Hrev, rev_cons.
Qed.

Section Delimited.
(** The closing delimiter: an expression that takes three characters, and
    a text that it takes. *)
Context (close : Regex) (closing : string).
Hypothesis close_length : ∀ r, "" ∈ run close r → String.length r = 3%nat.
Hypothesis close_closing : "" ∈ run close closing.
Hypothesis closing_solid : ∃ a rest, closing = String a rest ∧ solid a.

Local Abbreviation group s1 :=
  (λ s2, s3 ← run (Then (Greedy Space) close) s2;
         if String.eqb s3 "" then [String.substring 0 (String.length s1 - String.length s2) s1]
         else []).

Lemma group_nil (s1 s2 : string) :
  "" ∉ run (Then (Greedy Space) close) s2 → group s1 s2 = [].
Proof.
  intros Hno. apply bind_all_nil. intros s3 Hs3.
  destruct (String.eqb_spec s3 "") as [->|]; done.
Qed.

Lemma group_head (s1 s2 : string) :
  "" ∈ run (Then (Greedy Space) close) s2 →
  head (group s1 s2)
  = Some (String.substring 0 (String.length s1 - String.length s2) s1).
Proof.
  cbv beta. induction (run (Then (Greedy Space) close) s2) as [|s3 l IH];
    intros Hin; [by apply elem_of_nil in Hin|].
  rewrite head_bind_cons. destruct (String.eqb_spec s3 "") as [->|Hne]; [done|].
  cbn [head]. apply IH. apply elem_of_cons in Hin as [Hin|Hin]; [done|done].
Qed.

Lemma closing_length : String.length closing = 3%nat.
Proof. by apply close_length. Qed.

Lemma after_fails (x2 trail : string) (y : ascii) :
  solid y →
  "" ∉ run (Then (Greedy Space) close) ((x2 +:+ String y "") +:+ trail +:+ closing).
Proof.
  intros Hy Hin. cbn [run] in Hin.
  apply list_elem_of_bind in Hin as (r & Hclose & Hr).
  apply close_length in Hclose.
  apply elem_of_greedy_space in Hr as (p & Heq & Hp).
  rewrite <- string_app_assoc in Heq.
  apply string_app_inj in Heq; [|by rewrite closing_length].
  rewrite <- Heq, !every_app in Hp. cbn [every] in Hp.
  rewrite (solid_not_soft y Hy) in Hp. by rewrite !andb_false_r, ?andb_false_l in Hp.
Qed.

Lemma after_matches (trail : string) :
  every ws1 trail = true →
  "" ∈ run (Then (Greedy Space) close) (trail +:+ closing).
Proof.
  intros Htrail. cbn [run]. apply list_elem_of_bind. exists closing.
  split; [done|].
  destruct closing_solid as (a & rest & Hclosing & Ha).
  destruct (greedy_head Space ws1 step_space_ws1 trail closing
              (String.length (trail +:+ closing)) Htrail) as (l & ->).
  - rewrite Hclosing. by apply step_space_solid.
  - rewrite string_length_app. lia.
  - left.
Qed.

(** The group of a delimited text whose body has solid ends. *)
Lemma delimited_group (body trail : string) :
  solidEnds body →
  every ws1 trail = true →
  let s1 := body +:+ (if bool_decide (body = "") then "" else trail) +:+ closing in
  head (run (Lazy AnyChar) s1 ≫= group s1) = Some body.
Proof.
  intros Hbody Htrail s1. cbn [run].
  set (trail' := if bool_decide (body = "") then "" else trail) in *.
  assert (every ws1 trail' = true) as Htrail'
    by (subst trail'; by case_bool_decide).
  apply (lazy_any_first (group s1) (trail' +:+ closing) body).
  - rewrite group_head; [|by apply after_matches]. subst s1.
    rewrite string_length_app.
    replace (String.length body + String.length (trail' +:+ closing)
             - String.length (trail' +:+ closing))%nat
      with (String.length body) by lia.
    by rewrite substring_prefix.
  - subst s1. rewrite string_length_app. lia.
  - intros x1 x2 Hsplit Hx2. apply group_nil.
    assert (∃ b0 y, body = b0 +:+ String y "" ∧ solid y) as (b0 & y & Hb0 & Hy).
    { unfold solidEnds in Hbody.
      destruct body as [|x rest]; [by destruct x1, x2|].
      destruct (String.rev (String x rest)) as [|y t] eqn:Hrev.
      - apply (f_equal String.rev) in Hrev. by rewrite rev_involutive in Hrev.
      - exists (String.rev t), y. split; [|by destruct Hbody].
        apply (f_equal String.rev) in Hrev. rewrite rev_involutive in Hrev.
        by rewrite Hrev, rev_cons. }
    destruct (suffix_last x1 x2 b0 y) as (x2' & ->); [congruence|done|].
    by apply after_fails.
Qed.

End Delimited.

Lemma stripPrefix_Some (p s rest : string) : stripPrefix p s = Some rest → s = p +:+ rest.
Proof.
  revert s. induction p as [|a p IH]; intros s; [by intros [= ->]|].
  destruct s as [|b s]; [done|]. cbn [stripPrefix].
  destruct (Ascii.eqb_spec a b) as [->|]; [|done].
  intros Hrest%IH. by rewrite Hrest.
Qed.

Lemma run_Chars_nil (text r : string) : "" ∈ run (Chars text) r ↔ r = text.
Proof.
  cbn [run]. split.
  - destruct (stripPrefix text r) as [rest|] eqn:Hstrip; [|by intros ?%elem_of_nil].
    intros <-%list_elem_of_singleton. apply stripPrefix_Some in Hstrip.
    by rewrite string_app_nil_r in Hstrip.
  - intros ->. rewrite <- (string_app_nil_r text) at 2. rewrite stripPrefix_app. left.
Qed.

Lemma run_Chars_app (p rest : string) : run (Chars p) (p +:+ rest) = [rest].
Proof. cbn [run]. by rewrite stripPrefix_app. Qed.

Lemma step_tag (a : ascii) (x : string) :
  isTagChar a = true → step TagChar (String a x) = Some x.
Proof. intros Ha. cbn. by rewrite Ha. Qed.

Lemma step_tag_none (a : ascii) (x : string) :
  isTagChar a = false → step TagChar (String a x) = None.
Proof. intros Ha. cbn [step]. by rewrite Ha. Qed.

Lemma run_tag (tag r : string) :
  every isTagChar tag = true → step TagChar r = None →
  ∃ l, run (Maybe (Plus TagChar)) (tag +:+ r) = r :: l.
Proof.
  intros Htag Hr. cbn [run]. destruct tag as [|a tag].
  - change ("" +:+ r) with r. rewrite Hr. by exists [].
  - cbn [every] in Htag. apply andb_true_iff in Htag as [Ha Htag].
    change (String a tag +:+ r) with (String a (tag +:+ r)). cbn [step]. rewrite Ha.
    destruct (greedy_head TagChar isTagChar step_tag tag r
                (String.length (tag +:+ r)) Htag Hr) as (l & ->).
    + rewrite string_length_app. lia.
    + by eexists.
Qed.

Lemma run_space (lead r : string) :
  every ws1 lead = true → step Space r = None →
  ∃ l, run (Greedy Space) (lead +:+ r) = r :: l.
Proof.
  intros Hlead Hr. cbn [run].
  apply (greedy_head Space ws1 step_space_ws1); [done|done|].
  rewrite string_length_app. lia.
Qed.

Lemma ws1_not_tag (a : ascii) : ws1 a = true → isTagChar a = false.
Proof.
  unfold ws1, isTagChar. cbv zeta.
  rewrite !orb_true_iff, !andb_true_iff, !Nat.leb_le, Nat.eqb_eq. intros Ha.
  repeat first [rewrite orb_false_iff | rewrite andb_false_iff
               | rewrite Nat.eqb_neq | rewrite Nat.leb_gt]. lia.
Qed.

(** After the opening delimiter and the white space: the body, when there
    is one, with what follows it. *)
Lemma run_lead (lead body trail closing : string) :
  every ws1 lead = true → every ws1 trail = true → solidEnds body →
  (∃ a rest, closing = String a rest ∧ solid a) →
  ∃ l, run (Greedy Space) (lead +:+ body +:+ trail +:+ closing)
       = (body +:+ (if bool_decide (body = "") then "" else trail) +:+ closing) :: l.
Proof.
  intros Hlead Htrail Hbody (a & rest & -> & Ha).
  destruct body as [|x body].
  - rewrite bool_decide_eq_true_2 by done.
    change ("" +:+ trail +:+ String a rest) with (trail +:+ String a rest).
    change ("" +:+ "" +:+ String a rest) with (String a rest).
    rewrite <- string_app_assoc. apply run_space.
    + by rewrite every_app, Hlead, Htrail.
    + by apply step_space_solid.
  - rewrite bool_decide_eq_false_2 by done. apply run_space; [done|].
    unfold solidEnds in Hbody.
    destruct (String.rev (String x body)) eqn:Hrev.
    + apply (f_equal String.rev) in Hrev. by rewrite rev_involutive in Hrev.
    + change (String x body +:+ trail +:+ String a rest)
        with (String x (body +:+ trail +:+ String a rest)).
      apply step_space_solid. by destruct Hbody.
Qed.

Lemma solid_backtick : solid "`".
Proof. split; [done|]. by apply Nat.ltb_lt. Qed.

Lemma String_match_fenced (tag lead body trail : string) :
  every isTagChar tag = true →
  every ws1 lead = true →
  every ws1 trail = true →
  solidEnds body →
  (lead = "" → match body with
               | String a _ => isTagChar a = false
               | EmptyString => True
               end) →
  String_match fenced (BACKTICKS +:+ tag +:+ lead +:+ body +:+ trail +:+ BACKTICKS)
  = Some body.
Proof.
  intros Htag Hlead Htrail Hbody Hfirst.
  unfold String_match. cbn [fenced before inside after].
  set (r := lead +:+ body +:+ trail +:+ BACKTICKS).
  assert (step TagChar r = None) as Hr.
  { subst r. destruct lead as [|a lead].
    - change ("" +:+ ?t) with t. destruct body as [|x body].
      + change ("" +:+ ?t) with t. destruct trail as [|b trail]; [done|].
        cbn [every] in Htrail. apply andb_true_iff in Htrail as [Hb _].
        apply (step_tag_none b), ws1_not_tag, Hb.
      + apply (step_tag_none x). by apply Hfirst.
    - cbn [every] in Hlead. apply andb_true_iff in Hlead as [Ha _].
      apply (step_tag_none a), ws1_not_tag, Ha. }
  destruct (run_tag tag r Htag Hr) as (l1 & Hl1).
  destruct (run_lead lead body trail BACKTICKS Hlead Htrail Hbody) as (l2 & Hl2).
  { exists "`"%char, "``". split; [done|apply solid_backtick]. }
  assert (∃ l, run (Then (Chars BACKTICKS) (Then (Maybe (Plus TagChar)) (Greedy Space)))
                 (BACKTICKS +:+ tag +:+ r)
               = (body +:+ (if bool_decide (body = "") then "" else trail) +:+ BACKTICKS)
                 :: l) as (l & ->).
  { change (run (Then ?a ?b) ?t) with (run a t ≫= run b).
    rewrite run_Chars_app. cbn [mbind list_bind]. rewrite app_nil_r.
    change (run (Then ?a ?b) ?t) with (run a t ≫= run b).
    rewrite Hl1. cbn [mbind list_bind]. fold r in Hl2. rewrite Hl2.
    rewrite <- app_comm_cons. by eexists. }
  apply head_bind_first.
  apply (delimited_group (Chars BACKTICKS) BACKTICKS); try done.
  - intros r' Hr'. apply run_Chars_nil in Hr' as ->. done.
  - by apply run_Chars_nil.
  - exists "`"%char, "``". split; [done|apply solid_backtick].
Qed.

Lemma close_triple (r : string) :
  "" ∈ run (Either (Chars QUOTES) (Chars "'''")) r ↔ r = QUOTES ∨ r = "'''".
Proof.
  change (run (Either ?a ?b) ?t) with (run a t ++ run b t).
  by rewrite elem_of_app, !run_Chars_nil.
Qed.

Lemma solid_quote : solid (ascii_of_nat 34).
Proof. split; [done|]. by apply Nat.ltb_lt. Qed.

Lemma solid_apostrophe : solid "'".
Proof. split; [done|]. by apply Nat.ltb_lt. Qed.

Lemma triple_solid (delimiter : string) :
  delimiter = QUOTES ∨ delimiter = "'''" →
  ∃ a rest, delimiter = String a rest ∧ solid a.
Proof.
  intros [-> | ->]; eexists _, _; (split; [reflexivity|]);
    [apply solid_quote|apply solid_apostrophe].
Qed.

Lemma String_match_tripleQuoted (opening closing lead body trail : string) :
  opening = QUOTES ∨ opening = "'''" →
  closing = QUOTES ∨ closing = "'''" →
  every ws1 lead = true →
  every ws1 trail = true →
  solidEnds body →
  String_match tripleQuoted (opening +:+ lead +:+ body +:+ trail +:+ closing) = Some body.
Proof.
  intros Hopening Hclosing Hlead Htrail Hbody.
  unfold String_match. cbn [tripleQuoted before inside after].
  destruct (run_lead lead body trail closing Hlead Htrail Hbody (triple_solid _ Hclosing))
    as (l2 & Hl2).
  set (r := lead +:+ body +:+ trail +:+ closing) in *.
  assert (run (Then (Either (Chars QUOTES) (Chars "'''")) (Greedy Space)) (opening +:+ r)
          = (body +:+ (if bool_decide (body = "") then "" else trail) +:+ closing) :: l2)
    as ->.
  { change (run (Then ?a ?b) ?t) with (run a t ≫= run b).
    assert (run (Either (Chars QUOTES) (Chars "'''")) (opening +:+ r) = [r]) as ->.
    { change (run (Either ?a ?b) ?t) with (run a t ++ run b t).
      destruct Hopening as [-> | ->].
      - rewrite run_Chars_app. cbn [run]. unfold QUOTES.
        change (String ?a ?p +:+ r) with (String a (p +:+ r)).
        by rewrite stripPrefix_head.
      - rewrite run_Chars_app. cbn [run]. unfold QUOTES.
        change (String ?a ?p +:+ r) with (String a (p +:+ r)).
        by rewrite stripPrefix_head. }
    cbn [mbind list_bind]. by rewrite app_nil_r. }
  apply head_bind_first.
  apply (delimited_group (Either (Chars QUOTES) (Chars "'''")) closing); try done.
  - intros r' [-> | ->]%close_triple; done.
  - by apply close_triple.
  - by apply triple_solid.
Qed.

Lemma trim_solidEnds (body : string) : solidEnds body → trim body = body.
Proof.
  unfold solidEnds. destruct body as [|x rest]; [done|].
  destruct (String.rev (String x rest)) as [|y tail] eqn:Hrev.
  - apply (f_equal String.rev) in Hrev. by rewrite rev_involutive in Hrev.
  - intros [Hx Hy]. by apply (trim_solid_ends x y rest tail).
Qed.

(** A text between two delimiters that begin and end with a solid
    character is trimmed already. *)
Lemma trim_delimited (x y : ascii) (opening closing middle : string) :
  solid x → solid y →
  trim (String x opening +:+ middle +:+ closing +:+ String y "")
  = String x opening +:+ middle +:+ closing +:+ String y "".
Proof.
  intros Hx Hy.
  change (String x opening +:+ ?t) with (String x (opening +:+ t)).
  apply (trim_solid_ends x y _
           (String.rev (String x (opening +:+ middle +:+ closing)))); [done|done|].
  change (String x (opening +:+ middle +:+ closing +:+ String y ""))
    with (String x opening +:+ middle +:+ closing +:+ String y "").
  rewrite <- (rev_snoc _ y).
  change (String x (opening +:+ middle +:+ closing))
    with (String x opening +:+ middle +:+ closing).
  by rewrite !string_app_assoc.
Qed.

Lemma unwrapLoop_step (rounds : nat) (text text' : string) :
  unwrapOnce text = Some text' → unwrapLoop (S rounds) text = unwrapLoop rounds text'.
Proof. intros Honce. cbn [unwrapLoop]. by rewrite Honce. Qed.

Lemma truthy_cons (a : ascii) (s : string) : truthy (String a s) = true.
Proof. done. Qed.

(** X26. A fenced reply: three backticks, a word of letters, digits, [_] and
    [-] (which may be empty), white space, the body, white space, three
    backticks. When the body is empty, or begins and ends with a solid
    character and begins with no backtick or quote, the body comes out. The
    word after the opening fence is always dropped as the language tag, also
    when the reply is on one line and the word is its first; without white
    space after it the body must not go on with a character of a tag. *)
Theorem normalizeTranslationOutput_fenced (tag lead body trail : string) :
  every isTagChar tag = true →
  every ws1 lead = true →
  every ws1 trail = true →
  solidEnds body →
  plain body →
  (lead = "" → match body with
               | String a _ => isTagChar a = false
               | EmptyString => True
               end) →
  normalizeTranslationOutput
    (BACKTICKS +:+ tag +:+ lead +:+ body +:+ trail +:+ BACKTICKS)
  = body.
Proof.
  intros Htag Hlead Htrail Hbody Hplain Hfirst. unfold normalizeTranslationOutput.
  assert (trim (BACKTICKS +:+ tag +:+ lead +:+ body +:+ trail +:+ BACKTICKS)
          = BACKTICKS +:+ tag +:+ lead +:+ body +:+ trail +:+ BACKTICKS) as ->.
  { pose proof (trim_delimited "`" "`" "``" "``" (tag +:+ lead +:+ body +:+ trail)
                  solid_backtick solid_backtick) as Htrim.
    rewrite !string_app_assoc in Htrim. exact Htrim. }
  change (BACKTICKS +:+ ?t) with (String "`" ("``" +:+ t)) at 1.
  rewrite truthy_cons. cbn [negb].
  rewrite (unwrapLoop_step 3 _ body).
  - by apply unwrapLoop_plain.
  - unfold unwrapOnce, unwrap.
    rewrite String_match_fenced by done. cbn [fmap option_fmap option_map].
    by rewrite (trim_solidEnds body Hbody).
Qed.

(** X27. A reply between three double quotes or three apostrophes on either
    side, the two sides not needing to agree, with white space around a body
    that is empty or begins and ends with a solid character and begins with
    no backtick or quote, comes out as the body. *)
Theorem normalizeTranslationOutput_tripleQuoted (opening closing lead body trail : string) :
  opening = QUOTES ∨ opening = "'''" →
  closing = QUOTES ∨ closing = "'''" →
  every ws1 lead = true →
  every ws1 trail = true →
  solidEnds body →
  plain body →
  normalizeTranslationOutput (opening +:+ lead +:+ body +:+ trail +:+ closing) = body.
Proof.
  intros Hopening Hclosing Hlead Htrail Hbody Hplain. unfold normalizeTranslationOutput.
  assert (∃ x o, opening = String x o ∧ solid x ∧ nat_of_ascii x ≠ 96%nat)
    as (x & o & Ho & Hx & Hx96).
  { destruct Hopening as [-> | ->]; eexists _, _; (split; [reflexivity|]);
      (split; [apply solid_quote || apply solid_apostrophe|done]). }
  assert (∃ c y, closing = c +:+ String y "" ∧ solid y) as (c & y & Hc & Hy).
  { destruct Hclosing as [-> | ->].
    - exists (String (ascii_of_nat 34) (String (ascii_of_nat 34) "")), (ascii_of_nat 34).
      split; [done|apply solid_quote].
    - exists "''", "'"%char. split; [done|apply solid_apostrophe]. }
  assert (trim (opening +:+ lead +:+ body +:+ trail +:+ closing)
          = opening +:+ lead +:+ body +:+ trail +:+ closing) as ->.
  { pose proof (trim_delimited x y o c (lead +:+ body +:+ trail) Hx Hy) as Htrim.
    rewrite !string_app_assoc in Htrim. by rewrite Ho, Hc. }
  assert (truthy (opening +:+ lead +:+ body +:+ trail +:+ closing) = true) as ->
    by (by rewrite Ho).
  cbn [negb].
  rewrite (unwrapLoop_step 3 _ body).
  - by apply unwrapLoop_plain.
  - unfold unwrapOnce.
    assert (unwrap fenced (opening +:+ lead +:+ body +:+ trail +:+ closing) = None) as ->.
    { unfold unwrap, String_match. cbn [fenced before].
      change (run (Then ?a ?b) ?t) with (run a t ≫= run b).
      cbn [run]. unfold BACKTICKS. rewrite Ho.
      change (String x o +:+ ?t) with (String x (o +:+ t)).
      rewrite stripPrefix_head; [done|]. intros <-. by apply Hx96. }
    unfold unwrap.
    rewrite String_match_tripleQuoted by done. cbn [fmap option_fmap option_map].
    by rewrite (trim_solidEnds body Hbody).
Qed.

End NormalizeProps.

(** A reply in double quotes, with spaces inside. *)
Lemma normalizeTranslationOutput_quoted_witness :
  Normalize.normalizeTranslationOutput
    (String (ascii_of_nat 34) " Hola " +:+ String (ascii_of_nat 34) "")
  = "Hola".
Proof.
  by apply (normalizeTranslationOutput_quoted (ascii_of_nat 34) " Hola "); [left|..].
Defined.

(** A fenced reply with a language tag. *)
Lemma normalizeTranslationOutput_fenced_witness :
  Normalize.normalizeTranslationOutput
    ("```" +:+ "json" +:+ LF +:+ "Hola mundo" +:+ LF +:+ "```")
  = "Hola mundo".
Proof.
  apply (normalizeTranslationOutput_fenced "json" LF "Hola mundo" LF); try done.
  split; split; try done; by apply Nat.ltb_lt.
Defined.

(** A reply between three double quotes and three apostrophes. *)
Lemma normalizeTranslationOutput_tripleQuoted_witness :
  Normalize.normalizeTranslationOutput (QUOTES +:+ " " +:+ "Hola mundo" +:+ "" +:+ "'''")
  = "Hola mundo".
Proof.
  apply (normalizeTranslationOutput_tripleQuoted QUOTES "'''" " " "Hola mundo" "");
    try done; [by left|by right|].
  split; split; try done; by apply Nat.ltb_lt.
Defined.

(** A reply fenced on one line loses the word after the opening fence. *)
Lemma normalizeTranslationOutput_one_line :
  Normalize.normalizeTranslationOutput "```Hola mundo```" = "mundo"
  ∧ Normalize.normalizeTranslationOutput "```Hola```" = "".
Proof. split; reflexivity. Qed.

(** Four rounds take four pairs of quotes away, and leave a fifth. *)
Lemma normalizeTranslationOutput_five_layers :
  let q := Normalize.QUOTE in
  Normalize.normalizeTranslationOutput
    (q +:+ "'" +:+ q +:+ "'" +:+ q +:+ "Hola" +:+ q +:+ "'" +:+ q +:+ "'" +:+ q)
  = q +:+ "Hola" +:+ q.
Proof. reflexivity. Qed.

(** A reply with an apostrophe inside and spaces around. *)
Lemma normalizeTranslationOutput_plain_witness :
  Normalize.normalizeTranslationOutput "  It's fine  " = "It's fine".
Proof. by apply (normalizeTranslationOutput_plain "  It's fine  "). Defined.

(** ** Taking a failed batch up again *)

Section BatchResume.
Import App.
Context (provider : nat → Request → Reply) (Date_now : nat → string).

(** Whatever the provider replies, the loop leaves the catalog and the
    settings alone. *)
Lemma translateJobs_catalog (jobs : list TranslateAllJob) :
  ∀ (total d : nat) (r : Run) outcome r',
    translateJobs provider Date_now total d jobs r = (outcome, r') →
    same_settings (state r) (state r') ∧ same_catalog (state r) (state r').
Proof.
  induction jobs as [|job jobs IH]; intros total d r outcome r' Hrun.
  - cbn in Hrun. injection Hrun as <- <-. by split.
  - cbn [translateJobs] in Hrun.
    destruct (translateText _ _ _ _ _ _ _ _ _ r) as [[translated|] r1] eqn:Htr;
      apply translateText_frame in Htr as (Hset1 & Hcat1 & _).
    + destruct (handleSave_stay_catalog (keyId job) (targetLangCode job) translated r1)
        as (r2 & Hsave & Hset2 & Hcat2 & _).
      rewrite Hsave in Hrun. apply IH in Hrun as [Hset Hcat].
      assert (state (match jobs with
                     | [] => emit (OnProgress (S d) total) r2
                     | _ :: _ => emit (Sleep 300) (emit (OnProgress (S d) total) r2)
                     end) = state r2) as Hst by (by destruct jobs).
      rewrite Hst in Hset, Hcat. split.
      * eapply same_settings_trans; [|exact Hset]. by eapply same_settings_trans.
      * eapply same_catalog_trans; [|exact Hcat]. by eapply same_catalog_trans.
    + injection Hrun as <- <-. by split.
Qed.

(** The cell of a key and a language. *)
Local Abbreviation cell := (λ pair : TranslationKey * LanguageInfo, (id pair.1, code pair.2)).

Lemma missing_filter (keys : list TranslationKey) (languages : list LanguageInfo)
    (v v' : gmap string (gmap string string)) (sourceLangCode : string)
    (g : TranslationKey * LanguageInfo → bool) :
  (∀ k, textOf v' (id k) sourceLangCode = textOf v (id k) sourceLangCode) →
  (∀ k l, code l ≠ sourceLangCode →
     negb (truthy (trim (textOf v' (id k) (code l))))
     = negb (truthy (trim (textOf v (id k) (code l)))) && g (k, l)) →
  missingTranslations keys v' languages sourceLangCode
  = List.filter g (missingTranslations keys v languages sourceLangCode).
Proof.
  intros Hsource Hcell. unfold missingTranslations.
  induction keys as [|k keys IH]; [done|].
  cbn [List.filter]. rewrite Hsource.
  destruct (truthy (trim (textOf v (id k) sourceLangCode))); [|exact IH].
  cbn [mbind list_bind]. rewrite List.filter_app. f_equal; [|exact IH].
  clear IH. induction languages as [|l languages IH]; [done|].
  cbn [List.filter].
  destruct (String.eqb_spec (code l) sourceLangCode) as [Heq|Hne]; cbn [negb andb];
    [exact IH|].
  rewrite (Hcell k l Hne).
  destruct (truthy (trim (textOf v (id k) (code l)))); cbn [negb andb]; [exact IH|].
  cbn [mbind list_bind app List.filter]. destruct (g (k, l)).
  - cbn [mbind list_bind app]. by rewrite IH.
  - exact IH.
Qed.

Lemma NoDup_fmap_inj {A B} `{EqDecision B} (f : A → B) (l : list A) (x y : A) :
  NoDup (f <$> l) → x ∈ l → y ∈ l → f x = f y → x = y.
Proof.
  intros Hnodup [i Hi]%list_elem_of_lookup_1 [j Hj]%list_elem_of_lookup_1 Hf.
  assert (i = j) as ->; [|congruence].
  apply (NoDup_lookup _ i j (f x) Hnodup); rewrite list_lookup_fmap.
  - by rewrite Hi.
  - by rewrite Hj, Hf.
Qed.

Lemma NoDup_cells (keys : list TranslationKey) (languages : list LanguageInfo)
    (v : gmap string (gmap string string)) (sourceLangCode : string) :
  NoDup (id <$> keys) → NoDup (code <$> languages) →
  NoDup (cell <$> missingTranslations keys v languages sourceLangCode).
Proof.
  intros Hkeys Hlangs. apply NoDup_fmap_2_strong.
  - intros [k l] [k' l'] Hin Hin' [= Hk Hl].
    apply elem_of_missingTranslations in Hin as (Hkin & Hlin & _).
    apply elem_of_missingTranslations in Hin' as (Hkin' & Hlin' & _).
    f_equal.
    + by apply (NoDup_fmap_inj id keys).
    + by apply (NoDup_fmap_inj code languages).
  - apply NoDup_missingTranslations.
    + by apply NoDup_fmap_1 in Hkeys.
    + by apply NoDup_fmap_1 in Hlangs.
Qed.

Lemma filter_all_true {A} (g : A → bool) (l : list A) :
  (∀ x, x ∈ l → g x = true) → List.filter g l = l.
Proof.
  induction l as [|x l IH]; intros Hall; [done|].
  cbn [List.filter]. rewrite (Hall x) by left. f_equal. apply IH.
  intros y Hy. apply Hall. by right.
Qed.

Lemma filter_all_false {A} (g : A → bool) (l : list A) :
  (∀ x, x ∈ l → g x = false) → List.filter g l = [].
Proof.
  induction l as [|x l IH]; intros Hall; [done|].
  cbn [List.filter]. rewrite (Hall x) by left. apply IH.
  intros y Hy. apply Hall. by right.
Qed.

(** X28. A run that fails can be taken up again. When the keys have distinct
    ids and the active languages distinct codes, and the provider returned
    texts that are not blank before it threw, the job list of the state the
    failed run leaves is the failing job followed by the jobs after it: the
    next run starts where this one stopped. *)
Theorem handleTranslateAll_resumes (doneJobs : list TranslateAllJob)
    (replies : list (string * option (float * float * float * string)))
    (failing : TranslateAllJob) (rest : list TranslateAllJob) (r : Run) :
  let st := state r in
  truthy (openAiApiKey st) = true →
  NoDup (id <$> keys st) →
  NoDup (code <$> activeLanguages st) →
  collectTranslateAllJobs (keys st) (values st) (activeLanguages st) (sourceLangCode st)
  = doneJobs ++ failing :: rest →
  length replies = length doneJobs →
  (∀ i job reply, doneJobs !! i = Some job → replies !! i = Some reply →
     provider (calls r + i)%nat (requestOf st job) = Returned reply.1 reply.2) →
  provider (calls r + length doneJobs)%nat (requestOf st failing) = Threw →
  Forall (λ reply, trim reply.1 ≠ "") replies →
  ∃ r',
    handleTranslateAll provider Date_now r = (translationFailed, r')
    ∧ collectTranslateAllJobs (keys (state r')) (values (state r'))
        (activeLanguages (state r')) (sourceLangCode (state r'))
      = failing :: rest.
Proof.
  intros st Hkey Hids Hcodes Hjobs Hlen Hreplies Hthrew Hnonblank.
  assert (∃ r', handleTranslateAll provider Date_now r = (translationFailed, r')
                ∧ values (state r') = savedValues (values st) (zip doneJobs replies.*1)
                ∧ same_catalog st (state r'))
    as (r' & Hrun & Hval & Hcat).
  { unfold handleTranslateAll. fold st. rewrite Hkey, Hjobs. cbn [negb].
    destruct (translateJobs_abort provider Date_now doneJobs replies failing rest
                (length (doneJobs ++ failing :: rest)) 0
                (emit (OnProgress 0 (length (doneJobs ++ failing :: rest))) r))
      as (r' & Hrun & _ & Hval & _); try done.
    exists r'. split; [by destruct doneJobs|]. split; [done|].
    by apply translateJobs_catalog in Hrun as [_ Hcat]. }
  exists r'. split; [done|].
  destruct Hcat as (Hk & Hl & Ha & Hs). unfold activeLanguages.
  rewrite Hk, Hl, Ha, Hs, Hval. fold (activeLanguages st).
  set (v := values st) in *. set (src := sourceLangCode st) in *.
  set (langs := activeLanguages st) in *.
  set (v' := savedValues v (zip doneJobs replies.*1)).
  rewrite collect_missing in Hjobs.
  apply fmap_app_inv in Hjobs as (Pd & Pr & Hdone & Hrest & HP).
  assert (∀ job text, (job, text) ∈ zip doneJobs replies.*1 →
            ∃ p, p ∈ Pd ∧ job = jobFor v langs src p) as Hsaved.
  { intros job text Hjt%elem_of_zip_l. rewrite Hdone in Hjt.
    apply list_elem_of_fmap in Hjt as (p & -> & Hp). by exists p. }
  assert (∀ p, p ∈ Pd → code p.2 ≠ src) as Htargets.
  { intros [k l] Hp.
    assert ((k, l) ∈ missingTranslations (keys st) v langs src) as Hin
      by (rewrite HP; apply elem_of_app; by left).
    by apply elem_of_missingTranslations in Hin as (_ & _ & ? & _). }
  assert (∀ k, textOf v' (id k) src = textOf v (id k) src) as Hsource.
  { intros k. apply savedValues_untouched.
    intros job text (p & Hp & ->)%Hsaved [_ Heq]. by apply (Htargets p Hp). }
  rewrite collect_missing.
  rewrite (missing_filter (keys st) langs v v' src
             (λ p, bool_decide (cell p ∉ cell <$> Pd))); [|done|].
  - rewrite HP, List.filter_app, filter_all_false, filter_all_true.
    + rewrite Hrest. apply list_fmap_ext. intros i [k l] _.
      unfold jobFor. cbn [fst snd]. by rewrite Hsource.
    + intros p Hp. apply bool_decide_eq_true_2.
      pose proof (NoDup_cells (keys st) langs v src Hids Hcodes) as Hnodup.
      rewrite HP, fmap_app in Hnodup. apply NoDup_app in Hnodup as (_ & Hdisjoint & _).
      intros Hin. apply (Hdisjoint _ Hin). exact (list_elem_of_fmap_2 cell _ _ Hp).
    + intros p Hp. apply bool_decide_eq_false_2. intros Hnot. apply Hnot.
      exact (list_elem_of_fmap_2 cell _ _ Hp).
  - intros k l Hne. case_bool_decide as Hnew.
    + rewrite andb_true_r. f_equal. f_equal. f_equal.
      apply savedValues_untouched.
      intros job text (p & Hp & ->)%Hsaved [Hkid Hcode]. apply Hnew.
      apply list_elem_of_fmap. exists p. split; [|done].
      cbn in Hkid, Hcode. by rewrite Hkid, Hcode.
    + rewrite andb_false_r. apply negb_false_iff.
      apply savedValues_nonblank.
      * apply Forall_forall. intros [job text] Hjt. apply elem_of_zip_r in Hjt.
        apply list_elem_of_fmap in Hjt as (reply & -> & Hreply).
        rewrite Forall_forall in Hnonblank. apply truthy_true. by apply Hnonblank.
      * right.
        apply list_elem_of_fmap in Hnew as (p & Hcell & Hp).
        assert (jobFor v langs src p ∈ doneJobs) as Hjob
          by (rewrite Hdone; by apply list_elem_of_fmap_2).
        apply list_elem_of_lookup_1 in Hjob as [i Hi].
        destruct (lookup_lt_is_Some_2 replies.*1 i) as [text Htext].
        { rewrite length_fmap, Hlen. by eapply lookup_lt_Some. }
        exists (jobFor v langs src p), text. split.
        -- apply (list_elem_of_lookup_2 _ i). apply lookup_zip_with_Some. eauto.
        -- injection Hcell as -> ->. done.
Qed.

End BatchResume.

(** After the run whose second call fails, the German and the Spanish text
    are still to translate. *)
Lemma handleTranslateAll_resumes_witness :
  let result := App.handleTranslateAll secondCallFails (λ _, "") batchStart in
  let st' := App.state result.2 in
  App.targetLangCode
    <$> App.collectTranslateAllJobs (App.keys st') (App.values st')
          (App.activeLanguages st') (App.sourceLangCode st')
  = ["de"; "es"].
Proof.
  destruct (handleTranslateAll_resumes secondCallFails (λ _, "")
              [ {| App.keyId := "a"; App.keyName := "a"; App.sourceText := "Hello";
                   App.targetLangCode := "fr"; App.targetLangName := "French";
                   App.sourceLangName := "English" |} ]
              [ ("[French] Hello", None) ]
              {| App.keyId := "a"; App.keyName := "a"; App.sourceText := "Hello";
                 App.targetLangCode := "de"; App.targetLangName := "German";
                 App.sourceLangName := "English" |}
              [ {| App.keyId := "a"; App.keyName := "a"; App.sourceText := "Hello";
                   App.targetLangCode := "es"; App.targetLangName := "Spanish";
                   App.sourceLangName := "English" |} ]
              batchStart)
    as (r' & Hrun & Hjobs).
  - reflexivity.
  - repeat constructor; set_solver.
  - vm_compute. repeat constructor; set_solver.
  - vm_compute. reflexivity.
  - reflexivity.
  - intros [|i] job reply; simpl; [|done]. intros [= <-] [= <-]. reflexivity.
  - reflexivity.
  - repeat constructor; discriminate.
  - cbv zeta. rewrite Hrun. cbn [snd]. by rewrite Hjobs.
Defined.

(** ** After a load *)

Section InitAfterLoad.
Context (JSON_parse : string → option json).
Context (toLowerCase : string → string) (localeCompare : string → string → Z).
Local Abbreviation load := (readI18nData JSON_parse toLowerCase localeCompare).

Lemma includes_all (languages : list LanguageInfo) :
  List.filter (λ l, includes (code <$> languages) (code l)) languages = languages.
Proof.
  apply filter_all_true. intros l Hl. apply includes_spec.
  by apply list_elem_of_fmap_2.
Qed.

(** What a load returns: distinct keys and distinct codes, and with the
    status [ok] a source language that is one of the languages. *)
Lemma readI18nData_distinct (w : Workspace) (host : Host.InitPayload) :
  load w = Some host →
  NoDup (id <$> Host.keys host)
  ∧ NoDup (Host.code <$> Host.languages host)
  ∧ (Host.status host = ok →
     Host.sourceLangCode host ∈ Host.code <$> Host.languages host).
Proof.
  intros Hload.
  destruct (resolveI18nDir w) as [dir|] eqn:Hdir.
  - destruct (decide (dir = ∅)) as [->|Hne].
    + destruct (readI18nData_missing JSON_parse toLowerCase localeCompare w)
        as (host' & Hload' & Hl & Hk & _ & Hno & _); [intros d Hd; congruence|].
      rewrite Hload in Hload'. injection Hload' as <-. rewrite Hl, Hk.
      split_and!; [constructor..|done].
    + destruct (readable_dec dir) as [Hreadable|[file Hfile]].
      * destruct (readI18nData_ok JSON_parse toLowerCase localeCompare w dir Hdir Hne
                    Hreadable)
          as (host' & perLang & allKeys & Hload' & Hlangs & _ & _ & Hcodes & _ & Hkeys
              & Hsrc & _).
        rewrite Hload in Hload'. injection Hload' as <-.
        rewrite Hcodes, Hkeys, Hsrc. split_and!.
        -- rewrite Array_sort_perm. by apply (NoDup_loadLanguages _ _ _ _ _ Hlangs).
        -- rewrite Array_sort_perm. apply NoDup_jsonFiles.
        -- intros _. set (codes := Array_sort _ _).
           destruct (includes codes (sourceLanguage w)) eqn:Hincl;
             [by apply includes_spec|].
           destruct codes as [|c codes'] eqn:Hcodes'; [|left].
           exfalso. assert (jsonFiles dir = []) as Hfiles.
           { apply Permutation_nil_r.
             rewrite <- (Array_sort_perm (compareLanguageCodes toLowerCase localeCompare)).
             by fold codes; rewrite Hcodes'. }
           apply Hne. unfold jsonFiles in Hfiles. apply fmap_nil_inv in Hfiles.
           by apply map_to_list_empty_iff.
      * rewrite (readI18nData_throws JSON_parse toLowerCase localeCompare w dir file)
          in Hload by done. done.
  - destruct (readI18nData_missing JSON_parse toLowerCase localeCompare w)
      as (host' & Hload' & Hl & Hk & _ & Hno & _); [intros d Hd; congruence|].
    rewrite Hload in Hload'. injection Hload' as <-. rewrite Hl, Hk.
    split_and!; [constructor..|done].
Qed.

(** X29. The state of the web view after a load. It holds the keys, the
    table and the languages of the message that carries the payload, and
    every language is active, so that the settings view and the component
    estimate over the same languages; the key ids are distinct and so are
    the language codes, so that a failed batch can be taken up again; and
    when the load found files and names a source language, the web view
    takes that language, which is one of the languages. *)
Theorem handleInit_load (w : Workspace) (host : Host.InitPayload) (payload : InitPayload)
    (st : App.State) :
  load w = Some host → carried host payload →
  let st' := handleInit payload st in
  App.keys st' = keys payload
  ∧ App.values st' = values payload
  ∧ App.languages st' = languages payload
  ∧ App.activeLanguages st' = languages payload
  ∧ NoDup (id <$> App.keys st')
  ∧ NoDup (code <$> App.activeLanguages st')
  ∧ (status payload = ok → sourceLangCode payload ≠ "" →
     App.sourceLangCode st' = sourceLangCode payload
     ∧ App.sourceLangCode st' ∈ code <$> App.languages st').
Proof.
  intros Hload (Hcodes & Hkeys & Hsource & Hstatus & _) st'.
  destruct (readI18nData_distinct w host Hload) as (Hids & Hdistinct & Hin).
  assert (App.activeLanguages st' = languages payload) as Hactive.
  { unfold App.activeLanguages. subst st'. cbn [handleInit App.activeLangCodes App.languages].
    apply includes_all. }
  split_and!; try done.
  - subst st'. cbn [handleInit App.keys]. by rewrite Hkeys.
  - by rewrite Hactive, Hcodes.
  - intros Hok Hsrc.
    assert (App.sourceLangCode st' = sourceLangCode payload) as Hsame.
    { subst st'. cbn [handleInit App.sourceLangCode]. unfold or_else at 1.
      apply truthy_true in Hsrc. by rewrite Hsrc. }
    split; [done|]. rewrite Hsame. subst st'. cbn [handleInit App.languages].
    rewrite Hcodes, Hsource. apply Hin. by rewrite <- Hstatus.
Qed.
End InitAfterLoad.

(** The sample folder: after its load the web view has English for its
    source language. *)
Lemma handleInit_load_witness :
  ∃ host,
    readI18nData rejectAll toLowerCaseASCII ordinalCompare sampleWorkspace = Some host
    ∧ carried host (messageOf host)
    ∧ App.sourceLangCode (handleInit (messageOf host) batchState) = "en".
Proof.
  set (host :=
         {| Host.languages := [getLanguageInfo toLowerCaseASCII "en";
                                getLanguageInfo toLowerCaseASCII "fr"];
            Host.keys := [ {| id := "a"; key := "a"; tags := [] |};
                           {| id := "b.c"; key := "b.c"; tags := [] |} ];
            Host.values :=
              <["b.c" := <["fr" := Own ""]> {[ "en" := Own "x" ]}]>
                {[ "a" := <["fr" := Own ""]> {[ "en" := Own "Hello" ]} ]};
            Host.sourceLangCode := "en";
            Host.payloadApiKey := ""; Host.payloadModel := "gpt-5-nano-2025-08-07";
            Host.tokenReport := getDefaultTokenReport; Host.payloadLocale := "en";
            Host.payloadFolder := "i18n"; Host.status := ok; Host.error := None |}).
  assert (readI18nData rejectAll toLowerCaseASCII ordinalCompare sampleWorkspace
          = Some host) as Hload by (vm_compute; reflexivity).
  assert (carried host (messageOf host)) as Hcarried.
  { split_and!; [done..|]. intros key lang text. cbn [messageOf values].
    rewrite lookup_fmap.
    destruct (Host.values host !! key) as [row|]; [|done]. cbn. rewrite lookup_omap.
    by destruct (row !! lang) as [[]|]; intros [= ->]. }
  exists host. split; [exact Hload|]. split; [exact Hcarried|].
  refine (proj1 (proj2 (proj2 (proj2 (proj2 (proj2 (proj2
            (handleInit_load rejectAll toLowerCaseASCII ordinalCompare sampleWorkspace
               host (messageOf host) batchState Hload Hcarried)))))) eq_refl _)).
  discriminate.
Defined.

(** ** Paging *)

Section PagingProps.
Import Paging.
Context {A : Type}.




End PagingProps.


